(* ===== verification/_CoqProject ===== *)
-Q . S2P
Prelude.v
Errors.v
BitAddr.v
Sha256.v
Hex.v
Hash.v
Filter.v
Planner.v
Alloc.v
Typing.v
Abstract.v
Concurrent.v
Readers.v
Rate.v
Approx.v
Session.v
Linear.v
Client.v
Tests.v
Readme.v
Heap.v
InPlace.v
Programs.v
