(* ===== verification/Prelude.v ===== *)
(** * A verified model of the Bloom filter package [bloom]

    The package is one Go file, [bloom.go] (kept in this repository's
    source tree as the second part of [src/examples_test.go], lines
    73-247), with its error values in [errors.go] (the last part of
    [src/unnamed/part_000], lines 507-523).  A [Filter] is a bit array
    packed into 64-bit words together with the parameters that size it;
    [New] sizes and allocates it, [Add] sets the bits an element hashes to
    and [Has] tests them.  Positions come from SHA-256: the element is
    hashed [hashqty] times, each time with a different trailing byte, and
    the first sixteen hexadecimal digits of the digest are read back as a
    64-bit number that is reduced modulo the bit length.

    ** Files, in dependency order

    - [Prelude] (this file): machine integers as [Z] with their wrap
      written out ([u8], [u64], [to_int], [shl64]) and the ranges of
      their types ([is_uint], [is_int]), the bit-level lemmas
      on [Z.lor], [Z.land] and [Z.testbit] the components share, Go's
      [make] and [copy] on slices, the hint and rewrite databases and the
      tactics of the development.
    - [Errors]: [errors.go].  The type [Error], the two error values of
      [New], the dynamic values an [error] takes in this program, Go's
      run-time panics, and the outcome type [result] with its bind.
    - [BitAddr]: [bitlocation].  Division and remainder by the bucket
      width, the default width, the conversions to [int] and [byte];
      equivalence with shift-and-mask for 64-bit buckets; its inverse
      [bitposition]; the bucket count of [New].
    - [Sha256]: the digest interface ([Class Digest], what [hash] needs
      from [crypto/sha256], and [Class DigestLaws], what the theorems
      need from it) and an executable SHA-256 after FIPS 180-4 as its
      instance, with its constants computed from the primes.
    - [Hex]: [fmt.Sprintf("%x", ...)] and [strconv.ParseUint(s, 16, 64)]
      with its two failures, and the round trip between them.
    - [Hash]: [hash] and [bitpositions], the latter as the loop the code
      runs (a byte counter, a buffer updated in place, a break on error),
      proved equal to a map over the indices.
    - [Filter]: the struct [Filter], [Add], [Has], [MustAdd], [MustHave];
      the invariant [wf]; the reference definitions [bit] and
      [set_bits]; no false negatives, idempotence, monotonicity,
      commutation, absence of panics, and the panics and errors of
      filters that are not well formed.
    - [Planner]: [optimalBitLen], [optimalHashQty] over binary64 floats
      (Rocq's primitive floats), with [math.Log] and [math.Ceil] modelled
      after Go's portable implementations, and [New].
    - [Alloc]: the allocation of the store.  [make] as the runtime
      runs it ([makeslice], which panics on a length it does not
      address) and [New_on], [New] with that allocation.
    - [Typing]: the predicate [typed] (every field of a [Filter] in the
      range of its Go type) and the theorems that each function returns
      values of its result type, on every path and without the
      invariant.
    - [Abstract]: the contract.  A filter as a finite set of bit
      positions ([bits_of]) with the refinement theorems of [Add] and
      [Has], and the life of a filter as a step relation over calls and
      replies ([step], [steps]) with its executable form [run].
    - [Concurrent]: the loop of [Add] one memory access at a time
      ([access]), run by several goroutines under a schedule
      ([interleave]); what a schedule of atomic steps does to the
      positions ([trace], [remaining]), fair schedules ([fair]), and
      the sequential [Adds] the concurrent ones are compared with.
    - [Readers]: the loop of [Has] one read at a time ([look]), and
      schedules of goroutines that add and goroutines that query
      ([thread], [thread_step]).
    - [Rate]: the count of the false positives.  The lists of
      positions [bitpositions] can return ([tuples]), those on which
      the loop of [Has] answers [true] ([hits]), the same after the
      loop of [Add] has run ([hits_after]), and the recursion that
      counts them ([fp_count], by rows [fp_table]).
    - [Approx]: bounds of the count of [Rate] for filters too large
      for its table: fractions with 52 bits ([approx]) evaluated by
      rows of 63-bit machine integers ([rows]).
    - [Session]: a whole lifecycle.  The machine on sets of positions
      that specifies it ([abs_exec], [abs_run]), the simulation
      relation [sim], and [session], which composes [New_on] with the
      run of a list of calls.
    - [Linear]: the threads of [Readers] tagged with what they were
      started for ([tags]) and the property [answer_ok] that ties the
      answer of a query to the store.
    - [Client]: the use the package is made for, a filter in front of
      a costly lookup: the interface [Membership] with its laws, the
      client [fill] and [guarded] written against it, and its two
      implementations, the filter and the exact set of the keys.
    - [Tests]: the repository's tests ([bloom_test.go]), examples
      ([examples_test.go]), fuzz target ([fuzz.go]) and benchmarks
      ([bench_test.go]), each as a definition, with the theorem that the
      model passes it or prints what it documents.
    - [Readme]: [README.md] (lines 395-506 of [src/unnamed/part_000]):
      its program [main], the offsets, the picture and the table of its
      section on the algorithm, its sizing formulas and the report of
      its benchmarks, each compared with the code.
    - [Heap]: Go's slices as the runtime has them.  A slice header
      ([slice]: array, offset, length, capacity), a memory of arrays of
      bytes and of arrays of words ([heap]), [make] as a new array,
      indexing with its bounds check ([get], [set]), [copy]
      ([copy_into]), the programs on a memory as a state and panic monad
      ([mem_m]), and the relations that say which arrays a call may
      have changed ([extends], [writes], [heap_extends]).
    - [InPlace]: [bloom.go] on that memory.  The struct with its slice
      header ([Filter_mem]), [bitpositions_mem] with the buffer and the
      positions it allocates, [Add_mem] and [Has_mem] with their loops
      over [range pos] and the assignment to [bf.bitstore[index]] in
      place, [MustAdd_mem], [MustHave_mem], [New_mem], and the run of a
      list of calls whose elements are slices of one memory
      ([run_mem]).
    - [Programs]: the examples, the fuzz target and the loops of the
      benchmarks on the memory, with the conversion [[]byte("...")]
      ([bytes_of_string]) as an allocation.

    ** How the model corresponds to the code

    Integers are [Z]; every place where Go wraps, truncates or converts
    is written with [u8], [u64], [to_int] or [shl64].  A slice is a list;
    indexing out of range is a [Panicked] outcome, as is division by
    zero.  A Go function returning [(v, error)] returns the pair
    [(v, option error)] with [None] for [nil]; a function that can panic
    returns it inside [result].  A method with a pointer receiver that
    mutates the filter returns the new filter; a nil [*Filter] is [None].
    Loops over a slice are structural recursions over it; the one
    counting loop ([bitpositions]) runs on fuel 256, one more than the
    iterations its byte counter allows, and [bitpositions_fuel] shows
    that the fuel is never exhausted.  A schedule is a finite list of
    goroutine numbers, one for each step, and the theorems on
    schedules hold for every such list.  The runtime's limit on an
    allocation is a parameter of [makeslice] and of [New_on];
    [maxAlloc] is its value on the 64-bit platforms, 2^48 bytes.
    The counts of [Rate] are sums over all the lists of positions
    below the bit length; they are never evaluated as such, and the
    numbers come from the recursion [fp_count], whose table for the
    filter of 58 bits has 59 entries in each of its 43 rows.  For
    the filter of 959 bits the rows hold fractions of 52 bits in
    63-bit integers: a row has 960 entries, the largest product is
    959 times a fraction, below [2 ^ 63], and the 701 roundings move
    the bounds by less than [2 ^ -42].

    The files up to [Readme] take a slice for the list of its elements
    and a call that mutates for a function that returns the new value.
    [Heap], [InPlace] and [Programs] model the same code with its
    slices in memory: an array is an entry of a list of arrays, its
    number the index of the entry; [make] appends an array and nothing
    is ever freed; a slice header names an array and a window of it,
    so that two headers can show the same elements; an assignment
    [s[i] = x] changes the array in place, after the bounds check
    against the length of the header.  The arrays of bytes and the
    arrays of [uint64] are kept apart, as the types of Go keep them.
    A method with a pointer receiver takes the struct, whose fields
    are assigned in [New] only, and mutates the memory.  The theorems
    of [InPlace] tie the two levels: each function in memory computes
    what the function on lists computes on the elements its slices
    show.  [footprint] counts the bytes of all the arrays of a memory,
    eight for a word.

    Interfaces between components are type classes.  [hash] is written
    against [Digest] and the theorems of [Hash], [Filter] and [Abstract]
    are proved for every digest that satisfies [DigestLaws] (a write of
    any buffer succeeds and the sum has 32 bytes); [Sha256] discharges
    the laws for SHA-256.  The sizing functions are written against
    [Conversions], which gives the results Go leaves to the
    implementation, with the instances [wrapping] and [saturating].
    A client of the filter is written against [Membership], and the
    theorems of [Filter] discharge its laws.

    ** What is proved

    - [BitAddr]: [bitlocation] is Euclidean division by the bucket
      width, and shift-and-mask for width 64; it is inverse to
      [bitposition] in both directions; the index overflows [int] only
      for width 1.
    - [Hex]: parsing what was printed gives the number back; seventeen
      digits overflow.
    - [Hash]: [hash] is the big-endian value of the digest's first eight
      bytes modulo the bit length, and on every branch and for every
      digest it is [hash_outcome], so that the only error it returns is
      the error of [Write]; [bitpositions] ends and yields [hashqty]
      positions below [bitlen]; on a failure of the digest it returns
      the error with the positions computed before.
    - [Filter]: on a well-formed filter [Add] and [Has] do not panic and
      return no error; [Add] sets exactly the bits of its positions,
      preserves [wf], is idempotent and commutes; [Has] after [Add] is
      [true] and stays [true].  Off the invariant: the panics of a short
      store and of a zero bit length, the propagation of a digest
      error, and that no other error is ever returned.
    - [Planner]: the error cases of [New] and the exact set of inputs
      it accepts (a number of elements that is not zero with a positive
      probability or NaN); the shape of the filter it returns, which is
      well formed and empty; the inputs that pass its guards and leave
      the intended range (a probability of 1, NaN, probabilities too
      small for the hash count to fit a byte); an executable check of
      the arguments ([sane]) that is sound for every implementation of
      the conversions, and passes on a grid of probabilities and
      numbers of elements.
    - [Alloc]: [New_on] on every branch: the errors of the guards
      come before the allocation; past them it is [New] when the store
      fits in the limit and the panic of [make] when it does not; it
      fits whenever the executable check [roomy] passes, and always
      with 2^61 bytes addressable; a probability of 2 makes [New]
      panic where the conversions wrap.
    - [Typing]: [bitlocation] returns an [int] and a [byte]; [hash] a
      [uint64]; [bitpositions] a slice of [hashqty] values of type
      [uint64], also when it fails; [Add] and [MustAdd] preserve
      [typed] on every filter; [New] returns a typed filter or one of
      its two errors, for every probability.
    - [Abstract]: [Add] refines union and [Has] the subset test;
      along every sequence of calls the invariant holds, the set of
      bits is the initial set with the positions of the added
      elements, an added element is found, an answer [false] is
      definite; every list of calls runs to its end; a false positive
      exists; [Has] and [Add] respect the equivalence of filters that
      stand for the same set, and such filters have the same store when
      the padding of their last bucket is clear; the store of a filter
      is rebuilt from its set by the loop of [Add], and every set of
      positions below [bitlen] is the set of the store the loop makes
      of it.
    - [Concurrent]: a goroutine alone is the loop of [Add]; two
      unsynchronized [Add]s lose a bit whenever their elements have
      positions in one bucket, one of them a bit that is not yet set
      and that the other element does not set: on the schedule
      [lost_schedule], which preempts the first goroutine between its
      read and its write of that bucket, both calls return and [Has]
      answers [false] for an element added; the store that schedule
      leaves is known bit by bit ([bit_lost_store]); with the read
      and the write of a
      bucket in one step, every schedule of any number of [Add]s
      leaves every element found, every fair schedule ends with all
      goroutines returned and the store of the sequential [Adds], and
      every schedule can be continued to such an end.
    - [Readers]: a reader alone is the loop of [Has]; on every schedule
      of goroutines that add and query, atomic or not, no access
      panics and no element that was in the filter when they started
      is ever reported absent: the bits a race can lose are those the
      racing [Add]s set themselves.
    - [Rate]: on a well-formed filter with [b] bits set the loop of
      [Has] accepts [b ^ k] of the [bitlen ^ k] lists of [k]
      positions; [Add] never lowers that number, and one hash more
      never lowers the share of false positives; after [j] hashes the
      false positives are counted by [fp_count], which [fp_table]
      computes and which is at most the count of a filter in which
      every hash sets a new bit; the filter [New] makes for six
      elements at 1% has, after six elements, a rate between 1.1% and
      1.2%.
    - [Approx]: the fractions rounded down bound the share of the
      false positives from below and those rounded up from above; the
      rows of machine integers hold the fractions as long as no
      product overflows; the filter of the examples, 959 bits and 7
      hash functions, has after its 100 elements a rate between
      1.0105% and 1.0106%.
    - [Session]: the filter simulates the machine on sets in lock
      step, so that a run returns the replies of the machine and
      leaves a filter that stands for its state; a session ends with
      the error of [New], with the panic of the allocation, or with
      the replies of the machine started in the empty set; in a
      session an element added is found from then on, and a query that
      no add precedes is answered [false].
    - [Linear]: beside atomic [Add]s a query that answers [false] is
      of an element that was not found at the start and a query that
      answers [true] of one that is found at the end; beside [Add]s
      that are not atomic an element reported found can be reported
      absent afterwards.
    - [Client]: for every implementation of the interface, after the
      keys of a table are added a lookup behind the filter answers what
      the table answers, and a key that is not found costs no lookup;
      the filter satisfies the laws of the interface, so that in front
      of a table it answers what the exact set of the keys answers.
    - [Tests]: every test of [bloom_test.go] passes, the sizing ones for
      every instance of [Conversions]; the examples print what they
      document; the fuzz target returns 1 on every input; the
      benchmarks run for every number of iterations.
    - [Readme]: the program prints its first message and is a session
      of two calls; the formulas are those of the code and the worked
      example gives the bits stated;
      the cases of the report are those of the benchmarks and run for
      the iterations reported; the picture of the bit array is one
      place off the positions the code sets, and the table of hashes
      is not what [hash] computes.
    - [Heap]: a slice of a valid header shows [len] elements; reading
      and writing through a header are [read] and [store] on the
      elements it shows, with the panics of the bounds check; [copy]
      in memory is [copy] on lists; a new array is valid, shows what
      it was made of and leaves every slice as it was; the laws of the
      monad that the proofs of the programs use.
    - [InPlace]: for every digest and every memory, [bitpositions],
      [Add], [Has], [MustAdd], [MustHave], [New] and a run of calls in
      memory return what the definitions on lists return on the
      elements their slices show, panics and errors included, and
      leave a memory in which the struct shows the filter the
      definition on lists returns.  [bitpositions] writes to its own
      buffer only, whatever the capacity of the element's slice;
      [Add] changes the array of [bf.bitstore] and nothing else that
      was there before, so that the element of the caller and every
      filter in another array are as they were; [Has] changes
      nothing; the store [New] makes is a new array.  An element
      added is found by a [Has] on the same slice in the memory [Add]
      leaves.  The code of a call makes one array of
      [len(element) + 1] bytes and one of [hashqty] words.
    - [Programs]: the examples print in memory what they print on
      lists and the fuzz target returns 1, in every memory they are
      started in and leaving its arrays as they were, when the
      runtime makes the store [New] asks for: 120 bytes for the
      examples, 10291878064 bytes at each call of the fuzz target;
      [N] iterations of a benchmark's loop do what the loop on lists
      does and make arrays of [N] times twice the length of the text,
      one byte and eight bytes for each hash function, whatever the
      size of the filter.  These are the arrays the code of the
      package and of the benchmark makes, 93 bytes in 3 arrays for
      an iteration of the benchmarks; the README reports 1888 bytes
      in 30 allocations for an operation, the rest being made inside
      the libraries [hash] calls, which are not modelled.

    ** What is not modelled

    An allocation that the runtime accepts and the machine cannot
    serve, which ends the process; time, and with it the times of the
    benchmarks' report; the allocations inside [crypto/sha256], [fmt]
    and [strconv], which are most of the 30 allocations and 1888
    bytes the report counts for an operation: [footprint] counts the
    arrays the code of the package makes itself; the garbage
    collector: nothing is freed, which no program of the repository
    can observe; the prose and the shell commands of the README.  Of
    Go's slices, [append] and the slice expressions on slices are not
    modelled, which the package does not use (the one slice
    expression of the code is on a string, and is in [Hash]), and a
    nil slice is not told from an empty one, which the package does
    not test.  The allocations of [bitpositions] always succeed in
    the model; only that of [New] can exceed the limit of the
    runtime.  The false-positive rate is a count over all the lists
    of positions, which is the probability when the positions are
    uniform and independent; how the positions SHA-256 gives are
    distributed is not modelled, and no rate is measured.
    Concurrency is modelled as interleavings of whole reads and
    writes of buckets, with [bitpositions] done before a goroutine
    starts: the reorderings the Go memory model allows a racy
    program, and torn writes, are not; the threads run on the store
    as a list, not on the memory of [Heap].  [math.Log] follows the
    portable Go code; an assembly implementation may round
    differently in the last place.
    The theorems on the sizing functions are about the values they
    compute on given inputs and about what holds whatever they return;
    general bounds on the floating-point results are not proved.
    [int] has 64 bits and the runtime addresses [2 ^ 48] bytes, as on
    the 64-bit platforms; platforms with an [int] of 32 bits are not
    modelled. *)

From Stdlib Require Import ZArith Lia List Bool Strings.Byte.
From stdpp Require Import base tactics list numbers.
Set Warnings "-clear-no-such-hyp".

#[global] Open Scope Z_scope.

(** ** Machine integers

    Go's unsigned types wrap modulo a power of two; [int] is 64 bits wide
    on the platforms the package is built for. *)

Definition wrap (w z : Z) : Z := z mod 2 ^ w.

Definition u8 (z : Z) : Z := wrap 8 z.
Definition u32 (z : Z) : Z := wrap 32 z.
Definition u64 (z : Z) : Z := wrap 64 z.

(** Conversion of a [uint64] to [int]: the same 64 bits read as two's
    complement. *)
Definition to_int (z : Z) : Z :=
  let r := u64 z in if r <? 2 ^ 63 then r else r - 2 ^ 64.

(** The range of a signed integer of [w] bits. *)
Definition is_int (w z : Z) : Prop := - 2 ^ (w - 1) <= z < 2 ^ (w - 1).

#[global] Instance is_int_dec w z : Decision (is_int w z).
Proof. unfold is_int. apply _. Defined.

(** [x << n] on [uint64] with an unsigned count: bits shifted past the
    top are lost, and a count of 64 or more gives 0. *)
Definition shl64 (x n : Z) : Z := u64 (Z.shiftl x n).

(** Membership in an unsigned type, as a decidable proposition. *)
Definition is_uint (w z : Z) : Prop := 0 <= z < 2 ^ w.

#[global] Instance is_uint_dec w z : Decision (is_uint w z).
Proof. unfold is_uint. apply _. Defined.

(** ** Bytes

    A Go [byte] is one of the 256 constructors of [Byte.byte]; its
    numeric value is read with [byte_Z], and [Z_byte] is the conversion
    [byte(z)], which keeps the low eight bits. *)

Definition byte_Z (b : byte) : Z := Z.of_N (Byte.to_N b).

Definition Z_byte (z : Z) : byte :=
  default Byte.x00 (Byte.of_N (Z.to_N (u8 z))).

#[global] Instance byte_eq_dec : EqDecision byte := Byte.byte_eq_dec.

(** The number a sequence of bytes denotes, most significant byte first,
    and the [n] low bytes of a number in that order. *)
Definition be_value (bs : list byte) : Z :=
  fold_left (fun acc b => acc * 256 + byte_Z b) bs 0.

Fixpoint be_bytes (n : nat) (z : Z) : list byte :=
  match n with
  | O => []
  | S m => Z_byte (z / 256 ^ Z.of_nat m) :: be_bytes m z
  end.

(** ** Slices

    [make([]T, n)] is [n] zero values; [copy(dst, src)] overwrites the
    first [min(len(dst), len(src))] elements of [dst]. *)

Definition make {A} (zero : A) (n : Z) : list A := replicate (Z.to_nat n) zero.

Definition copy {A} (dst src : list A) : list A :=
  take (length dst) src ++ drop (length src) dst.

(** Indexing a slice with an [int]: [None] is Go's index-out-of-range. *)
Definition index {A} (l : list A) (i : Z) : option A :=
  if decide (0 <= i) then l !! Z.to_nat i else None.

(** Assignment to an element whose index is known to be in range. *)
Definition store {A} (l : list A) (i : Z) (x : A) : list A :=
  <[Z.to_nat i := x]> l.

(** ** Automation *)

Create HintDb bloom discriminated.
Create Rewrite HintDb bloom.
Create Rewrite HintDb bits.

(** [zdm] solves linear goals with division and remainder by constants or
    by positive variables. *)
Ltac zdm := intros; Z.div_mod_to_equations; lia.

(** [unwrap] exposes the modulus of the machine-integer operations. *)
Ltac unwrap :=
  unfold shl64, to_int, u8, u32, u64, wrap, is_uint in *.

(** ** The wrap *)

Lemma wrap_range w z : 0 <= w -> is_uint w (wrap w z).
Proof. intros. unfold is_uint, wrap. apply Z.mod_pos_bound. by apply Z.pow_pos_nonneg. Qed.

Lemma wrap_small w z : is_uint w z -> wrap w z = z.
Proof. intros. by apply Z.mod_small. Qed.

Lemma wrap_idem w z : 0 <= w -> wrap w (wrap w z) = wrap w z.
Proof. intros. apply wrap_small. by apply wrap_range. Qed.

Lemma u8_range z : is_uint 8 (u8 z).
Proof. by apply wrap_range. Qed.

Lemma u64_range z : is_uint 64 (u64 z).
Proof. by apply wrap_range. Qed.

Lemma u8_small z : is_uint 8 z -> u8 z = z.
Proof. apply wrap_small. Qed.

Lemma u64_small z : is_uint 64 z -> u64 z = z.
Proof. apply wrap_small. Qed.

Lemma is_uint_mono w w' z : w <= w' -> is_uint w z -> is_uint w' z.
Proof.
  unfold is_uint. intros Hw [H0 Hz]. split; [done|].
  eapply Z.lt_le_trans; [done|]. apply Z.pow_le_mono_r; lia.
Qed.

Lemma to_int_small z : 0 <= z < 2 ^ 63 -> to_int z = z.
Proof.
  intros. unfold to_int. rewrite u64_small by (unfold is_uint; lia).
  case_match; [done|]. apply Z.ltb_ge in H0. lia.
Qed.

Lemma to_int_large z : 2 ^ 63 <= z < 2 ^ 64 -> to_int z = z - 2 ^ 64.
Proof.
  intros. unfold to_int. rewrite u64_small by (unfold is_uint; lia).
  case_match; [|done]. apply Z.ltb_lt in H0. lia.
Qed.

Lemma to_int_range z : is_int 64 (to_int z).
Proof.
  unfold to_int, is_int. pose proof (u64_range z) as [H0 H1].
  change (2 ^ (64 - 1)) with (2 ^ 63). change (2 ^ 64) with (2 * 2 ^ 63) in *.
  destruct (Z.ltb_spec (u64 z) (2 ^ 63)); lia.
Qed.

#[export] Hint Resolve u8_range u64_range to_int_range : bloom.
#[export] Hint Rewrite u8_small u64_small using (by eauto with bloom) : bloom.

(** ** Bytes *)

Lemma byte_Z_range b : is_uint 8 (byte_Z b).
Proof.
  unfold is_uint, byte_Z. pose proof (Byte.to_N_bounded b).
  change (2 ^ 8) with 256. lia.
Qed.

Lemma Z_byte_Z b : Z_byte (byte_Z b) = b.
Proof.
  unfold Z_byte. rewrite u8_small by apply byte_Z_range.
  unfold byte_Z. by rewrite N2Z.id, Byte.of_to_N.
Qed.

Lemma byte_Z_byte z : byte_Z (Z_byte z) = u8 z.
Proof.
  unfold Z_byte, byte_Z. destruct (u8_range z) as [H0 H1].
  change (2 ^ 8) with 256 in H1.
  destruct (Byte.of_N (Z.to_N (u8 z))) as [b|] eqn:Hb; simpl.
  - apply Byte.to_of_N in Hb. rewrite Hb. by apply Z2N.id.
  - apply Byte.of_N_None_iff in Hb. lia.
Qed.

Lemma byte_Z_inj b1 b2 : byte_Z b1 = byte_Z b2 -> b1 = b2.
Proof. intros H. by rewrite <- (Z_byte_Z b1), <- (Z_byte_Z b2), H. Qed.

#[export] Hint Resolve byte_Z_range : bloom.
#[export] Hint Rewrite Z_byte_Z byte_Z_byte : bloom.

(** ** Big-endian numbers *)

Lemma be_value_from acc bs :
  fold_left (fun acc b => acc * 256 + byte_Z b) bs acc
  = acc * 256 ^ Z.of_nat (length bs) + be_value bs.
Proof.
  unfold be_value. revert acc. induction bs as [|b bs IH]; intros acc.
  - simpl. lia.
  - cbn [fold_left length]. rewrite IH, (IH (0 * 256 + byte_Z b)).
    rewrite Nat2Z.inj_succ, Z.pow_succ_r by lia. lia.
Qed.

Lemma be_value_nil : be_value [] = 0.
Proof. done. Qed.

Lemma be_value_cons b bs :
  be_value (b :: bs) = byte_Z b * 256 ^ Z.of_nat (length bs) + be_value bs.
Proof. unfold be_value at 1. cbn [fold_left]. by rewrite be_value_from. Qed.

Lemma be_value_snoc bs b : be_value (bs ++ [b]) = be_value bs * 256 + byte_Z b.
Proof. unfold be_value. by rewrite fold_left_app. Qed.

Lemma be_value_app bs1 bs2 :
  be_value (bs1 ++ bs2) = be_value bs1 * 256 ^ Z.of_nat (length bs2) + be_value bs2.
Proof. unfold be_value at 1. by rewrite fold_left_app, be_value_from. Qed.

Lemma be_value_range bs : 0 <= be_value bs < 256 ^ Z.of_nat (length bs).
Proof.
  induction bs as [|b bs IH] using rev_ind; [done|].
  rewrite be_value_snoc, length_app, Nat2Z.inj_add, Z.pow_add_r by lia.
  destruct (byte_Z_range b) as [? Hb]. change (2 ^ 8) with 256 in Hb.
  simpl length. change (256 ^ Z.of_nat 1) with 256. lia.
Qed.

Lemma be_value_uint bs : is_uint (8 * Z.of_nat (length bs)) (be_value bs).
Proof.
  unfold is_uint. rewrite Z.pow_mul_r by lia. apply be_value_range.
Qed.

Lemma length_be_bytes n z : length (be_bytes n z) = n.
Proof. induction n; simpl; auto. Qed.

Lemma be_value_be_bytes n z : be_value (be_bytes n z) = z mod 256 ^ Z.of_nat n.
Proof.
  induction n as [|n IH]; [by rewrite Z.mod_1_r|].
  cbn [be_bytes]. rewrite be_value_cons, IH, length_be_bytes, byte_Z_byte.
  unfold u8, wrap. change (2 ^ 8) with 256.
  rewrite Nat2Z.inj_succ, Z.pow_succ_r by lia.
  rewrite (Z.mul_comm 256), Z.rem_mul_r by lia. lia.
Qed.

#[export] Hint Rewrite length_be_bytes be_value_be_bytes : bloom.

(** ** Single-bit masks *)

Lemma shl64_one k : 0 <= k < 64 -> shl64 1 k = 2 ^ k.
Proof.
  intros. unfold shl64. rewrite Z.shiftl_1_l. apply u64_small.
  split; [by apply Z.pow_nonneg|]. apply Z.pow_lt_mono_r; lia.
Qed.

Lemma shl64_one_high k : 64 <= k -> shl64 1 k = 0.
Proof.
  intros. unfold shl64, u64, wrap. rewrite Z.shiftl_1_l.
  replace k with (64 + (k - 64)) by lia. rewrite Z.pow_add_r by lia.
  by rewrite Z.mul_comm, Z.mod_mul.
Qed.

Lemma shl64_range x n : is_uint 64 (shl64 x n).
Proof. apply u64_range. Qed.

Lemma testbit_lor_pow2 w k j :
  0 <= k -> Z.testbit (Z.lor w (2 ^ k)) j = Z.testbit w j || (k =? j).
Proof. intros. by rewrite Z.lor_spec, Z.pow2_bits_eqb. Qed.

Lemma testbit_land_pow2 w k j :
  0 <= k -> Z.testbit (Z.land w (2 ^ k)) j = Z.testbit w j && (k =? j).
Proof. intros. by rewrite Z.land_spec, Z.pow2_bits_eqb. Qed.

(** The test [(w & mask) == 0] of the code reads one bit. *)
Lemma land_pow2_eqb w k :
  0 <= k -> (Z.land w (2 ^ k) =? 0) = negb (Z.testbit w k).
Proof.
  intros Hk. destruct (Z.testbit w k) eqn:Hb; simpl.
  - apply Z.eqb_neq. intros H0.
    apply (f_equal (fun z => Z.testbit z k)) in H0.
    rewrite testbit_land_pow2, Hb, Z.eqb_refl, Z.bits_0 in H0 by done. done.
  - apply Z.eqb_eq, Z.bits_inj'. intros j _.
    rewrite testbit_land_pow2, Z.bits_0 by done.
    destruct (Z.eqb_spec k j) as [->|]; [by rewrite Hb|apply andb_false_r].
Qed.

Lemma testbit_uint_high w z j : 0 <= w -> is_uint w z -> w <= j -> Z.testbit z j = false.
Proof.
  intros Hw Hz Hj. rewrite <- (wrap_small w z Hz). unfold wrap.
  apply Z.mod_pow2_bits_high. lia.
Qed.

Lemma is_uint_bits w z :
  0 <= w -> 0 <= z -> (forall j, w <= j -> Z.testbit z j = false) -> is_uint w z.
Proof.
  intros Hw Hz Hhigh. split; [done|].
  destruct (decide (z = 0)) as [->|Hnz]; [by apply Z.pow_pos_nonneg|].
  apply Z.log2_lt_pow2; [lia|].
  destruct (decide (Z.log2 z < w)) as [|Hge]; [done|].
  pose proof (Z.bit_log2 z ltac:(lia)) as Hb.
  rewrite Hhigh in Hb by lia. done.
Qed.

(** The disjunction of two [w]-bit values is a [w]-bit value. *)
Lemma lor_uint w x y : 0 <= w -> is_uint w x -> is_uint w y -> is_uint w (Z.lor x y).
Proof.
  intros Hw Hx Hy. apply is_uint_bits; [done| |].
  - apply Z.lor_nonneg. split; [apply Hx|apply Hy].
  - intros j Hj. by rewrite Z.lor_spec, !(testbit_uint_high w _ j).
Qed.

Lemma lor_pow2_range w k : is_uint 64 w -> 0 <= k < 64 -> is_uint 64 (Z.lor w (2 ^ k)).
Proof.
  intros Hw Hk. apply is_uint_bits; [lia| |].
  - apply Z.lor_nonneg. split; [apply Hw|by apply Z.pow_nonneg].
  - intros j Hj. rewrite testbit_lor_pow2 by lia.
    rewrite (testbit_uint_high 64 w j) by (done || lia).
    simpl. apply Z.eqb_neq. lia.
Qed.

Lemma lor_pow2_idem w k : Z.lor (Z.lor w (2 ^ k)) (2 ^ k) = Z.lor w (2 ^ k).
Proof. by rewrite <- Z.lor_assoc, Z.lor_diag. Qed.

Lemma lor_pow2_comm w j k :
  Z.lor (Z.lor w (2 ^ j)) (2 ^ k) = Z.lor (Z.lor w (2 ^ k)) (2 ^ j).
Proof. by rewrite <- !Z.lor_assoc, (Z.lor_comm (2 ^ j)). Qed.

#[export] Hint Resolve shl64_range lor_pow2_range : bloom.
#[export] Hint Rewrite Z.lor_spec Z.land_spec Z.bits_0 : bits.
#[export] Hint Rewrite testbit_lor_pow2 testbit_land_pow2 Z.pow2_bits_eqb using lia : bits.

(** ** Slices *)

Lemma length_make {A} (zero : A) n : length (make zero n) = Z.to_nat n.
Proof. apply length_replicate. Qed.

Lemma copy_make_app {A} (zero : A) (src : list A) (k : nat) :
  copy (make zero (Z.of_nat (length src + k))) src = src ++ replicate k zero.
Proof.
  unfold copy, make. rewrite Nat2Z.id, length_replicate.
  rewrite take_ge by lia. f_equal.
  by rewrite drop_replicate, Nat.add_comm, Nat.add_sub.
Qed.

Lemma length_copy {A} (dst src : list A) : length (copy dst src) = length dst.
Proof. unfold copy. rewrite length_app, length_take, length_drop. lia. Qed.

Lemma index_Some {A} (l : list A) i x :
  index l i = Some x <-> 0 <= i /\ l !! Z.to_nat i = Some x.
Proof. unfold index. case_decide; [tauto|]. split; [done|intros []; lia]. Qed.

Lemma index_in_range {A} (l : list A) i :
  0 <= i < Z.of_nat (length l) -> is_Some (index l i).
Proof.
  intros. unfold index. rewrite decide_True by lia.
  apply lookup_lt_is_Some. lia.
Qed.

Lemma index_None {A} (l : list A) i :
  index l i = None <-> i < 0 \/ Z.of_nat (length l) <= i.
Proof.
  unfold index. case_decide.
  - rewrite lookup_ge_None. lia.
  - split; [lia|done].
Qed.

Lemma length_store {A} (l : list A) i x : length (store l i x) = length l.
Proof. apply length_insert. Qed.

Lemma index_store_eq {A} (l : list A) i x :
  0 <= i < Z.of_nat (length l) -> index (store l i x) i = Some x.
Proof.
  intros. unfold index, store. rewrite decide_True by lia.
  apply list_lookup_insert_eq. lia.
Qed.

Lemma index_store_ne {A} (l : list A) i j x :
  0 <= i -> i <> j -> index (store l i x) j = index l j.
Proof.
  intros. unfold index, store. case_decide; [|done].
  apply list_lookup_insert_ne. lia.
Qed.

Lemma store_store_eq {A} (l : list A) i x y : store (store l i x) i y = store l i y.
Proof. apply list_insert_insert_eq. Qed.

Lemma store_commute {A} (l : list A) i j x y :
  0 <= i -> 0 <= j -> i <> j -> store (store l i x) j y = store (store l j y) i x.
Proof. intros. unfold store. apply list_insert_insert_ne. lia. Qed.

Lemma store_id {A} (l : list A) i x : index l i = Some x -> store l i x = l.
Proof. intros [? ?]%index_Some. by apply list_insert_id. Qed.

#[export] Hint Rewrite @length_make @length_copy @length_store : bloom.

(** ** Boolean conjunction over a list *)

Lemma forallb_eq_true {A} (f : A -> bool) (l : list A) :
  forallb f l = true <-> Forall (fun x => f x = true) l.
Proof.
  induction l as [|x l IH]; cbn [forallb].
  - split; [constructor|done].
  - rewrite andb_true_iff, IH. split.
    + intros [? ?]. by constructor.
    + by intros [? ?]%Forall_cons_1.
Qed.

Lemma forallb_elem_of {A} (f : A -> bool) (l : list A) :
  forallb f l = true <-> forall x, x ∈ l -> f x = true.
Proof. rewrite forallb_eq_true. apply list.Forall_forall. Qed.
