(* ===== verification/Errors.v ===== *)
(** * Errors and outcomes

    [errors.go]: the type [Error] and the two values [New] returns, then
    what the rest of the model needs to speak about failure: the dynamic
    values an [error] takes in this package, the run-time panics its code
    can raise, and the outcome type [result] with its monad structure. *)

From Stdlib Require Import String.
From stdpp Require Import base tactics option strings.
From S2P Require Import Prelude.
Set Warnings "-clear-no-such-hyp".

(** ** [errors.go] *)

(** [type Error string] *)
Record Error : Type := MkError { Error_string : string }.

(** [ErrZeroElements] is returned from [New] when the number of expected
    elements is zero. *)
Definition ErrZeroElements : Error :=
  MkError "number of elements must be positive".

(** [ErrProbability] is returned from [New] when the probability of false
    positives is not a positive number. *)
Definition ErrProbability : Error :=
  MkError "probability must be positive".

(** [func (e Error) Error() string] *)
Definition Error_Error (e : Error) : string := Error_string e.

(** ** The values of the interface [error]

    Besides its own [Error], the package passes on what [hash.Hash.Write]
    and [strconv.ParseUint] return.  [nil] is [None : option error]. *)

(** The two sentinel errors of [strconv]. *)
Inductive strconv_err : Type := ErrSyntax | ErrRange.

Inductive error : Type :=
| error_Error (e : Error)
| error_NumError (func num : string) (err : strconv_err)
| error_Write (msg : string).

#[global] Instance Error_eq_dec : EqDecision Error.
Proof. solve_decision. Defined.
#[global] Instance strconv_err_eq_dec : EqDecision strconv_err.
Proof. solve_decision. Defined.
#[global] Instance error_eq_dec : EqDecision error.
Proof. solve_decision. Defined.

(** ** Panics *)

Inductive panic : Type :=
| panic_divide                 (* integer divide by zero *)
| panic_index (i len : Z)      (* index out of range [i] with length len *)
| panic_slice (hi len : Z)     (* slice bounds out of range [:hi] with length len *)
| panic_error (e : error)      (* panic(err) *)
| panic_nil                    (* nil pointer dereference *)
| panic_makeslice              (* makeslice: len out of range *)
| panic_fuel.                  (* the model's loop bound; shown unreachable *)

#[global] Instance panic_eq_dec : EqDecision panic.
Proof. solve_decision. Defined.

(** ** Outcomes *)

Inductive result (A : Type) : Type :=
| Done (a : A)
| Panicked (p : panic).
Arguments Done {A} a.
Arguments Panicked {A} p.

#[global] Instance result_ret : MRet result := fun A a => Done a.
#[global] Instance result_bind : MBind result := fun A B f m =>
  match m with Done a => f a | Panicked p => Panicked p end.
#[global] Instance result_fmap : FMap result := fun A B f m =>
  match m with Done a => Done (f a) | Panicked p => Panicked p end.

#[global] Instance result_eq_dec `{EqDecision A} : EqDecision (result A).
Proof. solve_decision. Defined.

(** An outcome that is a value. *)
Definition returns {A} (m : result A) : Prop := exists a, m = Done a.

#[global] Instance returns_dec {A} (m : result A) : Decision (returns m).
Proof.
  destruct m as [a|p]; [left; by exists a|right; by intros [? ?]].
Defined.

(** Go's bounds-checked read [l[i]]. *)
Definition read {A} (l : list A) (i : Z) : result A :=
  match index l i with
  | Some x => Done x
  | None => Panicked (panic_index i (Z.of_nat (length l)))
  end.

(** Go's slice expression [l[:hi]]: a bound past the length panics. *)
Definition slice_to {A} (l : list A) (hi : Z) : result (list A) :=
  if decide (0 <= hi <= Z.of_nat (length l)) then Done (take (Z.to_nat hi) l)
  else Panicked (panic_slice hi (Z.of_nat (length l))).

(** ** Laws of the outcome monad *)

Lemma bind_Done {A B} (f : A -> result B) a : Done a ≫= f = f a.
Proof. done. Qed.

Lemma bind_Panicked {A B} (f : A -> result B) p : Panicked p ≫= f = Panicked p.
Proof. done. Qed.

Lemma bind_ret {A} (m : result A) : m ≫= mret = m.
Proof. by destruct m. Qed.

Lemma bind_assoc {A B C} (m : result A) (f : A -> result B) (g : B -> result C) :
  (m ≫= f) ≫= g = m ≫= (fun a => f a ≫= g).
Proof. by destruct m. Qed.

Lemma bind_Done_inv {A B} (m : result A) (f : A -> result B) b :
  m ≫= f = Done b <-> exists a, m = Done a /\ f a = Done b.
Proof. destruct m; naive_solver. Qed.

Lemma bind_returns {A B} (m : result A) (f : A -> result B) :
  returns (m ≫= f) <-> exists a, m = Done a /\ returns (f a).
Proof. unfold returns. destruct m; naive_solver. Qed.

Lemma returns_Done {A} (a : A) : returns (Done a).
Proof. by exists a. Qed.

Lemma not_returns_Panicked {A} p : ~ returns (@Panicked A p).
Proof. by intros [? ?]. Qed.

Lemma read_Done {A} (l : list A) i x :
  read l i = Done x <-> index l i = Some x.
Proof. unfold read. destruct (index l i); naive_solver. Qed.

Lemma read_in_range {A} (l : list A) i :
  0 <= i < Z.of_nat (length l) -> returns (read l i).
Proof.
  intros [x Hx]%index_in_range. exists x. by apply read_Done.
Qed.

Lemma read_out_of_range {A} (l : list A) i :
  i < 0 \/ Z.of_nat (length l) <= i ->
  read l i = Panicked (panic_index i (Z.of_nat (length l))).
Proof. intros H%index_None. unfold read. by rewrite H. Qed.

Lemma slice_to_Done {A} (l : list A) hi :
  0 <= hi <= Z.of_nat (length l) -> slice_to l hi = Done (take (Z.to_nat hi) l).
Proof. intros. unfold slice_to. by rewrite decide_True. Qed.

Lemma slice_to_short {A} (l : list A) hi :
  Z.of_nat (length l) < hi -> slice_to l hi = Panicked (panic_slice hi (Z.of_nat (length l))).
Proof. intros. unfold slice_to. rewrite decide_False; [done|lia]. Qed.

#[export] Hint Resolve returns_Done : bloom.
#[export] Hint Rewrite @bind_Done @bind_Panicked : bloom.

(** ** The error values *)

Lemma Err_values_distinct : ErrZeroElements <> ErrProbability.
Proof. done. Qed.

Lemma Error_Error_inj e1 e2 : Error_Error e1 = Error_Error e2 -> e1 = e2.
Proof. destruct e1, e2. simpl. by intros ->. Qed.
