(* ===== verification/BitAddr.v ===== *)
(** * Bit addressing

    [bitlocation] of [bloom.go]: a bit position is split into the index of
    its bucket in the bit store and its offset inside the bucket.  The
    function takes the bucket width as a byte, with 0 standing for 8; the
    filter always passes 64.  [bitposition] puts an index and an offset
    together again, and the two are inverse of each other. *)

From stdpp Require Import base tactics numbers.
From S2P Require Import Prelude.
Set Warnings "-clear-no-such-hyp".

(** The width [bitlocation] divides by: [if bitsize == 0 { bitsize = 8 }]. *)
Definition bucket_width (bitsize : Z) : Z :=
  if bitsize =? 0 then 8 else bitsize.

(** [func bitlocation(p uint64, bitsize byte) (int, byte)]

    The division and the product are on [uint64]; the results are
    converted with [int(index)] and [byte(offset)]. *)
Definition bitlocation (p bitsize : Z) : Z * Z :=
  let bitsize := bucket_width bitsize in
  let index := p / bitsize in
  let offset := u64 (p - u64 (index * bitsize)) in
  (to_int index, u8 offset).

(** The reference the 64-bit case is compared with: shift and mask. *)
Definition bitlocation_shift (p : Z) : Z * Z := (Z.shiftr p 6, Z.land p 63).

(** The position of the bit at [offset] of bucket [index]: what
    [bitlocation] inverts. *)
Definition bitposition (index offset bitsize : Z) : Z :=
  index * bucket_width bitsize + offset.

(** The number of buckets of width 64 that hold [bitlen] bits. *)
Definition buckets_for (bitlen : Z) : Z :=
  let buckets := bitlen / 64 in
  if bitlen mod 64 =? 0 then buckets else u64 (buckets + 1).

(** ** The width *)

Section width.
Context (bitsize : Z) (Hsize : is_uint 8 bitsize).

Lemma bucket_width_pos : 0 < bucket_width bitsize < 256.
Proof.
  unfold bucket_width. destruct Hsize. case_match; [lia|].
  apply Z.eqb_neq in H1. change (2 ^ 8) with 256 in *. lia.
Qed.

Lemma bucket_width_nonzero : bitsize <> 0 -> bucket_width bitsize = bitsize.
Proof. intros. unfold bucket_width. by rewrite (proj2 (Z.eqb_neq _ _)). Qed.

End width.

Lemma bucket_width_zero : bucket_width 0 = 8.
Proof. done. Qed.

(** ** What [bitlocation] computes *)

Section bitlocation.
Context (p bitsize : Z) (Hp : is_uint 64 p) (Hsize : is_uint 8 bitsize).

Let w := bucket_width bitsize.

(** The intermediate [uint64] values do not wrap: the product
    [index * bitsize] is at most [p]. *)
Lemma bitlocation_no_wrap :
  u64 (p / w * w) = p / w * w /\ u64 (p - p / w * w) = p mod w.
Proof.
  pose proof (bucket_width_pos bitsize Hsize) as Hw. fold w in Hw.
  destruct Hp as [Hp0 Hp1].
  pose proof (Z.mul_div_le p w ltac:(lia)).
  pose proof (Z.div_pos p w Hp0 ltac:(lia)).
  assert (0 <= p / w * w <= p) by nia.
  rewrite !u64_small by (unfold is_uint; lia).
  split; [done|]. rewrite Z.mod_eq by lia. lia.
Qed.

Lemma bitlocation_unfold : bitlocation p bitsize = (to_int (p / w), p mod w).
Proof.
  pose proof (bucket_width_pos bitsize Hsize) as Hw. fold w in Hw.
  destruct bitlocation_no_wrap as [H1 H2].
  unfold bitlocation. fold w. rewrite H1, H2. f_equal.
  apply u8_small. unfold is_uint. change (2 ^ 8) with 256.
  pose proof (Z.mod_pos_bound p w). lia.
Qed.

(** The offset is the remainder of [p] by the bucket width (8 when
    [bitsize] is 0), and is a valid bit number of the bucket. *)
Theorem bitlocation_offset :
  (bitlocation p bitsize).2 = p mod bucket_width bitsize /\
  0 <= (bitlocation p bitsize).2 < bucket_width bitsize.
Proof.
  rewrite bitlocation_unfold. simpl. split; [done|].
  apply Z.mod_pos_bound. apply (bucket_width_pos bitsize Hsize).
Qed.

(** For every bucket width but 1 the quotient fits [int]. *)
Lemma bitlocation_div_mod :
  bitsize <> 1 -> bitlocation p bitsize = (p / w, p mod w).
Proof.
  intros Hne. pose proof (bucket_width_pos bitsize Hsize) as Hw.
  assert (2 <= w) as Hw2.
  { unfold w, bucket_width in *. case_match; lia. }
  fold w in Hw. rewrite bitlocation_unfold. f_equal. destruct Hp as [Hp0 Hp1].
  apply to_int_small. split; [apply Z.div_pos; lia|].
  apply Z.div_lt_upper_bound; [lia|]. change (2 ^ 64) with (2 * 2 ^ 63) in Hp1. nia.
Qed.

(** For every bucket width but 1 the index is the quotient of [p] by
    the width, it is not negative, and index and offset recompose [p]. *)
Theorem bitlocation_index :
  bitsize <> 1 ->
  (bitlocation p bitsize).1 = p / bucket_width bitsize /\
  0 <= (bitlocation p bitsize).1 /\
  (bitlocation p bitsize).1 * bucket_width bitsize + (bitlocation p bitsize).2 = p.
Proof.
  intros Hne. pose proof (bucket_width_pos bitsize Hsize) as Hw.
  destruct Hp as [Hp0 Hp1]. fold w in Hw |- *.
  rewrite bitlocation_div_mod by done. cbn [fst snd].
  split_and!; [done|apply Z.div_pos; lia|]. rewrite Z.mod_eq by lia. lia.
Qed.

End bitlocation.

Lemma bitlocation_offset_witness :
  (bitlocation 41167512252 2).2 = 41167512252 mod bucket_width 2 /\
  0 <= (bitlocation 41167512252 2).2 < bucket_width 2.
Proof. apply (bitlocation_offset 41167512252 2); unfold is_uint; lia. Defined.

Lemma bitlocation_index_witness :
  (bitlocation 41167512252 2).1 = 41167512252 / bucket_width 2 /\
  0 <= (bitlocation 41167512252 2).1 /\
  (bitlocation 41167512252 2).1 * bucket_width 2 + (bitlocation 41167512252 2).2
  = 41167512252.
Proof. apply (bitlocation_index 41167512252 2); unfold is_uint; lia. Defined.

(** C24. Round trip: for every bucket width but 1, [bitlocation] and
    [bitposition] are inverse of each other.  The location of a position
    recomposes to the position, and the position made of an index and an
    offset below the width is located at that index and that offset. *)
Theorem bitlocation_roundtrip bitsize :
  is_uint 8 bitsize -> bitsize <> 1 ->
  (forall p : Z, is_uint 64 p ->
     bitposition (bitlocation p bitsize).1 (bitlocation p bitsize).2 bitsize = p) /\
  (forall index offset : Z,
     0 <= index -> 0 <= offset < bucket_width bitsize ->
     is_uint 64 (bitposition index offset bitsize) ->
     bitlocation (bitposition index offset bitsize) bitsize = (index, offset)).
Proof.
  intros Hsize Hne. pose proof (bucket_width_pos bitsize Hsize) as Hw.
  split.
  - intros p Hp. rewrite bitlocation_div_mod by done. unfold bitposition.
    cbn [fst snd]. rewrite Z.mod_eq by lia. lia.
  - intros index offset Hi Ho Hp. rewrite bitlocation_div_mod by done.
    unfold bitposition. f_equal.
    + rewrite Z.div_add_l, Z.div_small by lia. lia.
    + rewrite Z.add_comm, Z.mod_add, Z.mod_small by lia. done.
Qed.

Lemma bitlocation_roundtrip_witness :
  (forall p : Z, is_uint 64 p ->
     bitposition (bitlocation p 64).1 (bitlocation p 64).2 64 = p) /\
  (forall index offset : Z,
     0 <= index -> 0 <= offset < bucket_width 64 ->
     is_uint 64 (bitposition index offset 64) ->
     bitlocation (bitposition index offset 64) 64 = (index, offset)).
Proof. apply (bitlocation_roundtrip 64); [unfold is_uint; lia|lia]. Defined.

(** With buckets of one bit the index of a position from [2^63] on
    does not fit [int]: the conversion makes it negative. *)
Theorem bitlocation_width1_negative p :
  2 ^ 63 <= p < 2 ^ 64 -> bitlocation p 1 = (p - 2 ^ 64, 0).
Proof.
  intros Hp. rewrite bitlocation_unfold by (unfold is_uint; lia).
  change (bucket_width 1) with 1. rewrite Z.div_1_r, Z.mod_1_r.
  by rewrite to_int_large.
Qed.

Lemma bitlocation_width1_negative_witness :
  bitlocation (2 ^ 63) 1 = (- 2 ^ 63, 0).
Proof. apply (bitlocation_width1_negative (2 ^ 63)). lia. Defined.

(** The width 0 stands for 8. *)
Lemma bitlocation_default p : bitlocation p 0 = bitlocation p 8.
Proof. done. Qed.

(** ** Buckets of 64 bits *)

Section width64.
Context (p : Z) (Hp : is_uint 64 p).

Lemma bitlocation_64 : bitlocation p 64 = (p / 64, p mod 64).
Proof.
  rewrite bitlocation_unfold by (done || unfold is_uint; lia).
  change (bucket_width 64) with 64. f_equal. apply to_int_small.
  destruct Hp. change (2 ^ 64) with (64 * 2 ^ 58) in *.
  split; [zdm|]. apply Z.div_lt_upper_bound; lia.
Qed.

(** For 64-bit buckets [bitlocation] is the shift by 6 and the mask
    with 63. *)
Theorem bitlocation_64_shift : bitlocation p 64 = bitlocation_shift p.
Proof.
  rewrite bitlocation_64. unfold bitlocation_shift. f_equal.
  - by rewrite Z.shiftr_div_pow2.
  - change 63 with (Z.ones 6). by rewrite Z.land_ones.
Qed.

Lemma bitlocation_64_offset : 0 <= (bitlocation p 64).2 < 64.
Proof. rewrite bitlocation_64. simpl. by apply Z.mod_pos_bound. Qed.

Lemma bitlocation_64_index_bound bitlen :
  is_uint 64 bitlen -> p < bitlen ->
  0 <= (bitlocation p 64).1 < buckets_for bitlen.
Proof.
  intros [Hb0 Hb1] Hlt. rewrite bitlocation_64. simpl. destruct Hp as [Hp0 Hp1].
  unfold buckets_for. case_match eqn:Hm.
  - apply Z.eqb_eq in Hm. zdm.
  - apply Z.eqb_neq in Hm. change (2 ^ 64) with (64 * 2 ^ 58) in *.
    rewrite u64_small by (unfold is_uint; zdm). zdm.
Qed.

End width64.

Lemma bitlocation_64_shift_witness : bitlocation 64 64 = bitlocation_shift 64.
Proof. apply (bitlocation_64_shift 64). unfold is_uint. lia. Defined.

(** On 64-bit buckets distinct positions have distinct locations. *)
Theorem bitlocation_64_inj p q :
  is_uint 64 p -> is_uint 64 q -> bitlocation p 64 = bitlocation q 64 -> p = q.
Proof.
  intros Hp Hq. rewrite !bitlocation_64 by done. intros [= H1 H2].
  rewrite (Z.div_mod p 64), (Z.div_mod q 64) by done. congruence.
Qed.

Lemma bitlocation_64_inj_witness : 7 = 7.
Proof.
  apply (bitlocation_64_inj 7 7); [unfold is_uint; lia..|reflexivity].
Defined.

(** ** The number of buckets *)

Lemma buckets_for_ceil bitlen :
  is_uint 64 bitlen -> buckets_for bitlen = (bitlen + 63) / 64.
Proof.
  intros [H0 H1]. unfold buckets_for. case_match eqn:Hm.
  - apply Z.eqb_eq in Hm. zdm.
  - apply Z.eqb_neq in Hm. change (2 ^ 64) with (64 * 2 ^ 58) in *.
    rewrite u64_small by (unfold is_uint; zdm). zdm.
Qed.

Lemma buckets_for_covers bitlen :
  is_uint 64 bitlen -> bitlen <= 64 * buckets_for bitlen < bitlen + 64.
Proof. intros H. rewrite buckets_for_ceil by done. destruct H. zdm. Qed.

#[export] Hint Resolve bitlocation_64_offset : bloom.
