(* ===== verification/Sha256.v ===== *)
(** * The digest

    [hash] of [bloom.go] creates a SHA-256 state with [sha256.New()],
    writes the buffer to it and takes [h.Sum(nil)].  The filter's theorems
    need little of the digest, and what they need is the interface
    [Digest] with its contract [DigestLaws]; they are proved for every
    instance.  The instance [sha256_digest] is SHA-256 itself, after
    FIPS 180-4, executable, so that the positions of the repository's
    tests can be computed.  [crypto/sha256] is Go's library and not part
    of this repository: the definitions of the module [SHA256] follow the
    standard and are checked against its test vectors. *)

From Stdlib Require Import Strings.Byte String.
From stdpp Require Import base tactics list numbers.
From S2P Require Import Prelude Errors.
Set Warnings "-clear-no-such-hyp".

(** ** The interface *)

(** What [hash] uses of a [hash.Hash]: the error of [Write] and the bytes
    of [Sum(nil)], both as functions of the bytes written. *)
Class Digest : Type := {
  digest_write : list byte -> option error;
  digest_sum : list byte -> list byte
}.

(** The contract of [crypto/sha256]: [Write] never returns an error, and
    the sum has [sha256.Size] bytes. *)
Class DigestLaws (D : Digest) : Prop := {
  digest_write_nil : forall b, digest_write b = None;
  digest_sum_length : forall b, length (digest_sum b) = 32%nat
}.

(** ** SHA-256 *)

Module SHA256.

(** *** Operations on 32-bit words (FIPS 180-4, sections 2.2.2 and 4.1.2) *)

Definition add32 (x y : Z) : Z := u32 (x + y).

Definition rotr (n x : Z) : Z :=
  Z.lor (Z.shiftr x n) (u32 (Z.shiftl x (32 - n))).

Definition not32 (x : Z) : Z := Z.lxor x (Z.ones 32).

Definition Ch (x y z : Z) : Z := Z.lxor (Z.land x y) (Z.land (not32 x) z).

Definition Maj (x y z : Z) : Z :=
  Z.lxor (Z.lxor (Z.land x y) (Z.land x z)) (Z.land y z).

Definition xor3 (x y z : Z) : Z := Z.lxor (Z.lxor x y) z.

Definition Sigma0 (x : Z) : Z := xor3 (rotr 2 x) (rotr 13 x) (rotr 22 x).
Definition Sigma1 (x : Z) : Z := xor3 (rotr 6 x) (rotr 11 x) (rotr 25 x).
Definition sigma0 (x : Z) : Z := xor3 (rotr 7 x) (rotr 18 x) (Z.shiftr x 3).
Definition sigma1 (x : Z) : Z := xor3 (rotr 17 x) (rotr 19 x) (Z.shiftr x 10).

(** *** The constants (sections 4.2.2 and 5.3.3)

    The sixty-four round constants are the first 32 bits of the
    fractional parts of the cube roots of the first sixty-four primes,
    the initial hash value those of the square roots of the first eight.
    They are computed here from that description. *)

Fixpoint no_divisor (fuel : nat) (d n : Z) : bool :=
  match fuel with
  | O => true
  | S fuel =>
      if n <? d * d then true
      else if n mod d =? 0 then false
      else no_divisor fuel (d + 1) n
  end.

Definition is_prime (n : Z) : bool := (2 <=? n) && no_divisor (Z.to_nat n) 2 n.

Fixpoint primes_from (fuel : nat) (n : Z) (count : nat) : list Z :=
  match fuel, count with
  | _, O => []
  | O, _ => []
  | S fuel, S count' =>
      if is_prime n then n :: primes_from fuel (n + 1) count'
      else primes_from fuel (n + 1) count
  end.

Definition first_primes (count : nat) : list Z := primes_from 400 2 count.

(** The integer cube root, by bisection on [lo <= root < hi]. *)
Fixpoint cbrt_between (fuel : nat) (lo hi n : Z) : Z :=
  match fuel with
  | O => lo
  | S fuel =>
      if hi - lo <=? 1 then lo
      else
        let mid := (lo + hi) / 2 in
        if mid * mid * mid <=? n then cbrt_between fuel mid hi n
        else cbrt_between fuel lo mid n
  end.

Definition cbrt (n : Z) : Z := cbrt_between 64 0 (2 ^ 40) n.

Definition K : list Z :=
  Eval vm_compute in map (fun p => u32 (cbrt (p * 2 ^ 96))) (first_primes 64).

Definition H0 : list Z :=
  Eval vm_compute in map (fun p => u32 (Z.sqrt (p * 2 ^ 64))) (first_primes 8).

(** *** Padding and parsing (sections 5.1.1 and 5.2.1) *)

(** The message, the byte [0x80], zero bytes up to 56 modulo 64, and the
    length in bits as eight bytes. *)
Definition pad (msg : list byte) : list byte :=
  let len := Z.of_nat (length msg) in
  msg ++ Byte.x80 :: replicate (Z.to_nat ((55 - len) mod 64)) Byte.x00
      ++ be_bytes 8 (8 * len).

(** [pieces n size l]: the first [n] consecutive pieces of [size] elements. *)
Fixpoint pieces {A} (n size : nat) (l : list A) : list (list A) :=
  match n with
  | O => []
  | S n => take size l :: pieces n size (drop size l)
  end.

Definition blocks (l : list byte) : list (list byte) :=
  pieces (length l / 64) 64 l.

Definition words (block : list byte) : list Z :=
  map be_value (pieces 16 4 block).

(** *** The message schedule (section 6.2.2, step 1)

    The schedule is built most recent word first, so that the words
    [t-2], [t-7], [t-15] and [t-16] are at fixed places. *)

Definition next_word (rev_w : list Z) : Z :=
  add32 (add32 (add32 (sigma1 (rev_w !!! 1%nat)) (rev_w !!! 6%nat))
                (sigma0 (rev_w !!! 14%nat)))
        (rev_w !!! 15%nat).

Fixpoint extend (n : nat) (rev_w : list Z) : list Z :=
  match n with
  | O => rev_w
  | S n => extend n (next_word rev_w :: rev_w)
  end.

Definition schedule (block : list byte) : list Z :=
  reverse (extend 48 (reverse (words block))).

(** *** Compression (section 6.2.2, steps 2 to 4) *)

Record state : Type := State {
  sa : Z; sb : Z; sc : Z; sd : Z; se : Z; sf : Z; sg : Z; sh : Z
}.

Definition round (s : state) (kw : Z * Z) : state :=
  let t1 := add32 (add32 (add32 (add32 (sh s) (Sigma1 (se s)))
                                (Ch (se s) (sf s) (sg s))) kw.1) kw.2 in
  let t2 := add32 (Sigma0 (sa s)) (Maj (sa s) (sb s) (sc s)) in
  State (add32 t1 t2) (sa s) (sb s) (sc s) (add32 (sd s) t1) (se s) (sf s) (sg s).

Definition state_add (s t : state) : state :=
  State (add32 (sa s) (sa t)) (add32 (sb s) (sb t)) (add32 (sc s) (sc t))
        (add32 (sd s) (sd t)) (add32 (se s) (se t)) (add32 (sf s) (sf t))
        (add32 (sg s) (sg t)) (add32 (sh s) (sh t)).

Definition compress (s : state) (block : list byte) : state :=
  state_add s (fold_left round (zip K (schedule block)) s).

Definition initial : state :=
  State (H0 !!! 0%nat) (H0 !!! 1%nat) (H0 !!! 2%nat) (H0 !!! 3%nat)
        (H0 !!! 4%nat) (H0 !!! 5%nat) (H0 !!! 6%nat) (H0 !!! 7%nat).

Definition state_words (s : state) : list Z :=
  [sa s; sb s; sc s; sd s; se s; sf s; sg s; sh s].

(** *** The digest *)

Definition sum256 (msg : list byte) : list byte :=
  state_words (fold_left compress (blocks (pad msg)) initial) ≫= be_bytes 4.

End SHA256.

(** [crypto/sha256] as an instance of the interface. *)
#[export] Instance sha256_digest : Digest := {|
  digest_write _ := None;
  digest_sum := SHA256.sum256
|}.

(** ** Properties of SHA-256 *)

Section sha256.
Import SHA256.

Lemma length_pieces {A} n size (l : list A) : length (pieces n size l) = n.
Proof. revert l. induction n; intros; simpl; auto. Qed.

Lemma pieces_length {A} n size (l : list A) piece :
  (n * size <= length l)%nat -> piece ∈ pieces n size l -> length piece = size.
Proof.
  revert l. induction n as [|n IH]; intros l Hlen; simpl.
  - by intros ?%elem_of_nil.
  - intros [->|Hin]%elem_of_cons.
    + rewrite length_take. lia.
    + apply (IH (drop size l)); [rewrite length_drop; lia|done].
Qed.

Lemma concat_pieces {A} n size (l : list A) :
  length l = (n * size)%nat -> concat (pieces n size l) = l.
Proof.
  revert l. induction n as [|n IH]; intros l Hlen; simpl.
  - by destruct l.
  - rewrite IH by (rewrite length_drop; lia). apply take_drop.
Qed.

(** The padded message is a whole number of blocks and begins with the
    message. *)
Lemma length_pad msg : (length (pad msg) mod 64 = 0)%nat.
Proof.
  unfold pad. rewrite length_app. cbn [length].
  rewrite length_app, length_replicate, length_be_bytes.
  pose proof (Z.mod_pos_bound (55 - Z.of_nat (length msg)) 64 ltac:(lia)).
  apply Nat2Z.inj. rewrite Nat2Z.inj_mod.
  rewrite Nat2Z.inj_add, Nat2Z.inj_succ, Nat2Z.inj_add, Z2Nat.id by lia.
  zdm.
Qed.

Lemma pad_prefix msg : take (length msg) (pad msg) = msg.
Proof. unfold pad. by rewrite take_app_length. Qed.

Lemma blocks_pad msg : concat (blocks (pad msg)) = pad msg.
Proof.
  unfold blocks. apply concat_pieces.
  pose proof (length_pad msg) as H.
  pose proof (Nat.div_mod_eq (length (pad msg)) 64). lia.
Qed.

Lemma pad_split msg :
  pad msg = (msg ++ Byte.x80 :: replicate (Z.to_nat ((55 - Z.of_nat (length msg)) mod 64)) Byte.x00)
            ++ be_bytes 8 (8 * Z.of_nat (length msg)).
Proof. unfold pad. by rewrite <- app_assoc. Qed.

Lemma pad_length_field msg :
  be_value (drop (length (pad msg) - 8) (pad msg)) = (8 * Z.of_nat (length msg)) mod 2 ^ 64.
Proof.
  rewrite pad_split, length_app, length_be_bytes, Nat.add_sub.
  by rewrite drop_app_length, be_value_be_bytes.
Qed.

Lemma length_pad_eq msg :
  Z.of_nat (length (pad msg))
  = Z.of_nat (length msg) + 1 + (55 - Z.of_nat (length msg)) mod 64 + 8.
Proof.
  rewrite pad_split, !length_app. cbn [length].
  rewrite length_replicate, length_be_bytes.
  pose proof (Z.mod_pos_bound (55 - Z.of_nat (length msg)) 64 ltac:(lia)). lia.
Qed.

(** Padding is injective: two messages with the same padded form are the
    same message. *)
Lemma pad_inj m1 m2 : pad m1 = pad m2 -> m1 = m2.
Proof.
  intros Heq.
  assert (length m1 = length m2) as Hlen.
  { pose proof (pad_length_field m1) as H1. pose proof (length_pad_eq m1) as L1.
    rewrite Heq, pad_length_field in H1. rewrite Heq, length_pad_eq in L1.
    apply Nat2Z.inj. change (2 ^ 64) with 18446744073709551616 in H1. zdm. }
  rewrite <- (pad_prefix m1), <- (pad_prefix m2), Heq. by rewrite Hlen.
Qed.

(** The sum has [sha256.Size] bytes. *)
Lemma length_sum256 msg : length (sum256 msg) = 32%nat.
Proof. reflexivity. Qed.

#[export] Instance sha256_laws : DigestLaws sha256_digest.
Proof. split; [done|apply length_sum256]. Qed.

(** The first and last round constants, and the initial hash value, as
    the standard prints them. *)
Lemma K_standard :
  length K = 64%nat /\ K !! 0%nat = Some 0x428a2f98 /\ K !! 63%nat = Some 0xc67178f2 /\
  H0 = [0x6a09e667; 0xbb67ae85; 0x3c6ef372; 0xa54ff53a;
        0x510e527f; 0x9b05688c; 0x1f83d9ab; 0x5be0cd19].
Proof. by vm_compute. Qed.

(** The test vectors of the standard: the empty message, ["abc"], and
    the 56-byte message that needs two blocks. *)
Lemma sum256_abc :
  be_value (sum256 (list_byte_of_string "abc"))
  = 0xba7816bf8f01cfea414140de5dae2223b00361a396177a9cb410ff61f20015ad.
Proof. by vm_compute. Qed.

Lemma sum256_empty :
  be_value (sum256 [])
  = 0xe3b0c44298fc1c149afbf4c8996fb92427ae41e4649b934ca495991b7852b855.
Proof. by vm_compute. Qed.

Lemma sum256_two_blocks :
  be_value (sum256 (list_byte_of_string
    "abcdbcdecdefdefgefghfghighijhijkijkljklmklmnlmnomnopnopq"))
  = 0x248d6a61d20638b8e5c026930c3e6039a33ce45964ff2167f6ecedd419db06c1.
Proof. by vm_compute. Qed.

End sha256.
