(* ===== verification/Hex.v ===== *)
(** * Hexadecimal text

    [hash] prints the digest with [fmt.Sprintf("%x", ...)] and reads the
    first sixteen characters back with [strconv.ParseUint(..., 16, 64)].
    Both are Go's library; they are modelled here after their
    documentation and, for [ParseUint], after the loop of [strconv]'s
    [atoi.go], overflow checks included.  A Go string is its bytes. *)

From Stdlib Require Import Strings.Byte String.
From stdpp Require Import base tactics list numbers.
From S2P Require Import Prelude Errors.
Set Warnings "-clear-no-such-hyp".

(** ** Printing *)

(** The digit of a value below sixteen: ["0123456789abcdef"[d]]. *)
Definition hex_digit (d : Z) : byte :=
  Z_byte (if d <? 10 then 48 + d else 87 + d).

(** [fmt.Sprintf("%x", bs)] for a byte slice: two lower-case digits per
    byte, high nibble first. *)
Definition Sprintf_x (bs : list byte) : list byte :=
  bs ≫= (fun b => [hex_digit (byte_Z b / 16); hex_digit (byte_Z b mod 16)]).

(** ** Parsing *)

(** [lower(c)] of [strconv]: [c | ('x' - 'X')]. *)
Definition lower (c : Z) : Z := Z.lor c 32.

(** The value of a character as a digit, in any base up to 36. *)
Definition digit_value (c : Z) : option Z :=
  if (48 <=? c) && (c <=? 57) then Some (c - 48)
  else if (97 <=? lower c) && (lower c <=? 122) then Some (lower c - 97 + 10)
  else None.

(** [maxUint64/16 + 1], the least [n] for which [n * 16] overflows. *)
Definition cutoff16 : Z := (2 ^ 64 - 1) / 16 + 1.

(** [uint64(1)<<uint(64) - 1], which wraps to the largest [uint64]. *)
Definition maxVal64 : Z := u64 (shl64 1 64 - 1).

(** The loop of [ParseUint] over the bytes of the string, for base 16
    and bit size 64. *)
Fixpoint ParseUint_loop (cs : list byte) (n : Z) : Z * option strconv_err :=
  match cs with
  | [] => (n, None)
  | c :: cs =>
      match digit_value (byte_Z c) with
      | None => (0, Some ErrSyntax)
      | Some d =>
          if 16 <=? d then (0, Some ErrSyntax)
          else if cutoff16 <=? n then (maxVal64, Some ErrRange)
          else
            let n := u64 (n * 16) in
            let n1 := u64 (n + d) in
            if (n1 <? n) || (maxVal64 <? n1) then (maxVal64, Some ErrRange)
            else ParseUint_loop cs n1
      end
  end.

(** [strconv.ParseUint(s, 16, 64)] *)
Definition ParseUint16 (s : list byte) : Z * option error :=
  match s with
  | [] => (0, Some (error_NumError "ParseUint" "" ErrSyntax))
  | _ =>
      match ParseUint_loop s 0 with
      | (v, None) => (v, None)
      | (v, Some e) =>
          (v, Some (error_NumError "ParseUint" (string_of_list_byte s) e))
      end
  end.

(** ** Printing *)

Lemma Sprintf_x_cons b bs :
  Sprintf_x (b :: bs) = hex_digit (byte_Z b / 16) :: hex_digit (byte_Z b mod 16) :: Sprintf_x bs.
Proof. done. Qed.

Lemma length_Sprintf_x bs : length (Sprintf_x bs) = (2 * length bs)%nat.
Proof.
  induction bs as [|b bs IH]; [done|].
  rewrite Sprintf_x_cons. cbn [length]. rewrite IH. lia.
Qed.

Lemma Sprintf_x_app bs1 bs2 : Sprintf_x (bs1 ++ bs2) = Sprintf_x bs1 ++ Sprintf_x bs2.
Proof. apply bind_app. Qed.

(** A prefix of the text is the text of a prefix of the bytes. *)
Lemma take_Sprintf_x n bs : take (2 * n) (Sprintf_x bs) = Sprintf_x (take n bs).
Proof.
  revert bs. induction n as [|n IH]; intros [|b bs]; try done.
  replace (2 * S n)%nat with (S (S (2 * n))) by lia.
  rewrite Sprintf_x_cons. cbn [take]. by rewrite IH.
Qed.

(** ** Parsing *)

Lemma cutoff16_eq : cutoff16 = 2 ^ 60.
Proof. done. Qed.

Lemma maxVal64_eq : maxVal64 = 2 ^ 64 - 1.
Proof. done. Qed.

(** Every digit that [Sprintf_x] prints is read back as its value. *)
Lemma digit_value_hex_digit d :
  0 <= d < 16 -> digit_value (byte_Z (hex_digit d)) = Some d.
Proof.
  intros Hd. assert (exists k, d = Z.of_nat k /\ (k < 16)%nat) as (k & -> & Hk).
  { exists (Z.to_nat d). lia. }
  do 16 (destruct k as [|k]; [by vm_compute|]). lia.
Qed.

(** One step of the loop on a digit, away from the overflow checks. *)
Lemma ParseUint_loop_digit d cs n :
  0 <= d < 16 -> 0 <= n < 2 ^ 60 ->
  ParseUint_loop (hex_digit d :: cs) n = ParseUint_loop cs (n * 16 + d).
Proof.
  intros Hd Hn. cbn [ParseUint_loop]. rewrite digit_value_hex_digit by done.
  rewrite (proj2 (Z.leb_gt 16 d)) by lia.
  rewrite cutoff16_eq, (proj2 (Z.leb_gt _ n)) by lia. cbn zeta.
  change (2 ^ 60) with 1152921504606846976 in Hn.
  rewrite (u64_small (n * 16)), (u64_small (n * 16 + d))
    by (unfold is_uint; change (2 ^ 64) with 18446744073709551616; lia).
  rewrite maxVal64_eq.
  rewrite (proj2 (Z.ltb_ge _ _)), (proj2 (Z.ltb_ge _ _)); [done|..];
    change (2 ^ 64) with 18446744073709551616; lia.
Qed.

Lemma ParseUint_loop_Sprintf_x bs n :
  0 <= n -> (n + 1) * 256 ^ Z.of_nat (length bs) <= 2 ^ 64 ->
  ParseUint_loop (Sprintf_x bs) n = (n * 256 ^ Z.of_nat (length bs) + be_value bs, None).
Proof.
  revert n. induction bs as [|b bs IH]; intros n Hn Hfit.
  - change (ParseUint_loop (Sprintf_x []) n) with (n, @None strconv_err).
    f_equal. rewrite be_value_nil. cbn [length]. lia.
  - rewrite Sprintf_x_cons. cbn [length] in *.
    rewrite Nat2Z.inj_succ, Z.pow_succ_r in * by lia.
    pose proof (Z.pow_pos_nonneg 256 (Z.of_nat (length bs)) ltac:(lia) ltac:(lia)) as Hpos.
    destruct (byte_Z_range b) as [Hb0 Hb1]. change (2 ^ 8) with 256 in Hb1.
    change (2 ^ 64) with (256 * 2 ^ 56) in Hfit.
    assert (n + 1 <= 2 ^ 56) as Hn56 by nia.
    change (2 ^ 56) with 72057594037927936 in Hn56.
    rewrite !ParseUint_loop_digit
      by (change (2 ^ 60) with 1152921504606846976; zdm).
    rewrite IH.
    + f_equal. rewrite be_value_cons.
      replace (byte_Z b) with (byte_Z b / 16 * 16 + byte_Z b mod 16) at 3 by zdm. lia.
    + zdm.
    + replace ((n * 16 + byte_Z b / 16) * 16 + byte_Z b mod 16) with (n * 256 + byte_Z b) by zdm.
      change (256 * 2 ^ 56) with (256 * 72057594037927936) in Hfit. nia.
Qed.

Lemma ParseUint_loop_app cs1 cs2 n v :
  ParseUint_loop cs1 n = (v, None) -> ParseUint_loop (cs1 ++ cs2) n = ParseUint_loop cs2 v.
Proof.
  revert n. induction cs1 as [|c cs1 IH]; intros n; cbn [ParseUint_loop app].
  - by intros [= ->].
  - repeat case_match; try done. apply IH.
Qed.

(** The loop fails with [ErrRange] on any further digit once the number
    read has reached [2^60]. *)
Lemma ParseUint_loop_overflow d cs n :
  0 <= d < 16 -> 2 ^ 60 <= n ->
  ParseUint_loop (hex_digit d :: cs) n = (2 ^ 64 - 1, Some ErrRange).
Proof.
  intros Hd Hn. cbn [ParseUint_loop]. rewrite digit_value_hex_digit by done.
  rewrite (proj2 (Z.leb_gt 16 d)) by lia.
  by rewrite cutoff16_eq, (proj2 (Z.leb_le _ n)) by lia.
Qed.

(** The loop fails with [ErrSyntax] at a character that is no digit of
    base 16. *)
Lemma ParseUint_loop_syntax c cs n :
  (forall d, digit_value (byte_Z c) = Some d -> 16 <= d) ->
  ParseUint_loop (c :: cs) n = (0, Some ErrSyntax).
Proof.
  intros Hbad. cbn [ParseUint_loop].
  destruct (digit_value (byte_Z c)) as [d|]; [|done].
  by rewrite (proj2 (Z.leb_le 16 d)) by auto.
Qed.

Lemma Sprintf_x_nonempty bs : bs <> [] -> Sprintf_x bs <> [].
Proof. by destruct bs. Qed.

Lemma ParseUint16_cons c cs :
  ParseUint16 (c :: cs) =
  match ParseUint_loop (c :: cs) 0 with
  | (v, None) => (v, None)
  | (v, Some e) => (v, Some (error_NumError "ParseUint" (string_of_list_byte (c :: cs)) e))
  end.
Proof. done. Qed.

Lemma ParseUint16_loop s v :
  s <> [] -> ParseUint_loop s 0 = (v, None) -> ParseUint16 s = (v, None).
Proof. destruct s; [done|]. intros _ H. by rewrite ParseUint16_cons, H. Qed.

(** Up to eight bytes printed with [%x] are read back as the number they
    denote, most significant byte first, without error. *)
Lemma ParseUint16_bytes bs :
  bs <> [] -> (length bs <= 8)%nat ->
  ParseUint16 (Sprintf_x bs) = (be_value bs, None).
Proof.
  intros Hne Hlen. apply ParseUint16_loop; [by apply Sprintf_x_nonempty|].
  rewrite ParseUint_loop_Sprintf_x; [f_equal; lia|done|].
  rewrite Z.mul_1_l. change (2 ^ 64) with (256 ^ 8).
  apply Z.pow_le_mono_r; lia.
Qed.

(** The sixteen characters [hash] keeps of a digest of at least eight
    bytes parse to the big-endian value of its first eight bytes. *)
Lemma ParseUint16_take16 digest :
  (8 <= length digest)%nat ->
  ParseUint16 (take 16 (Sprintf_x digest)) = (be_value (take 8 digest), None).
Proof.
  intros Hlen. rewrite (take_Sprintf_x 8). apply ParseUint16_bytes.
  - destruct digest; [simpl in Hlen; lia|done].
  - rewrite length_take. lia.
Qed.

(** Round trip: every [uint64], printed as the sixteen hexadecimal
    digits of its eight bytes, is read back by [ParseUint] as itself and
    without error. *)
Theorem ParseUint16_roundtrip z :
  is_uint 64 z -> ParseUint16 (Sprintf_x (be_bytes 8 z)) = (z, None).
Proof.
  intros Hz. rewrite ParseUint16_bytes by (done || by rewrite length_be_bytes).
  rewrite be_value_be_bytes. f_equal. by apply Z.mod_small.
Qed.

Lemma ParseUint16_roundtrip_witness :
  ParseUint16 (Sprintf_x (be_bytes 8 11495104353665842533)) = (11495104353665842533, None).
Proof. apply ParseUint16_roundtrip. unfold is_uint. lia. Defined.

(** One character more overflows: seventeen digits whose first is not
    zero are refused with [ErrRange] and the largest [uint64], which is
    why [hash] keeps sixteen. *)
Theorem ParseUint16_seventeen bs d :
  length bs = 8%nat -> 2 ^ 60 <= be_value bs -> 0 <= d < 16 ->
  ParseUint16 (Sprintf_x bs ++ [hex_digit d])
  = (2 ^ 64 - 1,
     Some (error_NumError "ParseUint"
             (string_of_list_byte (Sprintf_x bs ++ [hex_digit d])) ErrRange)).
Proof.
  intros Hlen Hbig Hd.
  assert (ParseUint_loop (Sprintf_x bs ++ [hex_digit d]) 0 = (2 ^ 64 - 1, Some ErrRange)) as Hloop.
  { rewrite (ParseUint_loop_app _ _ 0 (be_value bs)).
    - by apply ParseUint_loop_overflow.
    - rewrite ParseUint_loop_Sprintf_x; [f_equal; lia|done|].
      rewrite Hlen. by change (2 ^ 64) with (256 ^ 8). }
  destruct (Sprintf_x bs ++ [hex_digit d]) eqn:Hs.
  - by destruct (Sprintf_x bs).
  - by rewrite ParseUint16_cons, Hloop.
Qed.

Lemma ParseUint16_seventeen_witness :
  ParseUint16 (Sprintf_x (replicate 8 Byte.xff) ++ [hex_digit 15])
  = (2 ^ 64 - 1,
     Some (error_NumError "ParseUint"
             (string_of_list_byte (Sprintf_x (replicate 8 Byte.xff) ++ [hex_digit 15]))
             ErrRange)).
Proof. apply ParseUint16_seventeen; [done|by vm_compute|lia]. Defined.

(** The empty string and a string with a character outside the sixteen
    digits are refused with [ErrSyntax]. *)
Lemma ParseUint16_empty :
  ParseUint16 [] = (0, Some (error_NumError "ParseUint" "" ErrSyntax)).
Proof. done. Qed.

Lemma ParseUint16_syntax c cs :
  (forall d, digit_value (byte_Z c) = Some d -> 16 <= d) ->
  ParseUint16 (c :: cs)
  = (0, Some (error_NumError "ParseUint" (string_of_list_byte (c :: cs)) ErrSyntax)).
Proof. intros H. by rewrite ParseUint16_cons, ParseUint_loop_syntax. Qed.

(** Whatever the string, the number returned is a [uint64]. *)
Lemma is_uint64_0 : is_uint 64 0.
Proof. by vm_compute. Qed.

Lemma is_uint64_maxVal : is_uint 64 maxVal64.
Proof. by vm_compute. Qed.

Lemma ParseUint_loop_range cs n : is_uint 64 n -> is_uint 64 (ParseUint_loop cs n).1.
Proof.
  revert n. induction cs as [|c cs IH]; intros n Hn; cbn [ParseUint_loop]; [done|].
  repeat case_match; cbn [fst];
    auto using is_uint64_0, is_uint64_maxVal, u64_range.
Qed.

Lemma ParseUint16_range s : is_uint 64 (ParseUint16 s).1.
Proof.
  destruct s as [|c cs]; [apply is_uint64_0|]. rewrite ParseUint16_cons.
  pose proof (ParseUint_loop_range (c :: cs) 0 is_uint64_0).
  by destruct (ParseUint_loop (c :: cs) 0) as [v [e|]].
Qed.

#[export] Hint Resolve ParseUint16_range : bloom.
