(* ===== verification/Hash.v ===== *)
(** * Positions

    [hash] and [bitpositions] of [bloom.go].  [hash] maps a buffer to a
    position below [bitlen]; [bitpositions] calls it [hashqty] times on
    the element followed by one byte that counts the calls.  The loop is
    modelled as the code runs it: one buffer whose last byte is
    overwritten, one slice of positions filled by index, a byte counter,
    a break at the first error.  It is then shown equal to a recursion
    over the list of indices ([collect]), and, under the contract of the
    digest, to a plain map ([positions]).  [hash_outcome] is [hash] on
    every branch, for every digest: it shows that the only error is the
    error of [Write]. *)

From Stdlib Require Import Strings.Byte String.
From stdpp Require Import base tactics list numbers.
From S2P Require Import Prelude Errors Sha256 Hex.
Set Warnings "-clear-no-such-hyp".

Section definitions.
Context {D : Digest}.

(** [func hash(b []byte, bitlen uint64) (uint64, error)] *)
Definition hash (b : list byte) (bitlen : Z) : result (Z * option error) :=
  match digest_write b with
  | Some err => Done (0, Some err)
  | None =>
      let hexdigest := Sprintf_x (digest_sum b) in
      prefix ← slice_to hexdigest 16;
      let '(i, err) := ParseUint16 prefix in
      match err with
      | Some err => Done (0, Some err)
      | None =>
          if bitlen =? 0 then Panicked panic_divide
          else Done (i mod bitlen, None)
      end
  end.

(** The loop of [bitpositions]:
    [for i := byte(0); i < hashqty; i++ { b[len(element)] = i; pos[i], err = hash(b, bitlen); if err != nil { break } }]
    with the value of [pos] and [err] at its exit. *)
Fixpoint bitpositions_loop (fuel : nat) (len hashqty bitlen : Z)
    (i : Z) (b : list byte) (pos : list Z) : result (list Z * option error) :=
  match fuel with
  | O => Panicked panic_fuel
  | S fuel =>
      if i <? hashqty then
        let b := store b len (Z_byte i) in
        '(p, err) ← hash b bitlen;
        let pos := store pos i p in
        match err with
        | Some _ => Done (pos, err)
        | None => bitpositions_loop fuel len hashqty bitlen (u8 (i + 1)) b pos
        end
      else Done (pos, None)
  end.

(** [func bitpositions(element []byte, hashqty byte, bitlen uint64) ([]uint64, error)] *)
Definition bitpositions (element : list byte) (hashqty bitlen : Z)
    : result (list Z * option error) :=
  let len := Z.of_nat (length element) in
  let b := copy (make Byte.x00 (len + 1)) element in
  let pos := make 0 hashqty in
  bitpositions_loop 256 len hashqty bitlen 0 b pos.

(** ** Reference definitions *)

(** The buffer hashed for index [i]: the element and the byte [i]. *)
Definition buffer (element : list byte) (i : Z) : list byte :=
  element ++ [Z_byte i].

(** The same loop as a recursion over the indices, without the shared
    buffer and the counter. *)
Fixpoint collect (element : list byte) (bitlen : Z) (indices : list Z)
    (pos : list Z) : result (list Z * option error) :=
  match indices with
  | [] => Done (pos, None)
  | i :: indices =>
      '(p, err) ← hash (buffer element i) bitlen;
      let pos := store pos i p in
      match err with
      | Some _ => Done (pos, err)
      | None => collect element bitlen indices pos
      end
  end.

(** The position of index [i] when nothing fails: the first eight bytes
    of the digest as a number, reduced modulo [bitlen]. *)
Definition position (element : list byte) (bitlen i : Z) : Z :=
  be_value (take 8 (digest_sum (buffer element i))) mod bitlen.

Definition positions (element : list byte) (hashqty bitlen : Z) : list Z :=
  position element bitlen <$> seqZ 0 hashqty.

(** What [hash] returns, branch by branch, without the detour through
    the text of the digest: the error of [Write]; the panic of the slice
    [hexdigest[:16]] when the sum has fewer than eight bytes; the
    division by zero; the first eight bytes of the sum modulo
    [bitlen]. *)
Definition hash_outcome (b : list byte) (bitlen : Z) : result (Z * option error) :=
  match digest_write b with
  | Some err => Done (0, Some err)
  | None =>
      if decide (length (digest_sum b) < 8)%nat
      then Panicked (panic_slice 16 (Z.of_nat (2 * length (digest_sum b))))
      else if decide (bitlen = 0) then Panicked panic_divide
      else Done (be_value (take 8 (digest_sum b)) mod bitlen, None)
  end.

(** A buffer on which the digest works: the write succeeds and the sum
    has the eight bytes [hash] reads. *)
Definition digest_ok (b : list byte) : Prop :=
  digest_write b = None /\ (8 <= length (digest_sum b))%nat.

End definitions.

(** ** [hash] *)

Section hash.
Context {D : Digest}.
Implicit Types (b element : list byte) (bitlen hashqty : Z).

Lemma hash_digest_ok b bitlen :
  digest_ok b -> bitlen <> 0 ->
  hash b bitlen = Done (be_value (take 8 (digest_sum b)) mod bitlen, None).
Proof.
  intros [Hw Hlen] Hbit. unfold hash. rewrite Hw.
  rewrite slice_to_Done by (rewrite length_Sprintf_x; lia).
  rewrite bind_Done. change (Z.to_nat 16) with 16%nat.
  rewrite ParseUint16_take16 by done.
  by rewrite (proj2 (Z.eqb_neq bitlen 0)).
Qed.

(** The error of [Write] is returned with position 0, whatever the sum. *)
Lemma hash_write_error b bitlen err :
  digest_write b = Some err -> hash b bitlen = Done (0, Some err).
Proof. intros H. unfold hash. by rewrite H. Qed.

(** With [bitlen = 0] the reduction [i % bitlen] divides by zero. *)
Lemma hash_bitlen_zero b : digest_ok b -> hash b 0 = Panicked panic_divide.
Proof.
  intros [Hw Hlen]. unfold hash. rewrite Hw.
  rewrite slice_to_Done by (rewrite length_Sprintf_x; lia).
  rewrite bind_Done. change (Z.to_nat 16) with 16%nat.
  by rewrite ParseUint16_take16.
Qed.

(** A digest of fewer than eight bytes makes the slice [hexdigest[:16]]
    panic. *)
Lemma hash_short_digest b bitlen :
  digest_write b = None -> (length (digest_sum b) < 8)%nat ->
  hash b bitlen
  = Panicked (panic_slice 16 (Z.of_nat (2 * length (digest_sum b)))).
Proof.
  intros Hw Hlen. unfold hash. rewrite Hw.
  rewrite slice_to_short by (rewrite length_Sprintf_x; lia).
  by rewrite length_Sprintf_x.
Qed.

(** C16. [hash] on every branch and for every digest, lawful or not: it
    is [hash_outcome].  In particular [strconv.ParseUint] never fails
    in it: the only error [hash] returns is the error of [Write]. *)
Theorem hash_outcome_eq b bitlen : hash b bitlen = hash_outcome b bitlen.
Proof.
  unfold hash_outcome. destruct (digest_write b) as [err|] eqn:Hw.
  { by apply hash_write_error. }
  case_decide as Hlen; [by apply hash_short_digest|].
  assert (digest_ok b) as Hok by (split; [done|lia]).
  case_decide as Hb; [subst; by apply hash_bitlen_zero|by apply hash_digest_ok].
Qed.

(** An error of [hash] is the error of [Write], and comes with the
    position 0. *)
Lemma hash_error_inv b bitlen p err :
  hash b bitlen = Done (p, Some err) -> digest_write b = Some err /\ p = 0.
Proof.
  destruct (digest_write b) as [e|] eqn:Hw.
  - rewrite (hash_write_error b bitlen e Hw). by intros [= <- <-].
  - destruct (decide (length (digest_sum b) < 8)%nat) as [Hlen|Hlen].
    { by rewrite hash_short_digest. }
    assert (digest_ok b) as Hok by (split; [done|lia]).
    destruct (decide (bitlen = 0)) as [->|Hb].
    + by rewrite hash_bitlen_zero.
    + by rewrite hash_digest_ok.
Qed.

Lemma position_range element bitlen i :
  0 < bitlen -> 0 <= position element bitlen i < bitlen.
Proof. intros. by apply Z.mod_pos_bound. Qed.

(** The fuel of the model is no outcome of [hash]. *)
Lemma hash_not_fuel b bitlen : hash b bitlen <> Panicked panic_fuel.
Proof.
  unfold hash, slice_to. repeat (case_match || simplify_eq/=); try done.
Qed.

End hash.

(** ** The loop and its reference *)

Section loop.
Context {D : Digest}.
Context (element : list byte) (hashqty bitlen : Z).
Context (Hqty : is_uint 8 hashqty).

Let len := Z.of_nat (length element).

Lemma store_buffer x i : store (element ++ [x]) len (Z_byte i) = buffer element i.
Proof.
  unfold store, buffer, len. rewrite Nat2Z.id.
  by rewrite <- (Nat.add_0_r (length element)), insert_app_r.
Qed.

Lemma initial_buffer : copy (make Byte.x00 (len + 1)) element = element ++ [Byte.x00].
Proof.
  unfold len. replace (Z.of_nat (length element) + 1)
    with (Z.of_nat (length element + 1)) by lia.
  apply (copy_make_app Byte.x00 element 1).
Qed.

(** With fuel for the remaining iterations, the loop from counter [i] is
    [collect] over the remaining indices.  The counter never wraps: it
    stays below [hashqty], which is a byte. *)
Lemma bitpositions_loop_collect fuel i x pos :
  0 <= i <= hashqty -> (Z.to_nat (hashqty - i) < fuel)%nat ->
  bitpositions_loop fuel len hashqty bitlen i (element ++ [x]) pos
  = collect element bitlen (seqZ i (hashqty - i)) pos.
Proof.
  revert i x pos. induction fuel as [|fuel IH]; intros i x pos Hi Hfuel; [lia|].
  cbn [bitpositions_loop]. destruct (Z.ltb_spec i hashqty) as [Hlt|Hge].
  - rewrite seqZ_cons by lia. cbn [collect]. rewrite store_buffer.
    destruct (hash (buffer element i) bitlen) as [[p [e|]]|]; try done.
    rewrite !bind_Done.
    destruct Hqty as [_ Hq]. change (2 ^ 8) with 256 in Hq.
    rewrite u8_small by (unfold is_uint; change (2 ^ 8) with 256; lia).
    unfold buffer. rewrite IH by lia. do 2 f_equal. lia.
  - by rewrite seqZ_nil by lia.
Qed.

(** For every digest, [bitpositions] with its byte counter and its shared
    buffer is the recursion [collect] over the indices [0 .. hashqty-1],
    started on [hashqty] zeros. *)
Lemma bitpositions_unfold :
  bitpositions element hashqty bitlen
  = collect element bitlen (seqZ 0 hashqty) (replicate (Z.to_nat hashqty) 0).
Proof.
  unfold bitpositions. fold len. rewrite initial_buffer.
  destruct Hqty as [Hq0 Hq1]. change (2 ^ 8) with 256 in Hq1.
  rewrite bitpositions_loop_collect by lia.
  by rewrite Z.sub_0_r.
Qed.

End loop.

(** ** [collect] *)

Section collect.
Context {D : Digest}.
Context (element : list byte) (bitlen : Z) (Hbit : bitlen <> 0).

Lemma collect_not_fuel indices pos :
  collect element bitlen indices pos <> Panicked panic_fuel.
Proof.
  revert pos. induction indices as [|i indices IH]; intros pos; [done|].
  cbn [collect]. pose proof (hash_not_fuel (buffer element i) bitlen).
  destruct (hash (buffer element i) bitlen) as [[p [e|]]|];
    rewrite ?bind_Done, ?bind_Panicked; [done|apply IH|congruence].
Qed.

(** While the digest works, [collect] writes the position of each index
    at that index and leaves the rest of the slice alone. *)
Lemma collect_ok n i pos :
  (forall j, i <= j < i + Z.of_nat n -> digest_ok (buffer element j)) ->
  0 <= i -> (Z.to_nat i + n <= length pos)%nat ->
  collect element bitlen (seqZ i (Z.of_nat n)) pos
  = Done (take (Z.to_nat i) pos ++ (position element bitlen <$> seqZ i (Z.of_nat n))
            ++ drop (Z.to_nat i + n) pos, None).
Proof.
  revert i pos. induction n as [|n IH]; intros i pos Hok Hi Hlen.
  - change (Z.of_nat 0) with 0. rewrite seqZ_nil by lia.
    cbn [collect fmap list_fmap app]. by rewrite Nat.add_0_r, take_drop.
  - rewrite seqZ_cons by lia. cbn [collect fmap list_fmap].
    rewrite hash_digest_ok by (done || apply Hok; lia). rewrite bind_Done.
    replace (Z.pred (Z.of_nat (S n))) with (Z.of_nat n) by lia.
    rewrite IH by (rewrite ?length_store; (intros; apply Hok) || idtac; lia).
    do 2 f_equal. unfold store.
    replace (Z.to_nat (Z.succ i)) with (S (Z.to_nat i)) by lia.
    rewrite (take_S_r _ _ (position element bitlen i))
      by (apply list_lookup_insert_eq; lia).
    rewrite take_insert_ge by lia. rewrite <- app_assoc. cbn [app].
    do 3 f_equal. rewrite drop_insert_lt by lia. f_equal. lia.
Qed.

(** At the first index whose write fails, [collect] stops: the positions
    before it are written, the slot of the failing index holds the 0 that
    [hash] returned, and the rest of the slice is untouched. *)
Lemma collect_error n i k err pos :
  (forall j, i <= j < k -> digest_ok (buffer element j)) ->
  digest_write (buffer element k) = Some err ->
  0 <= i <= k -> k < i + Z.of_nat n -> (Z.to_nat i + n <= length pos)%nat ->
  collect element bitlen (seqZ i (Z.of_nat n)) pos
  = Done (take (Z.to_nat i) pos ++ (position element bitlen <$> seqZ i (k - i))
            ++ 0 :: drop (S (Z.to_nat k)) pos, Some err).
Proof.
  revert i pos. induction n as [|n IH]; intros i pos Hok Herr Hi Hk Hlen; [lia|].
  rewrite seqZ_cons by lia. cbn [collect].
  destruct (decide (i = k)) as [->|Hne].
  - rewrite (hash_write_error _ _ err) by done. rewrite bind_Done.
    rewrite Z.sub_diag. cbn [seqZ fmap list_fmap app]. unfold store.
    rewrite insert_take_drop by lia. done.
  - rewrite hash_digest_ok by (done || apply Hok; lia). rewrite bind_Done.
    replace (Z.pred (Z.of_nat (S n))) with (Z.of_nat n) by lia.
    rewrite IH by (rewrite ?length_store; (intros; apply Hok) || idtac; (done || lia)).
    do 2 f_equal. unfold store.
    replace (Z.to_nat (Z.succ i)) with (S (Z.to_nat i)) by lia.
    rewrite (take_S_r _ _ (position element bitlen i))
      by (apply list_lookup_insert_eq; lia).
    rewrite take_insert_ge by lia. rewrite <- app_assoc. cbn [app].
    rewrite (seqZ_cons i (k - i)) by lia. cbn [fmap list_fmap app].
    rewrite drop_insert_lt by lia.
    by replace (Z.pred (k - i)) with (k - Z.succ i) by lia.
Qed.

End collect.

(** An error of [collect] is the error of the [Write] of one of its
    indices. *)
Lemma collect_error_inv `{D : Digest} element bitlen indices pos pos' err :
  collect element bitlen indices pos = Done (pos', Some err) ->
  exists i, i ∈ indices /\ digest_write (buffer element i) = Some err.
Proof.
  revert pos. induction indices as [|i indices IH]; intros pos; [done|].
  cbn [collect]. intros ([p e] & Hhash & Hrest)%bind_Done_inv. destruct e as [e|].
  - injection Hrest as <- <-. apply hash_error_inv in Hhash as [Hw _].
    exists i. split; [by left|done].
  - apply IH in Hrest as (j & Hj & Hw). exists j. split; [by right|done].
Qed.

(** ** The reference positions *)

Section positions.
Context {D : Digest}.
Implicit Types (element : list byte) (bitlen hashqty : Z).

Lemma length_positions element hashqty bitlen :
  length (positions element hashqty bitlen) = Z.to_nat hashqty.
Proof. unfold positions. by rewrite length_fmap, length_seqZ. Qed.

Lemma positions_lookup element hashqty bitlen (i : nat) :
  Z.of_nat i < hashqty ->
  positions element hashqty bitlen !! i = Some (position element bitlen (Z.of_nat i)).
Proof.
  intros. unfold positions. by rewrite list_lookup_fmap, lookup_seqZ_lt.
Qed.

Lemma elem_of_positions element hashqty bitlen p :
  p ∈ positions element hashqty bitlen <->
  exists i, 0 <= i < hashqty /\ p = position element bitlen i.
Proof.
  unfold positions. rewrite list_elem_of_fmap. setoid_rewrite elem_of_seqZ.
  naive_solver lia.
Qed.

(** Every position is below the bit length. *)
Lemma positions_range element hashqty bitlen :
  0 < bitlen ->
  Forall (fun p => 0 <= p < bitlen) (positions element hashqty bitlen).
Proof.
  intros Hbit. apply list.Forall_forall. intros p (i & _ & ->)%elem_of_positions.
  by apply position_range.
Qed.

Lemma positions_zero element bitlen : positions element 0 bitlen = [].
Proof. done. Qed.

End positions.

(** ** [bitpositions] *)

Section bitpositions.
Context {D : Digest}.
Context (element : list byte) (hashqty bitlen : Z).
Context (Hqty : is_uint 8 hashqty).

(** When the digest works on the [hashqty] buffers and [bitlen] is not
    zero, [bitpositions] returns, without error, the positions of the
    indices [0, 1, ...] in that order. *)
Lemma bitpositions_eq :
  (forall i, 0 <= i < hashqty -> digest_ok (buffer element i)) -> bitlen <> 0 ->
  bitpositions element hashqty bitlen = Done (positions element hashqty bitlen, None).
Proof.
  intros Hok Hbit. rewrite bitpositions_unfold by done.
  destruct Hqty as [Hq0 _].
  rewrite <- (Z2Nat.id hashqty) at 1 by done.
  rewrite collect_ok; [|done|by intros; apply Hok; lia|done|by rewrite length_replicate].
  cbn [Z.to_nat take app]. rewrite Nat.add_0_l, Z2Nat.id by done.
  rewrite drop_ge by (by rewrite length_replicate). by rewrite app_nil_r.
Qed.

(** When the write of buffer [k] is the first to fail, [bitpositions]
    returns that error with a slice of [hashqty] entries: the positions
    of the indices before [k], then zeros. *)
Lemma bitpositions_error_eq k err :
  (forall i, 0 <= i < k -> digest_ok (buffer element i)) ->
  digest_write (buffer element k) = Some err ->
  0 <= k < hashqty -> bitlen <> 0 ->
  bitpositions element hashqty bitlen
  = Done (positions element k bitlen ++ replicate (Z.to_nat (hashqty - k)) 0, Some err).
Proof.
  intros Hok Herr Hk Hbit. rewrite bitpositions_unfold by done.
  rewrite <- (Z2Nat.id hashqty) at 1 by lia.
  rewrite (collect_error _ _ Hbit _ 0 k err);
    [|by intros; apply Hok; lia|done|lia|lia|by rewrite length_replicate].
  cbn [Z.to_nat take app]. rewrite Z.sub_0_r. do 2 f_equal.
  rewrite drop_replicate.
  replace (Z.to_nat (hashqty - k)) with (S (Z.to_nat hashqty - S (Z.to_nat k))) by lia.
  done.
Qed.

(** C15. Termination: the loop of [bitpositions] needs no more fuel than
    the 256 values of its byte counter.  With any fuel from 256 on it
    returns what [bitpositions] returns, for every digest, and that is
    never the exhaustion of the fuel. *)
Theorem bitpositions_fuel fuel :
  (256 <= fuel)%nat ->
  bitpositions_loop fuel (Z.of_nat (length element)) hashqty bitlen 0
    (element ++ [Byte.x00]) (make 0 hashqty)
  = bitpositions element hashqty bitlen /\
  bitpositions element hashqty bitlen <> Panicked panic_fuel.
Proof.
  intros Hfuel. destruct Hqty as [Hq0 Hq1]. change (2 ^ 8) with 256 in Hq1.
  rewrite bitpositions_unfold by done.
  rewrite bitpositions_loop_collect by (done || lia). rewrite Z.sub_0_r.
  split; [done|apply collect_not_fuel].
Qed.

(** With no hash function there is nothing to compute, whatever
    [bitlen]: the slice is empty and the error is [nil]. *)
Lemma bitpositions_zero : bitpositions element 0 bitlen = Done ([], None).
Proof. rewrite bitpositions_unfold; [done|by vm_compute]. Qed.

End bitpositions.

Section failure.
Context {D : Digest}.

(** C38. When the digest fails at index [k] first, [bitpositions] returns
    its error with a slice that still has [hashqty] entries: the
    positions of the indices below [k], and zeros from [k] on. *)
Theorem bitpositions_failure element hashqty bitlen k err :
  is_uint 8 hashqty -> bitlen <> 0 -> 0 <= k < hashqty ->
  (forall i, 0 <= i < k -> digest_ok (buffer element i)) ->
  digest_write (buffer element k) = Some err ->
  exists pos,
    bitpositions element hashqty bitlen = Done (pos, Some err) /\
    length pos = Z.to_nat hashqty /\
    (forall i : nat, Z.of_nat i < k ->
       pos !! i = Some (position element bitlen (Z.of_nat i))) /\
    (forall i : nat, k <= Z.of_nat i < hashqty -> pos !! i = Some 0).
Proof.
  intros Hqty Hbit Hk Hok Herr. eexists.
  split; [by apply bitpositions_error_eq|].
  assert (length (positions element k bitlen) = Z.to_nat k) as Hlen
    by apply length_positions.
  split_and!.
  - rewrite length_app, Hlen, length_replicate. lia.
  - intros i Hi. rewrite lookup_app_l by lia. by apply positions_lookup.
  - intros i Hi. rewrite lookup_app_r by lia. apply lookup_replicate_2. lia.
Qed.

End failure.

Section contract.
Context {D : Digest} {L : DigestLaws D}.
Implicit Types (b element : list byte) (bitlen hashqty : Z).

Lemma digest_ok_laws b : digest_ok b.
Proof. split; [apply digest_write_nil|]. rewrite digest_sum_length. lia. Qed.

(** Under the contract of [crypto/sha256], [hash] never fails for a
    non-zero [bitlen]: it returns the first eight bytes of the digest,
    read as a big-endian number, modulo [bitlen]. *)
Theorem hash_spec b bitlen :
  bitlen <> 0 ->
  hash b bitlen = Done (be_value (take 8 (digest_sum b)) mod bitlen, None).
Proof. intros. apply hash_digest_ok; [apply digest_ok_laws|done]. Qed.

(** C14. Under the contract of [crypto/sha256], [bitpositions] returns no
    error and exactly [hashqty] positions; the position of index [i] is
    below [bitlen] and is the number made of the first eight bytes of
    the digest of the element followed by the byte [i], modulo [bitlen]. *)
Theorem bitpositions_spec element hashqty bitlen :
  is_uint 8 hashqty -> 0 < bitlen ->
  exists pos,
    bitpositions element hashqty bitlen = Done (pos, None) /\
    length pos = Z.to_nat hashqty /\
    forall i : nat, Z.of_nat i < hashqty ->
      exists p, pos !! i = Some p /\ 0 <= p < bitlen /\
        p = be_value (take 8 (digest_sum (element ++ [Z_byte (Z.of_nat i)]))) mod bitlen.
Proof.
  intros Hqty Hbit. exists (positions element hashqty bitlen). split_and!.
  - apply bitpositions_eq; [done| |lia]. intros. apply digest_ok_laws.
  - apply length_positions.
  - intros i Hi. eexists. split; [by apply positions_lookup|].
    split; [by apply position_range|done].
Qed.

(** An error of [bitpositions] is the error of the [Write] of the
    buffer of one of its indices, for every digest. *)
Lemma bitpositions_error_inv element hashqty bitlen pos err :
  is_uint 8 hashqty ->
  bitpositions element hashqty bitlen = Done (pos, Some err) ->
  exists i, 0 <= i < hashqty /\ digest_write (buffer element i) = Some err.
Proof.
  intros Hq. rewrite bitpositions_unfold by done.
  intros (i & Hi%elem_of_seqZ & Hw)%collect_error_inv. exists i. split; [lia|done].
Qed.

(** With [bitlen = 0] and at least one hash function [bitpositions]
    panics: [hash] divides by zero. *)
Lemma bitpositions_bitlen_zero element hashqty :
  is_uint 8 hashqty -> 0 < hashqty ->
  bitpositions element hashqty 0 = Panicked panic_divide.
Proof.
  intros Hqty Hpos. rewrite bitpositions_unfold by done.
  rewrite seqZ_cons by done. cbn [collect].
  by rewrite hash_bitlen_zero by apply digest_ok_laws.
Qed.

End contract.

(** ** Instances used as witnesses *)

(** A digest whose [Write] fails on the buffers of index [k] and behaves
    as SHA-256 otherwise. *)
Definition failing_digest (k : byte) (err : error) : Digest := {|
  digest_write b := if decide (list.last b = Some k) then Some err else None;
  digest_sum := SHA256.sum256
|}.

Lemma hash_spec_witness :
  hash (list_byte_of_string "test") 1000000
  = Done (be_value (take 8 (digest_sum (list_byte_of_string "test"))) mod 1000000, None).
Proof. apply hash_spec. lia. Defined.

Lemma bitpositions_spec_witness :
  exists pos,
    bitpositions (list_byte_of_string "test") 4 48 = Done (pos, None) /\
    length pos = Z.to_nat 4 /\
    forall i : nat, Z.of_nat i < 4 ->
      exists p, pos !! i = Some p /\ 0 <= p < 48 /\
        p = be_value (take 8 (digest_sum
              (list_byte_of_string "test" ++ [Z_byte (Z.of_nat i)]))) mod 48.
Proof. apply bitpositions_spec; [unfold is_uint; lia|lia]. Defined.

Lemma bitpositions_fuel_witness :
  bitpositions_loop 300 (Z.of_nat (length (list_byte_of_string "test"))) 4 48 0
    (list_byte_of_string "test" ++ [Byte.x00]) (make 0 4)
  = bitpositions (list_byte_of_string "test") 4 48 /\
  bitpositions (list_byte_of_string "test") 4 48 <> Panicked panic_fuel.
Proof. apply bitpositions_fuel; [unfold is_uint; lia|lia]. Defined.

Example bitpositions_error_eq_test :
  @bitpositions (failing_digest Byte.x02 (error_Write "short write"))
    (list_byte_of_string "test") 4 48
  = Done (@positions (failing_digest Byte.x02 (error_Write "short write"))
            (list_byte_of_string "test") 2 48 ++ replicate (Z.to_nat (4 - 2)) 0,
          Some (error_Write "short write")).
Proof.
  apply (@bitpositions_error_eq (failing_digest Byte.x02 (error_Write "short write")));
    [unfold is_uint; lia| |done|lia|lia].
  intros i Hi. split; [|by rewrite length_sum256; lia].
  assert (i = 0 \/ i = 1) as [-> | ->] by lia; done.
Qed.

Lemma bitpositions_failure_witness :
  exists pos,
    @bitpositions (failing_digest Byte.x02 (error_Write "short write"))
      (list_byte_of_string "test") 4 48
    = Done (pos, Some (error_Write "short write")) /\
    length pos = Z.to_nat 4 /\
    (forall i : nat, Z.of_nat i < 2 ->
       pos !! i = Some (@position (failing_digest Byte.x02 (error_Write "short write"))
                          (list_byte_of_string "test") 48 (Z.of_nat i))) /\
    (forall i : nat, 2 <= Z.of_nat i < 4 -> pos !! i = Some 0).
Proof.
  apply (@bitpositions_failure (failing_digest Byte.x02 (error_Write "short write")));
    [unfold is_uint; lia|lia|lia| |done].
  intros i Hi. split; [|by rewrite length_sum256; lia].
  assert (i = 0 \/ i = 1) as [-> | ->] by lia; done.
Defined.

(** The positions of the repository's test [TestBitpositions]. *)
Lemma positions_test :
  positions (list_byte_of_string "test") 4 48 = [7; 36; 32; 37].
Proof. by vm_compute. Qed.
