(* ===== verification/Filter.v ===== *)
(** * The filter

    The struct [Filter] of [bloom.go] and its methods [Add], [Has],
    [MustAdd] and [MustHave].  A method with the receiver [bf *Filter]
    that mutates [bf.bitstore] returns the filter after the call.  The
    loops over the positions are recursions over the slice they range
    over; the bounds check of [bf.bitstore[index]] is Go's, and a failed
    check is a panic of the model.

    The theorems are stated for every instance of the digest interface.
    Those that say that an operation succeeds assume the digest's
    contract ([DigestLaws]) and the invariant [wf] of the filter, which
    [New] establishes and [Add] preserves. *)

From Stdlib Require Import Strings.Byte String Floats.
From stdpp Require Import base tactics list numbers.
From S2P Require Import Prelude Errors BitAddr Sha256 Hex Hash.
Set Warnings "-clear-no-such-hyp".

(** [type Filter struct] *)
Record Filter : Type := mkFilter {
  prob : float;          (* desired probability of false positives *)
  bitlen : Z;            (* uint64: bits needed to store n elements *)
  hashqty : Z;           (* byte: number of hash functions *)
  n : Z;                 (* uint32: elements the client intends to store *)
  bitstore : list Z      (* []uint64: the bit array, in buckets of 64 bits *)
}.

(** The filter after an assignment to the elements of [bf.bitstore]. *)
Definition with_bitstore (bf : Filter) (bs : list Z) : Filter :=
  mkFilter (prob bf) (bitlen bf) (hashqty bf) (n bf) bs.

Section methods.
Context {D : Digest}.

(** The loop of [Add]:
    [for _, p := range pos { index, offset := bitlocation(p, 64); mask = 1 << offset; bf.bitstore[index] |= mask }] *)
Fixpoint Add_loop (pos : list Z) (bs : list Z) : result (list Z) :=
  match pos with
  | [] => Done bs
  | p :: pos =>
      let '(index, offset) := bitlocation p 64 in
      let mask := shl64 1 offset in
      w ← read bs index;
      Add_loop pos (store bs index (Z.lor w mask))
  end.

(** [func (bf *Filter) Add(element []byte) error] *)
Definition Add (bf : Filter) (element : list byte) : result (Filter * option error) :=
  '(pos, err) ← bitpositions element (hashqty bf) (bitlen bf);
  match err with
  | Some _ => Done (bf, err)
  | None =>
      bs ← Add_loop pos (bitstore bf);
      Done (with_bitstore bf bs, None)
  end.

(** The loop of [Has], which returns [false] at the first clear bit:
    [for _, p := range pos { ...; if (bf.bitstore[index] & mask) == 0 { return false, nil } }] *)
Fixpoint Has_loop (pos : list Z) (bs : list Z) : result bool :=
  match pos with
  | [] => Done true
  | p :: pos =>
      let '(index, offset) := bitlocation p 64 in
      let mask := shl64 1 offset in
      w ← read bs index;
      if Z.land w mask =? 0 then Done false else Has_loop pos bs
  end.

(** [func (bf *Filter) Has(element []byte) (bool, error)] *)
Definition Has (bf : Filter) (element : list byte) : result (bool * option error) :=
  '(pos, err) ← bitpositions element (hashqty bf) (bitlen bf);
  match err with
  | Some _ => Done (false, err)
  | None =>
      isIn ← Has_loop pos (bitstore bf);
      Done (isIn, None)
  end.

(** [func (bf *Filter) MustAdd(element []byte)] *)
Definition MustAdd (bf : Filter) (element : list byte) : result Filter :=
  '(bf, err) ← Add bf element;
  match err with
  | Some err => Panicked (panic_error err)
  | None => Done bf
  end.

(** [func (bf *Filter) MustHave(element []byte) bool] *)
Definition MustHave (bf : Filter) (element : list byte) : result bool :=
  '(isIn, err) ← Has bf element;
  match err with
  | Some err => Panicked (panic_error err)
  | None => Done isIn
  end.

End methods.

(** ** The bit array

    The bit store read as an array of bits: bit [p] is bit [p mod 64] of
    bucket [p / 64], and is clear outside the store. *)

Definition bit (bs : list Z) (p : Z) : bool :=
  match index bs (p / 64) with
  | Some w => Z.testbit w (p mod 64)
  | None => false
  end.

(** One iteration of the loop of [Add], on a position inside the store. *)
Definition set_bit (bs : list Z) (p : Z) : list Z :=
  match index bs (p / 64) with
  | Some w => store bs (p / 64) (Z.lor w (2 ^ (p mod 64)))
  | None => bs
  end.

Definition set_bits (bs : list Z) (pos : list Z) : list Z := foldl set_bit bs pos.

(** A position that addresses a bit of the store. *)
Definition in_store (bs : list Z) (p : Z) : Prop :=
  0 <= p < 64 * Z.of_nat (length bs).

#[global] Instance in_store_dec bs p : Decision (in_store bs p).
Proof. unfold in_store. apply _. Defined.

(** ** The invariant *)

(** The fields are in the range of their types, the store has the
    buckets [New] allocates for [bitlen] bits, every bucket is a
    [uint64], and a filter that hashes has bits to hash into. *)
Record wf (bf : Filter) : Prop := {
  wf_hashqty : is_uint 8 (hashqty bf);
  wf_bitlen : is_uint 64 (bitlen bf);
  wf_n : is_uint 32 (n bf);
  wf_length : Z.of_nat (length (bitstore bf)) = buckets_for (bitlen bf);
  wf_buckets : Forall (is_uint 64) (bitstore bf);
  wf_usable : hashqty bf = 0 \/ 0 < bitlen bf
}.

#[global] Instance wf_dec bf : Decision (wf bf).
Proof.
  destruct (decide (is_uint 8 (hashqty bf) /\ is_uint 64 (bitlen bf) /\
                    is_uint 32 (n bf) /\
                    Z.of_nat (length (bitstore bf)) = buckets_for (bitlen bf) /\
                    Forall (is_uint 64) (bitstore bf) /\
                    (hashqty bf = 0 \/ 0 < bitlen bf))) as [H|H]; [left|right].
  - by destruct H as (? & ? & ? & ? & ? & ?).
  - intros []. by apply H.
Defined.

(** No bit at or beyond [bitlen] is set. *)
Definition tight (bf : Filter) : Prop :=
  forall q, bitlen bf <= q -> bit (bitstore bf) q = false.

(** ** Bits *)

Section bits.
Implicit Types (bs pos : list Z) (p q : Z).

Lemma in_store_index bs p : in_store bs p -> is_Some (index bs (p / 64)).
Proof. intros [H0 H1]. apply index_in_range. zdm. Qed.

Lemma bit_outside bs q : ~ in_store bs q -> bit bs q = false.
Proof.
  intros Hout. unfold bit. rewrite (proj2 (index_None bs (q / 64))); [done|].
  unfold in_store in Hout. zdm.
Qed.

Lemma length_set_bit bs p : length (set_bit bs p) = length bs.
Proof. unfold set_bit. case_match; [apply length_store|done]. Qed.

Lemma length_set_bits bs pos : length (set_bits bs pos) = length bs.
Proof.
  revert bs. induction pos as [|p pos IH]; intros bs; [done|].
  cbn. rewrite IH. apply length_set_bit.
Qed.

Lemma in_store_set_bit bs p q : in_store (set_bit bs p) q <-> in_store bs q.
Proof. unfold in_store. by rewrite length_set_bit. Qed.

Lemma in_store_set_bits bs pos q : in_store (set_bits bs pos) q <-> in_store bs q.
Proof. unfold in_store. by rewrite length_set_bits. Qed.

(** Two positions are equal when bucket and offset are. *)
Lemma position_eq p q : p = q <-> p / 64 = q / 64 /\ p mod 64 = q mod 64.
Proof. split; [by intros ->|]. intros [? ?]. zdm. Qed.

(** Setting bit [p] sets bit [p] and no other. *)
Lemma bit_set_bit bs p q :
  in_store bs p -> bit (set_bit bs p) q = bit bs q || bool_decide (p = q).
Proof.
  intros Hp. destruct (in_store_index bs p Hp) as [w Hw].
  unfold set_bit, bit. rewrite Hw. destruct Hp as [Hp0 Hp1].
  destruct (decide (p / 64 = q / 64)) as [Hi|Hi].
  - rewrite <- Hi, index_store_eq, Hw by zdm.
    rewrite testbit_lor_pow2 by zdm. f_equal.
    apply eq_true_iff_eq. rewrite Z.eqb_eq, bool_decide_eq_true, (position_eq p q). tauto.
  - rewrite index_store_ne by zdm.
    rewrite (bool_decide_eq_false_2 (p = q)) by (rewrite position_eq; tauto).
    by rewrite orb_false_r.
Qed.

Lemma bit_set_bits bs pos q :
  Forall (in_store bs) pos ->
  bit (set_bits bs pos) q = bit bs q || bool_decide (q ∈ pos).
Proof.
  revert bs. induction pos as [|p pos IH]; intros bs Hpos.
  - cbn. by rewrite orb_false_r.
  - apply Forall_cons_1 in Hpos as [Hp Hpos]. cbn [set_bits foldl].
    fold (set_bits (set_bit bs p) pos). rewrite IH.
    + rewrite bit_set_bit by done. rewrite <- orb_assoc. f_equal.
      apply eq_true_iff_eq. rewrite orb_true_iff, !bool_decide_eq_true, elem_of_cons.
      naive_solver.
    + eapply list.Forall_impl; [done|]. intros r ?. by apply in_store_set_bit.
Qed.

Lemma set_bit_uint bs p :
  Forall (is_uint 64) bs -> Forall (is_uint 64) (set_bit bs p).
Proof.
  intros Hbs. unfold set_bit. destruct (index bs (p / 64)) as [w|] eqn:Hw; [|done].
  apply index_Some in Hw as [? Hw]. apply Forall_insert; [done|].
  apply lor_pow2_range; [|zdm].
  by eapply Forall_lookup_1 in Hbs.
Qed.

Lemma set_bits_uint bs pos :
  Forall (is_uint 64) bs -> Forall (is_uint 64) (set_bits bs pos).
Proof.
  revert bs. induction pos as [|p pos IH]; intros bs Hbs; [done|].
  cbn. by apply IH, set_bit_uint.
Qed.

(** A store fresh from [make] has no bit set. *)
Lemma bit_make bs_len q : bit (make 0 bs_len) q = false.
Proof.
  unfold bit. destruct (index (make 0 bs_len) (q / 64)) as [w|] eqn:Hw; [|done].
  apply index_Some in Hw as [? Hw]. apply list_elem_of_lookup_2 in Hw.
  apply elem_of_replicate in Hw as [-> _]. apply Z.bits_0.
Qed.

Lemma make_uint bs_len : Forall (is_uint 64) (make 0 bs_len).
Proof. apply Forall_replicate. unfold is_uint. lia. Qed.

(** Bit [j] of bucket [i] is bit [64 * i + j] of the store. *)
Lemma bit_bucket bs (i : nat) j w :
  bs !! i = Some w -> 0 <= j < 64 -> bit bs (64 * Z.of_nat i + j) = Z.testbit w j.
Proof.
  intros Hw Hj. unfold bit.
  replace ((64 * Z.of_nat i + j) / 64) with (Z.of_nat i) by zdm.
  replace ((64 * Z.of_nat i + j) mod 64) with j by zdm.
  rewrite (proj2 (index_Some bs (Z.of_nat i) w)); [done|].
  split; [lia|by rewrite Nat2Z.id].
Qed.

(** A store is determined by its bits. *)
Lemma store_ext bs bs' :
  length bs = length bs' -> Forall (is_uint 64) bs -> Forall (is_uint 64) bs' ->
  (forall q, 0 <= q -> bit bs q = bit bs' q) -> bs = bs'.
Proof.
  intros Hlen Hu Hu' Hbits. apply (list_eq_same_length _ _ (length bs)); [done..|].
  intros i w w' _ Hw Hw'. apply Z.bits_inj'. intros j Hj.
  destruct (decide (j < 64)).
  - rewrite <- (bit_bucket bs i j w), <- (bit_bucket bs' i j w') by (done || lia).
    apply Hbits. lia.
  - rewrite !(testbit_uint_high 64 _ j); [done|lia| |lia|lia| |lia].
    + by eapply Forall_lookup_1 in Hu'.
    + by eapply Forall_lookup_1 in Hu.
Qed.

(** Setting a bit that is set changes nothing. *)
Lemma set_bit_id bs p : bit bs p = true -> set_bit bs p = bs.
Proof.
  unfold bit, set_bit. destruct (index bs (p / 64)) as [w|] eqn:Hw; [|done].
  intros Hb. apply store_id. rewrite Hw. f_equal.
  apply Z.bits_inj'. intros j Hj. rewrite testbit_lor_pow2 by zdm.
  destruct (Z.eqb_spec (p mod 64) j) as [<-|]; [by rewrite Hb|by rewrite orb_false_r].
Qed.

(** Two buckets updates commute, whether or not they hit the same bucket. *)
Lemma set_bit_commute bs p q : set_bit (set_bit bs p) q = set_bit (set_bit bs q) p.
Proof.
  unfold set_bit.
  destruct (index bs (p / 64)) as [wp|] eqn:Hp, (index bs (q / 64)) as [wq|] eqn:Hq;
    rewrite ?Hp, ?Hq; try done.
  - pose proof (proj1 (index_Some _ _ _) Hp) as [Hp0 Hp'].
    pose proof (proj1 (index_Some _ _ _) Hq) as [Hq0 Hq'].
    assert (p / 64 < Z.of_nat (length bs)) by (apply lookup_lt_Some in Hp'; lia).
    assert (q / 64 < Z.of_nat (length bs)) by (apply lookup_lt_Some in Hq'; lia).
    destruct (decide (p / 64 = q / 64)) as [Heq|Hne].
    + rewrite <- Heq in *. replace wq with wp by congruence.
      rewrite !index_store_eq, !store_store_eq by lia. f_equal. apply lor_pow2_comm.
    + rewrite !index_store_ne, Hp, Hq by done. by apply store_commute.
  - destruct (decide (p / 64 = q / 64)) as [Heq|Hne]; [congruence|].
    pose proof (proj1 (index_Some _ _ _) Hp) as [Hp0 _].
    by rewrite index_store_ne, Hq.
  - destruct (decide (p / 64 = q / 64)) as [Heq|Hne]; [congruence|].
    pose proof (proj1 (index_Some _ _ _) Hq) as [Hq0 _].
    by rewrite index_store_ne, Hp.
Qed.

Lemma set_bits_set_bit bs pos p : set_bits (set_bit bs p) pos = set_bit (set_bits bs pos) p.
Proof.
  revert bs. induction pos as [|q pos IH]; intros bs; [done|].
  cbn [set_bits foldl]. fold (set_bits (set_bit (set_bit bs p) q) pos).
  fold (set_bits (set_bit bs q) pos). by rewrite set_bit_commute, IH.
Qed.

Lemma set_bits_commute bs pos1 pos2 :
  set_bits (set_bits bs pos1) pos2 = set_bits (set_bits bs pos2) pos1.
Proof.
  revert bs. induction pos1 as [|p pos1 IH]; intros bs; [done|].
  cbn [set_bits foldl]. fold (set_bits (set_bit bs p) pos1).
  rewrite IH. fold (set_bits (set_bits bs pos2) (p :: pos1)).
  cbn [set_bits foldl]. fold (set_bits (set_bit (set_bits bs pos2) p) pos1).
  by rewrite set_bits_set_bit.
Qed.

Lemma set_bits_app bs pos1 pos2 :
  set_bits bs (pos1 ++ pos2) = set_bits (set_bits bs pos1) pos2.
Proof. apply foldl_app. Qed.

(** The order in which bits are set does not matter. *)
#[global] Instance set_bits_proper bs : Proper ((≡ₚ) ==> (=)) (set_bits bs).
Proof.
  intros pos1 pos2 Hperm. revert bs.
  induction Hperm as [|p pos1 pos2 _ IH|p q pos|pos1 pos2 pos3 _ IH1 _ IH2]; intros bs.
  - done.
  - apply (IH (set_bit bs p)).
  - cbn [set_bits foldl]. by rewrite set_bit_commute.
  - by rewrite IH1.
Qed.

(** Setting bits that are all set changes nothing. *)
Lemma set_bits_id bs pos : Forall (fun p => bit bs p = true) pos -> set_bits bs pos = bs.
Proof.
  induction pos as [|p pos IH]; [done|]. intros [Hp Hpos]%Forall_cons_1.
  cbn [set_bits foldl]. rewrite set_bit_id by done. by apply IH.
Qed.

End bits.

(** ** The loops *)

Section loops.
Context {D : Digest}.
Implicit Types (bs pos : list Z) (p q : Z).

(** A position the loops can process: a [uint64] that addresses a bit of
    the store. *)
Definition addressable (bs : list Z) (p : Z) : Prop := is_uint 64 p /\ in_store bs p.

Lemma addressable_read bs p :
  addressable bs p ->
  exists w, bitlocation p 64 = (p / 64, p mod 64) /\
            shl64 1 (p mod 64) = 2 ^ (p mod 64) /\
            index bs (p / 64) = Some w /\ read bs (p / 64) = Done w.
Proof.
  intros [Hu Hin]. destruct (in_store_index bs p Hin) as [w Hw]. exists w.
  split_and!; [by apply bitlocation_64|apply shl64_one; zdm|done|by apply read_Done].
Qed.

Lemma addressable_set_bit bs p q : addressable bs q -> addressable (set_bit bs p) q.
Proof. intros [? ?]. split; [done|by apply in_store_set_bit]. Qed.

Lemma Add_loop_cons bs p pos :
  addressable bs p -> Add_loop (p :: pos) bs = Add_loop pos (set_bit bs p).
Proof.
  intros (w & Hloc & Hmask & Hidx & Hread)%addressable_read.
  cbn [Add_loop]. rewrite Hloc, Hmask, Hread, bind_Done.
  unfold set_bit. by rewrite Hidx.
Qed.

Lemma Has_loop_cons bs p pos :
  addressable bs p ->
  Has_loop (p :: pos) bs = if bit bs p then Has_loop pos bs else Done false.
Proof.
  intros (w & Hloc & Hmask & Hidx & Hread)%addressable_read.
  cbn [Has_loop]. rewrite Hloc, Hmask, Hread, bind_Done.
  unfold bit. rewrite Hidx, land_pow2_eqb by zdm. by destruct (Z.testbit _ _).
Qed.

(** The loop of [Add] sets the bits of the positions, one after the other. *)
Lemma Add_loop_set_bits pos bs :
  Forall (addressable bs) pos -> Add_loop pos bs = Done (set_bits bs pos).
Proof.
  revert bs. induction pos as [|p pos IH]; intros bs Hpos; [done|].
  apply Forall_cons_1 in Hpos as [Hp Hpos]. rewrite Add_loop_cons by done.
  apply IH. eapply list.Forall_impl; [done|]. intros q. apply addressable_set_bit.
Qed.

(** The loop of [Has], with its early return, is the conjunction of the
    bits of the positions. *)
Lemma Has_loop_forallb pos bs :
  Forall (addressable bs) pos -> Has_loop pos bs = Done (forallb (bit bs) pos).
Proof.
  induction pos as [|p pos IH]; [done|]. intros [Hp Hpos]%Forall_cons_1.
  rewrite Has_loop_cons by done. cbn [forallb].
  destruct (bit bs p); [by apply IH|done].
Qed.

(** A position outside the store stops either loop with Go's
    index-out-of-range panic. *)
Lemma loops_out_of_range bs p pos :
  is_uint 64 p -> Z.of_nat (length bs) <= p / 64 ->
  Add_loop (p :: pos) bs = Panicked (panic_index (p / 64) (Z.of_nat (length bs))) /\
  Has_loop (p :: pos) bs = Panicked (panic_index (p / 64) (Z.of_nat (length bs))).
Proof.
  intros Hu Hout. cbn [Add_loop Has_loop]. rewrite bitlocation_64 by done.
  by rewrite read_out_of_range by lia.
Qed.

End loops.

(** ** The methods on a well-formed filter *)

Section wf.
Context {D : Digest} {L : DigestLaws D}.
Implicit Types (bf : Filter) (element : list byte) (q : Z).

(** The positions [Add] and [Has] derive for an element. *)
Definition filter_positions `{Digest} bf element : list Z :=
  positions element (hashqty bf) (bitlen bf).

Lemma wf_bitpositions bf element :
  wf bf ->
  bitpositions element (hashqty bf) (bitlen bf) = Done (filter_positions bf element, None).
Proof.
  intros Hwf. destruct (wf_usable bf Hwf) as [Hq|Hb].
  - unfold filter_positions. rewrite Hq. apply bitpositions_zero.
  - apply bitpositions_eq; [apply Hwf| |lia]. intros. apply digest_ok_laws.
Qed.

Lemma wf_in_store bf p : wf bf -> 0 <= p < bitlen bf -> addressable (bitstore bf) p.
Proof.
  intros Hwf Hp. pose proof (wf_bitlen bf Hwf) as Hb.
  pose proof (buckets_for_covers _ Hb). rewrite <- (wf_length bf Hwf) in *.
  destruct Hb. split; unfold is_uint, in_store; lia.
Qed.

(** The positions of an element are below [bitlen]. *)
Lemma wf_positions_range bf element :
  wf bf -> Forall (fun p => 0 <= p < bitlen bf) (filter_positions bf element).
Proof.
  intros Hwf. destruct (wf_usable bf Hwf) as [Hq|Hb].
  - unfold filter_positions. rewrite Hq. constructor.
  - by apply positions_range.
Qed.

Lemma wf_addressable bf element :
  wf bf -> Forall (addressable (bitstore bf)) (filter_positions bf element).
Proof.
  intros Hwf. eapply list.Forall_impl; [by apply wf_positions_range|].
  intros p Hp. by apply wf_in_store.
Qed.

Lemma wf_with_bitstore bf bs :
  wf bf -> length bs = length (bitstore bf) -> Forall (is_uint 64) bs ->
  wf (with_bitstore bf bs).
Proof. intros [] Hlen Hbs. split; cbn; try done. by rewrite Hlen. Qed.

Lemma wf_set_bits bf pos :
  wf bf -> wf (with_bitstore bf (set_bits (bitstore bf) pos)).
Proof.
  intros Hwf. apply wf_with_bitstore; [done|apply length_set_bits|].
  apply set_bits_uint, Hwf.
Qed.

(** [Add] and [Has] on a well-formed filter, as equations with the
    reference definitions [set_bits] and [forallb]. *)
Lemma Add_eq bf element :
  wf bf ->
  Add bf element
  = Done (with_bitstore bf (set_bits (bitstore bf) (filter_positions bf element)), None).
Proof.
  intros Hwf. unfold Add. rewrite wf_bitpositions by done. rewrite bind_Done.
  by rewrite Add_loop_set_bits by (by apply wf_addressable).
Qed.

Lemma Has_eq bf element :
  wf bf ->
  Has bf element
  = Done (forallb (bit (bitstore bf)) (filter_positions bf element), None).
Proof.
  intros Hwf. unfold Has. rewrite wf_bitpositions by done. rewrite bind_Done.
  by rewrite Has_loop_forallb by (by apply wf_addressable).
Qed.

(** The bits of the store after the positions of [element] are set. *)
Lemma bit_added bf element q :
  wf bf ->
  bit (set_bits (bitstore bf) (filter_positions bf element)) q
  = bit (bitstore bf) q || bool_decide (q ∈ filter_positions bf element).
Proof.
  intros Hwf. apply bit_set_bits.
  eapply list.Forall_impl; [by apply wf_addressable|]. by intros p [? ?].
Qed.

(** Every position of an added element is set. *)
Lemma bit_added_self bf element p :
  wf bf -> p ∈ filter_positions bf element ->
  bit (set_bits (bitstore bf) (filter_positions bf element)) p = true.
Proof.
  intros Hwf Hp. rewrite bit_added by done.
  rewrite bool_decide_eq_true_2 by done. apply orb_true_r.
Qed.

(** The positions of an element depend on the filter through [hashqty]
    and [bitlen] only, which no operation changes. *)
Lemma filter_positions_with_bitstore bf bs element :
  filter_positions (with_bitstore bf bs) element = filter_positions bf element.
Proof. done. Qed.

Lemma has_all_added bf element x :
  wf bf ->
  forallb (bit (bitstore bf)) (filter_positions bf element) = true ->
  forallb (bit (set_bits (bitstore bf) (filter_positions bf x)))
          (filter_positions bf element) = true.
Proof.
  intros Hwf Hall. apply forallb_elem_of. intros p Hp.
  rewrite bit_added by done. by rewrite (proj1 (forallb_elem_of _ _) Hall p Hp).
Qed.

(** [Has] finds an element in the filter [Add] of it leaves. *)
Lemma Has_added bf element :
  wf bf ->
  Has (with_bitstore bf (set_bits (bitstore bf) (filter_positions bf element))) element
  = Done (true, None).
Proof.
  intros Hwf. rewrite Has_eq by (by apply wf_set_bits). do 2 f_equal.
  rewrite filter_positions_with_bitstore. apply forallb_elem_of. intros p Hp.
  by apply bit_added_self.
Qed.

(** [Add] of an element to the filter [Add] of it leaves changes
    nothing. *)
Lemma Add_added bf element :
  wf bf ->
  Add (with_bitstore bf (set_bits (bitstore bf) (filter_positions bf element))) element
  = Done (with_bitstore bf (set_bits (bitstore bf) (filter_positions bf element)), None).
Proof.
  intros Hwf. rewrite Add_eq by (by apply wf_set_bits). do 2 f_equal.
  rewrite filter_positions_with_bitstore. unfold with_bitstore. cbn. f_equal.
  apply set_bits_id, list.Forall_forall. intros p Hp. by apply bit_added_self.
Qed.

(** On a well-formed filter, [MustAdd] followed by [MustHave] of the
    same element answers [true]. *)
Lemma MustAdd_MustHave bf element :
  wf bf -> MustAdd bf element ≫= (fun bf => MustHave bf element) = Done true.
Proof.
  intros Hwf. unfold MustAdd. rewrite Add_eq, !bind_Done by done.
  unfold MustHave. by rewrite Has_added.
Qed.

(** C2. On a well-formed filter [Add] neither panics nor returns an
    error.  The filter it leaves has the same parameters and as many
    buckets, and a bit of it is set exactly when it was set before or is
    one of the element's [hashqty] positions. *)
Theorem Add_spec bf element :
  wf bf ->
  exists bf',
    Add bf element = Done (bf', None) /\
    (prob bf', bitlen bf', hashqty bf', n bf') = (prob bf, bitlen bf, hashqty bf, n bf) /\
    length (bitstore bf') = length (bitstore bf) /\
    forall q, bit (bitstore bf') q
              = bit (bitstore bf) q || bool_decide (q ∈ filter_positions bf element).
Proof.
  intros Hwf. eexists. split; [by apply Add_eq|]. cbn.
  split_and!; [done|apply length_set_bits|]. intros q. by apply bit_added.
Qed.

(** C3. On a well-formed filter [Has] neither panics nor returns an
    error, and its answer is [true] exactly when the bit of every
    position of the element is set: the early return at the first clear
    bit does not change the answer. *)
Theorem Has_spec bf element :
  wf bf ->
  exists isIn,
    Has bf element = Done (isIn, None) /\
    (isIn = true <-> forall p, p ∈ filter_positions bf element -> bit (bitstore bf) p = true).
Proof.
  intros Hwf. eexists. split; [by apply Has_eq|]. apply forallb_elem_of.
Qed.

(** C4. [Add] preserves the invariant of the filter. *)
Theorem Add_wf bf element bf' err :
  wf bf -> Add bf element = Done (bf', err) -> wf bf'.
Proof.
  intros Hwf. rewrite Add_eq by done. intros [= <- <-]. by apply wf_set_bits.
Qed.

(** C1. No false negatives: on a well-formed filter [Add] succeeds, and
    [Has] of the same element on the filter it returns is [true]. *)
Theorem Has_after_Add bf element :
  wf bf ->
  exists bf', Add bf element = Done (bf', None) /\ Has bf' element = Done (true, None).
Proof.
  intros Hwf. eexists. split; [by apply Add_eq|]. by apply Has_added.
Qed.

(** Monotonicity: [Add] never clears a bit. *)
Theorem Add_monotone bf element bf' err q :
  wf bf -> Add bf element = Done (bf', err) ->
  bit (bitstore bf) q = true -> bit (bitstore bf') q = true.
Proof.
  intros Hwf. rewrite Add_eq by done. intros [= <- <-] Hq. cbn.
  by rewrite bit_added, Hq.
Qed.

(** What [Has] has answered [true] to, it answers [true] to after any
    further [Add]. *)
Theorem Has_stable bf element x bf' err :
  wf bf -> Has bf element = Done (true, None) -> Add bf x = Done (bf', err) ->
  Has bf' element = Done (true, None).
Proof.
  intros Hwf. rewrite Has_eq, Add_eq by done. intros [= Hall] [= <- <-].
  rewrite Has_eq by (by apply wf_set_bits). do 2 f_equal.
  rewrite filter_positions_with_bitstore. by apply has_all_added.
Qed.

(** Idempotence: adding an element a second time leaves the filter
    as the first [Add] made it. *)
Theorem Add_idempotent bf element bf' :
  wf bf -> Add bf element = Done (bf', None) -> Add bf' element = Done (bf', None).
Proof.
  intros Hwf. rewrite Add_eq by done. intros [= <-]. by apply Add_added.
Qed.

(** C22. The order of two [Add]s does not matter: both orders succeed and
    leave the same filter. *)
Theorem Add_commute bf x y :
  wf bf ->
  returns (MustAdd bf x ≫= (fun bf => MustAdd bf y)) /\
  MustAdd bf x ≫= (fun bf => MustAdd bf y) = MustAdd bf y ≫= (fun bf => MustAdd bf x).
Proof.
  intros Hwf. unfold MustAdd.
  rewrite (Add_eq bf x), (Add_eq bf y) by done. rewrite !bind_Done.
  rewrite !Add_eq by (by apply wf_set_bits). rewrite !bind_Done.
  split; [apply returns_Done|]. f_equal.
  rewrite !filter_positions_with_bitstore. unfold with_bitstore. cbn. f_equal.
  apply set_bits_commute.
Qed.

(** C23. [Add] keeps the bits at and beyond [bitlen] clear: the padding of
    the last bucket is never written. *)
Theorem Add_tight bf element bf' err :
  wf bf -> tight bf -> Add bf element = Done (bf', err) -> tight bf'.
Proof.
  intros Hwf Htight. rewrite Add_eq by done. intros [= <- <-] q Hq. cbn in *.
  rewrite bit_added, Htight by done.
  apply bool_decide_eq_false_2. intros Hin.
  pose proof (proj1 (list.Forall_forall _ _) (wf_positions_range bf element Hwf) q Hin).
  cbn in *. lia.
Qed.

(** On a well-formed filter the panicking variants do not panic:
    [MustAdd] returns the filter [Add] returns and [MustHave] the answer
    of [Has]. *)
Theorem Must_spec bf element :
  wf bf ->
  (exists bf', MustAdd bf element = Done bf' /\ Add bf element = Done (bf', None)) /\
  (exists isIn, MustHave bf element = Done isIn /\ Has bf element = Done (isIn, None)).
Proof.
  intros Hwf. unfold MustAdd, MustHave. rewrite Add_eq, Has_eq by done.
  split; eexists; by rewrite bind_Done.
Qed.

End wf.

(** ** Failures *)

Section failures.
Context {D : Digest}.
Implicit Types (bf : Filter) (element : list byte).

(** C34. When the digest's [Write] fails, at index [k] first, [Add] and
    [Has] return its error, [Has] with the answer [false]; the filter is
    unchanged, no bit having been written; [MustAdd] and [MustHave]
    panic with that error. *)
Theorem write_error_propagates bf element k err :
  is_uint 8 (hashqty bf) -> bitlen bf <> 0 -> 0 <= k < hashqty bf ->
  (forall i, 0 <= i < k -> digest_ok (buffer element i)) ->
  digest_write (buffer element k) = Some err ->
  Add bf element = Done (bf, Some err) /\
  Has bf element = Done (false, Some err) /\
  MustAdd bf element = Panicked (panic_error err) /\
  MustHave bf element = Panicked (panic_error err).
Proof.
  intros Hq Hb Hk Hok Herr. unfold MustAdd, MustHave, Add, Has.
  by rewrite (bitpositions_error_eq _ _ _ Hq k err).
Qed.

(** C35. The only error [Add] and [Has] return is an error of the
    digest's [Write] on the buffer of one of the indices, for every
    digest and every filter: the hexadecimal text of a digest always
    parses.  [Add] then returns the filter as it was and [Has] the
    answer [false]. *)
Theorem errors_are_write_errors bf element err :
  is_uint 8 (hashqty bf) ->
  (forall bf', Add bf element = Done (bf', Some err) ->
     bf' = bf /\
     exists i, 0 <= i < hashqty bf /\ digest_write (buffer element i) = Some err) /\
  (forall isIn, Has bf element = Done (isIn, Some err) ->
     isIn = false /\
     exists i, 0 <= i < hashqty bf /\ digest_write (buffer element i) = Some err).
Proof.
  intros Hq. unfold Add, Has.
  split; intros x ([pos e] & Hpos & Hrest)%bind_Done_inv; (destruct e as [e|];
    [injection Hrest as <- <-; split; [done|by eapply bitpositions_error_inv]|
     by apply bind_Done_inv in Hrest as (? & _ & [=])]).
Qed.

(** A filter without hash functions ([hashqty = 0]) computes no
    position: [Add] changes nothing and [Has] answers [true] for every
    element, whatever the digest and the store. *)
Theorem no_hash_functions bf element :
  hashqty bf = 0 ->
  Add bf element = Done (bf, None) /\ Has bf element = Done (true, None).
Proof.
  intros Hq. unfold Add, Has. rewrite Hq, bitpositions_zero, !bind_Done.
  cbn. by destruct bf.
Qed.

End failures.

Section panics.
Context {D : Digest} {L : DigestLaws D}.
Implicit Types (bf : Filter) (element : list byte).

(** A filter with hash functions and [bitlen = 0] panics in [Add] and
    in [Has]: [hash] divides by zero. *)
Theorem bitlen_zero_panics bf element :
  is_uint 8 (hashqty bf) -> 0 < hashqty bf -> bitlen bf = 0 ->
  Add bf element = Panicked panic_divide /\ Has bf element = Panicked panic_divide.
Proof.
  intros Hq Hpos Hb. unfold Add, Has. by rewrite Hb, bitpositions_bitlen_zero.
Qed.

(** C36. A filter whose store is shorter than its [bitlen] needs (which
    [New] never builds, but a struct literal can) panics in [Add] and in
    [Has] as soon as the first position falls outside the store, with
    Go's index-out-of-range. *)
Theorem short_store_panics bf element :
  is_uint 8 (hashqty bf) -> 0 < hashqty bf -> is_uint 64 (bitlen bf) -> 0 < bitlen bf ->
  Z.of_nat (length (bitstore bf)) <= position element (bitlen bf) 0 / 64 ->
  Add bf element
  = Panicked (panic_index (position element (bitlen bf) 0 / 64)
                          (Z.of_nat (length (bitstore bf)))) /\
  Has bf element
  = Panicked (panic_index (position element (bitlen bf) 0 / 64)
                          (Z.of_nat (length (bitstore bf)))).
Proof.
  intros Hq Hpos Hb Hbpos Hshort. unfold Add, Has.
  rewrite bitpositions_eq; [|done|intros; apply digest_ok_laws|lia].
  rewrite !bind_Done. unfold positions. rewrite seqZ_cons by done.
  cbn [fmap list_fmap].
  pose proof (position_range element (bitlen bf) 0 Hbpos) as Hp.
  assert (is_uint 64 (position element (bitlen bf) 0)) as Hu
    by (destruct Hb; unfold is_uint; lia).
  destruct (loops_out_of_range (bitstore bf) _
              (position element (bitlen bf) <$> seqZ (Z.succ 0) (Z.pred (hashqty bf)))
              Hu Hshort) as [-> ->].
  done.
Qed.

End panics.

(** ** Witnesses

    The filter of the repository's test [TestFilter_Add]: four hash
    functions, 48 bits, one bucket. *)

Definition test_filter : Filter := mkFilter 0 48 4 0 (make 0 1).

(** [solve_wf] proves the invariant of a closed filter by evaluation of
    its decision procedure. *)
Ltac solve_wf := apply (bool_decide_unpack _); vm_compute; exact I.

Lemma wf_test_filter : wf test_filter.
Proof. solve_wf. Qed.

Definition test_element : list byte := list_byte_of_string "test".

Lemma Add_spec_witness :
  exists bf',
    Add test_filter test_element = Done (bf', None) /\
    (prob bf', bitlen bf', hashqty bf', n bf')
    = (prob test_filter, bitlen test_filter, hashqty test_filter, n test_filter) /\
    length (bitstore bf') = length (bitstore test_filter) /\
    forall q, bit (bitstore bf') q
              = bit (bitstore test_filter) q
                || bool_decide (q ∈ filter_positions test_filter test_element).
Proof. apply (Add_spec test_filter test_element wf_test_filter). Defined.

Lemma Has_spec_witness :
  exists isIn,
    Has test_filter test_element = Done (isIn, None) /\
    (isIn = true <->
     forall p, p ∈ filter_positions test_filter test_element ->
               bit (bitstore test_filter) p = true).
Proof. apply (Has_spec test_filter test_element wf_test_filter). Defined.

Lemma Has_after_Add_witness :
  exists bf', Add test_filter test_element = Done (bf', None) /\
              Has bf' test_element = Done (true, None).
Proof. apply (Has_after_Add test_filter test_element wf_test_filter). Defined.

(** The filter after [Add] of ["test"], as the test expects it. *)
Definition added_filter : Filter := mkFilter 0 48 4 0 [210453397632].

Lemma Add_test_filter : Add test_filter test_element = Done (added_filter, None).
Proof. by vm_compute. Qed.

Lemma Add_wf_witness : wf added_filter.
Proof.
  apply (Add_wf test_filter test_element added_filter None wf_test_filter Add_test_filter).
Defined.

Lemma wf_added_filter : wf added_filter.
Proof. solve_wf. Qed.

(** A second element, and the filter after it is added as well: its
    positions are 23, 1, 1 and 1. *)
Definition other_element : list byte := list_byte_of_string "test1".

Definition both_filter : Filter := mkFilter 0 48 4 0 [210461786242].

Lemma Add_added_filter : Add added_filter other_element = Done (both_filter, None).
Proof. by vm_compute. Qed.

Lemma Has_added_filter : Has added_filter test_element = Done (true, None).
Proof. by vm_compute. Qed.

Lemma Add_monotone_witness :
  bit (bitstore added_filter) 7 = true /\ bit (bitstore both_filter) 7 = true.
Proof.
  split; [reflexivity|].
  apply (Add_monotone added_filter other_element both_filter None 7
           wf_added_filter Add_added_filter). reflexivity.
Defined.

Lemma Add_idempotent_witness : Add added_filter test_element = Done (added_filter, None).
Proof.
  apply (Add_idempotent test_filter test_element added_filter
           wf_test_filter Add_test_filter).
Defined.

Lemma Has_stable_witness : Has both_filter test_element = Done (true, None).
Proof.
  apply (Has_stable added_filter test_element other_element both_filter None
           wf_added_filter Has_added_filter Add_added_filter).
Defined.

Lemma Add_commute_witness :
  returns (MustAdd test_filter test_element
             ≫= (fun bf => MustAdd bf other_element)) /\
  MustAdd test_filter test_element ≫= (fun bf => MustAdd bf other_element)
  = MustAdd test_filter other_element ≫= (fun bf => MustAdd bf test_element).
Proof.
  apply (Add_commute test_filter test_element other_element wf_test_filter).
Defined.

(** A filter of one bucket whose value is below [2 ^ bitlen] has no bit
    set beyond [bitlen]. *)
Lemma tight_single prob bitlen hashqty n w :
  0 <= bitlen -> is_uint bitlen w -> tight (mkFilter prob bitlen hashqty n [w]).
Proof.
  intros Hb Hw q Hq. unfold bit. cbn [bitstore Filter.bitlen] in *.
  destruct (index [w] (q / 64)) as [w'|] eqn:Hw'; [|done].
  apply index_Some in Hw' as [? Hw']. apply list_lookup_singleton_Some in Hw' as [Hi <-].
  assert (q / 64 = 0) as Hq0 by lia.
  apply (testbit_uint_high bitlen); [done..|]. zdm.
Qed.

Lemma tight_test_filter : tight test_filter.
Proof. intros q _. apply bit_make. Qed.

Lemma Add_tight_witness : tight added_filter.
Proof.
  apply (Add_tight test_filter test_element added_filter None
           wf_test_filter tight_test_filter Add_test_filter).
Defined.

Lemma Must_spec_witness :
  (exists bf', MustAdd test_filter test_element = Done bf' /\
               Add test_filter test_element = Done (bf', None)) /\
  (exists isIn, MustHave test_filter test_element = Done isIn /\
                Has test_filter test_element = Done (isIn, None)).
Proof. apply (Must_spec test_filter test_element wf_test_filter). Defined.

Lemma write_error_propagates_witness :
  let D := failing_digest Byte.x02 (error_Write "short write") in
  Add test_filter test_element = Done (test_filter, Some (error_Write "short write")) /\
  Has test_filter test_element = Done (false, Some (error_Write "short write")) /\
  MustAdd test_filter test_element = Panicked (panic_error (error_Write "short write")) /\
  MustHave test_filter test_element = Panicked (panic_error (error_Write "short write")).
Proof.
  intros D.
  apply (@write_error_propagates D test_filter test_element 2 (error_Write "short write"));
    [unfold is_uint; cbn; lia|done|cbn; lia| |done].
  intros i Hi. split; [|by rewrite length_sum256; lia].
  assert (i = 0 \/ i = 1) as [-> | ->] by lia; done.
Defined.

Lemma errors_are_write_errors_witness :
  let D := failing_digest Byte.x02 (error_Write "short write") in
  (forall bf',
     Add test_filter test_element = Done (bf', Some (error_Write "short write")) ->
     bf' = test_filter /\
     exists i, 0 <= i < hashqty test_filter /\
               digest_write (buffer test_element i) = Some (error_Write "short write")) /\
  (forall isIn,
     Has test_filter test_element = Done (isIn, Some (error_Write "short write")) ->
     isIn = false /\
     exists i, 0 <= i < hashqty test_filter /\
               digest_write (buffer test_element i) = Some (error_Write "short write")).
Proof.
  intros D.
  apply (@errors_are_write_errors D test_filter test_element (error_Write "short write")).
  unfold is_uint. cbn. lia.
Defined.

Lemma no_hash_functions_witness :
  Add (mkFilter 1 0 0 10 []) test_element = Done (mkFilter 1 0 0 10 [], None) /\
  Has (mkFilter 1 0 0 10 []) test_element = Done (true, None).
Proof. by apply (no_hash_functions (mkFilter 1 0 0 10 []) test_element). Defined.

Lemma bitlen_zero_panics_witness :
  Add (mkFilter 0 0 4 0 []) test_element = Panicked panic_divide /\
  Has (mkFilter 0 0 4 0 []) test_element = Panicked panic_divide.
Proof.
  apply (bitlen_zero_panics (mkFilter 0 0 4 0 []) test_element);
    [unfold is_uint; cbn; lia|cbn; lia|done].
Defined.

Lemma short_store_panics_witness :
  Add (mkFilter 0 1000000 4 0 (make 0 1)) test_element
  = Panicked (panic_index (position test_element 1000000 0 / 64) 1) /\
  Has (mkFilter 0 1000000 4 0 (make 0 1)) test_element
  = Panicked (panic_index (position test_element 1000000 0 / 64) 1).
Proof.
  apply (short_store_panics (mkFilter 0 1000000 4 0 (make 0 1)) test_element);
    [unfold is_uint; cbn; lia|cbn; lia|unfold is_uint; cbn; lia|cbn; lia|by vm_compute].
Defined.
