(* ===== verification/Planner.v ===== *)
(** * Sizing and construction

    [optimalBitLen], [optimalHashQty] and [New] of [bloom.go].  The
    sizing functions compute in [float64]; the model computes in Rocq's
    primitive binary64 floats, whose operations are those of IEEE 754,
    so that the values of the repository's tests are obtained by
    evaluation.

    Three things come from outside the repository.  [math.Log] and
    [math.Ceil] are Go's library: the module [Math] follows the portable
    implementations of Go's [math] package ([log.go], [floor.go],
    [modf.go]) operation by operation, each operation rounded on its
    own: a platform on which Go uses an assembly routine or fuses a
    multiplication with an addition may differ in the last place.  The
    conversions [uint64(f)] and [byte(f)] of a float are defined by Go
    when the truncated value fits the type, and implementation-dependent
    otherwise: the results out of range are taken from the class
    [Conversions], and the theorems hold for each of its instances. *)

From Stdlib Require Import Strings.Byte String Floats Uint63.
From stdpp Require Import base tactics list numbers.
From S2P Require Import Prelude Errors BitAddr Sha256 Hex Hash Filter.
Set Warnings "-clear-no-such-hyp,-inexact-float".

(** ** Floats and integers *)

(** [float64(z)] for an integer below [2^63] in magnitude. *)
Definition float_of_Z (z : Z) : float :=
  if z <? 0 then (- of_uint63 (Uint63.of_Z (- z)))%float
  else of_uint63 (Uint63.of_Z z).

(** The integer a finite float denotes once its fraction is discarded;
    [None] for the infinities and NaN. *)
Definition trunc (f : float) : option Z :=
  match Prim2SF f with
  | S754_zero _ => Some 0
  | S754_finite s m e =>
      let magnitude := if 0 <=? e then Z.pos m * 2 ^ e else Z.pos m / 2 ^ (- e) in
      Some (if s then - magnitude else magnitude)
  | _ => None
  end.

(** The results of the conversions Go leaves to the implementation. *)
Class Conversions : Type := {
  uint64_out_of_range : float -> Z;
  byte_out_of_range : float -> Z
}.

Section conversions.
Context {C : Conversions}.

(** [uint64(f)] *)
Definition uint64_of_float (f : float) : Z :=
  match trunc f with
  | Some z => if decide (is_uint 64 z) then z else u64 (uint64_out_of_range f)
  | None => u64 (uint64_out_of_range f)
  end.

(** [byte(f)] *)
Definition byte_of_float (f : float) : Z :=
  match trunc f with
  | Some z => if decide (is_uint 8 z) then z else u8 (byte_out_of_range f)
  | None => u8 (byte_out_of_range f)
  end.

End conversions.

(** ** Go's package [math] *)

Module Math.
Local Open Scope float_scope.

(** The constants of [log.go], by their bits. *)
Definition Ln2Hi : float := 0x1.62e42feep-1.
Definition Ln2Lo : float := 0x1.a39ef35793c76p-33.
Definition L1 : float := 0x1.5555555555593p-1.
Definition L2 : float := 0x1.999999997fa04p-2.
Definition L3 : float := 0x1.2492494229359p-2.
Definition L4 : float := 0x1.c71c51d8e78afp-3.
Definition L5 : float := 0x1.7466496cb03dep-3.
Definition L6 : float := 0x1.39a09d078c69fp-3.
Definition L7 : float := 0x1.2f112df3e5244p-3.

(** [Sqrt2/2] rounded to [float64]. *)
Definition Sqrt2_half : float := 0x1.6a09e667f3bcdp-1.

(** [math.Log]: the special cases, the reduction of [x] to
    [2^k * (1 + f)] with [sqrt(2)/2 <= 1 + f < sqrt(2)], and the
    polynomial. *)
Definition Log (x : float) : float :=
  if is_nan x || (x =? infinity) then x
  else if x <? 0 then nan
  else if x =? 0 then neg_infinity
  else
    let '(f1, ki) := Z.frexp x in
    let '(f1, ki) := if f1 <? Sqrt2_half then (f1 * 2, (ki - 1)%Z) else (f1, ki) in
    let f := f1 - 1 in
    let k := float_of_Z ki in
    let s := f / (2 + f) in
    let s2 := s * s in
    let s4 := s2 * s2 in
    let t1 := s2 * (L1 + s4 * (L3 + s4 * (L5 + s4 * L7))) in
    let t2 := s4 * (L2 + s4 * (L4 + s4 * L6)) in
    let R := t1 + t2 in
    let hfsq := 0.5 * f * f in
    k * Ln2Hi - ((hfsq - (s * (hfsq + R) + k * Ln2Lo)) - f).

(** [math.Modf] on a float that is not negative: the integer part and
    the fraction. *)
Definition Modf_nonneg (f : float) : float * float :=
  if f <? 1 then (if f =? 0 then (f, f) else (0, f))
  else
    let int :=
      match Prim2SF f with
      | S754_finite _ m e => if (0 <=? e)%Z then f else float_of_Z (Z.pos m / 2 ^ (- e))
      | _ => f
      end in
    (int, f - int).

(** [math.Modf] *)
Definition Modf (f : float) : float * float :=
  if f <? 0 then let '(int, frac) := Modf_nonneg (- f) in (- int, - frac)
  else Modf_nonneg f.

(** [math.Floor] *)
Definition Floor (x : float) : float :=
  if (x =? 0) || is_nan x || is_infinity x then x
  else if x <? 0 then
    let '(d, fract) := Modf (- x) in
    let d := if negb (fract =? 0) then d + 1 else d in
    - d
  else (Modf x).1.

(** [math.Ceil]: [-Floor(-x)] *)
Definition Ceil (x : float) : float := - Floor (- x).

End Math.

(** ** The sizing functions *)

Section planner.
Context {C : Conversions}.
Local Open Scope float_scope.

(** [func optimalBitLen(n uint32, prob float64) uint64] *)
Definition optimalBitLen (n : Z) (prob : float) : Z :=
  let ln2 := Math.Log 2 in
  let optLen := (- float_of_Z n) * Math.Log prob / (ln2 * ln2) in
  uint64_of_float (Math.Ceil optLen).

(** [func optimalHashQty(prob float64) byte] *)
Definition optimalHashQty (prob : float) : Z :=
  let optQty := (- Math.Log prob) / Math.Log 2 in
  byte_of_float (Math.Ceil optQty).

(** [func New(n uint32, prob float64)], which returns a pointer to a
    [Filter] and an [error]; the [nil] pointer is [None]. *)
Definition New (n : Z) (prob : float) : option Filter * option error :=
  if (n =? 0)%Z then (None, Some (error_Error ErrZeroElements))
  else if prob <=? 0 then (None, Some (error_Error ErrProbability))
  else
    let hashqty := optimalHashQty prob in
    let bitlen := optimalBitLen n prob in
    let buckets := buckets_for bitlen in
    (Some (mkFilter prob bitlen hashqty n (make 0%Z buckets)), None).

End planner.

(** The sizes before the conversions, where they are numbers. *)
Definition sizes (n : Z) (prob : float) : option (Z * Z) :=
  match trunc (Math.Ceil ((- float_of_Z n) * Math.Log prob / (Math.Log 2 * Math.Log 2))%float),
        trunc (Math.Ceil ((- Math.Log prob) / Math.Log 2)%float) with
  | Some bitlen, Some hashqty => Some (bitlen, hashqty)
  | _, _ => None
  end.

(** A check of the arguments of [New] that can be run: the number of
    elements is a [uint32] that is not zero, the probability passes the
    guard, and the sizes fit their types, with at least a bit for each
    element and at least one hash function. *)
Definition sane (n : Z) (prob : float) : bool :=
  match sizes n prob with
  | Some (bitlen, hashqty) =>
      (1 <=? n)%Z && (n <? 2 ^ 32)%Z && negb (prob <=? 0)%float &&
      (n <=? bitlen)%Z && (bitlen <? 2 ^ 64)%Z && (1 <=? hashqty)%Z && (hashqty <? 2 ^ 8)%Z
  | None => false
  end.

(** The probabilities and the numbers of elements of the grid on which
    the check is run: every number up to 2048, the powers of two and the
    largest [uint32]. *)
Definition grid_probs : list float :=
  [0.5; 0.25; 0.1; 0.05; 0.01; 0.001; 0.0001; 0.000000001]%float.

Definition grid_sizes : list Z :=
  seqZ 1 2048 ++ ((fun k => 2 ^ k)%Z <$> seqZ 12 20) ++ [2 ^ 32 - 1]%Z.

(** An implementation that converts out of range by truncating the
    integer to the width of the type, and gives 0 for what is no number. *)
Definition wrapping : Conversions := {|
  uint64_out_of_range f := default 0 (trunc f);
  byte_out_of_range f := default 0 (trunc f)
|}.

(** An implementation that saturates at the bounds of the type. *)
Definition saturating : Conversions := {|
  uint64_out_of_range f := if (f <? 0)%float then 0 else 2 ^ 64 - 1;
  byte_out_of_range f := if (f <? 0)%float then 0 else 2 ^ 8 - 1
|}.

(** ** The conversions *)

Section ranges.
Context {C : Conversions}.

Lemma uint64_of_float_range f : is_uint 64 (uint64_of_float f).
Proof. unfold uint64_of_float. repeat case_match; auto using u64_range. Qed.

Lemma byte_of_float_range f : is_uint 8 (byte_of_float f).
Proof. unfold byte_of_float. repeat case_match; auto using u8_range. Qed.

(** Where Go defines the conversion, no instance is consulted. *)
Lemma uint64_of_float_defined f z :
  trunc f = Some z -> is_uint 64 z -> uint64_of_float f = z.
Proof. intros Hf Hz. unfold uint64_of_float. by rewrite Hf, decide_True. Qed.

Lemma byte_of_float_defined f z :
  trunc f = Some z -> is_uint 8 z -> byte_of_float f = z.
Proof. intros Hf Hz. unfold byte_of_float. by rewrite Hf, decide_True. Qed.

Lemma optimalBitLen_range n prob : is_uint 64 (optimalBitLen n prob).
Proof. apply uint64_of_float_range. Qed.

Lemma optimalHashQty_range prob : is_uint 8 (optimalHashQty prob).
Proof. apply byte_of_float_range. Qed.

End ranges.

#[export] Hint Resolve @optimalBitLen_range @optimalHashQty_range : bloom.

(** ** [New] *)

Section New.
Context {C : Conversions}.
Implicit Types (n : Z) (prob : float) (bf : Filter).

Lemma New_unfold n prob :
  n <> 0 -> (prob <=? 0)%float = false ->
  New n prob
  = (Some (mkFilter prob (optimalBitLen n prob) (optimalHashQty prob) n
             (make 0 (buckets_for (optimalBitLen n prob)))), None).
Proof.
  intros Hn Hp. unfold New. by rewrite (proj2 (Z.eqb_neq n 0)), Hp.
Qed.

Lemma buckets_for_nonneg bitlen : is_uint 64 bitlen -> 0 <= buckets_for bitlen.
Proof. intros H. pose proof (buckets_for_covers bitlen H). destruct H. lia. Qed.

Lemma length_new_store bitlen :
  is_uint 64 bitlen -> Z.of_nat (length (make 0 (buckets_for bitlen))) = buckets_for bitlen.
Proof. intros H. rewrite length_make. pose proof (buckets_for_nonneg _ H). lia. Qed.

(** The invariant of a filter with a fresh store. *)
Lemma wf_fresh prob bitlen hashqty n :
  is_uint 8 hashqty -> is_uint 64 bitlen -> is_uint 32 n ->
  hashqty = 0 \/ 0 < bitlen ->
  wf (mkFilter prob bitlen hashqty n (make 0 (buckets_for bitlen))).
Proof.
  intros. split; cbn; [done..|by apply length_new_store|apply make_uint|done].
Qed.

(** [New] on sizes that are known. *)
Lemma New_value n prob bitlen hashqty :
  n <> 0 -> (prob <=? 0)%float = false ->
  optimalBitLen n prob = bitlen -> optimalHashQty prob = hashqty ->
  New n prob = (Some (mkFilter prob bitlen hashqty n (make 0 (buckets_for bitlen))), None).
Proof. intros Hn Hp <- <-. by apply New_unfold. Qed.

(** What a successful [New] has done. *)
Lemma New_inv n prob bf :
  New n prob = (Some bf, None) ->
  n <> 0 /\ (prob <=? 0)%float = false /\
  bf = mkFilter prob (optimalBitLen n prob) (optimalHashQty prob) n
         (make 0 (buckets_for (optimalBitLen n prob))).
Proof.
  unfold New. destruct (Z.eqb_spec n 0); [done|].
  destruct (prob <=? 0)%float; [done|]. intros [= <-]. done.
Qed.

(** [New] refuses a zero number of elements with [ErrZeroElements],
    whatever the probability, and otherwise a probability that is not
    positive with [ErrProbability]; no filter is returned. *)
Theorem New_errors n prob :
  New 0 prob = (None, Some (error_Error ErrZeroElements)) /\
  (n <> 0 -> (prob <=? 0)%float = true ->
   New n prob = (None, Some (error_Error ErrProbability))).
Proof.
  split; [done|]. intros Hn Hp. unfold New.
  by rewrite (proj2 (Z.eqb_neq n 0)), Hp.
Qed.

(** C17. For a number of elements that is not zero and a probability that
    passes the guard, [New] returns no error and a filter that records
    both, has the hash count and bit length the sizing functions give,
    a store of [bitlen / 64] buckets rounded up, and no bit set. *)
Theorem New_spec n prob :
  n <> 0 -> (prob <=? 0)%float = false ->
  exists bf,
    New n prob = (Some bf, None) /\
    (Filter.n bf, Filter.prob bf) = (n, prob) /\
    hashqty bf = optimalHashQty prob /\
    bitlen bf = optimalBitLen n prob /\
    Z.of_nat (length (bitstore bf)) = (bitlen bf + 63) / 64 /\
    forall q, bit (bitstore bf) q = false.
Proof.
  intros Hn Hp. eexists. split; [by apply New_unfold|]. cbn.
  split_and!; try done.
  - rewrite length_new_store, buckets_for_ceil by apply optimalBitLen_range. done.
  - intros q. apply bit_make.
Qed.

(** A filter returned by [New] satisfies the invariant of the
    filter, with no bit set at or beyond [bitlen], provided the sizing
    gave it bits to hash into or no hash function at all. *)
Theorem New_wf n prob bf :
  is_uint 32 n -> New n prob = (Some bf, None) ->
  hashqty bf = 0 \/ 0 < bitlen bf ->
  wf bf /\ tight bf.
Proof.
  intros Hn32 (_ & _ & ->)%New_inv Husable. split.
  - apply wf_fresh; auto with bloom.
  - intros q _. apply bit_make.
Qed.

End New.

Section fresh.
Context {D : Digest} {L : DigestLaws D}.
Implicit Types (n : Z) (prob : float) (bf : Filter) (element : list byte).

(** A filter with a fresh store and at least one hash function reports
    nothing. *)
Lemma Has_fresh prob bitlen hashqty n element :
  wf (mkFilter prob bitlen hashqty n (make 0 (buckets_for bitlen))) ->
  0 < hashqty -> 0 < bitlen ->
  Has (mkFilter prob bitlen hashqty n (make 0 (buckets_for bitlen))) element
  = Done (false, None).
Proof.
  intros Hwf Hq Hb. rewrite Has_eq by done. do 2 f_equal.
  unfold filter_positions, positions. cbn [Filter.hashqty Filter.bitlen Filter.bitstore].
  rewrite seqZ_cons by done. cbn [fmap list_fmap forallb]. by rewrite bit_make.
Qed.

End fresh.

Section New_use.
Context {C : Conversions} {D : Digest} {L : DigestLaws D}.
Implicit Types (n : Z) (prob : float) (bf : Filter) (element : list byte).

(** A filter fresh from [New] that has hash functions reports no
    element: [Has] answers [false], without error. *)
Theorem New_Has n prob bf element :
  is_uint 32 n -> New n prob = (Some bf, None) ->
  0 < hashqty bf -> 0 < bitlen bf ->
  Has bf element = Done (false, None).
Proof.
  intros Hn32 (_ & _ & ->)%New_inv Hq Hb.
  apply Has_fresh; [apply wf_fresh|..]; auto with bloom.
Qed.

(** The use the package documents: a filter from [New], [MustAdd] of
    an element, then [MustHave] of it, runs without panic and answers
    [true]. *)
Theorem New_MustAdd_MustHave n prob bf element :
  is_uint 32 n -> New n prob = (Some bf, None) ->
  hashqty bf = 0 \/ 0 < bitlen bf ->
  MustAdd bf element ≫= (fun bf => MustHave bf element) = Done true.
Proof.
  intros Hn32 (_ & _ & ->)%New_inv Husable.
  apply MustAdd_MustHave, wf_fresh; auto with bloom.
Qed.

End New_use.

(** ** The theorems at concrete inputs *)

(** Where the sizing stays in range, its value is the same under every
    instance of [Conversions]. *)
Lemma optimalBitLen_defined `{C : Conversions} n prob z :
  trunc (Math.Ceil ((- float_of_Z n) * Math.Log prob / (Math.Log 2 * Math.Log 2))) = Some z ->
  is_uint 64 z -> optimalBitLen n prob = z.
Proof. apply uint64_of_float_defined. Qed.

Lemma optimalHashQty_defined `{C : Conversions} prob z :
  trunc (Math.Ceil ((- Math.Log prob) / Math.Log 2)) = Some z ->
  is_uint 8 z -> optimalHashQty prob = z.
Proof. apply byte_of_float_defined. Qed.

Ltac sizing :=
  lazymatch goal with
  | |- optimalBitLen _ _ = _ => apply optimalBitLen_defined
  | |- optimalHashQty _ = _ => apply optimalHashQty_defined
  end;
  [vm_compute; reflexivity | unfold is_uint; lia].

(** The filter of the package's example for six elements at 1%. *)
Definition new_filter : Filter := mkFilter 0.01 58 7 6 (make 0 1).

Lemma New_new_filter `{C : Conversions} : New 6 0.01 = (Some new_filter, None).
Proof. apply New_value; [done..|sizing|sizing]. Qed.

Lemma wf_new_filter : wf new_filter.
Proof. solve_wf. Qed.

Lemma New_errors_witness :
  @New wrapping 0 0.01 = (None, Some (error_Error ErrZeroElements)) /\
  @New wrapping 6 (-0.5) = (None, Some (error_Error ErrProbability)).
Proof.
  destruct (@New_errors wrapping 6 (-0.5)%float) as [_ H].
  split; [apply (@New_errors wrapping 6 0.01)|apply H; [lia|reflexivity]].
Defined.

Lemma New_spec_witness :
  exists bf,
    @New wrapping 6 0.01 = (Some bf, None) /\
    (Filter.n bf, Filter.prob bf) = (6, 0.01%float) /\
    hashqty bf = @optimalHashQty wrapping 0.01 /\
    bitlen bf = @optimalBitLen wrapping 6 0.01 /\
    Z.of_nat (length (bitstore bf)) = (bitlen bf + 63) / 64 /\
    forall q, bit (bitstore bf) q = false.
Proof. apply (@New_spec wrapping 6 0.01); [lia|reflexivity]. Defined.

Lemma New_wf_witness : wf new_filter /\ tight new_filter.
Proof.
  apply (@New_wf wrapping 6 0.01 new_filter);
    [unfold is_uint; lia|apply New_new_filter|right; reflexivity].
Defined.

Lemma New_Has_witness :
  Has new_filter test_element = Done (false, None).
Proof.
  apply (@New_Has wrapping sha256_digest sha256_laws 6 0.01 new_filter);
    [unfold is_uint; lia|apply New_new_filter|reflexivity..].
Defined.

Lemma New_MustAdd_MustHave_witness :
  MustAdd new_filter test_element ≫= (fun bf => MustHave bf test_element) = Done true.
Proof.
  apply (@New_MustAdd_MustHave wrapping sha256_digest sha256_laws 6 0.01 new_filter);
    [unfold is_uint; lia|apply New_new_filter|right; reflexivity].
Defined.

(** ** Arguments that are checked *)

Section sane.
Context {C : Conversions}.

(** What the check establishes of the sizing functions, whatever the
    conversions do out of range. *)
Lemma sane_sized n prob :
  sane n prob = true ->
  exists b q,
    sizes n prob = Some (b, q) /\ optimalBitLen n prob = b /\ optimalHashQty prob = q /\
    1 <= n < 2 ^ 32 /\ (prob <=? 0)%float = false /\ n <= b < 2 ^ 64 /\ 1 <= q < 2 ^ 8.
Proof.
  unfold sane, sizes.
  destruct (trunc (Math.Ceil
              (- float_of_Z n * Math.Log prob / (Math.Log 2 * Math.Log 2))%float))
    as [b|] eqn:Hb; [|done].
  destruct (trunc (Math.Ceil (- Math.Log prob / Math.Log 2)%float)) as [q|] eqn:Hq; [|done].
  rewrite !andb_true_iff, negb_true_iff. intros [[[[[[H1 H2] Hp] H3] H4] H5] H6].
  exists b, q. split_and!; try lia; try done.
  - apply optimalBitLen_defined; [done|unfold is_uint; lia].
  - apply optimalHashQty_defined; [done|unfold is_uint; lia].
Qed.

(** The filter [New] makes of arguments that pass the check. *)
Lemma sane_New n prob :
  sane n prob = true ->
  exists b q,
    sizes n prob = Some (b, q) /\ n <= b /\ 1 <= q /\
    New n prob = (Some (mkFilter prob b q n (make 0 (buckets_for b))), None) /\
    wf (mkFilter prob b q n (make 0 (buckets_for b))).
Proof.
  intros (b & q & Hs & Hb & Hq & Hn & Hp & Hbr & Hqr)%sane_sized.
  exists b, q. split_and!; [done|lia..| |].
  - apply New_value; [lia|done..].
  - apply wf_fresh; unfold is_uint; lia.
Qed.

(** The check [sane] is sound: arguments that pass it give, under
    every implementation of the conversions, a filter and no error,
    and the filter is well formed, with at least a bit for each element
    and at least one hash function. *)
Theorem New_sane n prob :
  sane n prob = true ->
  exists bf, New n prob = (Some bf, None) /\ wf bf /\ n <= bitlen bf /\ 1 <= hashqty bf.
Proof.
  intros (b & q & _ & Hb & Hq & HNew & Hwf)%sane_New.
  eexists. split_and!; [exact HNew|exact Hwf|done..].
Qed.

(** The check passes on the whole grid. *)
Lemma grid_sane :
  forallb (fun prob => forallb (fun n => sane n prob) grid_sizes) grid_probs = true.
Proof. by vm_compute. Qed.

(** On the grid [New] sizes every filter as intended. *)
Theorem New_grid n prob :
  n ∈ grid_sizes -> prob ∈ grid_probs ->
  exists bf, New n prob = (Some bf, None) /\ wf bf /\ n <= bitlen bf /\ 1 <= hashqty bf.
Proof.
  intros Hn Hprob. pose proof grid_sane as Hgrid. rewrite forallb_elem_of in Hgrid.
  specialize (Hgrid prob Hprob). rewrite forallb_elem_of in Hgrid.
  destruct (sane_New n prob (Hgrid n Hn)) as (b & q & _ & Hb & Hq & HNew & Hwf).
  eexists. split_and!; [exact HNew|exact Hwf|done..].
Qed.

End sane.

Lemma New_sane_witness :
  exists bf, @New wrapping 6 0.01 = (Some bf, None) /\ wf bf /\ 6 <= bitlen bf /\
             1 <= hashqty bf.
Proof. apply (@New_sane wrapping 6 0.01). by vm_compute. Defined.

(** ** The edges of the sizing

    Inputs that pass the guards of [New] and leave the range the
    package intends. *)

Section edges.
Context {C : Conversions}.

(** A probability of 1 passes the guards of [New].  The filter it
    returns has no bit, no bucket and no hash function, and [Has]
    answers [true] on it for every element. *)
Theorem New_prob_one `{D : Digest} element :
  New 1000 1 = (Some (mkFilter 1 0 0 1000 []), None) /\
  Has (mkFilter 1 0 0 1000 []) element = Done (true, None).
Proof.
  split.
  - apply (New_value 1000 1 0 0); [done..|sizing|sizing].
  - unfold Has. cbn [Filter.hashqty Filter.bitlen Filter.bitstore].
    by rewrite bitpositions_zero.
Qed.

(** The bit length can be smaller than the number of elements: ten
    elements at a probability of 0.9 get three bits. *)
Theorem optimalBitLen_below_n : optimalBitLen 10 0.9 = 3.
Proof. sizing. Qed.

(** NaN passes the guards of [New], being neither zero elements nor
    a probability [<= 0]: the sizes of the filter are then those of the
    conversions of NaN, which Go leaves to the implementation. *)
Theorem New_nan :
  exists bf,
    New 3 nan = (Some bf, None) /\
    bitlen bf = u64 (uint64_out_of_range nan) /\
    hashqty bf = u8 (byte_out_of_range nan).
Proof. eexists. split; [by apply New_unfold|]. done. Qed.

(** The guard [prob <= 0] of [New] lets through the positive numbers,
    [+Inf] included, and NaN, and nothing else. *)
Lemma leb_zero_false (x : float) :
  (x <=? 0)%float = false <-> is_nan x = true \/ (0 <? x)%float = true.
Proof.
  unfold is_nan. rewrite FloatAxioms.leb_spec, FloatAxioms.ltb_spec, FloatAxioms.eqb_spec.
  change (Prim2SF 0) with (S754_zero false).
  destruct (Prim2SF x) as [[]|[]| |[] m e];
    unfold SFleb, SFltb, SFeqb, SFcompare;
    rewrite ?Z.compare_refl, ?Pos.compare_cont_refl; cbn; intuition congruence.
Qed.

(** C37. [New] returns a filter exactly when the number of elements is not
    zero and the probability is a positive number or NaN: the guard
    [prob <= 0] refuses zero of either sign, the negative numbers and
    [-Inf], and nothing else. *)
Theorem New_accepts n prob :
  (exists bf, New n prob = (Some bf, None)) <->
  n <> 0 /\ (is_nan prob = true \/ (0 <? prob)%float = true).
Proof.
  rewrite <- leb_zero_false. split.
  - intros [bf (? & ? & _)%New_inv]. done.
  - intros [Hn Hp]. eexists. by apply New_unfold.
Qed.

End edges.

(** [optimalHashQty] does not clamp: at a probability of [1e-100]
    the count before the conversion is 333, which no byte holds, and
    the result differs between implementations of the conversion. *)
Theorem optimalHashQty_unclamped :
  trunc (Math.Ceil ((- Math.Log 1e-100) / Math.Log 2)) = Some 333 /\
  @optimalHashQty wrapping 1e-100 = 77 /\
  @optimalHashQty saturating 1e-100 = 255.
Proof. by vm_compute. Qed.

(** A probability above 1 passes the guard of [New] as well.  The sizes
    before the conversions are then negative, -1442 and -1 for 1000
    elements at a probability of 2, and the filter depends on the
    implementation of the conversions: where they wrap it has 255 hash
    functions and a store of 288230376151711722 buckets, more than two
    exabytes; where they saturate it has no bit and no hash function. *)
Theorem New_prob_two :
  sizes 1000 2 = Some (-1442, -1) /\
  (exists bf, @New wrapping 1000 2 = (Some bf, None) /\
              bitlen bf = 2 ^ 64 - 1442 /\ hashqty bf = 255 /\
              Z.of_nat (length (bitstore bf)) = 288230376151711722) /\
  @New saturating 1000 2 = (Some (mkFilter 2 0 0 1000 []), None).
Proof.
  split_and!.
  - by vm_compute.
  - eexists. split; [apply (New_value 1000 2 (2 ^ 64 - 1442) 255); by vm_compute|].
    cbn [bitlen hashqty bitstore]. split_and!; [done..|].
    rewrite length_new_store; [by vm_compute|unfold is_uint; lia].
  - apply (New_value 1000 2 0 0); by vm_compute.
Qed.
