(* ===== verification/Alloc.v ===== *)
(** * The allocation of the store

    [New] allocates the store with [make([]uint64, buckets)], where
    [buckets] is a [uint64] computed from the arguments.  Go's runtime
    refuses a length that is negative as an [int] or that needs more
    bytes than it can address ([maxAlloc], 2^48 on the 64-bit
    platforms) with the panic [makeslice: len out of range].  [New_on]
    is [New] with that allocation in place of the total [make] of
    [Planner.v]; the two agree wherever the store fits, and every
    filter has its store within [2^61] bytes.  An allocation that the
    runtime accepts and the machine cannot serve ends the process; that
    is outside the model. *)

From Stdlib Require Import Strings.Byte String Floats Uint63.
From stdpp Require Import base tactics list numbers.
From S2P Require Import Prelude Errors BitAddr Sha256 Hex Hash Filter Planner.
Set Warnings "-clear-no-such-hyp,-inexact-float".

(** ** Definitions *)

(** The bytes the runtime can address on the 64-bit platforms. *)
Definition maxAlloc : Z := 2 ^ 48.

(** The largest [int]. *)
Definition maxInt : Z := 2 ^ 63 - 1.

(** [make([]T, len)] for elements of [size] bytes, with [limit] bytes
    addressable. *)
Definition makeslice {A} (limit size : Z) (zero : A) (len : Z) : result (list A) :=
  if decide (0 <= len <= maxInt /\ len * size <= limit) then Done (make zero len)
  else Panicked panic_makeslice.

Section alloc.
Context {C : Conversions}.
Variable limit : Z.

(** [func New(n uint32, prob float64)] with the allocation of the
    runtime in place of the total [make]. *)
Definition New_on (n : Z) (prob : float) : result (option Filter * option error) :=
  if (n =? 0)%Z then Done (None, Some (error_Error ErrZeroElements))
  else if (prob <=? 0)%float then Done (None, Some (error_Error ErrProbability))
  else
    let hashqty := optimalHashQty prob in
    let bitlen := optimalBitLen n prob in
    let buckets := buckets_for bitlen in
    bitstore ← makeslice limit 8 0%Z buckets;
    Done (Some (mkFilter prob bitlen hashqty n bitstore), None).

(** The store of [New n prob] is within the limit. *)
Definition fits (n : Z) (prob : float) : bool :=
  bool_decide (buckets_for (optimalBitLen n prob) * 8 <= limit).

End alloc.

(** The same from the sizes before the conversions, which can be run
    without choosing an implementation of the conversions. *)
Definition roomy (limit n : Z) (prob : float) : bool :=
  match sizes n prob with
  | Some (bitlen, _) => sane n prob && bool_decide (buckets_for bitlen * 8 <= limit)
  | None => false
  end.

(** ** The allocation *)

Section makeslice.
Context {A : Type}.
Implicit Types (zero : A) (limit size len : Z).

Lemma makeslice_fits limit size zero len :
  0 <= len <= maxInt -> len * size <= limit ->
  makeslice limit size zero len = Done (make zero len).
Proof. intros. unfold makeslice. by rewrite decide_True. Qed.

Lemma makeslice_too_long limit size zero len :
  limit < len * size -> makeslice limit size zero len = Panicked panic_makeslice.
Proof. intros. unfold makeslice. rewrite decide_False; [done|lia]. Qed.

Lemma makeslice_negative limit size zero len :
  len < 0 -> makeslice limit size zero len = Panicked panic_makeslice.
Proof. intros. unfold makeslice. rewrite decide_False; [done|lia]. Qed.

Lemma makeslice_length limit size zero len l :
  makeslice limit size zero len = Done l -> Z.of_nat (length l) = len.
Proof.
  unfold makeslice. case_decide as H; [|done]. intros [= <-].
  rewrite length_make. lia.
Qed.

End makeslice.

(** The buckets of a filter are a length the runtime takes as an [int],
    and they need at most [2^61] bytes. *)
Lemma buckets_for_bytes bitlen :
  is_uint 64 bitlen -> 0 <= buckets_for bitlen <= maxInt /\ buckets_for bitlen * 8 <= 2 ^ 61.
Proof.
  intros [H0 H1]. pose proof (buckets_for_covers bitlen (conj H0 H1)) as Hc.
  unfold maxInt. lia.
Qed.

(** ** [New] with the allocation *)

Section New_on.
Context {C : Conversions}.
Implicit Types (limit n : Z) (prob : float).

(** Past the guards the outcome is that of the allocation. *)
Lemma New_on_unfold limit n prob :
  n <> 0 -> (prob <=? 0)%float = false ->
  New_on limit n prob
  = if fits limit n prob then Done (New n prob) else Panicked panic_makeslice.
Proof.
  intros Hn Hp. unfold New_on, fits. rewrite (proj2 (Z.eqb_neq n 0) Hn), Hp. cbv zeta.
  destruct (buckets_for_bytes _ (optimalBitLen_range n prob)) as [Hb _].
  case_bool_decide as Hfit.
  - rewrite makeslice_fits by done. by rewrite New_unfold.
  - rewrite makeslice_too_long by lia. done.
Qed.

(** The guards come before the allocation. *)
Lemma New_on_refused limit n prob :
  n = 0 \/ (prob <=? 0)%float = true -> New_on limit n prob = Done (New n prob).
Proof.
  unfold New_on, New. destruct (Z.eqb_spec n 0) as [->|Hn]; [done|].
  intros [?|Hp]; [done|by rewrite Hp].
Qed.

(** What the check on the sizes establishes. *)
Lemma roomy_inv limit n prob :
  roomy limit n prob = true ->
  exists b q, sizes n prob = Some (b, q) /\ sane n prob = true /\ buckets_for b * 8 <= limit.
Proof.
  unfold roomy. destruct (sizes n prob) as [[b q]|]; [|done].
  intros [Hsane Hroom%bool_decide_eq_true]%andb_true_iff. by exists b, q.
Qed.

(** The store fits when the check on the sizes says so. *)
Lemma roomy_fits limit n prob : roomy limit n prob = true -> fits limit n prob = true.
Proof.
  intros (b & q & Hs & Hsane & Hroom)%roomy_inv.
  destruct (sane_sized n prob Hsane) as (b' & q' & Hs' & Hb & _).
  rewrite Hs in Hs'. injection Hs' as <- <-. unfold fits. rewrite Hb.
  by apply bool_decide_eq_true.
Qed.

End New_on.

(** ** Theorems *)

Section outcome.
Context {C : Conversions}.
Implicit Types (limit n : Z) (prob : float).

(** C19. [New] with the allocation of the runtime, on every branch: the
    two guards come first and return their errors; past them [New]
    returns the filter of the sizing functions when the store fits in
    what the runtime addresses, and panics in [make] with
    [makeslice: len out of range] when it does not. *)
Theorem New_on_outcome limit n prob :
  New_on limit n prob
  = if (n =? 0) || (prob <=? 0)%float || fits limit n prob then Done (New n prob)
    else Panicked panic_makeslice.
Proof.
  destruct (Z.eqb_spec n 0) as [Hn|Hn]; [by apply New_on_refused; left|].
  destruct (prob <=? 0)%float eqn:Hp; [by apply New_on_refused; right|].
  by apply New_on_unfold.
Qed.

(** The allocation of [New] does not panic on arguments whose sizes
    pass the executable check [roomy]: [New] returns a well-formed
    filter whose store has the buckets of its bit length and needs no
    more bytes than the limit.  With [2^61] bytes addressable no
    arguments make the allocation panic. *)
Theorem New_on_roomy limit n prob :
  roomy limit n prob = true ->
  (exists bf, New_on limit n prob = Done (Some bf, None) /\ wf bf /\
              Z.of_nat (length (bitstore bf)) * 8 <= limit) /\
  forall n' prob', New_on (Z.max limit (2 ^ 61)) n' prob' = Done (New n' prob').
Proof.
  intros Hroomy. split.
  - pose proof (roomy_fits _ _ _ Hroomy) as Hfits.
    destruct (roomy_inv _ _ _ Hroomy) as (b & q & Hs & Hsane & Hroom).
    destruct (sane_New n prob Hsane) as (b1 & q1 & Hs1 & _ & _ & HNew & Hwf).
    rewrite Hs in Hs1. injection Hs1 as <- <-.
    destruct (New_inv _ _ _ HNew) as (Hn & Hp & _).
    eexists. rewrite New_on_unfold, Hfits, HNew by done. split_and!; [done..|].
    pose proof (wf_length _ Hwf) as Hlen. cbn [bitstore bitlen] in *. by rewrite Hlen.
  - intros n' prob'. destruct (Z.eqb_spec n' 0) as [Hn|Hn]; [by apply New_on_refused; left|].
    destruct (prob' <=? 0)%float eqn:Hp; [by apply New_on_refused; right|].
    rewrite New_on_unfold by done.
    assert (fits (Z.max limit (2 ^ 61)) n' prob' = true) as ->; [|done].
    apply bool_decide_eq_true.
    destruct (buckets_for_bytes _ (optimalBitLen_range n' prob')). lia.
Qed.

End outcome.

(** A probability above 1 makes [New] panic where the conversions
    wrap: 1000 elements at a probability of 2 pass both guards, the bit
    length is [2^64 - 1442], and the store of 288230376151711722
    buckets is more than the runtime addresses.  Where the
    conversions saturate the same call returns a filter without a
    bit. *)
Theorem New_on_prob_two :
  @New_on wrapping maxAlloc 1000 2 = Panicked panic_makeslice /\
  @New_on saturating maxAlloc 1000 2 = Done (Some (mkFilter 2 0 0 1000 []), None).
Proof.
  split.
  - rewrite New_on_unfold by done.
    assert (@optimalBitLen wrapping 1000 2 = 2 ^ 64 - 1442) as Hb by by vm_compute.
    unfold fits. rewrite Hb. clear Hb. by rewrite bool_decide_eq_false_2 by by vm_compute.
  - rewrite New_on_unfold by done.
    assert (@optimalBitLen saturating 1000 2 = 0) as Hb by by vm_compute.
    unfold fits. rewrite Hb. clear Hb. rewrite bool_decide_eq_true_2 by by vm_compute.
    by rewrite (New_value 1000 2 0 0) by by vm_compute.
Qed.

(** ** Witnesses *)

Lemma New_on_roomy_witness :
  (exists bf, @New_on wrapping maxAlloc 4294967295 0.0001 = Done (Some bf, None) /\ wf bf /\
              Z.of_nat (length (bitstore bf)) * 8 <= maxAlloc) /\
  forall n' prob',
    @New_on wrapping (Z.max maxAlloc (2 ^ 61)) n' prob' = Done (@New wrapping n' prob').
Proof. apply (@New_on_roomy wrapping maxAlloc 4294967295 0.0001). by vm_compute. Defined.
