(* ===== verification/Typing.v ===== *)
(** * Values stay in the range of their Go types

    The model computes in [Z], where Go computes in [byte], [uint32],
    [uint64] and [int].  This file shows that nothing is lost: every
    function of the package returns values in the range of its Go
    result type, for every digest and every implementation of the
    conversions, on every path on which it returns, errors included.
    No hypothesis is made on the filter beyond its own typing
    ([typed]): in particular [Add] preserves it on filters that do not
    satisfy the invariant [wf] of [Filter.v]. *)

From Stdlib Require Import Strings.Byte String Floats.
From stdpp Require Import base tactics list numbers.
From S2P Require Import Prelude Errors BitAddr Sha256 Hex Hash Filter Planner.
Set Warnings "-clear-no-such-hyp,-inexact-float".

(** ** Typed filters *)

(** A filter whose fields are values of the types [bloom.go] declares
    for them. *)
Record typed (bf : Filter) : Prop := {
  typed_hashqty : is_uint 8 (hashqty bf);
  typed_bitlen : is_uint 64 (bitlen bf);
  typed_n : is_uint 32 (n bf);
  typed_bitstore : Forall (is_uint 64) (bitstore bf)
}.

#[global] Instance typed_dec bf : Decision (typed bf).
Proof.
  destruct (decide (is_uint 8 (hashqty bf) /\ is_uint 64 (bitlen bf) /\
                    is_uint 32 (n bf) /\ Forall (is_uint 64) (bitstore bf)))
    as [H|H]; [left|right].
  - by destruct H as (? & ? & ? & ?).
  - intros []. by apply H.
Defined.

Lemma wf_typed bf : wf bf -> typed bf.
Proof. intros []. by split. Qed.

Lemma typed_with_bitstore bf bs :
  typed bf -> Forall (is_uint 64) bs -> typed (with_bitstore bf bs).
Proof. intros [] Hbs. by split. Qed.

(** ** [bitlocation] *)

(** [bitlocation] returns an [int] and a [byte]: for every position
    and every width, the index is in the range of [int] and the offset
    in that of [byte]. *)
Theorem bitlocation_typed p bitsize :
  is_int 64 (bitlocation p bitsize).1 /\ is_uint 8 (bitlocation p bitsize).2.
Proof. unfold bitlocation. cbn [fst snd]. auto with bloom. Qed.

(** ** [hash] and [bitpositions] *)

Section positions.
Context {D : Digest}.
Implicit Types (b element : list byte) (pos indices : list Z).

(** [hash] returns a [uint64] on every path on which it returns. *)
Lemma hash_typed b bitlen p err :
  is_uint 64 bitlen -> hash b bitlen = Done (p, err) -> is_uint 64 p.
Proof.
  intros [Hb0 Hb1]. unfold hash.
  destruct (digest_write b); [intros [= <- <-]; apply is_uint64_0|].
  intros (prefix & _ & H)%bind_Done_inv.
  destruct (ParseUint16 prefix) as [i [e|]].
  { injection H as <- <-. apply is_uint64_0. }
  destruct (Z.eqb_spec bitlen 0); [done|]. injection H as <- <-.
  pose proof (Z.mod_pos_bound i bitlen). unfold is_uint. lia.
Qed.

Lemma store_typed pos i p :
  Forall (is_uint 64) pos -> is_uint 64 p -> Forall (is_uint 64) (store pos i p).
Proof. intros. by apply Forall_insert. Qed.

Lemma collect_typed element bitlen indices pos pos' err :
  is_uint 64 bitlen -> Forall (is_uint 64) pos ->
  collect element bitlen indices pos = Done (pos', err) ->
  length pos' = length pos /\ Forall (is_uint 64) pos'.
Proof.
  intros Hb. revert pos. induction indices as [|i indices IH]; intros pos Hpos.
  { by intros [= <- <-]. }
  cbn [collect]. intros ([p e] & Hhash & Hrest)%bind_Done_inv.
  pose proof (hash_typed _ _ _ _ Hb Hhash) as Hp.
  pose proof (store_typed pos i p Hpos Hp) as Hpos'.
  destruct e as [e|].
  - injection Hrest as <- <-. by rewrite length_store.
  - apply IH in Hrest as [Hlen ?]; [|done]. by rewrite Hlen, length_store.
Qed.

(** [bitpositions] returns a slice of [hashqty] values of type
    [uint64], whatever the digest does and whether or not it returns an
    error with it. *)
Theorem bitpositions_typed element hashqty bitlen pos err :
  is_uint 8 hashqty -> is_uint 64 bitlen ->
  bitpositions element hashqty bitlen = Done (pos, err) ->
  length pos = Z.to_nat hashqty /\ Forall (is_uint 64) pos.
Proof.
  intros Hq Hb. rewrite bitpositions_unfold by done.
  intros [Hlen Hpos]%collect_typed; [|done|].
  - by rewrite Hlen, length_replicate.
  - apply Forall_replicate, is_uint64_0.
Qed.

(** ** [Add] *)

(** The loop of [Add] keeps a store of [uint64] buckets one, and keeps
    its length, whatever the positions. *)
Lemma Add_loop_typed pos bs bs' :
  Forall (is_uint 64) bs -> Add_loop pos bs = Done bs' ->
  Forall (is_uint 64) bs' /\ length bs' = length bs.
Proof.
  revert bs. induction pos as [|p pos IH]; intros bs Hbs.
  { by intros [= <-]. }
  cbn [Add_loop]. destruct (bitlocation p 64) as [index offset].
  intros (w & Hw & Hrest)%bind_Done_inv.
  apply read_Done, index_Some in Hw as [_ Hw].
  apply IH in Hrest as [? Hlen].
  - by rewrite Hlen, length_store.
  - apply store_typed; [done|]. apply lor_uint; [lia| |apply shl64_range].
    by eapply Forall_lookup_1 in Hbs.
Qed.

(** What [Add] returns on a typed filter: the filter itself with an
    error, or the filter with the store its loop leaves. *)
Lemma Add_typed_inv bf element bf' err :
  typed bf -> Add bf element = Done (bf', err) ->
  bf' = bf \/
  exists bs, bf' = with_bitstore bf bs /\ Forall (is_uint 64) bs /\
             length bs = length (bitstore bf).
Proof.
  intros Ht. unfold Add. intros ([pos e] & _ & Hrest)%bind_Done_inv.
  destruct e as [e|]; [left; by injection Hrest as <- <-|].
  apply bind_Done_inv in Hrest as (bs & Hloop & [= <- <-]).
  apply Add_loop_typed in Hloop as [Hbs Hlen]; [|apply Ht]. right. by exists bs.
Qed.

(** C21. [Add] preserves the typing of the filter, on every filter and for
    every digest: when it returns, with or without an error, the fields
    are still in the range of their types, the parameters are unchanged
    and the store has as many buckets as before. *)
Theorem Add_typed bf element bf' err :
  typed bf -> Add bf element = Done (bf', err) ->
  typed bf' /\
  (prob bf', bitlen bf', hashqty bf', n bf') = (prob bf, bitlen bf, hashqty bf, n bf) /\
  length (bitstore bf') = length (bitstore bf).
Proof.
  intros Ht Hadd.
  destruct (Add_typed_inv _ _ _ _ Ht Hadd) as [->|(bs & -> & Hbs & Hlen)]; [done|].
  split_and!; [by apply typed_with_bitstore|done..].
Qed.

(** [Has] does not change the filter, so there is nothing to preserve;
    [MustAdd] returns what [Add] returns. *)
Lemma MustAdd_typed bf element bf' :
  typed bf -> MustAdd bf element = Done bf' -> typed bf'.
Proof.
  intros Ht. unfold MustAdd. intros ([bf1 e] & Hadd & Hrest)%bind_Done_inv.
  destruct e; [done|]. injection Hrest as <-.
  destruct (Add_typed_inv _ _ _ _ Ht Hadd) as [->|(bs & -> & Hbs & _)]; [done|].
  by apply typed_with_bitstore.
Qed.

End positions.

(** ** [New] *)

Section New.
Context {C : Conversions}.

(** [New] returns either a typed filter and no error, or no filter
    and one of the two errors of the package; the store of the filter
    has the buckets its bit length needs.  This holds for every
    probability, NaN and the infinities included, and for every
    implementation of the conversions. *)
Theorem New_typed n prob :
  is_uint 32 n ->
  (exists bf, New n prob = (Some bf, None) /\ typed bf /\
              Z.of_nat (length (bitstore bf)) = buckets_for (bitlen bf)) \/
  New n prob = (None, Some (error_Error ErrZeroElements)) \/
  New n prob = (None, Some (error_Error ErrProbability)).
Proof.
  intros Hn. unfold New. destruct (Z.eqb_spec n 0); [by auto|].
  destruct (prob <=? 0)%float; [by auto|]. left. eexists. split; [done|].
  split; [split|apply length_new_store]; cbn [hashqty bitlen Filter.n bitstore];
    auto using make_uint, optimalBitLen_range, optimalHashQty_range.
Qed.

End New.

(** ** The theorems at concrete inputs *)

Lemma typed_test_filter : typed test_filter.
Proof. apply wf_typed, wf_test_filter. Qed.

Lemma bitpositions_typed_witness :
  length [7; 36; 32; 37] = Z.to_nat 4 /\ Forall (is_uint 64) [7; 36; 32; 37].
Proof.
  apply (bitpositions_typed test_element 4 48 [7; 36; 32; 37] None);
    [unfold is_uint; lia..|by vm_compute].
Defined.

Lemma Add_typed_witness :
  typed added_filter /\
  (prob added_filter, bitlen added_filter, hashqty added_filter, n added_filter)
  = (prob test_filter, bitlen test_filter, hashqty test_filter, n test_filter) /\
  length (bitstore added_filter) = length (bitstore test_filter).
Proof.
  apply (Add_typed test_filter test_element added_filter None
           typed_test_filter Add_test_filter).
Defined.

Lemma New_typed_witness :
  (exists bf, @New wrapping 6 0.01 = (Some bf, None) /\ typed bf /\
              Z.of_nat (length (bitstore bf)) = buckets_for (bitlen bf)) \/
  @New wrapping 6 0.01 = (None, Some (error_Error ErrZeroElements)) \/
  @New wrapping 6 0.01 = (None, Some (error_Error ErrProbability)).
Proof. apply (@New_typed wrapping 6 0.01). unfold is_uint. lia. Defined.
