(* ===== verification/Abstract.v ===== *)
(** * The filter as a set of bit positions

    What the package promises, stated without buckets and shifts: a
    filter is a finite set of bit positions below [bitlen]; [Add] joins
    the positions of an element to it and [Has] asks whether the
    positions of an element are all in it.  [bits_of] abstracts a
    [Filter] to that set, and the refinement theorems say that [Add] and
    [Has] of [Filter.v] implement [abs_add] and [abs_has] under it.

    A client of the package makes a sequence of calls.  [step] is one
    call with its reply, [steps] a sequence of them, and [run] executes
    a list of calls.  The guarantees along a sequence are proved by
    induction on [steps]: the invariant holds in every reachable filter,
    the bits of the filter are those of the first filter and of the
    elements added, an element added is reported for ever after, and an
    answer [false] means that the element was never added.

    [same_set] relates the filters that stand for the same set; [Has]
    and [Add] respect it, and it is equality of stores on filters
    whose last bucket has its padding clear. *)

From Stdlib Require Import Strings.Byte String Floats.
From stdpp Require Import base tactics list numbers gmap sets.
From S2P Require Import Prelude Errors BitAddr Sha256 Hex Hash Filter.
Set Warnings "-clear-no-such-hyp".

(** ** The abstract filter *)

(** [Add] on sets of positions. *)
Definition abs_add (S : gset Z) (pos : list Z) : gset Z := S ∪ list_to_set pos.

(** [Has] on sets of positions. *)
Definition abs_has (S : gset Z) (pos : list Z) : bool :=
  forallb (fun p => bool_decide (p ∈ S)) pos.

(** The set a filter stands for: the positions below [bitlen] whose bit
    is set in the store. *)
Definition bits_of (bf : Filter) : gset Z :=
  list_to_set (filter (fun p => bit (bitstore bf) p = true) (seqZ 0 (bitlen bf))).

(** ** Sequences of calls *)

Inductive call : Type :=
  | CallAdd (element : list byte)
  | CallHas (element : list byte).

Inductive reply : Type :=
  | RetAdd
  | RetHas (isIn : bool).

#[global] Instance call_eq_dec : EqDecision call.
Proof. solve_decision. Defined.

#[global] Instance reply_eq_dec : EqDecision reply.
Proof. solve_decision. Defined.

(** The elements a sequence of calls adds. *)
Definition added (evs : list (call * reply)) : list (list byte) :=
  omap (fun ev => match ev.1 with CallAdd e => Some e | CallHas _ => None end) evs.

Section calls.
Context {D : Digest}.

(** One call that returns without error, and the filter it leaves. *)
Inductive step : Filter -> call * reply -> Filter -> Prop :=
  | step_Add bf element bf' :
      Add bf element = Done (bf', None) ->
      step bf (CallAdd element, RetAdd) bf'
  | step_Has bf element isIn :
      Has bf element = Done (isIn, None) ->
      step bf (CallHas element, RetHas isIn) bf.

Inductive steps : Filter -> list (call * reply) -> Filter -> Prop :=
  | steps_nil bf : steps bf [] bf
  | steps_cons bf ev bf' evs bf'' :
      step bf ev bf' -> steps bf' evs bf'' -> steps bf (ev :: evs) bf''.

(** One call, executed: a panic or an error ends the run. *)
Definition exec (bf : Filter) (c : call) : result (Filter * reply) :=
  match c with
  | CallAdd element => bf' ← MustAdd bf element; mret (bf', RetAdd)
  | CallHas element => isIn ← MustHave bf element; mret (bf, RetHas isIn)
  end.

(** A list of calls, executed in order. *)
Fixpoint run (bf : Filter) (calls : list call) : result (Filter * list reply) :=
  match calls with
  | [] => mret (bf, [])
  | c :: calls =>
      '(bf', r) ← exec bf c;
      '(bf'', rs) ← run bf' calls;
      mret (bf'', r :: rs)
  end.

(** The positions of all the elements of a list. *)
Definition positions_of (bf : Filter) (elements : list (list byte)) : gset Z :=
  ⋃ ((fun e => list_to_set (filter_positions bf e)) <$> elements).

End calls.

(** ** The abstraction *)

Section abstraction.
Implicit Types (bf : Filter) (S : gset Z) (pos : list Z) (p : Z).

Lemma elem_of_bits_of bf p :
  p ∈ bits_of bf <-> 0 <= p < bitlen bf /\ bit (bitstore bf) p = true.
Proof.
  unfold bits_of. rewrite elem_of_list_to_set, list_elem_of_filter, elem_of_seqZ.
  naive_solver lia.
Qed.

Lemma elem_of_abs_add S pos p : p ∈ abs_add S pos <-> p ∈ S \/ p ∈ pos.
Proof. unfold abs_add. set_solver. Qed.

Lemma abs_has_true S pos : abs_has S pos = true <-> list_to_set pos ⊆ S.
Proof.
  unfold abs_has. rewrite forallb_elem_of.
  setoid_rewrite bool_decide_eq_true. set_solver.
Qed.

Lemma abs_has_mono S S' pos : S ⊆ S' -> abs_has S pos = true -> abs_has S' pos = true.
Proof. rewrite !abs_has_true. set_solver. Qed.

Lemma abs_has_add S pos : abs_has (abs_add S pos) pos = true.
Proof. apply abs_has_true. unfold abs_add. set_solver. Qed.

Lemma abs_add_comm S pos1 pos2 :
  abs_add (abs_add S pos1) pos2 = abs_add (abs_add S pos2) pos1.
Proof. unfold abs_add. set_solver. Qed.

Lemma abs_add_idem S pos : abs_add (abs_add S pos) pos = abs_add S pos.
Proof. unfold abs_add. set_solver. Qed.

(** A filter fresh from [make] stands for the empty set. *)
Lemma bits_of_fresh prob bitlen hashqty n k :
  bits_of (mkFilter prob bitlen hashqty n (make 0 k)) = ∅.
Proof.
  apply set_eq. intros p. rewrite elem_of_bits_of. cbn.
  rewrite bit_make. set_solver.
Qed.

(** A tight filter has no other bits than those of its set. *)
Lemma tight_bits_of bf p :
  tight bf -> bit (bitstore bf) p = true -> 0 <= p -> p ∈ bits_of bf.
Proof.
  intros Ht Hp H0. apply elem_of_bits_of. split; [|done].
  destruct (decide (p < bitlen bf)); [lia|]. rewrite Ht in Hp by lia. done.
Qed.

(** Positions below [bitlen] are inside the store. *)
Lemma range_addressable bf pos :
  wf bf -> Forall (fun p => 0 <= p < bitlen bf) pos ->
  Forall (addressable (bitstore bf)) pos.
Proof.
  intros Hwf Hpos. eapply list.Forall_impl; [exact Hpos|]. intros p. by apply wf_in_store.
Qed.

(** Setting the bits of positions below [bitlen] joins them to the set. *)
Lemma bits_of_set_bits_range bf pos :
  wf bf -> Forall (fun p => 0 <= p < bitlen bf) pos ->
  bits_of (with_bitstore bf (set_bits (bitstore bf) pos)) = abs_add (bits_of bf) pos.
Proof.
  intros Hwf Hpos. apply set_eq. intros p.
  rewrite elem_of_abs_add, !elem_of_bits_of. cbn [bitlen bitstore with_bitstore].
  rewrite bit_set_bits, orb_true_iff, bool_decide_eq_true.
  - pose proof (proj1 (list.Forall_forall _ _) Hpos p). naive_solver.
  - eapply list.Forall_impl; [by apply range_addressable|]. by intros q [? ?].
Qed.

(** The conjunction of the bits of positions below [bitlen] is the
    subset test. *)
Lemma forallb_bit_abs_has_range bf pos :
  Forall (fun p => 0 <= p < bitlen bf) pos ->
  forallb (bit (bitstore bf)) pos = abs_has (bits_of bf) pos.
Proof.
  intros Hpos. apply eq_true_iff_eq. rewrite abs_has_true, forallb_elem_of.
  pose proof (proj1 (list.Forall_forall _ _) Hpos) as Hr. split.
  - intros Hall p Hp%elem_of_list_to_set. apply elem_of_bits_of. auto.
  - intros Hsub p Hp. apply (elem_of_bits_of bf p), Hsub. by apply elem_of_list_to_set.
Qed.

(** The loops of [Add] and [Has] on positions below [bitlen], on the
    set. *)
Lemma Add_loop_abs bf pos :
  wf bf -> Forall (fun p => 0 <= p < bitlen bf) pos ->
  exists bs,
    Add_loop pos (bitstore bf) = Done bs /\ wf (with_bitstore bf bs) /\
    bits_of (with_bitstore bf bs) = abs_add (bits_of bf) pos.
Proof.
  intros Hwf Hpos. eexists. split_and!.
  - by apply Add_loop_set_bits, range_addressable.
  - by apply wf_set_bits.
  - by apply bits_of_set_bits_range.
Qed.

Lemma Has_loop_abs bf pos :
  wf bf -> Forall (fun p => 0 <= p < bitlen bf) pos ->
  Has_loop pos (bitstore bf) = Done (abs_has (bits_of bf) pos).
Proof.
  intros Hwf Hpos. rewrite Has_loop_forallb by (by apply range_addressable).
  by rewrite forallb_bit_abs_has_range.
Qed.

End abstraction.

(** ** Refinement *)

Section refinement.
Context {D : Digest} {L : DigestLaws D}.
Implicit Types (bf : Filter) (element : list byte) (evs : list (call * reply)).

(** The bits of the filter [Add] leaves. *)
Lemma bits_of_set_bits bf element :
  wf bf ->
  bits_of (with_bitstore bf (set_bits (bitstore bf) (filter_positions bf element)))
  = abs_add (bits_of bf) (filter_positions bf element).
Proof. intros Hwf. by apply bits_of_set_bits_range, wf_positions_range. Qed.

(** The answer of [Has], on the set. *)
Lemma forallb_bit_abs_has bf element :
  wf bf ->
  forallb (bit (bitstore bf)) (filter_positions bf element)
  = abs_has (bits_of bf) (filter_positions bf element).
Proof. intros Hwf. by apply forallb_bit_abs_has_range, wf_positions_range. Qed.

(** C6. [Add] implements the union: on a well-formed filter it returns
    a filter whose set of bits is the set before with the positions of
    the element joined. *)
Theorem Add_refines bf element :
  wf bf ->
  exists bf',
    Add bf element = Done (bf', None) /\
    bits_of bf' = abs_add (bits_of bf) (filter_positions bf element).
Proof.
  intros Hwf. eexists. split; [by apply Add_eq|]. by apply bits_of_set_bits.
Qed.

Lemma Has_abs bf element :
  wf bf ->
  Has bf element = Done (abs_has (bits_of bf) (filter_positions bf element), None).
Proof. intros Hwf. rewrite Has_eq by done. by rewrite forallb_bit_abs_has. Qed.

(** C7. [Has] implements the subset test: on a well-formed filter it
    returns without error, and answers [true] exactly when the
    positions of the element all belong to the set of bits of the
    filter. *)
Theorem Has_refines bf element :
  wf bf ->
  exists isIn,
    Has bf element = Done (isIn, None) /\
    (isIn = true <-> list_to_set (filter_positions bf element) ⊆ bits_of bf).
Proof. intros Hwf. eexists. split; [by apply Has_abs|]. apply abs_has_true. Qed.

(** *** Steps *)

(** What a step from a well-formed filter does. *)
Lemma step_inv bf ev bf' :
  wf bf -> step bf ev bf' ->
  (exists e, ev = (CallAdd e, RetAdd) /\
             bf' = with_bitstore bf (set_bits (bitstore bf) (filter_positions bf e))) \/
  (exists e, ev = (CallHas e, RetHas (abs_has (bits_of bf) (filter_positions bf e))) /\
             bf' = bf).
Proof.
  intros Hwf Hstep. destruct Hstep as [bf e bf' Hadd | bf e b Hhas].
  - rewrite Add_eq in Hadd by done. left. exists e. by simplify_eq.
  - rewrite Has_abs in Hhas by done. right. exists e. by simplify_eq.
Qed.

Lemma step_wf bf ev bf' : wf bf -> step bf ev bf' -> wf bf'.
Proof.
  intros Hwf Hstep.
  destruct (step_inv _ _ _ Hwf Hstep) as [(e & -> & ->)|(e & -> & ->)]; [|done].
  by apply wf_set_bits.
Qed.

Lemma step_params bf ev bf' :
  wf bf -> step bf ev bf' -> forall e, filter_positions bf' e = filter_positions bf e.
Proof.
  intros Hwf Hstep.
  by destruct (step_inv _ _ _ Hwf Hstep) as [(e & -> & ->)|(e & -> & ->)].
Qed.

Lemma step_bits bf ev bf' :
  wf bf -> step bf ev bf' -> bits_of bf' = bits_of bf ∪ positions_of bf (added [ev]).
Proof.
  intros Hwf Hstep. unfold positions_of.
  destruct (step_inv _ _ _ Hwf Hstep) as [(e & -> & ->)|(e & -> & ->)]; cbn.
  - rewrite bits_of_set_bits by done. unfold abs_add. set_solver.
  - set_solver.
Qed.

Lemma positions_of_app bf es1 es2 :
  positions_of bf (es1 ++ es2) = positions_of bf es1 ∪ positions_of bf es2.
Proof. unfold positions_of. rewrite fmap_app, union_list_app_L. done. Qed.

Lemma positions_of_ext bf bf' es :
  (forall e, filter_positions bf' e = filter_positions bf e) ->
  positions_of bf' es = positions_of bf es.
Proof.
  intros Heq. unfold positions_of. f_equal. apply list_fmap_ext. intros _ e _.
  by rewrite Heq.
Qed.

Lemma elem_of_positions_of bf es p :
  p ∈ positions_of bf es <-> exists e, e ∈ es /\ p ∈ filter_positions bf e.
Proof.
  unfold positions_of. rewrite elem_of_union_list. split.
  - intros (X & (e & -> & He)%list_elem_of_fmap & Hp). exists e.
    by rewrite elem_of_list_to_set in Hp.
  - intros (e & He & Hp). exists (list_to_set (filter_positions bf e)).
    split; [apply list_elem_of_fmap; by exists e|by apply elem_of_list_to_set].
Qed.

Lemma added_cons ev evs : added (ev :: evs) = added [ev] ++ added evs.
Proof. unfold added. cbn. by destruct ev as [[] ?]. Qed.

Lemma elem_of_added e evs : e ∈ added evs <-> exists r, (CallAdd e, r) ∈ evs.
Proof.
  unfold added. rewrite list_elem_of_omap. split.
  - intros ([[] r] & Hin & Heq); simplify_eq/=. eauto.
  - intros [r Hin]. exists (CallAdd e, r). done.
Qed.

(** What a sequence of steps from a well-formed filter leaves: a
    well-formed filter with the same positions for every element, whose
    set of bits has grown by the positions of the elements added. *)
Lemma steps_inv bf evs bf' :
  wf bf -> steps bf evs bf' ->
  wf bf' /\
  (forall e, filter_positions bf' e = filter_positions bf e) /\
  bits_of bf' = bits_of bf ∪ positions_of bf (added evs).
Proof.
  intros Hwf Hsteps. induction Hsteps as [bf|bf ev bf' evs bf'' Hstep _ IH].
  - split_and!; [done..|]. unfold positions_of. set_solver.
  - destruct (IH (step_wf _ _ _ Hwf Hstep)) as (Hwf'' & Hpar & Hbits).
    pose proof (step_params _ _ _ Hwf Hstep) as Hpar'.
    split_and!; [done|by intros; rewrite Hpar|].
    rewrite (added_cons ev evs), positions_of_app, Hbits, (step_bits _ _ _ Hwf Hstep).
    rewrite (positions_of_ext bf bf') by done. by rewrite (assoc_L (∪)).
Qed.

Lemma steps_app_inv bf evs1 evs2 bf' :
  steps bf (evs1 ++ evs2) bf' -> exists bf1, steps bf evs1 bf1 /\ steps bf1 evs2 bf'.
Proof.
  revert bf. induction evs1 as [|ev evs1 IH]; intros bf Hsteps; cbn in *.
  - eauto using steps_nil.
  - inversion Hsteps as [|? ? bf0 ? ? Hstep Hrest]; subst.
    destruct (IH _ Hrest) as (bf1 & ? & ?). eauto using steps_cons.
Qed.

(** The invariant of the filter holds after every sequence of calls
    that starts from a well-formed filter, and neither the bit length
    nor the number of hash functions nor the number of buckets
    changes. *)
Theorem steps_wf bf evs bf' :
  wf bf -> steps bf evs bf' ->
  wf bf' /\
  (bitlen bf', hashqty bf') = (bitlen bf, hashqty bf) /\
  length (bitstore bf') = length (bitstore bf).
Proof.
  intros Hwf Hsteps. induction Hsteps as [bf|bf ev bf' evs bf'' Hstep _ IH]; [done|].
  destruct (IH (step_wf _ _ _ Hwf Hstep)) as (Hwf'' & Hpar & Hlen).
  split; [done|]. rewrite Hpar, Hlen.
  destruct (step_inv _ _ _ Hwf Hstep) as [(e & -> & ->)|(e & -> & ->)]; [|done].
  split; [done|]. apply length_set_bits.
Qed.

(** Along a sequence of calls the set of bits of the filter is the
    set it started with and the positions of the elements added: no
    other bit is set and none is cleared. *)
Theorem steps_refine bf evs bf' :
  wf bf -> steps bf evs bf' ->
  bits_of bf' = bits_of bf ∪ positions_of bf (added evs).
Proof. intros Hwf Hsteps. by apply steps_inv. Qed.

(** The positions of an element added along a sequence are in the set
    the sequence leaves. *)
Lemma steps_added bf evs bf' element :
  wf bf -> steps bf evs bf' -> (CallAdd element, RetAdd) ∈ evs ->
  abs_has (bits_of bf') (filter_positions bf' element) = true.
Proof.
  intros Hwf Hsteps Hin.
  destruct (steps_inv _ _ _ Hwf Hsteps) as (Hwf' & Hpar & Hbits).
  apply abs_has_true. rewrite Hbits, Hpar. intros p Hp%elem_of_list_to_set.
  apply elem_of_union. right. apply elem_of_positions_of.
  exists element. split; [|done]. apply elem_of_added. eauto.
Qed.

(** C5. No false negatives along a sequence of calls: an element added
    at some point is reported by [Has] in the filter the sequence
    leaves, whatever was added or asked in between. *)
Theorem steps_no_false_negative bf evs bf' element :
  wf bf -> steps bf evs bf' -> (CallAdd element, RetAdd) ∈ evs ->
  Has bf' element = Done (true, None).
Proof.
  intros Hwf Hsteps Hin. rewrite Has_abs by (by eapply steps_inv).
  by erewrite steps_added.
Qed.

(** An answer [false] is definite: when a call of [Has] in a
    sequence that starts from a well-formed filter answers [false], the
    element was not added before it. *)
Theorem steps_false_definite bf evs1 element evs2 bf' :
  wf bf -> steps bf (evs1 ++ (CallHas element, RetHas false) :: evs2) bf' ->
  (CallAdd element, RetAdd) ∉ evs1.
Proof.
  intros Hwf (bf1 & Hsteps1 & Hsteps2)%steps_app_inv Hin.
  inversion Hsteps2 as [|? ? ? ? ? Hstep _]; subst.
  inversion Hstep as [|? ? ? Hhas]; subst.
  rewrite Has_abs in Hhas by (by eapply steps_inv).
  by rewrite (steps_added _ _ _ _ Hwf Hsteps1 Hin) in Hhas.
Qed.

(** *** How full the filter is *)

Lemma size_union_le (X Y : gset Z) : (size (X ∪ Y) <= size X + size Y)%nat.
Proof.
  rewrite size_union_alt. pose proof (subseteq_size (Y ∖ X) Y). set_solver by lia.
Qed.

Lemma size_list_to_set_le (l : list Z) : (size (list_to_set l : gset Z) <= length l)%nat.
Proof.
  induction l as [|x l IH]; [done|]. cbn [list_to_set length].
  pose proof (size_union_le {[x]} (list_to_set l)). rewrite size_singleton in *. lia.
Qed.

Lemma size_positions_of bf es :
  (size (positions_of bf es) <= Z.to_nat (hashqty bf) * length es)%nat.
Proof.
  unfold positions_of. induction es as [|e es IH].
  { rewrite fmap_nil, union_list_nil, size_empty. lia. }
  rewrite fmap_cons, union_list_cons. cbn [length].
  pose proof (size_union_le (list_to_set (filter_positions bf e))
                (⋃ ((fun e => list_to_set (filter_positions bf e)) <$> es))).
  pose proof (size_list_to_set_le (filter_positions bf e)) as Hle.
  unfold filter_positions in Hle at 2. rewrite length_positions in Hle. lia.
Qed.

(** A bound on how full the filter gets: after a sequence of calls
    the number of bits set is at most the number set at the start and
    [hashqty] for each element added, and never more than [bitlen]. *)
Theorem steps_size bf evs bf' :
  wf bf -> steps bf evs bf' ->
  (size (bits_of bf') <= size (bits_of bf) + Z.to_nat (hashqty bf) * length (added evs))%nat /\
  (size (bits_of bf') <= Z.to_nat (bitlen bf'))%nat.
Proof.
  intros Hwf Hsteps. split.
  - destruct (steps_inv _ _ _ Hwf Hsteps) as (_ & _ & ->).
    pose proof (size_union_le (bits_of bf) (positions_of bf (added evs))).
    pose proof (size_positions_of bf (added evs)). lia.
  - unfold bits_of. etrans; [apply size_list_to_set_le|].
    etrans; [apply length_filter|]. by rewrite length_seqZ.
Qed.

End refinement.

(** ** Filters that stand for the same set *)

(** Two filters with the same sizes and the same set of bits.  The
    relation forgets [prob] and [n], which no operation reads, and the
    bits of the last bucket beyond [bitlen]. *)
Definition same_set (bf bf' : Filter) : Prop :=
  bitlen bf = bitlen bf' /\ hashqty bf = hashqty bf' /\ bits_of bf = bits_of bf'.

#[global] Instance same_set_equivalence : Equivalence same_set.
Proof.
  split.
  - by intros bf.
  - intros bf bf' (Hb & Hq & Hbits). by split_and!.
  - intros bf1 bf2 bf3 (Hb & Hq & Hbits) (Hb' & Hq' & Hbits').
    split_and!; congruence.
Qed.

#[global] Instance bits_of_proper : Proper (same_set ==> (=)) bits_of.
Proof. by intros bf bf' (_ & _ & ->). Qed.

#[global] Instance filter_positions_proper `{D : Digest} :
  Proper (same_set ==> (=) ==> (=)) filter_positions.
Proof. intros bf bf' (Hb & Hq & _) e ? <-. unfold filter_positions. by rewrite Hb, Hq. Qed.

#[global] Instance with_bitstore_proper :
  Proper (same_set ==> (=) ==> same_set) with_bitstore.
Proof.
  intros bf bf' (Hb & Hq & _) bs ? <-. split_and!; [done..|].
  unfold bits_of. cbn [bitlen bitstore with_bitstore]. by rewrite Hb.
Qed.

Section same_set.
Context {D : Digest} {L : DigestLaws D}.
Implicit Types (bf : Filter) (element : list byte).

(** [Has] sees a filter through its set of bits only: on two
    well-formed filters with the same sizes and the same set it returns
    the same answer.  Neither [prob], nor [n], nor the padding of the
    last bucket matters. *)
Theorem Has_same_set bf bf' element :
  wf bf -> wf bf' -> same_set bf bf' -> Has bf element = Has bf' element.
Proof.
  intros Hwf Hwf' Hsame. rewrite !Has_abs by done. by rewrite Hsame.
Qed.

(** [Add] respects the relation: from two well-formed filters that
    stand for the same set it leads to two filters that stand for the
    same set. *)
Theorem Add_same_set bf bf' element :
  wf bf -> wf bf' -> same_set bf bf' ->
  exists bf1 bf1',
    Add bf element = Done (bf1, None) /\ Add bf' element = Done (bf1', None) /\
    same_set bf1 bf1'.
Proof.
  intros Hwf Hwf' Hsame. do 2 eexists. split_and!; [by apply Add_eq..|].
  destruct Hsame as (Hb & Hq & Hbits). split_and!; [done..|].
  rewrite !bits_of_set_bits by done. rewrite Hbits.
  by rewrite (filter_positions_proper bf bf' (conj Hb (conj Hq Hbits)) element element eq_refl).
Qed.

(** The representation is canonical: two well-formed filters with
    no bit set beyond [bitlen] that stand for the same set have the
    same store. *)
Theorem same_set_store bf bf' :
  wf bf -> wf bf' -> tight bf -> tight bf' -> same_set bf bf' ->
  bitstore bf = bitstore bf'.
Proof.
  intros Hwf Hwf' Ht Ht' (Hb & Hq & Hbits). apply store_ext; [|apply Hwf|apply Hwf'|].
  - apply Nat2Z.inj. by rewrite (wf_length _ Hwf), (wf_length _ Hwf'), Hb.
  - intros q Hq0. destruct (decide (q < bitlen bf)) as [Hlt|Hge].
    + apply eq_true_iff_eq.
      pose proof (elem_of_bits_of bf q) as H1. pose proof (elem_of_bits_of bf' q) as H2.
      rewrite Hbits in H1. rewrite <- Hb in H2. naive_solver.
    + rewrite Ht, Ht' by lia. done.
Qed.

End same_set.

(** ** From the set back to the store *)

Section rebuild.
Implicit Types (bf : Filter) (S : gset Z).

(** The store [New] makes for the filter: as many buckets, all zero. *)
Lemma make_buckets bf :
  wf bf -> make 0 (buckets_for (bitlen bf)) = replicate (length (bitstore bf)) 0.
Proof. intros Hwf. unfold make. by rewrite <- (wf_length bf Hwf), Nat2Z.id. Qed.

(** The loop of [Add] on an empty store and the positions of a set
    sets the bits of the set and no other. *)
Lemma Add_loop_elements bf S :
  wf bf -> (forall p, p ∈ S -> 0 <= p < bitlen bf) ->
  exists bs,
    Add_loop (elements S) (make 0 (buckets_for (bitlen bf))) = Done bs /\
    length bs = length (bitstore bf) /\ Forall (is_uint 64) bs /\
    forall q, bit bs q = bool_decide (q ∈ S).
Proof.
  intros Hwf HS. set (zero := make 0 (buckets_for (bitlen bf))).
  assert (length zero = length (bitstore bf)) as Hlen
    by (unfold zero; by rewrite make_buckets, length_replicate).
  assert (Forall (addressable zero) (elements S)) as Haddr.
  { apply list.Forall_forall. intros p Hp%elem_of_elements.
    destruct (wf_in_store bf p Hwf (HS p Hp)) as [Hu Hin]. split; [done|].
    unfold in_store in *. by rewrite Hlen. }
  exists (set_bits zero (elements S)).
  split_and!; [by apply Add_loop_set_bits|by rewrite length_set_bits|
               apply set_bits_uint, make_uint|].
  intros q. rewrite bit_set_bits.
  - unfold zero. rewrite bit_make. cbn [orb]. apply bool_decide_ext, elem_of_elements.
  - eapply list.Forall_impl; [exact Haddr|]. by intros p [_ ?].
Qed.

(** C25. Round trip between the store and the set it stands for.  The
    loop of [Add], run on the empty store over the positions of the set
    of a filter that has no bit beyond [bitlen], rebuilds the store of
    the filter; and run over any set of positions below [bitlen], it
    gives a store that stands for that set. *)
Theorem store_roundtrip bf :
  wf bf -> tight bf ->
  let zero := make 0 (buckets_for (bitlen bf)) in
  Add_loop (elements (bits_of bf)) zero = Done (bitstore bf) /\
  forall S, (forall p, p ∈ S -> 0 <= p < bitlen bf) ->
    exists bs, Add_loop (elements S) zero = Done bs /\ bits_of (with_bitstore bf bs) = S.
Proof.
  intros Hwf Htight zero. subst zero. split.
  - destruct (Add_loop_elements bf (bits_of bf) Hwf) as (bs & -> & Hlen & Hu & Hbit).
    { by intros p [? _]%elem_of_bits_of. }
    f_equal. apply store_ext; [done..|apply Hwf|].
    intros q Hq. rewrite Hbit. apply eq_true_iff_eq.
    rewrite bool_decide_eq_true, elem_of_bits_of.
    destruct (decide (q < bitlen bf)); [naive_solver|].
    rewrite Htight by lia. naive_solver lia.
  - intros S HS. destruct (Add_loop_elements bf S Hwf HS) as (bs & -> & _ & _ & Hbit).
    eexists. split; [done|]. apply set_eq. intros p. rewrite elem_of_bits_of.
    cbn [bitlen bitstore with_bitstore]. rewrite Hbit, bool_decide_eq_true. naive_solver.
Qed.

End rebuild.

(** ** Running a list of calls *)

Section run.
Context {D : Digest}.
Implicit Types (bf : Filter) (calls : list call) (evs : list (call * reply)).

Lemma step_exec bf ev bf' : step bf ev bf' -> exec bf ev.1 = Done (bf', ev.2).
Proof.
  intros [? e ? Hadd|? e b Hhas]; unfold exec, MustAdd, MustHave; cbn [fst snd].
  - by rewrite Hadd.
  - by rewrite Hhas.
Qed.

Lemma exec_step bf c bf' r : exec bf c = Done (bf', r) -> step bf (c, r) bf'.
Proof.
  destruct c as [e|e]; unfold exec, MustAdd, MustHave.
  - destruct (Add bf e) as [[bf1 [err|]]|] eqn:Hadd; [done| |done].
    intros [= <- <-]. by constructor.
  - destruct (Has bf e) as [[b [err|]]|] eqn:Hhas; [done| |done].
    intros [= <- <-]. by constructor.
Qed.

Lemma run_cons bf c calls :
  run bf (c :: calls)
  = exec bf c ≫= (fun '(bf', r) => run bf' calls ≫= (fun '(bf'', rs) => mret (bf'', r :: rs))).
Proof. done. Qed.

Lemma steps_run bf evs bf' : steps bf evs bf' -> run bf evs.*1 = Done (bf', evs.*2).
Proof.
  induction 1 as [bf|bf ev bf' evs bf'' Hstep _ IH]; [done|].
  rewrite !fmap_cons, run_cons, (step_exec _ _ _ Hstep), bind_Done, IH. done.
Qed.

Lemma run_steps bf calls bf' rs :
  run bf calls = Done (bf', rs) ->
  steps bf (zip calls rs) bf' /\ length rs = length calls.
Proof.
  revert bf rs. induction calls as [|c calls IH]; intros bf rs.
  - intros [= <- <-]. split; [constructor|done].
  - rewrite run_cons. intros ([bf1 r] & Hexec & Hrun)%bind_Done_inv.
    apply bind_Done_inv in Hrun as ([bf2 rs'] & Hrun & [= <- <-]).
    destruct (IH _ _ Hrun) as [Hsteps Hlen]. cbn. split; [|by rewrite Hlen].
    econstructor; [by apply exec_step|done].
Qed.

(** The relation and the executable run agree: a sequence of steps
    is a run of its calls that returns its replies, and conversely. *)
Theorem run_iff_steps bf calls rs bf' :
  run bf calls = Done (bf', rs) <->
  steps bf (zip calls rs) bf' /\ length rs = length calls.
Proof.
  split; [apply run_steps|]. intros [Hsteps Hlen].
  apply steps_run in Hsteps. by rewrite fst_zip, snd_zip in Hsteps by lia.
Qed.

End run.

Section total.
Context {D : Digest} {L : DigestLaws D}.
Implicit Types (bf : Filter) (calls : list call).

Lemma exec_total bf c : wf bf -> exists bf' r, exec bf c = Done (bf', r) /\ wf bf'.
Proof.
  intros Hwf. destruct c as [e|e]; unfold exec, MustAdd, MustHave.
  - rewrite Add_eq by done. do 2 eexists. split; [done|]. by apply wf_set_bits.
  - rewrite Has_eq by done. do 2 eexists. by split.
Qed.

(** From a well-formed filter every list of calls runs to its end:
    no call panics or returns an error, and each call gets its
    reply. *)
Theorem run_total bf calls :
  wf bf ->
  exists bf' rs, run bf calls = Done (bf', rs) /\ length rs = length calls.
Proof.
  revert bf. induction calls as [|c calls IH]; intros bf Hwf; [by exists bf, []|].
  destruct (exec_total bf c Hwf) as (bf1 & r & Hexec & Hwf1).
  destruct (IH bf1 Hwf1) as (bf2 & rs & Hrun & Hlen).
  exists bf2, (r :: rs). rewrite run_cons, Hexec, bind_Done, Hrun. cbn.
  by rewrite Hlen.
Qed.

End total.

(** ** The theorems at concrete inputs *)

(** The calls of the repository's tests on its filter of 48 bits: add
    ["test"], then ask for it, for ["test1"], and for an element that
    was not added and whose positions 32, 37, 7 and 32 are those
    of ["test"]. *)
Definition collision : list byte := list_byte_of_string "test343".

Definition test_calls : list call :=
  [CallAdd test_element; CallHas test_element; CallHas other_element; CallHas collision].

Definition test_replies : list reply :=
  [RetAdd; RetHas true; RetHas false; RetHas true].

Lemma run_test_calls : run test_filter test_calls = Done (added_filter, test_replies).
Proof. by vm_compute. Qed.

Lemma steps_test_calls : steps test_filter (zip test_calls test_replies) added_filter.
Proof. apply run_steps, run_test_calls. Qed.

(** False positives exist: in the filter of the repository's test
    that holds ["test"] only, [Has] answers [true] for ["test343"],
    whose positions are among those of ["test"]. *)
Theorem false_positive :
  steps test_filter
    [(CallAdd test_element, RetAdd); (CallHas collision, RetHas true)] added_filter /\
  collision ∉ added [(CallAdd test_element, RetAdd); (CallHas collision, RetHas true)].
Proof.
  split.
  - apply (run_steps test_filter [CallAdd test_element; CallHas collision]
             added_filter [RetAdd; RetHas true]). by vm_compute.
  - by intros [= ]%list_elem_of_singleton.
Qed.

Lemma Add_refines_witness :
  exists bf',
    Add test_filter test_element = Done (bf', None) /\
    bits_of bf' = abs_add (bits_of test_filter) (filter_positions test_filter test_element).
Proof. apply (Add_refines test_filter test_element wf_test_filter). Defined.

Lemma Has_refines_witness :
  exists isIn,
    Has added_filter other_element = Done (isIn, None) /\
    (isIn = true <->
     list_to_set (filter_positions added_filter other_element) ⊆ bits_of added_filter).
Proof. apply (Has_refines added_filter other_element wf_added_filter). Defined.

Lemma steps_wf_witness :
  wf added_filter /\
  (bitlen added_filter, hashqty added_filter) = (bitlen test_filter, hashqty test_filter) /\
  length (bitstore added_filter) = length (bitstore test_filter).
Proof. apply (steps_wf test_filter _ added_filter wf_test_filter steps_test_calls). Defined.

Lemma steps_refine_witness :
  bits_of added_filter
  = bits_of test_filter ∪ positions_of test_filter (added (zip test_calls test_replies)).
Proof. apply (steps_refine test_filter _ added_filter wf_test_filter steps_test_calls). Defined.

Lemma steps_no_false_negative_witness : Has added_filter test_element = Done (true, None).
Proof.
  apply (steps_no_false_negative test_filter _ added_filter test_element
           wf_test_filter steps_test_calls).
  apply list_elem_of_here.
Defined.

Lemma steps_false_definite_witness :
  (CallAdd other_element, RetAdd) ∉ [(CallAdd test_element, RetAdd); (CallHas test_element, RetHas true)].
Proof.
  apply (steps_false_definite test_filter
           [(CallAdd test_element, RetAdd); (CallHas test_element, RetHas true)]
           other_element [(CallHas collision, RetHas true)] added_filter
           wf_test_filter steps_test_calls).
Defined.

(** The filter of the test with other values of [prob] and [n] and a
    bit set in the padding of its bucket. *)
Definition padded_filter : Filter := mkFilter 1 48 4 7 [2 ^ 60].

Lemma wf_padded_filter : wf padded_filter.
Proof. solve_wf. Qed.

Lemma same_set_padded : same_set test_filter padded_filter.
Proof. split_and!; [done..|]. by vm_compute. Qed.

Lemma Has_same_set_witness :
  Has test_filter test_element = Has padded_filter test_element.
Proof.
  apply (Has_same_set test_filter padded_filter test_element
           wf_test_filter wf_padded_filter same_set_padded).
Defined.

Lemma Add_same_set_witness :
  exists bf1 bf1',
    Add test_filter test_element = Done (bf1, None) /\
    Add padded_filter test_element = Done (bf1', None) /\
    same_set bf1 bf1'.
Proof.
  apply (Add_same_set test_filter padded_filter test_element
           wf_test_filter wf_padded_filter same_set_padded).
Defined.

Lemma same_set_store_witness :
  bitstore added_filter = bitstore (mkFilter 1 48 4 7 [210453397632]).
Proof.
  apply (same_set_store added_filter (mkFilter 1 48 4 7 [210453397632]) wf_added_filter).
  - solve_wf.
  - apply tight_single; [lia|unfold is_uint; lia].
  - apply tight_single; [lia|unfold is_uint; lia].
  - done.
Defined.

Lemma steps_size_witness :
  (size (bits_of added_filter)
   <= size (bits_of test_filter)
      + Z.to_nat (hashqty test_filter) * length (added (zip test_calls test_replies)))%nat /\
  (size (bits_of added_filter) <= Z.to_nat (bitlen added_filter))%nat.
Proof. apply (steps_size test_filter _ added_filter wf_test_filter steps_test_calls). Defined.

Lemma run_iff_steps_witness :
  steps test_filter (zip test_calls test_replies) added_filter /\
  length test_replies = length test_calls.
Proof.
  apply (proj1 (run_iff_steps test_filter test_calls test_replies added_filter)).
  apply run_test_calls.
Defined.

Lemma run_total_witness :
  exists bf' rs, run test_filter test_calls = Done (bf', rs) /\ length rs = length test_calls.
Proof. apply (run_total test_filter test_calls wf_test_filter). Defined.

Lemma store_roundtrip_witness :
  let zero := make 0 (buckets_for (bitlen added_filter)) in
  Add_loop (elements (bits_of added_filter)) zero = Done (bitstore added_filter) /\
  forall S : gset Z, (forall p, p ∈ S -> 0 <= p < bitlen added_filter) ->
    exists bs, Add_loop (elements S) zero = Done bs /\
               bits_of (with_bitstore added_filter bs) = S.
Proof.
  apply (store_roundtrip added_filter wf_added_filter), tight_single; [lia|].
  unfold is_uint. lia.
Defined.
