(* ===== verification/Concurrent.v ===== *)
(** * Goroutines that share a filter

    The package takes no lock, and the comment on [Filter] says that its
    operations are not safe for concurrent use.  This file says what
    that means for [Add].  The statement [bf.bitstore[index] |= mask] of
    its loop is a read of the bucket followed by a write: a goroutine is
    the positions it has still to set and, between the read and the
    write, the value it is about to write; [access] is one memory access
    of a goroutine and [interleave] runs the accesses of several
    goroutines in the order a schedule gives.

    A goroutine alone is the loop of [Add].  Two goroutines lose a bit
    whenever their elements have positions in one bucket, one of them a
    bit that is not set and that the other element does not set: on the
    schedule that preempts one goroutine between its read and its write
    of that bucket ([lost_schedule]) both [Add]s return and [Has]
    answers [false] for an element that was added.  With the read and
    the write
    fused into one step ([atomic_or], what a lock around the statement
    or an atomic OR gives), every schedule leaves the bits of all the
    positions set, and [Has] finds every element; a schedule that is
    [fair], one that gives each goroutine a turn for each of its
    positions, ends with every goroutine returned and the store that
    the sequential [Adds] leave, and every schedule can be continued to
    a fair one. *)

From Stdlib Require Import Strings.Byte String.
From stdpp Require Import base tactics list numbers.
From S2P Require Import Prelude Errors BitAddr Sha256 Hex Hash Filter.
Set Warnings "-clear-no-such-hyp".

(** ** Goroutines *)

Record goroutine : Type := mkGoroutine {
  todo : list Z;               (* the positions of [pos] not yet visited *)
  pending : option (Z * Z)     (* after the read: the index and the value to write *)
}.

(** A goroutine at the start of the loop of [Add]. *)
Definition go (pos : list Z) : goroutine := mkGoroutine pos None.

Definition finished (g : goroutine) : Prop := g = go [].

#[global] Instance goroutine_eq_dec : EqDecision goroutine.
Proof. solve_decision. Defined.

#[global] Instance finished_dec g : Decision (finished g).
Proof. unfold finished. apply _. Defined.

(** One memory access of a goroutine in
    [index, offset := bitlocation(p, 64); mask = 1 << offset; bf.bitstore[index] |= mask]:
    the read of the bucket, or the write of the value computed from what
    was read. *)
Definition access (bs : list Z) (g : goroutine) : result (list Z * goroutine) :=
  match pending g with
  | Some (index, v) => Done (store bs index v, mkGoroutine (todo g) None)
  | None =>
      match todo g with
      | [] => Done (bs, g)
      | p :: pos =>
          let '(index, offset) := bitlocation p 64 in
          let mask := shl64 1 offset in
          w ← read bs index;
          Done (bs, mkGoroutine pos (Some (index, Z.lor w mask)))
      end
  end.

(** The read and the write without another goroutine in between. *)
Definition atomic_or (bs : list Z) (g : goroutine) : result (list Z * goroutine) :=
  '(bs, g) ← access bs g; access bs g.

(** The goroutines run one step at a time, in the order of the
    schedule, which names the goroutine that moves. *)
Fixpoint interleave {T} (step : list Z -> T -> result (list Z * T))
    (sched : list nat) (bs : list Z) (gs : list T) : result (list Z * list T) :=
  match sched with
  | [] => Done (bs, gs)
  | i :: sched =>
      match gs !! i with
      | None => interleave step sched bs gs
      | Some g =>
          '(bs, g) ← step bs g;
          interleave step sched bs (<[i := g]> gs)
      end
  end.

(** What an atomic schedule does to the positions the goroutines have
    to set: [trace] is the sequence of the positions set, in the order
    in which the schedule sets them, and [remaining] what is left to
    each goroutine at the end. *)
Fixpoint trace (sched : list nat) (poss : list (list Z)) : list Z :=
  match sched with
  | [] => []
  | i :: sched =>
      match poss !! i with
      | Some (p :: pos) => p :: trace sched (<[i := pos]> poss)
      | _ => trace sched poss
      end
  end.

Fixpoint remaining (sched : list nat) (poss : list (list Z)) : list (list Z) :=
  match sched with
  | [] => poss
  | i :: sched =>
      match poss !! i with
      | Some (p :: pos) => remaining sched (<[i := pos]> poss)
      | _ => remaining sched poss
      end
  end.

(** The turns a schedule gives to goroutine [i]. *)
Definition turns (sched : list nat) (i : nat) : nat :=
  length (filter (eq i) sched).

(** A schedule is fair to goroutines with these positions when it gives
    each a turn for each of its positions. *)
Definition fair (sched : list nat) (poss : list (list Z)) : Prop :=
  forall i pos, poss !! i = Some pos -> (length pos <= turns sched i)%nat.

(** The schedule that gives every goroutine its turns, one goroutine
    after the other, from goroutine [i] on. *)
Fixpoint in_turn (i : nat) (poss : list (list Z)) : list nat :=
  match poss with
  | [] => []
  | pos :: poss => replicate (length pos) i ++ in_turn (S i) poss
  end.

Section sequential.
Context {D : Digest}.

(** The goroutines of the [Add]s of [es], each past [bitpositions] and
    at the start of its loop. *)
Definition adders (bf : Filter) (es : list (list byte)) : list goroutine :=
  go <$> (filter_positions bf <$> es).

(** The same [Add]s by one goroutine, one after the other. *)
Fixpoint Adds (bf : Filter) (es : list (list byte)) : result Filter :=
  match es with
  | [] => Done bf
  | e :: es => bf ← MustAdd bf e; Adds bf es
  end.

End sequential.

Lemma fair_Forall sched poss :
  fair sched poss <->
  Forall (fun ip => (length ip.2 <= turns sched ip.1)%nat) (imap pair poss).
Proof.
  rewrite Forall_lookup. split.
  - intros Hfair i [j pos]. rewrite list_lookup_imap.
    destruct (poss !! i) as [pos'|] eqn:Hi; [|done]. intros [= <- <-]. by apply Hfair.
  - intros Hall i pos Hi. apply (Hall i (i, pos)). by rewrite list_lookup_imap, Hi.
Qed.

#[global] Instance fair_dec sched poss : Decision (fair sched poss).
Proof.
  destruct (decide (Forall (fun ip => (length ip.2 <= turns sched ip.1)%nat)
                      (imap pair poss))) as [H|H]; [left|right]; by rewrite fair_Forall.
Defined.

(** ** One goroutine *)

Section alone.
Implicit Types (bs pos : list Z) (p : Z).

Lemma interleave_cons {T} (step : list Z -> T -> result (list Z * T)) i sched bs gs g :
  gs !! i = Some g ->
  interleave step (i :: sched) bs gs
  = step bs g ≫= (fun '(bs, g) => interleave step sched bs (<[i := g]> gs)).
Proof. intros Hg. cbn [interleave]. by rewrite Hg. Qed.

(** The two accesses of one iteration are the iteration of [Add_loop]. *)
Lemma atomic_or_cons bs p pos :
  atomic_or bs (go (p :: pos))
  = Add_loop [p] bs ≫= (fun bs => Done (bs, go pos)).
Proof.
  unfold atomic_or, access, go. cbn [pending todo Add_loop].
  destruct (bitlocation p 64) as [index offset].
  destruct (read bs index) as [w|e]; [|done]. by rewrite !bind_Done.
Qed.

Lemma atomic_or_nil bs : atomic_or bs (go []) = Done (bs, go []).
Proof. done. Qed.

Lemma atomic_or_addressable bs p pos :
  addressable bs p -> atomic_or bs (go (p :: pos)) = Done (set_bit bs p, go pos).
Proof.
  intros Hp. rewrite atomic_or_cons, Add_loop_cons by done. done.
Qed.

Lemma Add_loop_one bs p pos :
  Add_loop (p :: pos) bs = Add_loop [p] bs ≫= Add_loop pos.
Proof.
  cbn [Add_loop]. destruct (bitlocation p 64) as [index offset].
  destruct (read bs index) as [w|e]; [|done]. by rewrite !bind_Done.
Qed.

(** Two accesses in a row of one goroutine are one atomic step. *)
Lemma interleave_twice i sched bs gs pos :
  gs !! i = Some (go pos) ->
  interleave access (i :: i :: sched) bs gs
  = atomic_or bs (go pos) ≫= (fun '(bs, g) => interleave access sched bs (<[i := g]> gs)).
Proof.
  intros Hg. rewrite (interleave_cons _ _ _ _ _ _ Hg). unfold atomic_or.
  destruct (access bs (go pos)) as [[bs1 g1]|e]; [|done]. rewrite !bind_Done.
  assert (<[i:=g1]> gs !! i = Some g1) as Hg1
    by (apply list_lookup_insert_eq; by eapply lookup_lt_Some).
  rewrite (interleave_cons _ _ _ _ _ _ Hg1).
  destruct (access bs1 g1) as [[bs2 g2]|e]; [|done]. rewrite !bind_Done.
  by rewrite list_insert_insert_eq.
Qed.

(** A goroutine that runs alone is the loop of [Add]: its accesses,
    two for each position, leave the store the loop leaves, and panic
    where the loop panics. *)
Theorem alone_is_Add_loop pos bs :
  interleave access (replicate (2 * length pos) 0%nat) bs [go pos]
  = Add_loop pos bs ≫= (fun bs => Done (bs, [go []])).
Proof.
  revert bs. induction pos as [|p pos IH]; intros bs; [done|].
  replace (2 * length (p :: pos))%nat with (S (S (2 * length pos))) by (cbn; lia).
  cbn [replicate]. rewrite (interleave_twice 0 _ bs [go (p :: pos)] (p :: pos)) by done.
  rewrite atomic_or_cons, (Add_loop_one bs p pos).
  destruct (Add_loop [p] bs) as [bs1|e]; [|done]. rewrite !bind_Done. apply IH.
Qed.

End alone.

(** ** Invariants of a schedule *)

(** A property of the store and a property of the goroutines that every
    step keeps are kept by every schedule, and no schedule panics. *)
Section invariant.
Context {T : Type} (step : list Z -> T -> result (list Z * T)).
Context (I : list Z -> Prop) (ok : T -> Prop).
Hypothesis step_ok :
  forall bs t, I bs -> ok t -> exists bs' t', step bs t = Done (bs', t') /\ I bs' /\ ok t'.

Lemma interleave_invariant sched bs ts :
  I bs -> Forall ok ts ->
  exists bs' ts',
    interleave step sched bs ts = Done (bs', ts') /\
    I bs' /\ Forall ok ts' /\ length ts' = length ts.
Proof.
  revert bs ts. induction sched as [|i sched IH]; intros bs ts HI Hok.
  { by exists bs, ts. }
  cbn [interleave]. destruct (ts !! i) as [t|] eqn:Hi; [|by apply IH].
  destruct (step_ok bs t HI (Forall_lookup_1 _ _ _ _ Hok Hi)) as (bs1 & t1 & -> & HI1 & Hok1).
  rewrite bind_Done.
  destruct (IH bs1 (<[i := t1]> ts) HI1) as (bs' & ts' & Hrun & ? & ? & Hlen).
  { by apply Forall_insert. }
  exists bs', ts'. by rewrite Hlen, length_insert.
Qed.

End invariant.

(** The same for a property of a goroutine that depends on the store
    and on a tag that stays with the goroutine: a step keeps the
    property of the goroutine that makes it, and the change of the
    store it makes keeps the property of every other. *)
Section tagged.
Context {T A : Type} (step : list Z -> T -> result (list Z * T)).
Context (I : list Z -> Prop) (ok : list Z -> A -> T -> Prop).
Hypothesis step_ok :
  forall bs a t, I bs -> ok bs a t ->
    exists bs' t', step bs t = Done (bs', t') /\ I bs' /\ ok bs' a t' /\
                   forall a' t'', ok bs a' t'' -> ok bs' a' t''.

Lemma interleave_tagged sched bs tags ts :
  I bs -> Forall2 (ok bs) tags ts ->
  exists bs' ts',
    interleave step sched bs ts = Done (bs', ts') /\ I bs' /\ Forall2 (ok bs') tags ts'.
Proof.
  revert bs ts. induction sched as [|i sched IH]; intros bs ts HI Hok.
  { by exists bs, ts. }
  cbn [interleave]. destruct (ts !! i) as [t|] eqn:Hi; [|by apply IH].
  destruct (Forall2_lookup_r _ _ _ _ _ Hok Hi) as (a & Ha & Hat).
  destruct (step_ok bs a t HI Hat) as (bs1 & t1 & -> & HI1 & Hok1 & Hmono).
  rewrite bind_Done. apply IH; [done|].
  assert (Forall2 (ok bs1) (<[i:=a]> tags) (<[i:=t1]> ts)) as Hins.
  { apply Forall2_insert; [|done]. eapply list.Forall2_impl; [exact Hok|]. apply Hmono. }
  by rewrite list_insert_id in Hins.
Qed.

End tagged.

(** ** Atomic steps lose nothing *)

Section atomic.
Implicit Types (bs pos : list Z) (poss : list (list Z)) (p q : Z).

(** The bits owed: those set in the store and those some goroutine has
    still to set. *)
Definition owed bs poss q : Prop := bit bs q = true \/ q ∈ concat poss.

Lemma elem_of_concat poss q : q ∈ concat poss <-> exists pos, pos ∈ poss /\ q ∈ pos.
Proof.
  induction poss as [|pos poss IH].
  - split; [by intros ?%not_elem_of_nil|by intros (? & ?%not_elem_of_nil & _)].
  - rewrite concat_cons, elem_of_app, IH. setoid_rewrite elem_of_cons. naive_solver.
Qed.

Lemma concat_insert_tail poss i p pos q :
  poss !! i = Some (p :: pos) ->
  q ∈ concat poss <-> q = p \/ q ∈ concat (<[i := pos]> poss).
Proof.
  intros Hi. pose proof (lookup_lt_Some _ _ _ Hi) as Hlt.
  rewrite <- (take_drop_middle poss i (p :: pos)) at 1 by done.
  rewrite insert_take_drop by done.
  rewrite !concat_app, !concat_cons, !elem_of_app, elem_of_cons. tauto.
Qed.

Lemma Forall_insert_tail (P : Z -> Prop) poss i p pos :
  poss !! i = Some (p :: pos) -> Forall (Forall P) poss ->
  P p /\ Forall (Forall P) (<[i := pos]> poss).
Proof.
  intros Hi Hall. pose proof (Forall_lookup_1 _ _ _ _ Hall Hi) as [Hp Hpos]%Forall_cons_1.
  split; [done|]. by apply Forall_insert.
Qed.

(** One atomic step of goroutine [i]. *)
Lemma atomic_step poss i p pos bs :
  poss !! i = Some (p :: pos) -> addressable bs p ->
  (go <$> poss) !! i = Some (go (p :: pos)) /\
  atomic_or bs (go (p :: pos)) = Done (set_bit bs p, go pos) /\
  <[i := go pos]> (go <$> poss) = go <$> <[i := pos]> poss /\
  forall q, owed (set_bit bs p) (<[i := pos]> poss) q <-> owed bs poss q.
Proof.
  intros Hi Hp. split_and!.
  - by rewrite list_lookup_fmap, Hi.
  - by apply atomic_or_addressable.
  - by rewrite list_fmap_insert.
  - intros q. unfold owed. rewrite (concat_insert_tail poss i p pos q Hi).
    rewrite bit_set_bit by apply Hp. rewrite orb_true_iff, bool_decide_eq_true.
    naive_solver.
Qed.

(** Every schedule of atomic steps runs without panic, keeps the store a
    store of as many [uint64] buckets, and keeps the bits owed. *)
Lemma interleave_atomic sched bs poss :
  Forall (Forall (addressable bs)) poss -> Forall (is_uint 64) bs ->
  exists bs' poss',
    interleave atomic_or sched bs (go <$> poss) = Done (bs', go <$> poss') /\
    length bs' = length bs /\ Forall (is_uint 64) bs' /\
    forall q, owed bs' poss' q <-> owed bs poss q.
Proof.
  revert bs poss. induction sched as [|i sched IH]; intros bs poss Hposs Hbs.
  { by exists bs, poss. }
  destruct (poss !! i) as [[|p pos]|] eqn:Hi.
  - destruct (IH bs poss Hposs Hbs) as (bs' & poss' & Hrun & ?).
    exists bs', poss'. split; [|done].
    rewrite (interleave_cons _ _ _ _ _ (go [])) by (by rewrite list_lookup_fmap, Hi).
    rewrite atomic_or_nil, bind_Done, list_insert_id; [done|].
    by rewrite list_lookup_fmap, Hi.
  - destruct (Forall_insert_tail _ _ _ _ _ Hi Hposs) as [Hp Hposs'].
    destruct (atomic_step poss i p pos bs Hi Hp) as (Hg & Hstep & Hins & Howed).
    destruct (IH (set_bit bs p) (<[i := pos]> poss)) as (bs' & poss' & Hrun & Hlen & Hu & Hq).
    { eapply list.Forall_impl; [done|]. intros l Hl.
      eapply list.Forall_impl; [done|]. intros q. apply addressable_set_bit. }
    { by apply set_bit_uint. }
    exists bs', poss'. split_and!; [|by rewrite Hlen, length_set_bit|done|].
    + by rewrite (interleave_cons _ _ _ _ _ _ Hg), Hstep, bind_Done, Hins.
    + intros q. by rewrite Hq, Howed.
  - destruct (IH bs poss Hposs Hbs) as (bs' & poss' & Hrun & ?).
    exists bs', poss'. split; [|done]. cbn [interleave].
    by rewrite list_lookup_fmap, Hi.
Qed.

Lemma addressable_all_set_bit bs p poss :
  Forall (Forall (addressable bs)) poss ->
  Forall (Forall (addressable (set_bit bs p))) poss.
Proof.
  intros Hposs. eapply list.Forall_impl; [done|]. intros l Hl.
  eapply list.Forall_impl; [done|]. intros q. apply addressable_set_bit.
Qed.

(** An atomic schedule sets the bits of its trace and leaves to the
    goroutines what remains. *)
Lemma interleave_atomic_trace sched bs poss :
  Forall (Forall (addressable bs)) poss ->
  interleave atomic_or sched bs (go <$> poss)
  = Done (set_bits bs (trace sched poss), go <$> remaining sched poss).
Proof.
  revert bs poss. induction sched as [|i sched IH]; intros bs poss Hposs; [done|].
  cbn [trace remaining]. destruct (poss !! i) as [[|p pos]|] eqn:Hi.
  - rewrite (interleave_cons _ _ _ _ _ (go [])) by (by rewrite list_lookup_fmap, Hi).
    rewrite atomic_or_nil, bind_Done, list_insert_id by (by rewrite list_lookup_fmap, Hi).
    by apply IH.
  - destruct (Forall_insert_tail _ _ _ _ _ Hi Hposs) as [Hp Hposs'].
    destruct (atomic_step poss i p pos bs Hi Hp) as (Hg & Hstep & Hins & _).
    rewrite (interleave_cons _ _ _ _ _ _ Hg), Hstep, bind_Done, Hins.
    by rewrite IH by (by apply addressable_all_set_bit).
  - cbn [interleave]. rewrite list_lookup_fmap, Hi. by apply IH.
Qed.

Lemma concat_insert_tail_perm poss i p pos :
  poss !! i = Some (p :: pos) -> concat poss ≡ₚ p :: concat (<[i := pos]> poss).
Proof.
  intros Hi. pose proof (lookup_lt_Some _ _ _ Hi) as Hlt.
  rewrite <- (take_drop_middle poss i (p :: pos)) at 1 by done.
  rewrite insert_take_drop by done.
  rewrite !concat_app, !concat_cons, <- app_comm_cons. symmetry. apply Permutation_middle.
Qed.

(** Nothing is set twice and nothing is forgotten: the positions set and
    the positions left are those the goroutines started with. *)
Lemma trace_remaining sched poss :
  concat poss ≡ₚ trace sched poss ++ concat (remaining sched poss).
Proof.
  revert poss. induction sched as [|i sched IH]; intros poss; [done|].
  cbn [trace remaining]. destruct (poss !! i) as [[|p pos]|] eqn:Hi; [apply IH| |apply IH].
  by rewrite <- app_comm_cons, <- IH, <- concat_insert_tail_perm.
Qed.

(** *** Fair schedules *)

Lemma turns_cons sched i j :
  turns (j :: sched) i = if decide (i = j) then S (turns sched i) else turns sched i.
Proof. unfold turns. rewrite filter_cons. by destruct (decide (i = j)). Qed.

Lemma turns_app sched1 sched2 i :
  turns (sched1 ++ sched2) i = (turns sched1 i + turns sched2 i)%nat.
Proof. unfold turns. by rewrite list.filter_app, length_app. Qed.

Lemma fair_app sched more poss : fair more poss -> fair (sched ++ more) poss.
Proof. intros Hfair i pos Hi. rewrite turns_app. specialize (Hfair i pos Hi). lia. Qed.

Lemma fair_nil poss : fair [] poss -> poss = replicate (length poss) [].
Proof.
  induction poss as [|pos poss IH]; [done|]. intros Hfair. cbn. f_equal.
  - specialize (Hfair 0%nat pos eq_refl). destruct pos; [done|cbn in Hfair; lia].
  - apply IH. intros i pos' Hi. apply (Hfair (S i) pos' Hi).
Qed.

(** After a turn of goroutine [i] the rest of a fair schedule is fair to
    what is left. *)
Lemma fair_turn sched poss i p pos :
  poss !! i = Some (p :: pos) -> fair (i :: sched) poss -> fair sched (<[i := pos]> poss).
Proof.
  intros Hi Hfair j pos' Hj. destruct (decide (j = i)) as [->|Hne].
  - rewrite list_lookup_insert_eq in Hj by (by eapply lookup_lt_Some).
    injection Hj as <-. specialize (Hfair i _ Hi).
    rewrite turns_cons, decide_True in Hfair by done. cbn in Hfair. lia.
  - rewrite list_lookup_insert_ne in Hj by done. specialize (Hfair j _ Hj).
    by rewrite turns_cons, decide_False in Hfair.
Qed.

Lemma fair_idle sched poss i :
  poss !! i = Some [] \/ poss !! i = None -> fair (i :: sched) poss -> fair sched poss.
Proof.
  intros Hi Hfair j pos Hj. specialize (Hfair j _ Hj). rewrite turns_cons in Hfair.
  destruct (decide (j = i)) as [->|]; [|done].
  destruct Hi as [Hi|Hi]; rewrite Hi in Hj; [|done]. injection Hj as <-. cbn. lia.
Qed.

(** A fair schedule leaves nothing to any goroutine. *)
Lemma remaining_fair sched poss :
  fair sched poss -> remaining sched poss = replicate (length poss) [].
Proof.
  revert poss. induction sched as [|i sched IH]; intros poss Hfair; [by apply fair_nil|].
  cbn [remaining]. destruct (poss !! i) as [[|p pos]|] eqn:Hi.
  - eapply IH, fair_idle; eauto.
  - rewrite (IH (<[i := pos]> poss)) by (by eapply fair_turn).
    by rewrite length_insert.
  - eapply IH, fair_idle; eauto.
Qed.

Lemma concat_replicate_nil {A} k : concat (replicate k (@nil A)) = [].
Proof. induction k as [|k IH]; [done|]. by cbn. Qed.

Lemma turns_replicate k i j :
  turns (replicate k j) i = if decide (i = j) then k else 0%nat.
Proof.
  induction k as [|k IH]; [by destruct (decide (i = j))|].
  cbn [replicate]. rewrite turns_cons, IH. by destruct (decide (i = j)).
Qed.

Lemma in_turn_turns poss k i pos :
  poss !! i = Some pos -> (length pos <= turns (in_turn k poss) (k + i))%nat.
Proof.
  revert k i. induction poss as [|pos' poss IH]; intros k i Hi; [done|].
  cbn [in_turn]. rewrite turns_app, turns_replicate. destruct i as [|i].
  - injection Hi as ->. rewrite decide_True by lia. lia.
  - specialize (IH (S k) i Hi). replace (k + S i)%nat with (S k + i)%nat by lia. lia.
Qed.

Lemma in_turn_fair poss : fair (in_turn 0 poss) poss.
Proof. intros i pos Hi. by apply (in_turn_turns poss 0 i pos). Qed.

End atomic.

(** ** Concurrent [Add]s on a filter *)

Section filter.
Context {D : Digest} {L : DigestLaws D}.
Implicit Types (bf : Filter) (es : list (list byte)) (sched : list nat).

Lemma finished_nil poss : Forall finished (go <$> poss) -> concat poss = [].
Proof.
  induction poss as [|pos poss IH]; [done|].
  rewrite fmap_cons. intros [[= ->] Hrest]%Forall_cons_1. by rewrite concat_cons, IH.
Qed.

Lemma adders_addressable bf es :
  wf bf -> Forall (Forall (addressable (bitstore bf))) (filter_positions bf <$> es).
Proof.
  intros Hwf. apply Forall_fmap, list.Forall_forall. intros e _. by apply wf_addressable.
Qed.

(** The sequential [Add]s set the bits of all the positions. *)
Lemma Adds_eq bf es :
  wf bf ->
  Adds bf es
  = Done (with_bitstore bf (set_bits (bitstore bf) (concat (filter_positions bf <$> es)))).
Proof.
  revert bf. induction es as [|e es IH]; intros bf Hwf; [by destruct bf|].
  cbn [Adds]. unfold MustAdd. rewrite Add_eq, !bind_Done by done.
  rewrite IH by (by apply wf_set_bits). by rewrite fmap_cons, concat_cons, set_bits_app.
Qed.

(** A fair schedule of atomic steps ends with every goroutine finished
    and the bits of all the positions set. *)
Lemma interleave_atomic_fair bf es sched :
  wf bf -> fair sched (filter_positions bf <$> es) ->
  interleave atomic_or sched (bitstore bf) (adders bf es)
  = Done (set_bits (bitstore bf) (concat (filter_positions bf <$> es)),
          replicate (length es) (go [])).
Proof.
  intros Hwf Hfair. unfold adders.
  rewrite interleave_atomic_trace by (by apply adders_addressable).
  pose proof (trace_remaining sched (filter_positions bf <$> es)) as Hperm.
  rewrite remaining_fair, concat_replicate_nil, app_nil_r in Hperm by done.
  by rewrite remaining_fair, fmap_replicate, length_fmap, <- Hperm by done.
Qed.

(** Once the bits of the positions of [es] are set, [Has] finds every
    element of [es]. *)
Lemma Has_all_set bf es e :
  wf bf -> e ∈ es ->
  Has (with_bitstore bf (set_bits (bitstore bf) (concat (filter_positions bf <$> es)))) e
  = Done (true, None).
Proof.
  intros Hwf He. rewrite Has_eq by (by apply wf_set_bits). do 2 f_equal.
  rewrite filter_positions_with_bitstore. cbn [bitstore with_bitstore].
  apply forallb_elem_of. intros p Hp. rewrite bit_set_bits.
  - apply orb_true_iff. right. apply bool_decide_eq_true, elem_of_concat.
    exists (filter_positions bf e). split; [|done]. apply list_elem_of_fmap. by exists e.
  - apply Forall_concat. eapply list.Forall_impl; [by apply adders_addressable|].
    intros pos Hpos. eapply list.Forall_impl; [done|]. by intros q [_ ?].
Qed.

(** C32. With the read and the write of a bucket in one step no update
    is lost.  Whatever the schedule, the [Add]s of any number of
    goroutines run without panic and leave a well-formed filter, and
    once they have all finished [Has] finds every element they added. *)
Theorem atomic_Adds_found bf es sched :
  wf bf ->
  exists bs' gs',
    interleave atomic_or sched (bitstore bf) (adders bf es) = Done (bs', gs') /\
    wf (with_bitstore bf bs') /\
    (Forall finished gs' ->
     forall e, e ∈ es -> Has (with_bitstore bf bs') e = Done (true, None)).
Proof.
  intros Hwf.
  destruct (interleave_atomic sched (bitstore bf) (filter_positions bf <$> es))
    as (bs' & poss' & Hrun & Hlen & Hu & Howed);
    [by apply adders_addressable|apply Hwf|].
  exists bs', (go <$> poss'). split; [done|].
  assert (wf (with_bitstore bf bs')) as Hwf' by (by apply wf_with_bitstore).
  split; [done|]. intros Hfin%finished_nil e He.
  rewrite Has_eq by done. do 2 f_equal. apply forallb_elem_of. intros p Hp.
  destruct (proj2 (Howed p)) as [Hbit|Hin].
  - right. apply elem_of_concat. exists (filter_positions bf e).
    split; [|done]. apply list_elem_of_fmap. by exists e.
  - done.
  - rewrite Hfin in Hin. by apply not_elem_of_nil in Hin.
Qed.

(** C33. Atomic [Add]s are linearizable to the sequential ones.  On
    every schedule that gives each goroutine a turn for each of its
    positions, the concurrent [Add]s all return, and the store they
    leave is the store one goroutine leaves that makes the same [Add]s
    one after the other. *)
Theorem atomic_Adds_sequential bf es sched :
  wf bf -> fair sched (filter_positions bf <$> es) ->
  exists bf',
    Adds bf es = Done bf' /\
    interleave atomic_or sched (bitstore bf) (adders bf es)
    = Done (bitstore bf', replicate (length es) (go [])).
Proof.
  intros Hwf Hfair. eexists. split; [by apply Adds_eq|].
  by rewrite interleave_atomic_fair.
Qed.

(** The concurrent [Add]s can always finish.  Whatever has been
    scheduled so far, there are turns after which every goroutine has
    returned, no step has panicked, and [Has] finds every element. *)
Theorem atomic_Adds_can_finish bf es sched :
  wf bf ->
  exists more bs',
    interleave atomic_or (sched ++ more) (bitstore bf) (adders bf es)
    = Done (bs', replicate (length es) (go [])) /\
    forall e, e ∈ es -> Has (with_bitstore bf bs') e = Done (true, None).
Proof.
  intros Hwf. exists (in_turn 0 (filter_positions bf <$> es)). eexists. split.
  - apply interleave_atomic_fair; [done|]. apply fair_app, in_turn_fair.
  - intros e He. by apply Has_all_set.
Qed.

End filter.

(** ** A lost update *)

(** The schedule that loses an update.  Goroutine 0 visits its first
    [pre] positions, reads the bucket of the next and is preempted;
    goroutine 1 makes its [other] positions, its whole [Add]; goroutine
    0 then writes the value it computed from what it read, and visits
    its last [post] positions. *)
Definition lost_schedule (pre post other : nat) : list nat :=
  replicate (2 * pre) 0%nat ++ [0%nat] ++ replicate (2 * other) 1%nat ++ [0%nat]
  ++ replicate (2 * post) 0%nat.

(** The store that schedule leaves: the write of goroutine 0 to the
    bucket of [p] carries the bucket as it was before goroutine 1 ran. *)
Definition lost_store (bs pre : list Z) (p : Z) (post other : list Z) : list Z :=
  let old := set_bits bs pre in
  let w := default 0 (index old (p / 64)) in
  set_bits (store (set_bits old other) (p / 64) (Z.lor w (2 ^ (p mod 64)))) post.

Section lost.
Implicit Types (bs pos pre post other : list Z) (p q : Z) (gs : list goroutine).

Lemma addressable_length bs bs' p :
  length bs' = length bs -> addressable bs p -> addressable bs' p.
Proof. unfold addressable, in_store. by intros ->. Qed.

Lemma addressable_set_bits bs pos q : addressable bs q -> addressable (set_bits bs pos) q.
Proof. apply addressable_length, length_set_bits. Qed.

(** A goroutine that makes its accesses in a row, among others that
    wait, sets the bits of the positions it visits. *)
Lemma interleave_alone i pos : forall rest sched bs gs,
  gs !! i = Some (go (pos ++ rest)) -> Forall (addressable bs) pos ->
  interleave access (replicate (2 * length pos) i ++ sched) bs gs
  = interleave access sched (set_bits bs pos) (<[i := go rest]> gs).
Proof.
  induction pos as [|r pos IH]; intros rest sched bs gs Hi Hpos.
  { cbn. by rewrite list_insert_id. }
  apply Forall_cons_1 in Hpos as [Hr Hpos].
  replace (2 * length (r :: pos))%nat with (S (S (2 * length pos))) by (cbn; lia).
  cbn [replicate app]. rewrite (interleave_twice i _ bs gs (r :: pos ++ rest)) by done.
  rewrite atomic_or_addressable, bind_Done by done. rewrite (IH rest).
  - by rewrite list_insert_insert_eq.
  - apply list_lookup_insert_eq. by eapply lookup_lt_Some.
  - eapply list.Forall_impl; [done|]. intros ?. apply addressable_set_bit.
Qed.

(** The read of a goroutine: the value it will write is the bucket as
    it is now, with the bit of [p]. *)
Lemma access_read bs p pos :
  addressable bs p ->
  exists w, index bs (p / 64) = Some w /\
            access bs (go (p :: pos))
            = Done (bs, mkGoroutine pos (Some (p / 64, Z.lor w (2 ^ (p mod 64))))).
Proof.
  intros (w & Hloc & Hmask & Hidx & Hread)%addressable_read. exists w. split; [done|].
  unfold access, go. cbn [pending todo]. by rewrite Hloc, Hmask, Hread, bind_Done.
Qed.

(** The write of a goroutine: the value it computed when it read. *)
Lemma access_write bs pos i v :
  access bs (mkGoroutine pos (Some (i, v))) = Done (store bs i v, go pos).
Proof. done. Qed.

(** The bits of a store after an assignment to a bucket. *)
Lemma bit_store bs i v q :
  0 <= i < Z.of_nat (length bs) ->
  bit (store bs i v) q = if decide (q / 64 = i) then Z.testbit v (q mod 64) else bit bs q.
Proof.
  intros Hi. unfold bit. case_decide as Hq.
  - by rewrite Hq, index_store_eq.
  - by rewrite index_store_ne by lia.
Qed.

(** A write of a value computed from an older store: the bits of the
    bucket written are those of the older store and the bit of [p];
    what was set in that bucket since the read is lost. *)
Lemma bit_stale_write old bs p w q :
  length bs = length old -> in_store old p -> index old (p / 64) = Some w ->
  bit (store bs (p / 64) (Z.lor w (2 ^ (p mod 64)))) q
  = if decide (q / 64 = p / 64) then bit old q || bool_decide (p = q) else bit bs q.
Proof.
  intros Hlen Hp Hw. rewrite bit_store by (unfold in_store in Hp; rewrite Hlen; zdm).
  case_decide as Hq; [|done]. rewrite testbit_lor_pow2 by zdm. unfold bit.
  rewrite Hq, Hw. f_equal. apply eq_true_iff_eq.
  rewrite Z.eqb_eq, bool_decide_eq_true, (position_eq p q). intuition congruence.
Qed.

Section run.
Variables (bs pre post other : list Z) (p : Z).
Hypothesis addressable_0 : Forall (addressable bs) (pre ++ p :: post).
Hypothesis addressable_1 : Forall (addressable bs) other.

(** The schedule runs to its end, where both goroutines have returned. *)
Lemma interleave_lost :
  interleave access (lost_schedule (length pre) (length post) (length other)) bs
    [go (pre ++ p :: post); go other]
  = Done (lost_store bs pre p post other, [go []; go []]).
Proof.
  apply Forall_app in addressable_0 as [Hpre [Hp Hpost]%Forall_cons_1].
  assert (addressable (set_bits bs pre) p) as Hp1 by (by apply addressable_set_bits).
  destruct (access_read _ p post Hp1) as (w & Hw & Hread).
  unfold lost_schedule, lost_store. rewrite Hw. change (default 0 (Some w)) with w.
  rewrite (interleave_alone 0 pre (p :: post)) by done. cbn [app insert list_insert].
  rewrite (interleave_cons _ _ _ _ _ (go (p :: post))), Hread, bind_Done by done.
  cbn [insert list_insert].
  rewrite (interleave_alone 1 other []);
    [|by rewrite app_nil_r
     |eapply list.Forall_impl; [exact addressable_1|]; intros ?; apply addressable_set_bits].
  cbn [insert list_insert].
  rewrite (interleave_cons _ _ _ _ _ (mkGoroutine post (Some (p / 64, Z.lor w _)))) by done.
  rewrite access_write, bind_Done. cbn [insert list_insert].
  rewrite <- (app_nil_r (replicate _ _)), (interleave_alone 0 post []); [done|by rewrite app_nil_r|].
  eapply list.Forall_impl; [exact Hpost|]. intros q. apply addressable_length.
  by rewrite length_store, !length_set_bits.
Qed.

Lemma length_lost_store : length (lost_store bs pre p post other) = length bs.
Proof. unfold lost_store. by rewrite length_set_bits, length_store, !length_set_bits. Qed.

Lemma lost_store_uint :
  Forall (is_uint 64) bs -> Forall (is_uint 64) (lost_store bs pre p post other).
Proof.
  intros Hu. apply Forall_app in addressable_0 as [_ [[_ Hp] _]%Forall_cons_1].
  unfold lost_store. apply set_bits_uint.
  destruct (in_store_index (set_bits bs pre) p) as [w Hw];
    [by apply in_store_set_bits|]. rewrite Hw. change (default 0 (Some w)) with w.
  apply Forall_insert; [by do 2 apply set_bits_uint|].
  apply lor_pow2_range; [|zdm]. apply index_Some in Hw as [_ Hw].
  eapply Forall_lookup_1; [|exact Hw]. by apply set_bits_uint.
Qed.

(** The bits of the store the schedule leaves: those of the store at
    the start, the positions of goroutine 0, and of the positions of
    goroutine 1 those outside the bucket of [p]. *)
Lemma bit_lost_store q :
  bit (lost_store bs pre p post other) q
  = bit bs q || bool_decide (q ∈ pre ++ p :: post)
    || (bool_decide (q ∈ other) && bool_decide (q / 64 <> p / 64)).
Proof.
  pose proof addressable_0 as [Hpre [Hp Hpost]%Forall_cons_1]%Forall_app.
  assert (forall l bs', length bs' = length bs -> Forall (addressable bs) l ->
                        Forall (in_store bs') l) as Hin.
  { intros l bs' Hl Hall. eapply list.Forall_impl; [exact Hall|].
    intros r Hr. by apply (addressable_length bs bs' r Hl). }
  destruct (in_store_index (set_bits bs pre) p) as [w Hw];
    [apply in_store_set_bits, Hp|].
  unfold lost_store. rewrite Hw. change (default 0 (Some w)) with w.
  rewrite bit_set_bits by (apply Hin; [by rewrite length_store, !length_set_bits|done]).
  rewrite (bit_stale_write (set_bits bs pre)); [|by rewrite length_set_bits
                                                |apply in_store_set_bits, Hp|done].
  rewrite (bit_set_bits (set_bits bs pre) other) by (apply Hin; [apply length_set_bits|done]).
  rewrite (bit_set_bits bs pre) by (by apply Hin).
  apply eq_true_iff_eq. case_decide;
    rewrite ?orb_true_iff, ?andb_true_iff, !bool_decide_eq_true, elem_of_app, elem_of_cons;
    naive_solver.
Qed.

End run.
End lost.

(** The schedule of two goroutines in which each makes its two accesses
    in a row. *)
Definition fair_schedule : list nat := [0; 1; 0; 1; 0; 1; 0; 1]%nat.

Lemma forallb_false {A} (f : A -> bool) (l : list A) a :
  a ∈ l -> f a = false -> forallb f l = false.
Proof.
  intros Ha Hf. destruct (forallb f l) eqn:Hall; [|done].
  rewrite forallb_elem_of in Hall. by rewrite (Hall a Ha) in Hf.
Qed.

Section race.
Context {D : Digest} {L : DigestLaws D}.
Implicit Types (bf : Filter) (x y : list byte).

(** C31. Without synchronization an [Add] can be lost.  Whenever a
    position [q] of an element [y] lies in the bucket of a position of
    another element [x], is not a position of [x] and is not yet set,
    there is a schedule of the memory accesses of [Add(x)] and [Add(y)]
    on which no access panics, both calls return, the filter is well
    formed, and [Has] answers [false] for [y], which was added. *)
Theorem race_loses_bit bf x y p q :
  wf bf ->
  p ∈ filter_positions bf x -> q ∈ filter_positions bf y ->
  q ∉ filter_positions bf x -> q / 64 = p / 64 -> bit (bitstore bf) q = false ->
  exists sched bs',
    interleave access sched (bitstore bf) (adders bf [x; y]) = Done (bs', [go []; go []]) /\
    wf (with_bitstore bf bs') /\
    Has (with_bitstore bf bs') x = Done (true, None) /\
    Has (with_bitstore bf bs') y = Done (false, None).
Proof.
  intros Hwf Hp Hq Hnot Hsame Hclear.
  pose proof (wf_addressable bf x Hwf) as Hx. pose proof (wf_addressable bf y Hwf) as Hy.
  destruct (list_elem_of_split _ _ Hp) as (pre & post & Hsplit). rewrite Hsplit in Hx, Hnot.
  exists (lost_schedule (length pre) (length post) (length (filter_positions bf y))),
         (lost_store (bitstore bf) pre p post (filter_positions bf y)).
  assert (wf (with_bitstore bf (lost_store (bitstore bf) pre p post (filter_positions bf y))))
    by (apply wf_with_bitstore; [done|by apply length_lost_store
                                |by apply lost_store_uint, Hwf]).
  split_and!; [|done|rewrite Has_eq by done..].
  - unfold adders. cbn [fmap list_fmap]. rewrite Hsplit. by apply interleave_lost.
  - do 2 f_equal. apply forallb_elem_of. intros r Hr. cbn [bitstore with_bitstore].
    rewrite bit_lost_store by done. rewrite filter_positions_with_bitstore, Hsplit in Hr.
    by rewrite (bool_decide_eq_true_2 _ Hr), orb_true_r.
  - do 2 f_equal. apply (forallb_false _ _ q); [done|]. cbn [bitstore with_bitstore].
    rewrite bit_lost_store, Hclear by done.
    rewrite (bool_decide_eq_false_2 _ Hnot), (bool_decide_eq_false_2 (_ <> _)) by tauto.
    by rewrite andb_false_r.
Qed.

End race.

(** Two goroutines add ["test1"] and ["test"] to the filter of the
    repository's test, whose store is one bucket.  The first reads the
    bucket for its position 1 and is preempted, the second sets its four
    bits, and the write of the first then undoes them: bit 7 of
    ["test"] is lost. *)
Lemma race_loses_bit_witness :
  exists sched bs',
    interleave access sched (bitstore test_filter)
      (adders test_filter [other_element; test_element])
    = Done (bs', [go []; go []]) /\
    wf (with_bitstore test_filter bs') /\
    Has (with_bitstore test_filter bs') other_element = Done (true, None) /\
    Has (with_bitstore test_filter bs') test_element = Done (false, None).
Proof.
  apply (race_loses_bit test_filter other_element test_element 1 7 wf_test_filter);
    [solve_wf|solve_wf|solve_wf|reflexivity|by vm_compute].
Defined.

Lemma atomic_Adds_found_witness :
  exists bs' gs',
    interleave atomic_or fair_schedule (bitstore test_filter)
      (adders test_filter [test_element; other_element]) = Done (bs', gs') /\
    wf (with_bitstore test_filter bs') /\
    (Forall finished gs' ->
     forall e, e ∈ [test_element; other_element] ->
               Has (with_bitstore test_filter bs') e = Done (true, None)).
Proof.
  apply (atomic_Adds_found test_filter [test_element; other_element] fair_schedule
           wf_test_filter).
Defined.

(** On the fair schedule the two goroutines do finish, with the store
    of the sequential [Add]s. *)
Lemma fair_schedule_finishes :
  interleave atomic_or fair_schedule (bitstore test_filter)
    (adders test_filter [test_element; other_element])
  = Done (bitstore both_filter, [go []; go []]).
Proof. by vm_compute. Qed.

Lemma fair_fair_schedule :
  fair fair_schedule (filter_positions test_filter <$> [test_element; other_element]).
Proof. solve_wf. Qed.

Lemma atomic_Adds_sequential_witness :
  exists bf',
    Adds test_filter [test_element; other_element] = Done bf' /\
    interleave atomic_or fair_schedule (bitstore test_filter)
      (adders test_filter [test_element; other_element])
    = Done (bitstore bf', replicate (length [test_element; other_element]) (go [])).
Proof.
  apply (atomic_Adds_sequential test_filter [test_element; other_element] fair_schedule
           wf_test_filter fair_fair_schedule).
Defined.

Lemma atomic_Adds_can_finish_witness :
  exists more bs',
    interleave atomic_or ([1; 0; 1]%nat ++ more) (bitstore test_filter)
      (adders test_filter [test_element; other_element])
    = Done (bs', replicate (length [test_element; other_element]) (go [])) /\
    forall e, e ∈ [test_element; other_element] ->
              Has (with_bitstore test_filter bs') e = Done (true, None).
Proof.
  apply (atomic_Adds_can_finish test_filter [test_element; other_element] [1; 0; 1]%nat
           wf_test_filter).
Defined.
