(* ===== verification/Readers.v ===== *)
(** * Queries that run while elements are added

    [Has] reads the buckets of its positions one after the other, and
    other goroutines may write between two of its reads.  A [reader] is
    the loop of [Has] one read at a time; a [thread] is a goroutine in
    the loop of [Add] or a reader, and [thread_step] moves either by one
    memory access.

    Two results.  A reader alone is the loop of [Has].  And what is in
    the filter stays there: when goroutines add elements and others
    query, without any synchronization and on any schedule, no access
    panics, no reader answers [false] for an element that was in the
    filter when they started, and [Has] still finds every such element
    afterwards.  The bits that a race of two [Add]s can lose are those
    the racing [Add]s set themselves. *)

From Stdlib Require Import Strings.Byte String.
From stdpp Require Import base tactics list numbers.
From S2P Require Import Prelude Errors BitAddr Sha256 Hex Hash Filter Concurrent.
Set Warnings "-clear-no-such-hyp".

(** ** Readers *)

Record reader : Type := mkReader {
  unread : list Z;            (* the positions of [pos] not yet visited *)
  verdict : option bool       (* the value returned, once [Has] has returned *)
}.

(** A reader at the start of the loop of [Has]. *)
Definition query (pos : list Z) : reader := mkReader pos None.

(** One step of the loop of [Has]:
    [index, offset := bitlocation(p, 64); mask = 1 << offset; if bf.bitstore[index]&mask == 0 { return false, nil }]
    for the next position, or [return true, nil] after the last. *)
Definition look (bs : list Z) (r : reader) : result reader :=
  match verdict r with
  | Some _ => Done r
  | None =>
      match unread r with
      | [] => Done (mkReader [] (Some true))
      | p :: pos =>
          let '(index, offset) := bitlocation p 64 in
          let mask := shl64 1 offset in
          w ← read bs index;
          if Z.land w mask =? 0 then Done (mkReader [] (Some false))
          else Done (query pos)
      end
  end.

(** ** Threads *)

Inductive thread : Type :=
  | adding (g : goroutine)
  | testing (r : reader).

(** One memory access of a thread; [write] is the step of the
    goroutines that add, [access] or [atomic_or]. *)
Definition thread_step (write : list Z -> goroutine -> result (list Z * goroutine))
    (bs : list Z) (t : thread) : result (list Z * thread) :=
  match t with
  | adding g => '(bs, g) ← write bs g; Done (bs, adding g)
  | testing r => r ← look bs r; Done (bs, testing r)
  end.

(** What a thread has answered. *)
Definition answer (t : thread) : option bool :=
  match t with
  | adding _ => None
  | testing r => verdict r
  end.

Section threads.
Context {D : Digest}.

(** The goroutines that add the elements [es] and those that query the
    elements [xs], each past [bitpositions]. *)
Definition threads (bf : Filter) (es xs : list (list byte)) : list thread :=
  (adding <$> adders bf es) ++ (testing <$> (query <$> (filter_positions bf <$> xs))).

End threads.

(** ** Inclusion of stores *)

(** Bucket [w0] has no bit that [w] lacks. *)
Definition sub (w0 w : Z) : Prop := Z.land w0 w = w0.

(** What holds of the store and of the threads while they run on a
    store that was [bs0] when they started: the store has the buckets
    of [bs0] and at least their bits; a goroutine that adds has
    positions inside the store and, between its read and its write, a
    value with at least the bits of the bucket of [bs0]; a reader has
    not answered [false] and has only bits of [bs0] left to read. *)
Definition store_ok (bs0 bs : list Z) : Prop :=
  Forall2 sub bs0 bs /\ Forall (is_uint 64) bs.

Definition pending_ok (bs0 : list Z) (w : option (Z * Z)) : Prop :=
  match w with
  | None => True
  | Some (index, v) => exists w0, Prelude.index bs0 index = Some w0 /\ sub w0 v /\ is_uint 64 v
  end.

Definition thread_ok (bs0 : list Z) (t : thread) : Prop :=
  match t with
  | adding g => Forall (addressable bs0) (todo g) /\ pending_ok bs0 (pending g)
  | testing r =>
      verdict r <> Some false /\
      Forall (fun p => addressable bs0 p /\ bit bs0 p = true) (unread r)
  end.

(** ** A reader alone *)

Section alone.
Context (write : list Z -> goroutine -> result (list Z * goroutine)).
Implicit Types (bs pos : list Z) (p : Z).

(** A reader that has answered does nothing more. *)
Lemma answered_idle k bs u b :
  interleave (thread_step write) (replicate k 0%nat) bs [testing (mkReader u (Some b))]
  = Done (bs, [testing (mkReader u (Some b))]).
Proof. induction k as [|k IH]; [done|]. apply IH. Qed.

(** One step of a reader is one iteration of [Has_loop]. *)
Lemma Has_loop_one bs p pos :
  Has_loop (p :: pos) bs
  = Has_loop [p] bs ≫= (fun b => if b : bool then Has_loop pos bs else Done false).
Proof.
  cbn [Has_loop]. destruct (bitlocation p 64) as [index offset].
  destruct (read bs index) as [w|e]; [|done]. rewrite !bind_Done.
  by destruct (Z.land w (shl64 1 offset) =? 0).
Qed.

Lemma look_cons bs p pos :
  look bs (query (p :: pos))
  = Has_loop [p] bs ≫=
      (fun b => Done (if b : bool then query pos else mkReader [] (Some false))).
Proof.
  cbn [Has_loop look query verdict unread]. destruct (bitlocation p 64) as [index offset].
  destruct (read bs index) as [w|e]; [|done]. rewrite !bind_Done.
  by destruct (Z.land w (shl64 1 offset) =? 0).
Qed.

(** A reader that runs alone is the loop of [Has]: after a step for
    each position and one for the return it has answered what the loop
    returns, and it panics where the loop panics. *)
Theorem reader_alone pos bs :
  interleave (thread_step write) (replicate (S (length pos)) 0%nat) bs [testing (query pos)]
  = Has_loop pos bs ≫= (fun b => Done (bs, [testing (mkReader [] (Some b))])).
Proof.
  induction pos as [|p pos IH]; [done|].
  rewrite Has_loop_one. cbn [length replicate].
  rewrite (interleave_cons _ 0 _ bs _ (testing (query (p :: pos)))) by done.
  cbn [thread_step]. rewrite look_cons.
  destruct (Has_loop [p] bs) as [[]|e]; [| |done]; rewrite !bind_Done.
  - apply IH.
  - apply (answered_idle (S (length pos))).
Qed.

End alone.

(** ** What is in the store stays *)

Lemma sub_refl w : sub w w.
Proof. apply Z.land_diag. Qed.

Lemma sub_testbit w0 w j : sub w0 w -> Z.testbit w0 j = true -> Z.testbit w j = true.
Proof.
  intros Hsub Hj. rewrite <- Hsub, Z.land_spec in Hj. by apply andb_true_iff in Hj as [_ ?].
Qed.

Lemma sub_lor w0 w m : sub w0 w -> sub w0 (Z.lor w m).
Proof.
  intros Hsub. apply Z.bits_inj'. intros j _.
  rewrite Z.land_spec, Z.lor_spec. destruct (Z.testbit w0 j) eqn:Hj; [|done].
  by rewrite (sub_testbit w0 w j).
Qed.

Section present.
Context (bs0 : list Z).
Implicit Types (bs : list Z) (p q : Z) (g : goroutine) (r : reader) (t : thread).

Lemma store_ok_refl : Forall (is_uint 64) bs0 -> store_ok bs0 bs0.
Proof.
  intros Hu. split; [|done]. apply Forall2_same_length_lookup_2; [done|].
  intros i w0 w ? ?. simplify_eq. apply sub_refl.
Qed.

Lemma store_ok_length bs : store_ok bs0 bs -> length bs = length bs0.
Proof. intros [Hsub _]. symmetry. by eapply Forall2_length. Qed.

Lemma store_ok_addressable bs p : store_ok bs0 bs -> addressable bs0 p -> addressable bs p.
Proof. intros Hlen%store_ok_length. unfold addressable, in_store. by rewrite Hlen. Qed.

(** A bucket of the store has the bits of the bucket of [bs0]. *)
Lemma store_ok_index bs i w :
  store_ok bs0 bs -> index bs i = Some w ->
  exists w0, index bs0 i = Some w0 /\ sub w0 w /\ is_uint 64 w.
Proof.
  intros [Hsub Hu] [Hi Hw]%index_Some.
  destruct (Forall2_lookup_r _ _ _ _ _ Hsub Hw) as (w0 & Hw0 & Hsubw).
  exists w0. split_and!; [by apply index_Some|done|by eapply Forall_lookup_1 in Hu].
Qed.

Lemma store_ok_bit bs q : store_ok bs0 bs -> bit bs0 q = true -> bit bs q = true.
Proof.
  intros Hok. unfold bit. destruct (index bs0 (q / 64)) as [w0|] eqn:Hw0; [|done].
  apply index_Some in Hw0 as [Hq Hw0].
  destruct (Forall2_lookup_l _ _ _ _ _ (proj1 Hok) Hw0) as (w & Hw & Hsub).
  rewrite (proj2 (index_Some bs (q / 64) w)) by done. by apply sub_testbit.
Qed.

(** The write of a value that has the bits of the bucket of [bs0]. *)
Lemma store_ok_store bs i w0 v :
  store_ok bs0 bs -> index bs0 i = Some w0 -> sub w0 v -> is_uint 64 v ->
  store_ok bs0 (store bs i v).
Proof.
  intros [Hsub Hu] [Hi Hw0]%index_Some Hv Huv. split.
  - rewrite <- (list_insert_id bs0 (Z.to_nat i) w0) by done. by apply Forall2_insert.
  - by apply Forall_insert.
Qed.

(** Each access of a goroutine that adds keeps the bits of [bs0]. *)
Lemma access_ok bs g :
  store_ok bs0 bs -> thread_ok bs0 (adding g) ->
  exists bs' g', access bs g = Done (bs', g') /\ store_ok bs0 bs' /\ thread_ok bs0 (adding g').
Proof.
  intros Hok [Htodo Hpend]. destruct g as [pos [[index v]|]]; cbn in Htodo, Hpend.
  - destruct Hpend as (w0 & Hw0 & Hsub & Hu). eexists _, _. split; [done|].
    split; [by eapply store_ok_store|done].
  - destruct pos as [|p pos]; [by exists bs, (go [])|].
    apply Forall_cons_1 in Htodo as [Hp Hpos].
    destruct (addressable_read bs p (store_ok_addressable bs p Hok Hp))
      as (w & Hloc & Hmask & Hidx & Hread).
    unfold access. cbn [pending todo]. rewrite Hloc, Hmask, Hread, bind_Done.
    eexists _, _. split; [done|]. split; [done|]. split; [done|]. cbn [pending pending_ok].
    destruct (store_ok_index bs _ w Hok Hidx) as (w0 & Hw0 & Hsub & Hu).
    exists w0. split_and!; [done|by apply sub_lor|].
    apply lor_pow2_range; [done|]. apply Z.mod_pos_bound. lia.
Qed.

Lemma atomic_or_ok bs g :
  store_ok bs0 bs -> thread_ok bs0 (adding g) ->
  exists bs' g',
    atomic_or bs g = Done (bs', g') /\ store_ok bs0 bs' /\ thread_ok bs0 (adding g').
Proof.
  intros Hok Hg. unfold atomic_or.
  destruct (access_ok bs g Hok Hg) as (bs1 & g1 & -> & Hok1 & Hg1). rewrite bind_Done.
  by apply access_ok.
Qed.

(** Each read of a reader finds its bit. *)
Lemma look_ok bs r :
  store_ok bs0 bs -> thread_ok bs0 (testing r) ->
  exists r', look bs r = Done r' /\ thread_ok bs0 (testing r').
Proof.
  intros Hok [Hv Hunread]. destruct r as [pos [b|]]; cbn in Hv, Hunread.
  { by eexists. }
  destruct pos as [|p pos]; [by eexists|].
  apply Forall_cons_1 in Hunread as [[Hp Hbit] Hpos].
  change (mkReader (p :: pos) None) with (query (p :: pos)).
  rewrite look_cons, (Has_loop_cons bs p []), (store_ok_bit bs p Hok Hbit)
    by (by apply store_ok_addressable).
  by eexists.
Qed.

Lemma thread_step_ok write :
  (forall bs g, store_ok bs0 bs -> thread_ok bs0 (adding g) ->
     exists bs' g', write bs g = Done (bs', g') /\ store_ok bs0 bs' /\
                    thread_ok bs0 (adding g')) ->
  forall bs t, store_ok bs0 bs -> thread_ok bs0 t ->
    exists bs' t', thread_step write bs t = Done (bs', t') /\ store_ok bs0 bs' /\
                   thread_ok bs0 t'.
Proof.
  intros Hwrite bs [g|r] Hok Ht; cbn [thread_step].
  - destruct (Hwrite bs g Hok Ht) as (bs' & g' & -> & ? & ?). by eexists _, _.
  - destruct (look_ok bs r Hok Ht) as (r' & -> & ?). by eexists _, _.
Qed.

End present.

(** ** Queries concurrent with [Add]s on a filter *)

Section filter.
Context {D : Digest} {L : DigestLaws D}.
Implicit Types (bf : Filter) (es xs : list (list byte)) (sched : list nat).

(** The threads start in a state the steps keep. *)
Lemma threads_ok bf es xs :
  wf bf -> Forall (fun x => Has bf x = Done (true, None)) xs ->
  Forall (thread_ok (bitstore bf)) (threads bf es xs).
Proof.
  intros Hwf Hxs. apply Forall_app. split.
  - unfold adders. rewrite <- !list_fmap_compose. apply Forall_fmap, list.Forall_forall.
    intros e _. split; [by apply wf_addressable|done].
  - rewrite <- !list_fmap_compose. apply Forall_fmap.
    eapply list.Forall_impl; [exact Hxs|]. cbv beta. intros x Hx. split; [done|].
    rewrite Has_eq in Hx by done. injection Hx as Hx.
    apply list.Forall_forall. intros p Hp. split; [|by eapply forallb_elem_of in Hx].
    by eapply list.Forall_forall in Hp; [|by apply wf_addressable].
Qed.

(** What the invariant of the threads gives at the end of a schedule. *)
Lemma present_kept bf xs bs' ts' :
  wf bf -> Forall (fun x => Has bf x = Done (true, None)) xs ->
  store_ok (bitstore bf) bs' -> Forall (thread_ok (bitstore bf)) ts' ->
  wf (with_bitstore bf bs') /\
  Forall (fun t => answer t <> Some false) ts' /\
  Forall (fun x => Has (with_bitstore bf bs') x = Done (true, None)) xs.
Proof.
  intros Hwf Hxs Hok Hts.
  assert (wf (with_bitstore bf bs')) as Hwf'.
  { apply wf_with_bitstore; [done|by apply store_ok_length|apply Hok]. }
  split_and!; [done| |].
  - eapply list.Forall_impl; [exact Hts|]. by intros [g|r] [? ?].
  - eapply list.Forall_impl; [exact Hxs|]. cbv beta. intros x Hx.
    rewrite Has_eq in Hx |- * by done.
    injection Hx as Hx. do 2 f_equal. apply forallb_elem_of. intros p Hp.
    eapply store_ok_bit; [done|]. by eapply forallb_elem_of in Hx.
Qed.

(** Every schedule keeps the invariant, whatever step the goroutines
    that add take, provided the step keeps it. *)
Lemma interleave_present write bf es xs sched :
  (forall bs g, store_ok (bitstore bf) bs -> thread_ok (bitstore bf) (adding g) ->
     exists bs' g', write bs g = Done (bs', g') /\ store_ok (bitstore bf) bs' /\
                    thread_ok (bitstore bf) (adding g')) ->
  wf bf -> Forall (fun x => Has bf x = Done (true, None)) xs ->
  exists bs' ts',
    interleave (thread_step write) sched (bitstore bf) (threads bf es xs)
    = Done (bs', ts') /\
    wf (with_bitstore bf bs') /\
    Forall (fun t => answer t <> Some false) ts' /\
    Forall (fun x => Has (with_bitstore bf bs') x = Done (true, None)) xs.
Proof.
  intros Hwrite Hwf Hxs.
  destruct (interleave_invariant (thread_step write) (store_ok (bitstore bf))
              (thread_ok (bitstore bf)) (thread_step_ok (bitstore bf) write Hwrite)
              sched (bitstore bf) (threads bf es xs))
    as (bs' & ts' & Hrun & Hok & Hts & _);
    [apply store_ok_refl, Hwf|by apply threads_ok|].
  exists bs', ts'. split; [done|]. by apply present_kept.
Qed.

(** C29. What is in the filter stays in it, with no synchronization at
    all.  While goroutines add elements and others query, on every
    schedule of their memory accesses, no access panics, the filter
    stays well formed, no query answers [false] for an element that
    [Has] found before they started, and [Has] finds every such element
    afterwards. *)
Theorem present_stays bf es xs sched :
  wf bf -> Forall (fun x => Has bf x = Done (true, None)) xs ->
  exists bs' ts',
    interleave (thread_step access) sched (bitstore bf) (threads bf es xs)
    = Done (bs', ts') /\
    wf (with_bitstore bf bs') /\
    Forall (fun t => answer t <> Some false) ts' /\
    Forall (fun x => Has (with_bitstore bf bs') x = Done (true, None)) xs.
Proof. apply interleave_present, access_ok. Qed.

(** The same holds when the goroutines that add make their read and
    their write in one step. *)
Theorem present_stays_atomic bf es xs sched :
  wf bf -> Forall (fun x => Has bf x = Done (true, None)) xs ->
  exists bs' ts',
    interleave (thread_step atomic_or) sched (bitstore bf) (threads bf es xs)
    = Done (bs', ts') /\
    wf (with_bitstore bf bs') /\
    Forall (fun t => answer t <> Some false) ts' /\
    Forall (fun x => Has (with_bitstore bf bs') x = Done (true, None)) xs.
Proof. apply interleave_present, atomic_or_ok. Qed.

End filter.

(** ** The theorems at concrete inputs *)

(** A goroutine adds ["test1"] to the filter that holds ["test"] while
    another queries ["test"]. *)
Lemma present_stays_witness :
  exists bs' ts',
    interleave (thread_step access) [0; 1; 1; 0; 1; 0; 1; 1]%nat (bitstore added_filter)
      (threads added_filter [other_element] [test_element])
    = Done (bs', ts') /\
    wf (with_bitstore added_filter bs') /\
    Forall (fun t => answer t <> Some false) ts' /\
    Forall (fun x => Has (with_bitstore added_filter bs') x = Done (true, None))
      [test_element].
Proof.
  apply (present_stays added_filter [other_element] [test_element]
           [0; 1; 1; 0; 1; 0; 1; 1]%nat wf_added_filter).
  constructor; [apply Has_added_filter|constructor].
Defined.

(** On that schedule the reader has answered [true], while the other
    goroutine is between a read and a write. *)
Lemma reader_answers :
  (interleave (thread_step access) [0; 1; 1; 0; 1; 0; 1; 1]%nat (bitstore added_filter)
     (threads added_filter [other_element] [test_element]))
  = Done ([210461786240],
          [adding (mkGoroutine [1; 1] (Some (0, 210461786242)));
           testing (mkReader [] (Some true))]).
Proof. by vm_compute. Qed.
