(* ===== verification/Rate.v ===== *)
(** * The false-positive rate, by counting

    A query of an element that was never added answers [true] when the
    positions of the element happen to be set.  How often that happens
    depends on the digest; what can be said of the filter itself is a
    count.  [bitpositions] returns one of the [bitlen ^ hashqty] lists
    of [hashqty] positions below [bitlen] ([tuples]); this file counts
    the lists on which the loop of [Has] answers [true], first on a
    given store and then over all the lists of positions the loop of
    [Add] may have been run on before.  With a digest whose positions
    are uniform and independent the counts, divided by the number of
    lists, are the probabilities of a false positive.

    The counting is done on sets of positions ([abs_add], [abs_has]) and
    carried to the loops of [Filter.v] by the refinement of
    [Abstract.v].  On a store with [b] bits set the loop of [Has]
    accepts [b ^ k] of the [m ^ k] lists; adding elements never lowers
    that number; after [j] positions were hashed into the store the
    lists of [j + k] positions that end in a false positive are counted
    by the recursion [fp_count], each hash falling on a bit already set
    or on a new one.  The recursion is evaluated by rows ([fp_table])
    for the filter [New] makes for six elements at 1%: after six
    elements its rate is above 1.1%. *)

From Stdlib Require Import Strings.Byte String Floats.Floats.
From stdpp Require Import base tactics list numbers gmap sets.
From S2P Require Import Prelude Errors BitAddr Sha256 Hex Hash Filter Planner Abstract.
Set Warnings "-clear-no-such-hyp,-inexact-float".

(** ** Definitions *)

(** The lists of [k] positions below [m]. *)
Fixpoint tuples (k : nat) (m : Z) : list (list Z) :=
  match k with
  | O => [[]]
  | S k => p ← seqZ 0 m; cons p <$> tuples k m
  end.

(** The sum of [f] over a list. *)
Definition sumZ {A} (f : A -> Z) (l : list A) : Z := foldr (fun x s => f x + s) 0 l.

(** 1 for [true] and 0 for [false]. *)
Definition indicator (b : bool) : Z := if b then 1 else 0.

(** A set of positions below [m]. *)
Definition below (m : Z) (X : gset Z) : Prop := forall p, p ∈ X -> 0 <= p < m.

(** The number of lists of [k] positions below [m] that are within the
    set [S]: the queries the abstract filter answers [true] to. *)
Definition abs_hits (S : gset Z) (k : nat) (m : Z) : Z :=
  sumZ (fun q => indicator (abs_has S q)) (tuples k m).

(** The same after [j] positions were added to [S], summed over all the
    lists of [j] positions. *)
Definition abs_hits_after (S : gset Z) (k : nat) (m : Z) (j : nat) : Z :=
  sumZ (fun ps => abs_hits (abs_add S ps) k m) (tuples j m).

(** The lists of positions the loop of [Has] answers [true] to on the
    store [bs]. *)
Definition hits (bs : list Z) (k : nat) (m : Z) : Z :=
  sumZ (fun q => indicator (bool_decide (Has_loop q bs = Done true))) (tuples k m).

(** The lists of [j] positions for the loop of [Add] followed by [k]
    positions for the loop of [Has] on which [Has] answers [true]. *)
Definition hits_after (bs : list Z) (k : nat) (m : Z) (j : nat) : Z :=
  sumZ (fun ps => match Add_loop ps bs with
                  | Done bs' => hits bs' k m
                  | Panicked _ => 0
                  end) (tuples j m).

(** The count of false positives after [j] hashes into a filter of [m]
    bits of which [b] are set, for queries of [k] positions: a hash
    falls on one of the [b] bits set or on one of the [m - b] others. *)
Fixpoint fp_count (k : nat) (m : Z) (j : nat) (b : Z) : Z :=
  match j with
  | O => b ^ Z.of_nat k
  | S j => b * fp_count k m j b + (m - b) * fp_count k m j (b + 1)
  end.

(** The same recursion by rows: the row of [j] has the counts for
    [b = 0, ..., m]. *)
Definition fp_next (m : Z) (row : list Z) : list Z :=
  (fun b => b * default 0 (index row b) + (m - b) * default 0 (index row (b + 1)))
    <$> seqZ 0 (m + 1).

Fixpoint fp_table (k : nat) (m : Z) (j : nat) : list Z :=
  match j with
  | O => (fun b => b ^ Z.of_nat k) <$> seqZ 0 (m + 1)
  | S j => fp_next m (fp_table k m j)
  end.

(** ** Sums *)

Section sums.
Context {A : Type}.
Implicit Types (f g : A -> Z) (l : list A).

Lemma sumZ_nil f : sumZ f [] = 0.
Proof. done. Qed.

Lemma sumZ_cons f x l : sumZ f (x :: l) = f x + sumZ f l.
Proof. done. Qed.

Lemma sumZ_app f l1 l2 : sumZ f (l1 ++ l2) = sumZ f l1 + sumZ f l2.
Proof.
  induction l1 as [|x l1 IH]; [done|].
  rewrite <- app_comm_cons, !sumZ_cons, IH. lia.
Qed.

Lemma sumZ_ext f g l : (forall x, x ∈ l -> f x = g x) -> sumZ f l = sumZ g l.
Proof.
  induction l as [|x l IH]; intros Hfg; [done|].
  rewrite !sumZ_cons, (Hfg x), IH; [done| |by left]. intros y Hy. apply Hfg. by right.
Qed.

End sums.

Lemma sumZ_fmap {A B} (h : B -> A) (f : A -> Z) (l : list B) :
  sumZ f (h <$> l) = sumZ (f ∘ h) l.
Proof. induction l as [|x l IH]; [done|]. by rewrite fmap_cons, !sumZ_cons, IH. Qed.

Lemma sumZ_bind {A B} (h : B -> list A) (f : A -> Z) (l : list B) :
  sumZ f (l ≫= h) = sumZ (fun x => sumZ f (h x)) l.
Proof.
  induction l as [|x l IH]; [done|]. by rewrite bind_cons, sumZ_app, sumZ_cons, IH.
Qed.

Lemma sumZ_le {A} (f g : A -> Z) l :
  (forall x, x ∈ l -> f x <= g x) -> sumZ f l <= sumZ g l.
Proof.
  induction l as [|x l IH]; intros Hfg; [done|]. rewrite !sumZ_cons.
  pose proof (Hfg x ltac:(by left)).
  pose proof (IH ltac:(intros y ?; apply Hfg; by right)). lia.
Qed.

(** A sum of two values, chosen by a test, is the count of the test
    times the one and the rest times the other. *)
Lemma sumZ_choice {A} (t : A -> bool) (a b : Z) (l : list A) :
  sumZ (fun x => if t x then a else b) l
  = sumZ (indicator ∘ t) l * a + (Z.of_nat (length l) - sumZ (indicator ∘ t) l) * b.
Proof.
  induction l as [|x l IH]; [rewrite !sumZ_nil; cbn; lia|].
  rewrite !sumZ_cons, IH, length_cons. unfold compose, indicator. destruct (t x); lia.
Qed.

Lemma sumZ_const {A} (c : Z) (l : list A) : sumZ (fun _ => c) l = Z.of_nat (length l) * c.
Proof. induction l as [|x l IH]; [done|]. rewrite sumZ_cons, IH, length_cons. lia. Qed.

Lemma sumZ_indicator_filter {A} (P : A -> Prop) `{!forall x, Decision (P x)} (l : list A) :
  sumZ (fun x => indicator (bool_decide (P x))) l = Z.of_nat (length (filter P l)).
Proof.
  induction l as [|x l IH]; [done|]. rewrite sumZ_cons, filter_cons, IH.
  unfold indicator. destruct (decide (P x)) as [HP|HP].
  - rewrite bool_decide_eq_true_2 by done. cbn [length]. lia.
  - rewrite bool_decide_eq_false_2 by done. lia.
Qed.

(** ** Counting on sets *)

Section counting.
Context (m : Z).
Implicit Types (X : gset Z) (k j : nat) (p : Z) (pos : list Z).

Lemma tuples_range k pos : pos ∈ tuples k m -> Forall (fun p => 0 <= p < m) pos.
Proof.
  revert pos. induction k as [|k IH]; intros pos; cbn [tuples].
  - by intros ->%list_elem_of_singleton.
  - intros (p & (t & -> & Ht)%list_elem_of_fmap & Hp%elem_of_seqZ)%list_elem_of_bind.
    constructor; [lia|by apply IH].
Qed.

Lemma length_tuples k : 0 <= m -> Z.of_nat (length (tuples k m)) = m ^ Z.of_nat k.
Proof.
  intros Hm. rewrite <- (Z.mul_1_r (Z.of_nat _)), <- sumZ_const.
  induction k as [|k IH]; [done|]. cbn [tuples].
  rewrite sumZ_bind, (sumZ_ext _ (fun _ => m ^ Z.of_nat k)).
  - rewrite sumZ_const, length_seqZ, Nat2Z.inj_succ, Z.pow_succ_r; lia.
  - intros p _. by rewrite sumZ_fmap.
Qed.

(** The positions below [m] that are members of a set of positions are
    as many as the set has elements. *)
Lemma count_members X :
  below m X -> sumZ (fun p => indicator (bool_decide (p ∈ X))) (seqZ 0 m) = Z.of_nat (size X).
Proof.
  intros HX. rewrite sumZ_indicator_filter. f_equal. apply Permutation_length.
  apply NoDup_Permutation; [apply NoDup_filter, NoDup_seqZ|apply NoDup_elements|].
  intros p. rewrite list_elem_of_filter, elem_of_seqZ, elem_of_elements.
  specialize (HX p). naive_solver lia.
Qed.

Lemma below_union X p : below m X -> 0 <= p < m -> below m (X ∪ {[p]}).
Proof. intros HX Hp q [?| ->%elem_of_singleton]%elem_of_union; [by apply HX|done]. Qed.

Lemma size_union_singleton X p :
  Z.of_nat (size (X ∪ {[p]}))
  = if bool_decide (p ∈ X) then Z.of_nat (size X) else Z.of_nat (size X) + 1.
Proof.
  case_bool_decide as Hp.
  - f_equal. f_equal. set_solver.
  - rewrite size_union, size_singleton by set_solver. lia.
Qed.

(** On a set of [b] positions the filter answers [true] to [b ^ k] of
    the [m ^ k] queries. *)
Lemma abs_hits_pow X k : below m X -> abs_hits X k m = Z.of_nat (size X) ^ Z.of_nat k.
Proof.
  intros HX. induction k as [|k IH]; [done|]. unfold abs_hits. cbn [tuples].
  rewrite sumZ_bind, (sumZ_ext _ (fun p => if bool_decide (p ∈ X) then abs_hits X k m else 0)).
  - rewrite (sumZ_choice (fun p => bool_decide (p ∈ X))). unfold compose.
    rewrite count_members, IH, Nat2Z.inj_succ, Z.pow_succ_r by (done || lia). lia.
  - intros p _. rewrite sumZ_fmap. unfold compose, abs_has. cbn [forallb].
    destruct (bool_decide (p ∈ X)); [done|]. cbn [andb indicator].
    rewrite sumZ_const. lia.
Qed.

(** After [j] more positions the count is [fp_count]: it depends on the
    set through its size only. *)
Lemma abs_hits_after_count X k j :
  0 <= m -> below m X -> abs_hits_after X k m j = fp_count k m j (Z.of_nat (size X)).
Proof.
  intros Hm. revert X. induction j as [|j IH]; intros X HX.
  - unfold abs_hits_after, abs_add. cbn [tuples sumZ foldr list_to_set].
    rewrite union_empty_r_L, Z.add_0_r. by apply abs_hits_pow.
  - unfold abs_hits_after. cbn [tuples fp_count].
    rewrite sumZ_bind, (sumZ_ext _ (fun p =>
      if bool_decide (p ∈ X) then fp_count k m j (Z.of_nat (size X))
      else fp_count k m j (Z.of_nat (size X) + 1))).
    + rewrite (sumZ_choice (fun p => bool_decide (p ∈ X))). unfold compose.
      by rewrite count_members, length_seqZ, Z2Nat.id by done.
    + intros p Hp%elem_of_seqZ. rewrite sumZ_fmap. unfold compose.
      rewrite (sumZ_ext _ (fun ps => abs_hits (abs_add (X ∪ {[p]}) ps) k m)).
      * fold (abs_hits_after (X ∪ {[p]}) k m j). rewrite IH by (apply below_union; [done|lia]).
        rewrite size_union_singleton. by case_bool_decide.
      * intros ps _. f_equal. unfold abs_add. cbn [list_to_set]. by rewrite (assoc_L (∪)).
Qed.

End counting.

(** ** The recursion *)

(** The count is at most that of a filter in which every hash sets a
    new bit. *)
Lemma fp_count_le k m j b :
  0 <= b <= m ->
  0 <= fp_count k m j b <= (b + Z.of_nat j) ^ Z.of_nat k * m ^ Z.of_nat j.
Proof.
  revert b. induction j as [|j IH]; intros b Hb.
  { cbn [fp_count]. rewrite Z.add_0_r, Z.pow_0_r.
    pose proof (Z.pow_nonneg b (Z.of_nat k) ltac:(lia)). lia. }
  cbn [fp_count]. rewrite Nat2Z.inj_succ, Z.pow_succ_r by lia.
  set (P := (b + Z.of_nat j) ^ Z.of_nat k). set (M := m ^ Z.of_nat j).
  set (Q := (b + Z.succ (Z.of_nat j)) ^ Z.of_nat k).
  assert (0 <= P <= Q) as HPQ.
  { split; [apply Z.pow_nonneg; lia|apply Z.pow_le_mono_l; lia]. }
  assert (0 <= M) as HM by (apply Z.pow_nonneg; lia).
  pose proof (IH b Hb) as [H0 H1]. fold P M in H1.
  assert (P * M <= Q * M) by nia.
  destruct (decide (b = m)) as [Heq|Hne].
  - rewrite Heq, Z.sub_diag, Z.mul_0_l, Z.add_0_r in *. nia.
  - pose proof (IH (b + 1) ltac:(lia)) as [H2 H3].
    replace (b + 1 + Z.of_nat j) with (b + Z.succ (Z.of_nat j)) in H3 by lia.
    fold Q M in H3. nia.
Qed.

(** The rows of the table are the recursion. *)
Lemma fp_table_index k m j b :
  0 <= b <= m -> index (fp_table k m j) b = Some (fp_count k m j b).
Proof.
  intros Hb. unfold index. rewrite decide_True by lia. revert b Hb.
  induction j as [|j IH]; intros b Hb; cbn [fp_table fp_count].
  { rewrite list_lookup_fmap, lookup_seqZ_lt by lia. cbn. do 2 f_equal. lia. }
  unfold fp_next.
  rewrite list_lookup_fmap, lookup_seqZ_lt by lia. cbn [fmap option_fmap option_map].
  rewrite Z.add_0_l, Z2Nat.id by lia. unfold index. rewrite !decide_True by lia.
  rewrite IH by done. cbn [default]. destruct (decide (b = m)) as [->|Hne].
  - by rewrite Z.sub_diag, !Z.mul_0_l.
  - by rewrite IH by lia.
Qed.

Lemma fp_count_table k m j b :
  0 <= b <= m -> fp_count k m j b = default 0 (index (fp_table k m j) b).
Proof. intros Hb. by rewrite fp_table_index. Qed.

(** One more bit set before the hashes never lowers the count. *)
Lemma fp_count_mono k m j b :
  0 <= b < m -> fp_count k m j b <= fp_count k m j (b + 1).
Proof.
  revert b. induction j as [|j IH]; intros b Hb; cbn [fp_count].
  { apply Z.pow_le_mono_l. lia. }
  pose proof (IH b Hb). destruct (decide (b + 1 = m)) as [Heq|Hne].
  - replace (m - (b + 1)) with 0 by lia. nia.
  - pose proof (IH (b + 1) ltac:(lia)). nia.
Qed.

(** One more hash never lowers the share of false positives. *)
Lemma fp_count_step k m j b :
  0 <= b <= m -> m * fp_count k m j b <= fp_count k m (S j) b.
Proof.
  intros Hb. cbn [fp_count]. destruct (decide (b = m)) as [->|Hne].
  - rewrite Z.sub_diag. lia.
  - pose proof (fp_count_mono k m j b ltac:(lia)). nia.
Qed.

(** ** The loops of the filter *)

Section loops.
Implicit Types (bf : Filter) (k j : nat).

Lemma below_bits_of bf : below (bitlen bf) (bits_of bf).
Proof. intros p Hp%elem_of_bits_of. tauto. Qed.

Lemma hits_abs bf k :
  wf bf -> hits (bitstore bf) k (bitlen bf) = abs_hits (bits_of bf) k (bitlen bf).
Proof.
  intros Hwf. apply sumZ_ext. intros q Hq%tuples_range.
  rewrite Has_loop_abs by done. by destruct (abs_has (bits_of bf) q).
Qed.

Lemma hits_after_abs bf k j :
  wf bf ->
  hits_after (bitstore bf) k (bitlen bf) j = abs_hits_after (bits_of bf) k (bitlen bf) j.
Proof.
  intros Hwf. apply sumZ_ext. intros ps Hps%tuples_range.
  destruct (Add_loop_abs bf ps Hwf Hps) as (bs & -> & Hwf' & <-).
  apply (hits_abs (with_bitstore bf bs) k Hwf').
Qed.

(** The counts of the loops, as equations. *)
Lemma hits_pow bf k :
  wf bf -> hits (bitstore bf) k (bitlen bf) = Z.of_nat (size (bits_of bf)) ^ Z.of_nat k.
Proof. intros Hwf. rewrite hits_abs by done. apply abs_hits_pow, below_bits_of. Qed.

Lemma hits_after_count bf k j :
  wf bf ->
  hits_after (bitstore bf) k (bitlen bf) j
  = fp_count k (bitlen bf) j (Z.of_nat (size (bits_of bf))).
Proof.
  intros Hwf. rewrite hits_after_abs by done.
  apply abs_hits_after_count; [apply Hwf|apply below_bits_of].
Qed.

Lemma size_bits_of_le bf : wf bf -> 0 <= Z.of_nat (size (bits_of bf)) <= bitlen bf.
Proof.
  intros Hwf. split; [lia|]. pose proof (wf_bitlen bf Hwf) as [Hb _].
  unfold bits_of. etrans; [apply inj_le, size_list_to_set_le|].
  etrans; [apply inj_le, length_filter|]. rewrite length_seqZ. lia.
Qed.

(** The loop of [Add] never lowers the count of the store. *)
Lemma hits_Add_loop bf pos k :
  wf bf -> Forall (fun p => 0 <= p < bitlen bf) pos ->
  exists bs, Add_loop pos (bitstore bf) = Done bs /\
    hits (bitstore bf) k (bitlen bf) <= hits bs k (bitlen bf).
Proof.
  intros Hwf Hpos. destruct (Add_loop_abs bf pos Hwf Hpos) as (bs & Hbs & Hwf' & Hbits).
  exists bs. split; [done|]. rewrite hits_pow by done.
  pose proof (hits_pow (with_bitstore bf bs) k Hwf') as Hbs'.
  cbn [bitstore bitlen with_bitstore] in Hbs'. rewrite Hbs', Hbits.
  apply Z.pow_le_mono_l. split; [lia|]. apply inj_le, subseteq_size.
  unfold abs_add. set_solver.
Qed.

(** A filter without a bit set, as [New] makes it. *)
Lemma hits_after_fresh prob m q n l k j :
  wf (mkFilter prob m q n (make 0 l)) -> hits_after (make 0 l) k m j = fp_count k m j 0.
Proof.
  intros Hwf. pose proof (hits_after_count _ k j Hwf) as H.
  cbn [bitstore bitlen] in H. by rewrite H, bits_of_fresh, size_empty.
Qed.

End loops.

(** ** Theorems *)

(** The queries a filter answers [true] to, counted: of the
    [bitlen ^ k] lists of [k] positions that [bitpositions] can return
    for a well-formed filter, the loop of [Has] answers [true] on
    exactly [b ^ k], where [b] is the number of bits set. *)
Theorem false_positive_count bf k :
  wf bf ->
  Z.of_nat (length (tuples k (bitlen bf))) = bitlen bf ^ Z.of_nat k /\
  hits (bitstore bf) k (bitlen bf) = Z.of_nat (size (bits_of bf)) ^ Z.of_nat k /\
  0 <= Z.of_nat (size (bits_of bf)) <= bitlen bf.
Proof.
  intros Hwf. split_and!; [|by apply hits_pow|lia|by apply size_bits_of_le].
  apply length_tuples, Hwf.
Qed.

(** The more elements are added, the larger the probability of a
    false positive: [Add] of an element never lowers the number of
    lists of positions [Has] answers [true] to, and hashing one position
    more into the filter never lowers the share of the lists that end
    in a false positive. *)
Theorem false_positives_grow `{DigestLaws} bf element k j :
  wf bf ->
  exists bf', Add bf element = Done (bf', None) /\
    hits (bitstore bf) k (bitlen bf) <= hits (bitstore bf') k (bitlen bf') /\
    bitlen bf * hits_after (bitstore bf) k (bitlen bf) j
    <= hits_after (bitstore bf) k (bitlen bf) (S j).
Proof.
  intros Hwf.
  destruct (hits_Add_loop bf (filter_positions bf element) k Hwf) as (bs & Hbs & Hle).
  { by apply wf_positions_range. }
  exists (with_bitstore bf bs). split_and!; [|done|].
  - rewrite Add_eq by done. do 2 f_equal.
    rewrite Add_loop_set_bits in Hbs by (by apply wf_addressable). congruence.
  - rewrite !hits_after_count by done. by apply fp_count_step, size_bits_of_le.
Qed.

(** C27. The false positives after [j] hashes, counted: the lists of
    [j] positions for the loop of [Add] and [k] positions for the loop
    of [Has] on which [Has] answers [true] are as many as the recursion
    [fp_count] says from the number of bits set, which is the entry of
    the table computed by rows, and at most as many as if every hash
    had set a new bit. *)
Theorem false_positive_rate bf k j :
  wf bf ->
  let b := Z.of_nat (size (bits_of bf)) in
  hits_after (bitstore bf) k (bitlen bf) j = fp_count k (bitlen bf) j b /\
  index (fp_table k (bitlen bf) j) b = Some (fp_count k (bitlen bf) j b) /\
  0 <= fp_count k (bitlen bf) j b
    <= (b + Z.of_nat j) ^ Z.of_nat k * bitlen bf ^ Z.of_nat j.
Proof.
  intros Hwf b. pose proof (size_bits_of_le bf Hwf).
  split_and!; [by apply hits_after_count|by apply fp_table_index|by apply fp_count_le..].
Qed.

(** The probability asked of [New] is not an upper bound of the
    rate of the filter it makes: for six elements at 1% [New] makes a
    filter of 58 bits with 7 hash functions, and of the [58 ^ 49] lists
    of 42 positions for six [Add]s followed by 7 for a [Has], more than
    1.1% and fewer than 1.2% end in the answer [true]. *)
Theorem new_filter_rate `{C : Conversions} :
  New 6 0.01%float = (Some new_filter, None) /\
  hashqty new_filter = 7 /\ bitlen new_filter = 58 /\
  11 * 58 ^ 49 < 1000 * hits_after (bitstore new_filter) 7 58 (6 * 7) < 12 * 58 ^ 49.
Proof.
  split_and!; [apply New_new_filter|done..| |].
  all: unfold new_filter; cbn [bitstore].
  all: rewrite (hits_after_fresh 0.01%float 58 7 6 1) by apply wf_new_filter.
  all: rewrite fp_count_table by lia; by vm_compute.
Qed.

(** ** Witnesses *)

Lemma false_positive_count_witness :
  Z.of_nat (length (tuples 4 48)) = 48 ^ 4 /\
  hits (bitstore added_filter) 4 48 = Z.of_nat (size (bits_of added_filter)) ^ 4 /\
  0 <= Z.of_nat (size (bits_of added_filter)) <= 48.
Proof. exact (false_positive_count added_filter 4 wf_added_filter). Defined.

Lemma false_positives_grow_witness :
  exists bf', Add test_filter test_element = Done (bf', None) /\
    hits (bitstore test_filter) 4 48 <= hits (bitstore bf') 4 (bitlen bf') /\
    48 * hits_after (bitstore test_filter) 4 48 4
    <= hits_after (bitstore test_filter) 4 48 5.
Proof. exact (false_positives_grow test_filter test_element 4 4 wf_test_filter). Defined.

Lemma false_positive_rate_witness :
  let b := Z.of_nat (size (bits_of added_filter)) in
  hits_after (bitstore added_filter) 4 48 4 = fp_count 4 48 4 b /\
  index (fp_table 4 48 4) b = Some (fp_count 4 48 4 b) /\
  0 <= fp_count 4 48 4 b <= (b + 4) ^ 4 * 48 ^ 4.
Proof. exact (false_positive_rate added_filter 4 4 wf_added_filter). Defined.
