(* ===== verification/Approx.v ===== *)
(** * The false-positive rate of larger filters, in fixed point

    The count [fp_count] of [Rate.v] has [j + k] factors of [m]: for the
    filter of the examples, 959 bits with 7 hash functions after 100
    elements, its numbers have 7000 bits, and its table is too costly
    to evaluate.  This file bounds the count, divided by the number of
    lists, from below and from above by fractions with 52 bits
    ([approx], with the rounding [c] of each step 0 or 1), and
    evaluates the bounds by rows of machine integers ([rows], on
    [Uint63]); the rows are shown to hold the bounds as long as no
    product overflows 63 bits.  The filter of the examples has a rate
    between 1.0105% and 1.0106% after the hundred elements it was
    made for. *)

From Stdlib Require Import Strings.Byte String Floats.Floats Uint63.
From stdpp Require Import base tactics list numbers gmap sets.
From S2P Require Import Prelude Errors BitAddr Sha256 Hex Hash Filter Planner Abstract Rate.
Set Warnings "-clear-no-such-hyp,-inexact-float".

(** ** Definitions *)

(** The fraction 1, with 52 bits. *)
Definition one : Z := 2 ^ 52.

(** The share of the false positives after [j] hashes into a filter of
    [m] bits of which [b] are set, as a fraction of [one] rounded down
    at each step and [c] added: a lower bound for [c = 0] and an upper
    bound for [c = 1]. *)
Fixpoint approx (k : nat) (m c : Z) (j : nat) (b : Z) : Z :=
  match j with
  | O => one * b ^ Z.of_nat k / m ^ Z.of_nat k + c
  | S j => (b * approx k m c j b + (m - b) * approx k m c j (b + 1)) / m + c
  end.

(** One row of the bounds from the row before, on machine integers;
    [b] is the number of bits set of the head of the row. *)
Fixpoint next_row (m c b : int) (row : list int) : list int :=
  match row with
  | [] => []
  | x :: row =>
      ((b * x + (m - b) * default 0%uint63 (head row)) / m + c)%uint63
        :: next_row m c (b + 1)%uint63 row
  end.

Definition first_row (k : nat) (m c : Z) : list int :=
  (fun b => of_Z (one * b ^ Z.of_nat k / m ^ Z.of_nat k + c)) <$> seqZ 0 (m + 1).

Fixpoint rows (k : nat) (m c : Z) (j : nat) : list int :=
  match j with
  | O => first_row k m c
  | S j => next_row (of_Z m) (of_Z c) 0%uint63 (rows k m c j)
  end.

(** The rows do not overflow: the largest product is below [2 ^ 63]. *)
Definition no_overflow (m : Z) (j : nat) : Prop :=
  0 < m /\ m * (one + Z.of_nat j + 2) < 2 ^ 63.

(** ** The bounds *)

Section bounds.
Context (k : nat) (m : Z) (Hm : 0 < m).
Implicit Types (j : nat) (b c : Z).

(** The fractions stay fractions. *)
Lemma approx_range c j b :
  0 <= c <= 1 -> 0 <= b <= m -> 0 <= approx k m c j b <= one + c * (Z.of_nat j + 1).
Proof.
  intros Hc. revert b. induction j as [|j IH]; intros b Hb; cbn [approx].
  - assert (0 <= one * b ^ Z.of_nat k / m ^ Z.of_nat k <= one); [|lia].
    assert (0 <= b ^ Z.of_nat k <= m ^ Z.of_nat k)
      by (split; [apply Z.pow_nonneg|apply Z.pow_le_mono_l]; lia).
    assert (0 < m ^ Z.of_nat k) by (apply Z.pow_pos_nonneg; lia).
    split; [apply Z.div_pos; unfold one; nia|].
    apply Z.div_le_upper_bound; [done|]. unfold one. nia.
  - pose proof (IH b Hb) as Hx. set (x := approx k m c j b) in *.
    set (B := one + c * (Z.of_nat j + 1)) in *.
    assert (0 <= b * x + (m - b) * approx k m c j (b + 1) <= m * B) as [H0 H1].
    { destruct (decide (b = m)) as [->|Hne]; [rewrite Z.sub_diag; nia|].
      pose proof (IH (b + 1) ltac:(lia)). nia. }
    assert (0 <= (b * x + (m - b) * approx k m c j (b + 1)) / m <= B); [|lia].
    split; [by apply Z.div_pos|]. apply Z.div_le_upper_bound; lia.
Qed.

(** Rounded down at each step, the fraction is below the share. *)
Lemma approx_lower j b :
  0 <= b <= m ->
  approx k m 0 j b * m ^ (Z.of_nat j + Z.of_nat k) <= one * fp_count k m j b.
Proof.
  revert b. induction j as [|j IH]; intros b Hb; cbn [approx fp_count].
  - rewrite Z.add_0_r, Z.add_0_l, (Z.mul_comm _ (m ^ _)).
    apply Z.mul_div_le, Z.pow_pos_nonneg; lia.
  - replace (Z.of_nat (S j) + Z.of_nat k) with (Z.succ (Z.of_nat j + Z.of_nat k)) by lia.
    rewrite Z.pow_succ_r, Z.add_0_r by lia. set (M := m ^ _) in *.
    assert (0 <= M) by (apply Z.pow_nonneg; lia).
    pose proof (IH b Hb). set (x := approx k m 0 j b) in *.
    pose proof (Z.mul_div_le (b * x + (m - b) * approx k m 0 j (b + 1)) m Hm).
    destruct (decide (b = m)) as [Heq|Hne]; [rewrite Heq, Z.sub_diag in *; nia|].
    pose proof (IH (b + 1) ltac:(lia)). nia.
Qed.

(** With one added at each step, it is above. *)
Lemma approx_upper j b :
  0 <= b <= m ->
  one * fp_count k m j b <= approx k m 1 j b * m ^ (Z.of_nat j + Z.of_nat k).
Proof.
  revert b. induction j as [|j IH]; intros b Hb; cbn [approx fp_count].
  - rewrite Z.add_0_l. assert (0 < m ^ Z.of_nat k) by (apply Z.pow_pos_nonneg; lia).
    pose proof (Z.mul_succ_div_gt (one * b ^ Z.of_nat k) (m ^ Z.of_nat k)). lia.
  - replace (Z.of_nat (S j) + Z.of_nat k) with (Z.succ (Z.of_nat j + Z.of_nat k)) by lia.
    rewrite Z.pow_succ_r by lia. set (M := m ^ _) in *.
    assert (0 <= M) by (apply Z.pow_nonneg; lia).
    pose proof (IH b Hb). set (x := approx k m 1 j b) in *.
    pose proof (Z.mul_succ_div_gt (b * x + (m - b) * approx k m 1 j (b + 1)) m Hm).
    destruct (decide (b = m)) as [Heq|Hne]; [rewrite Heq, Z.sub_diag in *; nia|].
    pose proof (IH (b + 1) ltac:(lia)). nia.
Qed.

(** A share from its bounds: [a / d] is below the share when it is
    below the lower fraction, and above it when above the upper. *)
Lemma approx_between j b lo up d :
  0 <= b <= m -> 0 < d ->
  lo * one < d * approx k m 0 j b -> d * approx k m 1 j b < up * one ->
  lo * m ^ (Z.of_nat j + Z.of_nat k) < d * fp_count k m j b
  < up * m ^ (Z.of_nat j + Z.of_nat k).
Proof.
  intros Hb Hd Hlo Hup. pose proof (approx_lower j b Hb). pose proof (approx_upper j b Hb).
  assert (0 < m ^ (Z.of_nat j + Z.of_nat k)) by (apply Z.pow_pos_nonneg; lia).
  assert (0 < one) by done.
  set (M := m ^ _) in *. set (F := fp_count k m j b) in *.
  set (L := approx k m 0 j b) in *. set (U := approx k m 1 j b) in *.
  split; apply (Z.mul_lt_mono_pos_l one); try done; nia.
Qed.

End bounds.

(** ** The rows *)

Section rows.
Context (k : nat) (m c : Z) (Hc : 0 <= c <= 1).
Implicit Types (j : nat) (b : Z) (row : list int).

(** Machine integers that stand for small numbers. *)
Lemma to_Z_of_Z z : 0 <= z < 2 ^ 63 -> to_Z (of_Z z) = z.
Proof. intros Hz. rewrite of_Z_spec. by apply Z.mod_small. Qed.

(** One entry of a row: no operation wraps. *)
Lemma entry_spec (b x y : int) B :
  0 < m -> m * (B + 1) < 2 ^ 63 -> to_Z b <= m -> to_Z x <= B -> to_Z y <= B ->
  to_Z ((b * x + (of_Z m - b) * y) / of_Z m + of_Z c)%uint63
  = (to_Z b * to_Z x + (m - to_Z b) * to_Z y) / m + c.
Proof.
  intros Hm HB Hb Hx Hy.
  pose proof (to_Z_bounded b). pose proof (to_Z_bounded x). pose proof (to_Z_bounded y).
  assert (wB = 2 ^ 63) as Ew by done. rewrite Ew in *.
  assert (0 <= B) by lia. assert (m < 2 ^ 63) by nia.
  assert (to_Z (of_Z m) = m) as Em by (apply to_Z_of_Z; lia).
  assert (to_Z (of_Z c) = c) as Ec by (apply to_Z_of_Z; lia).
  assert (to_Z (of_Z m - b) = m - to_Z b) as Es.
  { rewrite sub_spec, Em. apply Z.mod_small. lia. }
  assert (0 <= to_Z b * to_Z x + (m - to_Z b) * to_Z y <= m * B) as Hsum by nia.
  assert (to_Z (b * x + (of_Z m - b) * y) = to_Z b * to_Z x + (m - to_Z b) * to_Z y) as Ep.
  { rewrite add_spec, !mul_spec, Es.
    rewrite (Z.mod_small (to_Z b * to_Z x)), (Z.mod_small ((m - to_Z b) * to_Z y)) by nia.
    apply Z.mod_small. lia. }
  rewrite add_spec, div_spec, Ep, Em, Ec. apply Z.mod_small.
  assert (0 <= (to_Z b * to_Z x + (m - to_Z b) * to_Z y) / m <= B).
  { split; [apply Z.div_pos; lia|apply Z.div_le_upper_bound; lia]. }
  assert (B + 1 < 2 ^ 63) by nia. lia.
Qed.

(** A row made from a row that holds the values of [f] holds the values
    of the next step. *)
Lemma next_row_spec (f : Z -> Z) B row (b : int) :
  0 < m -> m + 1 < 2 ^ 63 -> m * (B + 1) < 2 ^ 63 ->
  to_Z b + Z.of_nat (length row) = m + 1 ->
  (forall i, to_Z b <= i <= m -> 0 <= f i <= B) ->
  to_Z <$> row = f <$> seqZ (to_Z b) (Z.of_nat (length row)) ->
  to_Z <$> next_row (of_Z m) (of_Z c) b row
  = (fun i => (i * f i + (m - i) * f (i + 1)) / m + c)
      <$> seqZ (to_Z b) (Z.of_nat (length row)).
Proof.
  intros Hm Hm1 HB. revert b. induction row as [|x row IH]; intros b Hlen Hf Hrow; [done|].
  pose proof (to_Z_bounded b) as Hbb. assert (wB = 2 ^ 63) as Ew by done. rewrite Ew in Hbb.
  rewrite length_cons, Nat2Z.inj_succ in Hlen.
  rewrite length_cons, Nat2Z.inj_succ, seqZ_cons, Z.pred_succ in Hrow |- * by lia.
  cbn [fmap list_fmap next_row] in Hrow |- *. injection Hrow as Hx Hrow.
  assert (to_Z (b + 1) = Z.succ (to_Z b)) as Eb.
  { rewrite add_spec, Ew. change (to_Z 1) with 1. rewrite Z.mod_small; lia. }
  f_equal.
  - rewrite (entry_spec b x _ B), Hx; [|done|done|lia|rewrite Hx; apply Hf; lia|].
    + destruct row as [|y row]; cbn [head default from_option]; unfold id.
      * cbn [length] in Hlen. replace (m - to_Z b) with 0 by lia. by rewrite !Z.mul_0_l.
      * rewrite length_cons, Nat2Z.inj_succ, seqZ_cons in Hrow by lia.
        injection Hrow as Hy _. by rewrite Hy, Z.add_1_r.
    + destruct row as [|y row]; cbn [head default from_option]; unfold id;
        [cbn [length] in Hlen; pose proof (Hf (to_Z b) ltac:(lia)); change (to_Z 0) with 0; lia|].
      rewrite length_cons, Nat2Z.inj_succ, seqZ_cons in Hrow by lia.
      injection Hrow as Hy _. rewrite Hy. apply Hf. rewrite length_cons in Hlen. lia.
  - rewrite <- Eb. apply IH; rewrite ?Eb; [lia|intros i Hi; apply Hf; lia|done].
Qed.

(** The rows hold the bounds. *)
Lemma rows_spec j :
  no_overflow m j -> to_Z <$> rows k m c j = approx k m c j <$> seqZ 0 (m + 1).
Proof.
  intros [Hm Hj]. induction j as [|j IH].
  - cbn [rows]. unfold first_row. rewrite <- list_fmap_compose.
    apply list_fmap_ext. intros i b [-> Hi]%lookup_seqZ. cbn [compose approx].
    pose proof (approx_range k m Hm c 0 (0 + Z.of_nat i) Hc ltac:(lia)) as Hr.
    cbn [approx] in Hr. apply to_Z_of_Z. unfold one in *. nia.
  - assert (no_overflow m j) as Hj' by (split; [done|lia]). specialize (IH (proj2 Hj')).
    assert (length (rows k m c j) = Z.to_nat (m + 1)) as Hlen
      by (by rewrite <- (length_fmap to_Z), IH, length_fmap, length_seqZ).
    cbn [rows approx].
    rewrite (next_row_spec (approx k m c j) (one + Z.of_nat j + 1)); change (to_Z 0) with 0;
      rewrite ?Hlen, ?Z2Nat.id by lia; [done|done|unfold one in *; lia|lia|lia| |done].
    intros i Hi. pose proof (approx_range k m Hm c j i Hc ltac:(lia)). nia.
Qed.

(** The head of a row is the bound for a filter without a bit set. *)
Lemma rows_head j :
  no_overflow m j -> to_Z (default 0%uint63 (head (rows k m c j))) = approx k m c j 0.
Proof.
  intros Hj. pose proof (rows_spec j Hj) as Hrows. destruct Hj as [Hm _].
  rewrite seqZ_cons in Hrows by lia. destruct (rows k m c j) as [|x row]; [done|].
  injection Hrows as Hx _. exact Hx.
Qed.

End rows.

(** ** The filter of the examples *)

(** The rows of the filter of 959 bits do not overflow. *)
Lemma example_no_overflow : no_overflow 959 (100 * 7).
Proof. by vm_compute. Qed.

(** The bounds of its rate after 700 hashes, from the rows. *)
Lemma example_lower : 10105 * one < 1000000 * approx 7 959 0 (100 * 7) 0.
Proof.
  rewrite <- (rows_head 7 959 0 ltac:(lia) (100 * 7) example_no_overflow).
  vm_compute. reflexivity.
Qed.

Lemma example_upper : 1000000 * approx 7 959 1 (100 * 7) 0 < 10106 * one.
Proof.
  rewrite <- (rows_head 7 959 1 ltac:(lia) (100 * 7) example_no_overflow).
  vm_compute. reflexivity.
Qed.

(** C28. The filter of the examples exceeds the probability it was made
    for: for 100 elements at 1% [New] makes a filter of 959 bits with
    7 hash functions; of the [959 ^ 707] lists of 700 positions for a
    hundred [Add]s followed by 7 for a [Has], the share that ends in
    the answer [true] lies between the two fractions [approx], and is
    more than 1.0105% and less than 1.0106%. *)
Theorem example_filter_rate `{C : Conversions} :
  exists bf,
    New 100 0.01%float = (Some bf, None) /\ bitlen bf = 959 /\ hashqty bf = 7 /\
    (approx 7 959 0 (100 * 7) 0 * 959 ^ 707
     <= one * hits_after (bitstore bf) 7 959 (100 * 7)
     <= approx 7 959 1 (100 * 7) 0 * 959 ^ 707) /\
    10105 * 959 ^ 707 < 1000000 * hits_after (bitstore bf) 7 959 (100 * 7)
    < 10106 * 959 ^ 707.
Proof.
  eexists. split; [apply (New_value 100 0.01%float 959 7); [done..|sizing|sizing]|].
  cbn [bitlen hashqty bitstore]. split; [done|]. split; [done|].
  rewrite (hits_after_fresh 0.01%float 959 7 100) by (apply wf_fresh; unfold is_uint; lia).
  pose proof (approx_lower 7 959 eq_refl (100 * 7) 0 ltac:(lia)) as Hlo.
  pose proof (approx_upper 7 959 eq_refl (100 * 7) 0 ltac:(lia)) as Hup.
  pose proof (approx_between 7 959 eq_refl (100 * 7) 0 10105 10106 1000000
                ltac:(lia) eq_refl example_lower example_upper) as Hb.
  change (Z.of_nat (100 * 7) + Z.of_nat 7) with 707 in Hlo, Hup, Hb.
  split; [split; [exact Hlo|exact Hup]|exact Hb].
Qed.
