(* ===== verification/Session.v ===== *)
(** * Sessions: a filter from [New] and the calls made on it

    The lifecycle of a filter is one call of [New] followed by calls of
    [MustAdd] and [MustHave] in any number and order.  This file gives
    the specification of a whole session as a machine on sets of
    positions ([abs_exec], [abs_run]): an add joins the positions of
    the element to the set, a query answers whether the positions of
    the element are all in it.  The filter simulates that machine in
    lock step under the relation [sim] (a well-formed filter with the
    parameters of the machine whose set of bits is the state of the
    machine), so a run of the filter returns the replies of the
    machine, call by call.  [session] composes [New], with the
    allocation of [Alloc.v], and the run of [Abstract.v]; what the
    machine promises (an element added is found from then on, nothing
    is found in a filter nothing was added to) is proved on the machine
    and holds of the session by the simulation. *)

From Stdlib Require Import Strings.Byte String Floats.Floats.
From stdpp Require Import base tactics list numbers gmap sets.
From S2P Require Import Prelude Errors BitAddr Sha256 Hex Hash Filter Planner Alloc Abstract.
Set Warnings "-clear-no-such-hyp,-inexact-float".

(** ** Definitions *)

Section machine.
Context {D : Digest}.
Variables (k m : Z).

(** One call of the machine with [k] hash functions over [m] bits. *)
Definition abs_exec (S : gset Z) (c : call) : gset Z * reply :=
  match c with
  | CallAdd element => (abs_add S (positions element k m), RetAdd)
  | CallHas element => (S, RetHas (abs_has S (positions element k m)))
  end.

(** A list of calls, in order. *)
Fixpoint abs_run (S : gset Z) (calls : list call) : gset Z * list reply :=
  match calls with
  | [] => (S, [])
  | c :: calls =>
      let '(S', r) := abs_exec S c in
      let '(S'', rs) := abs_run S' calls in
      (S'', r :: rs)
  end.

(** The filter [bf] stands for the state [S] of the machine. *)
Definition sim (bf : Filter) (S : gset Z) : Prop :=
  wf bf /\ hashqty bf = k /\ bitlen bf = m /\ bits_of bf = S.

End machine.

(** What a session ends in when it does not panic: the error of [New],
    or the replies of the calls. *)
Inductive outcome : Type :=
  | Refused (err : error)
  | Replies (rs : list reply).

#[global] Instance outcome_eq_dec : EqDecision outcome.
Proof. solve_decision. Defined.

Section session.
Context {C : Conversions} {D : Digest}.

(** [New], the check of its error as the examples make it, then the
    calls with the operations that panic on an error. *)
Definition session (limit n : Z) (prob : float) (calls : list call) : result outcome :=
  '(bf, err) ← New_on limit n prob;
  match err, bf with
  | Some err, _ => Done (Refused err)
  | None, None => Panicked panic_nil
  | None, Some bf => '(_, rs) ← run bf calls; Done (Replies rs)
  end.

End session.

(** ** The machine *)

Section machine_lemmas.
Context {D : Digest}.
Variables (k m : Z).
Implicit Types (S : gset Z) (calls : list call) (element : list byte).

Lemma abs_run_cons S c calls :
  abs_run k m S (c :: calls)
  = ((abs_run k m (abs_exec k m S c).1 calls).1,
     (abs_exec k m S c).2 :: (abs_run k m (abs_exec k m S c).1 calls).2).
Proof. cbn [abs_run]. by destruct (abs_exec k m S c), (abs_run k m _ calls). Qed.

Lemma abs_run_length S calls : length (abs_run k m S calls).2 = length calls.
Proof.
  revert S. induction calls as [|c calls IH]; intros S; [done|].
  rewrite abs_run_cons. cbn. by rewrite IH.
Qed.

(** The state only grows. *)
Lemma abs_exec_mono S c : S ⊆ (abs_exec k m S c).1.
Proof. destruct c; cbn; unfold abs_add; set_solver. Qed.

Lemma abs_run_mono S calls : S ⊆ (abs_run k m S calls).1.
Proof.
  revert S. induction calls as [|c calls IH]; intros S; [done|].
  rewrite abs_run_cons. cbn [fst]. etrans; [apply (abs_exec_mono S c)|apply IH].
Qed.

(** The reply of the [j]-th call is that of the machine in the state
    the calls before it leave. *)
Lemma abs_run_lookup S calls j c :
  calls !! j = Some c ->
  (abs_run k m S calls).2 !! j
  = Some (abs_exec k m (abs_run k m S (take j calls)).1 c).2.
Proof.
  revert S j. induction calls as [|c' calls IH]; intros S [|j] Hj; try done.
  - injection Hj as ->. by rewrite abs_run_cons.
  - rewrite abs_run_cons. cbn [snd take lookup list_lookup]. rewrite (IH _ j Hj).
    by rewrite abs_run_cons.
Qed.

(** The positions of an element added by the [i]-th call are in every
    later state. *)
Lemma abs_run_added S calls i element j :
  calls !! i = Some (CallAdd element) -> (i < j)%nat ->
  list_to_set (positions element k m) ⊆ (abs_run k m S (take j calls)).1.
Proof.
  revert S i j. induction calls as [|c calls IH]; intros S [|i] [|j] Hi Hij; try done; try lia.
  - injection Hi as ->. cbn [take]. rewrite abs_run_cons. cbn [fst].
    etrans; [|apply abs_run_mono]. cbn. unfold abs_add. set_solver.
  - cbn [take]. rewrite abs_run_cons. cbn [fst]. apply (IH _ i); [done|lia].
Qed.

(** A query before any add is answered by the state the run began in. *)
Lemma abs_run_queries S calls :
  Forall (fun c => exists element, c = CallHas element) calls ->
  (abs_run k m S calls).1 = S.
Proof.
  revert S. induction 1 as [|c calls [e ->] _ IH]; [done|].
  rewrite abs_run_cons. cbn [fst abs_exec]. apply IH.
Qed.

End machine_lemmas.

(** ** The simulation *)

Section simulation.
Context {D : Digest} {L : DigestLaws D}.
Variables (k m : Z).
Implicit Types (bf : Filter) (S : gset Z) (calls : list call).

(** One call of the filter is one call of the machine. *)
Lemma exec_sim bf S c :
  sim k m bf S ->
  exists bf', exec bf c = Done (bf', (abs_exec k m S c).2) /\
              sim k m bf' (abs_exec k m S c).1.
Proof.
  intros (Hwf & <- & <- & <-). destruct c as [e|e]; unfold exec, MustAdd, MustHave.
  - rewrite Add_eq by done. eexists. split; [done|]. split_and!; [|done..|].
    + by apply wf_set_bits.
    + by apply bits_of_set_bits.
  - rewrite Has_abs by done. eexists. by split.
Qed.

(** A run of the filter is a run of the machine. *)
Lemma run_sim bf S calls :
  sim k m bf S ->
  exists bf', run bf calls = Done (bf', (abs_run k m S calls).2) /\
              sim k m bf' (abs_run k m S calls).1.
Proof.
  revert bf S. induction calls as [|c calls IH]; intros bf S Hsim; [by exists bf|].
  destruct (exec_sim bf S c Hsim) as (bf1 & Hexec & Hsim1).
  destruct (IH bf1 _ Hsim1) as (bf2 & Hrun & Hsim2).
  exists bf2. by rewrite run_cons, Hexec, bind_Done, Hrun, abs_run_cons.
Qed.

(** A filter without a bit set stands for the empty set. *)
Lemma sim_fresh prob n l :
  wf (mkFilter prob m k n (make 0 l)) -> sim k m (mkFilter prob m k n (make 0 l)) ∅.
Proof. intros Hwf. split_and!; [done..|]. apply bits_of_fresh. Qed.

End simulation.

(** ** Sessions *)

Section sessions.
Context {C : Conversions} {D : Digest} {L : DigestLaws D}.
Implicit Types (limit n : Z) (prob : float) (calls : list call).

(** A session whose arguments [New] refuses. *)
Lemma session_refused limit n prob calls err :
  New n prob = (None, Some err) -> session limit n prob calls = Done (Refused err).
Proof.
  intros HNew. unfold session. rewrite New_on_refused, HNew; [done|].
  unfold New in HNew. destruct (Z.eqb_spec n 0); [by left|].
  destruct (prob <=? 0)%float; [by right|done].
Qed.

(** A session whose store the runtime does not allocate. *)
Lemma session_too_long limit n prob calls :
  n <> 0 -> (prob <=? 0)%float = false -> fits limit n prob = false ->
  session limit n prob calls = Panicked panic_makeslice.
Proof. intros Hn Hp Hfits. unfold session. by rewrite New_on_unfold, Hfits. Qed.

(** A session on arguments that pass the check returns the replies of
    the machine that starts from the empty set. *)
Lemma session_replies limit n prob calls b q :
  roomy limit n prob = true -> sizes n prob = Some (b, q) ->
  session limit n prob calls = Done (Replies (abs_run q b ∅ calls).2).
Proof.
  intros Hroomy Hs. pose proof (roomy_fits _ _ _ Hroomy) as Hfits.
  destruct (roomy_inv _ _ _ Hroomy) as (b' & q' & Hs' & Hsane & _).
  destruct (sane_New n prob Hsane) as (b1 & q1 & Hs1 & _ & _ & HNew & Hwf).
  rewrite Hs in Hs', Hs1. injection Hs' as <- <-. injection Hs1 as <- <-.
  destruct (New_inv _ _ _ HNew) as (Hn & Hp & _).
  unfold session. rewrite New_on_unfold, Hfits, HNew, bind_Done by done.
  destruct (run_sim q b _ ∅ calls (sim_fresh q b prob n _ Hwf)) as (bf' & -> & _).
  done.
Qed.

(** The session of the examples: an add, then a query of the same
    element. *)
Lemma session_add_has limit n prob element :
  roomy limit n prob = true ->
  session limit n prob [CallAdd element; CallHas element]
  = Done (Replies [RetAdd; RetHas true]).
Proof.
  intros Hroomy. destruct (roomy_inv _ _ _ Hroomy) as (b & q & Hs & _).
  rewrite (session_replies _ _ _ _ b q) by done. rewrite !abs_run_cons.
  cbn [abs_exec abs_run fst snd]. by rewrite abs_has_add.
Qed.

End sessions.

(** ** Theorems *)

Section theorems.
Context {D : Digest} {L : DigestLaws D}.
Implicit Types (bf : Filter) (calls : list call).

(** C8. The filter implements the machine on sets of positions: from a
    well-formed filter every list of calls runs to its end without a
    panic, its replies are, call by call, those of the machine started
    in the set of bits of the filter, and the filter it leaves is well
    formed, has the same parameters and stands for the state the
    machine ends in. *)
Theorem run_refines bf calls :
  wf bf ->
  let spec := abs_run (hashqty bf) (bitlen bf) (bits_of bf) calls in
  exists bf',
    run bf calls = Done (bf', spec.2) /\ wf bf' /\
    hashqty bf' = hashqty bf /\ bitlen bf' = bitlen bf /\ bits_of bf' = spec.1.
Proof.
  intros Hwf spec.
  destruct (run_sim (hashqty bf) (bitlen bf) bf (bits_of bf) calls) as (bf' & Hrun & Hsim);
    [done|].
  destruct Hsim as (Hwf' & Hk & Hm & Hbits). by exists bf'.
Qed.

End theorems.

Section session_theorems.
Context {C : Conversions} {D : Digest} {L : DigestLaws D}.
Implicit Types (limit n : Z) (prob : float) (calls : list call).

(** C20. A session on every branch: zero elements and a probability that
    is not positive end it with the error of [New] before any call is
    made; a store the runtime does not allocate ends it with the panic
    of [make]; arguments that pass the check [roomy] give the replies
    of the machine started in the empty set, one for each call. *)
Theorem session_outcome limit n prob calls :
  (n = 0 -> session limit n prob calls = Done (Refused (error_Error ErrZeroElements))) /\
  (n <> 0 -> (prob <=? 0)%float = true ->
   session limit n prob calls = Done (Refused (error_Error ErrProbability))) /\
  (n <> 0 -> (prob <=? 0)%float = false -> fits limit n prob = false ->
   session limit n prob calls = Panicked panic_makeslice) /\
  (forall b q, roomy limit n prob = true -> sizes n prob = Some (b, q) ->
   session limit n prob calls = Done (Replies (abs_run q b ∅ calls).2) /\
   length (abs_run q b ∅ calls).2 = length calls).
Proof.
  split_and!.
  - intros ->. by apply session_refused.
  - intros Hn Hp. apply session_refused. unfold New.
    by rewrite (proj2 (Z.eqb_neq n 0) Hn), Hp.
  - apply session_too_long.
  - intros b q Hroomy Hs. split; [by apply session_replies|apply abs_run_length].
Qed.

(** No false negative in a session: when the arguments of [New] pass
    the check, a query of an element that an earlier call of the
    session added is answered [true], whatever was called in
    between. *)
Theorem session_no_false_negative limit n prob calls i j element :
  roomy limit n prob = true ->
  calls !! i = Some (CallAdd element) -> calls !! j = Some (CallHas element) ->
  (i < j)%nat ->
  exists rs, session limit n prob calls = Done (Replies rs) /\
             rs !! j = Some (RetHas true).
Proof.
  intros Hroomy Hi Hj Hij. destruct (roomy_inv _ _ _ Hroomy) as (b & q & Hs & _).
  eexists. split; [by apply session_replies|].
  rewrite (abs_run_lookup _ _ _ _ _ _ Hj). cbn [abs_exec snd]. do 2 f_equal.
  apply abs_has_true. by apply (abs_run_added _ _ _ _ i).
Qed.

(** Nothing is found in a filter nothing was added to: in a session
    whose arguments pass the check, a query that no add precedes is
    answered [false]. *)
Theorem session_fresh limit n prob calls j element :
  roomy limit n prob = true ->
  Forall (fun c => exists e, c = CallHas e) (take j calls) ->
  calls !! j = Some (CallHas element) ->
  exists rs, session limit n prob calls = Done (Replies rs) /\
             rs !! j = Some (RetHas false).
Proof.
  intros Hroomy Hbefore Hj.
  destruct (roomy_inv _ _ _ Hroomy) as (b & q & Hs & Hsane & _).
  destruct (sane_sized n prob Hsane) as (b' & q' & Hs' & _ & _ & _ & _ & _ & Hq).
  rewrite Hs in Hs'. injection Hs' as <- <-.
  eexists. split; [by apply session_replies|].
  rewrite (abs_run_lookup _ _ _ _ _ _ Hj), abs_run_queries by done.
  cbn [abs_exec snd]. do 2 f_equal. unfold positions.
  rewrite seqZ_cons by lia. done.
Qed.

End session_theorems.

(** ** Witnesses *)

Definition session_calls : list call :=
  [CallHas test_element; CallAdd test_element; CallHas test_element].

Lemma run_refines_witness :
  let spec := abs_run 4 48 (bits_of test_filter) session_calls in
  exists bf',
    run test_filter session_calls = Done (bf', spec.2) /\ wf bf' /\
    hashqty bf' = 4 /\ bitlen bf' = 48 /\ bits_of bf' = spec.1.
Proof. exact (run_refines test_filter session_calls wf_test_filter). Defined.

Lemma session_outcome_witness :
  @session wrapping sha256_digest maxAlloc 0 0.01 session_calls
  = Done (Refused (error_Error ErrZeroElements)).
Proof.
  by apply (@session_outcome wrapping sha256_digest sha256_laws maxAlloc 0 0.01 session_calls).
Defined.

Lemma session_no_false_negative_witness :
  exists rs, @session wrapping sha256_digest maxAlloc 6 0.01 session_calls = Done (Replies rs) /\
             rs !! 2%nat = Some (RetHas true).
Proof.
  apply (@session_no_false_negative wrapping sha256_digest sha256_laws maxAlloc 6 0.01
           session_calls 1 2 test_element); [by vm_compute|done|done|lia].
Defined.

Lemma session_fresh_witness :
  exists rs, @session wrapping sha256_digest maxAlloc 6 0.01 session_calls = Done (Replies rs) /\
             rs !! 0%nat = Some (RetHas false).
Proof.
  apply (@session_fresh wrapping sha256_digest sha256_laws maxAlloc 6 0.01
           session_calls 0 test_element); [by vm_compute|constructor|done].
Defined.
