(* ===== verification/Linear.v ===== *)
(** * The answers of queries that run beside [Add]s

    A query that runs while other goroutines add reads each of its
    bits at a different moment.  When the goroutines that add make the
    read and the write of a bucket in one step, no bit is ever cleared,
    and the answer of the query lies between the answer [Has] gives on
    the filter as it was when the goroutines started and the answer it
    gives on the filter they leave: an answer [false] means that the
    element was not found at the start, an answer [true] that it is
    found at the end, and from then on.  Without the atomic step the
    second half fails: the write of a goroutine that read its bucket
    earlier clears the bits a query has seen, and an element reported
    found is reported absent afterwards.

    Each thread is tagged with what it was started for ([tags]): the
    positions of its element for a query, nothing for an add.  The
    property [answer_ok] of a tagged thread depends on the store, and
    is kept by every schedule ([interleave_tagged] of
    [Concurrent.v]). *)

From Stdlib Require Import Strings.Byte String.
From stdpp Require Import base tactics list numbers.
From S2P Require Import Prelude Errors BitAddr Sha256 Hex Hash Filter Concurrent Readers.
Set Warnings "-clear-no-such-hyp".

(** ** Definitions *)

(** What holds of a thread that was started on the store [bs0] when the
    store has become [bs]: a goroutine that adds is between two atomic
    steps, with positions inside the store; a query of the positions
    [pos] that has answered [true] has all its bits set in [bs], one
    that has answered [false] had a bit clear in [bs0], and one that
    has not answered has seen the bits it has read set in [bs]. *)
Definition answer_ok (bs0 bs : list Z) (a : option (list Z)) (t : thread) : Prop :=
  match a, t with
  | None, adding g => Forall (addressable bs0) (todo g) /\ pending g = None
  | Some pos, testing r =>
      Forall (addressable bs0) pos /\
      match verdict r with
      | Some true => Forall (fun p => bit bs p = true) pos
      | Some false => exists p, p ∈ pos /\ bit bs0 p = false
      | None => exists seen, pos = seen ++ unread r /\ Forall (fun p => bit bs p = true) seen
      end
  | _, _ => False
  end.

Section tags.
Context {D : Digest}.

(** The tags of [threads bf es xs]. *)
Definition tags (bf : Filter) (es xs : list (list byte)) : list (option (list Z)) :=
  replicate (length es) None ++ (Some <$> (filter_positions bf <$> xs)).

End tags.

(** A schedule on which a query is answered [true] and the bits it saw
    are cleared afterwards: the second goroutine reads the bucket, the
    first adds its element, the query reads the four bits and answers,
    and the second goroutine writes what it read with its own bit, then
    finishes. *)
Definition unsay_schedule : list nat :=
  [1%nat] ++ replicate 8 0%nat ++ replicate 5 2%nat ++ replicate 7 1%nat.

(** ** The invariant *)

Section answers.
Context (bs0 : list Z).
Implicit Types (bs pos : list Z) (p q : Z) (g : goroutine) (r : reader) (t : thread).

(** The property of a thread survives every change of the store that
    clears no bit. *)
Lemma answer_ok_mono bs bs' a t :
  (forall q, bit bs q = true -> bit bs' q = true) ->
  answer_ok bs0 bs a t -> answer_ok bs0 bs' a t.
Proof.
  intros Hmono. destruct a as [pos|], t as [g|r]; try done.
  intros [Hpos Hr]. split; [done|]. destruct (verdict r) as [[]|].
  - eapply list.Forall_impl; [exact Hr|]. apply Hmono.
  - done.
  - destruct Hr as (seen & Hseen & Hbits). exists seen. split; [done|].
    eapply list.Forall_impl; [exact Hbits|]. apply Hmono.
Qed.

(** An atomic step of a goroutine that adds sets a bit and clears
    none. *)
Lemma atomic_or_answer_ok bs g :
  store_ok bs0 bs -> answer_ok bs0 bs None (adding g) ->
  exists bs' g',
    atomic_or bs g = Done (bs', g') /\ store_ok bs0 bs' /\
    answer_ok bs0 bs' None (adding g') /\
    forall q, bit bs q = true -> bit bs' q = true.
Proof.
  intros Hok [Htodo Hpend]. destruct g as [[|p pos] pend]; cbn in Htodo, Hpend; subst pend.
  { exists bs, (go []). by rewrite atomic_or_nil. }
  apply Forall_cons_1 in Htodo as [Hp Hpos].
  change (mkGoroutine (p :: pos) None) with (go (p :: pos)).
  pose proof (store_ok_addressable bs0 bs p Hok Hp) as Hp'.
  destruct (atomic_or_ok bs0 bs (go (p :: pos)) Hok) as (bs' & g' & Hstep & Hok' & _).
  { split; [by constructor|done]. }
  rewrite atomic_or_addressable in Hstep by done. injection Hstep as <- <-.
  exists (set_bit bs p), (go pos). rewrite atomic_or_addressable by done.
  split_and!; [done..|]. intros q Hq. rewrite bit_set_bit by apply Hp'.
  by rewrite Hq.
Qed.

(** A read of a query. *)
Lemma look_answer_ok bs pos r :
  store_ok bs0 bs -> answer_ok bs0 bs (Some pos) (testing r) ->
  exists r', look bs r = Done r' /\ answer_ok bs0 bs (Some pos) (testing r').
Proof.
  intros Hok [Hpos Hr]. destruct r as [[|p rest] [b|]]; cbn [verdict unread] in Hr;
    try (by eexists; split; [done|split]).
  - destruct Hr as (seen & -> & Hbits). rewrite app_nil_r in Hpos |- *.
    exists (mkReader [] (Some true)). by split.
  - destruct Hr as (seen & -> & Hbits).
    assert (addressable bs0 p) as Hp by (apply Forall_app in Hpos as [_ [? _]%Forall_cons_1]; done).
    change (mkReader (p :: rest) None) with (query (p :: rest)).
    rewrite look_cons, (Has_loop_cons bs p []) by (by apply (store_ok_addressable bs0)).
    cbn [Has_loop]. destruct (bit bs p) eqn:Hbit; rewrite bind_Done; eexists; (split; [done|split; [done|]]).
    + cbn [query verdict unread]. exists (seen ++ [p]). rewrite <- app_assoc.
      split; [done|]. apply Forall_app. by split; [|constructor].
    + cbn [verdict]. exists p. split; [apply elem_of_app; right; by left|].
      destruct (bit bs0 p) eqn:Hbit0; [|done]. by rewrite (store_ok_bit bs0 bs p Hok Hbit0) in Hbit.
Qed.

(** Every step of a thread keeps its property and that of the
    others. *)
Lemma thread_step_answer_ok bs a t :
  store_ok bs0 bs -> answer_ok bs0 bs a t ->
  exists bs' t',
    thread_step atomic_or bs t = Done (bs', t') /\ store_ok bs0 bs' /\
    answer_ok bs0 bs' a t' /\
    forall a' t'', answer_ok bs0 bs a' t'' -> answer_ok bs0 bs' a' t''.
Proof.
  intros Hok Hat. destruct a as [pos|], t as [g|r]; try done; cbn [thread_step].
  - destruct (look_answer_ok bs pos r Hok Hat) as (r' & -> & Hr'). by exists bs, (testing r').
  - destruct (atomic_or_answer_ok bs g Hok Hat) as (bs' & g' & -> & Hok' & Hg' & Hmono).
    exists bs', (adding g'). split_and!; [done..|].
    intros a' t''. by apply answer_ok_mono.
Qed.

End answers.

(** ** Queries beside atomic [Add]s on a filter *)

Section filter.
Context {D : Digest} {L : DigestLaws D}.
Implicit Types (bf : Filter) (es xs : list (list byte)) (sched : list nat).

(** The threads start with their property. *)
Lemma threads_answer_ok bf es xs :
  wf bf ->
  Forall2 (answer_ok (bitstore bf) (bitstore bf)) (tags bf es xs) (threads bf es xs).
Proof.
  intros Hwf. apply Forall2_app.
  - unfold adders. induction es as [|e es IH]; cbn; constructor; [|done].
    split; [by apply wf_addressable|done].
  - induction xs as [|x xs IH]; cbn; constructor; [|done].
    split; [by apply wf_addressable|]. by exists [].
Qed.

Lemma tags_lookup bf es xs i x :
  xs !! i = Some x -> tags bf es xs !! (length es + i)%nat = Some (Some (filter_positions bf x)).
Proof.
  intros Hx. unfold tags. rewrite lookup_app_r, length_replicate by (rewrite length_replicate; lia).
  replace (length es + i - length es)%nat with i by lia.
  by rewrite !list_lookup_fmap, Hx.
Qed.

(** What the property of a query says of its answer. *)
Lemma answer_ok_answer bf bs' x t :
  wf bf -> wf (with_bitstore bf bs') ->
  answer_ok (bitstore bf) bs' (Some (filter_positions bf x)) t ->
  (answer t = Some false -> Has bf x = Done (false, None)) /\
  (answer t = Some true -> Has (with_bitstore bf bs') x = Done (true, None)).
Proof.
  intros Hwf Hwf' Hat. destruct t as [g|r]; [done|]. destruct Hat as [_ Hr]. cbn [answer].
  split; intros Hv; rewrite Hv in Hr; rewrite Has_eq by done; do 2 f_equal.
  - destruct Hr as (p & Hp & Hbit). apply not_true_is_false. intros Hall.
    eapply forallb_elem_of in Hall; [|exact Hp]. congruence.
  - apply forallb_elem_of. intros p Hp. by eapply list.Forall_forall in Hr.
Qed.

(** Every schedule of atomic [Add]s and queries returns, keeps the
    filter well formed and the property of each thread. *)
Lemma interleave_answers bf es xs sched :
  wf bf ->
  exists bs' ts',
    interleave (thread_step atomic_or) sched (bitstore bf) (threads bf es xs)
    = Done (bs', ts') /\
    wf (with_bitstore bf bs') /\
    Forall2 (answer_ok (bitstore bf) bs') (tags bf es xs) ts'.
Proof.
  intros Hwf.
  destruct (interleave_tagged (thread_step atomic_or) (store_ok (bitstore bf))
              (answer_ok (bitstore bf)) (thread_step_answer_ok (bitstore bf))
              sched (bitstore bf) (tags bf es xs) (threads bf es xs))
    as (bs' & ts' & Hrun & Hok & Hts);
    [apply store_ok_refl, Hwf|by apply threads_answer_ok|].
  exists bs', ts'. split_and!; [done| |done].
  apply wf_with_bitstore; [done|by apply (store_ok_length (bitstore bf))|apply Hok].
Qed.

(** C30. The answer of a query that runs beside atomic [Add]s lies
    between the answers of [Has] before and after them: on every
    schedule no step panics, the filter stays well formed and each
    thread keeps the property [answer_ok] of what it was started for;
    a query that answers [false] is of an element [Has] did not find
    in the filter as it was at the start, and a query that answers
    [true] is of an element [Has] finds in the filter the schedule
    leaves. *)
Theorem answers_between bf es xs sched :
  wf bf ->
  exists bs' ts',
    interleave (thread_step atomic_or) sched (bitstore bf) (threads bf es xs)
    = Done (bs', ts') /\
    wf (with_bitstore bf bs') /\
    Forall2 (answer_ok (bitstore bf) bs') (tags bf es xs) ts' /\
    forall i x t, xs !! i = Some x -> ts' !! (length es + i)%nat = Some t ->
      (answer t = Some false -> Has bf x = Done (false, None)) /\
      (answer t = Some true -> Has (with_bitstore bf bs') x = Done (true, None)).
Proof.
  intros Hwf. destruct (interleave_answers bf es xs sched Hwf) as (bs' & ts' & Hrun & Hwf' & Hts).
  exists bs', ts'. split_and!; [done..|]. intros i x t Hx Ht.
  apply answer_ok_answer; [done..|].
  destruct (Forall2_lookup_r _ _ _ _ _ Hts Ht) as (a & Ha & Hat).
  rewrite (tags_lookup bf es xs i x Hx) in Ha. by injection Ha as <-.
Qed.

End filter.

(** Without the atomic step an element reported found can be
    reported absent afterwards: on the filter of the repository's test
    there is a schedule of two [Add]s and a query after which both
    [Add]s have returned, the query has answered [true], and [Has]
    answers [false] for the element queried. *)
Theorem race_unsays_found :
  exists bs',
    interleave (thread_step access) unsay_schedule (bitstore test_filter)
      (threads test_filter [test_element; other_element] [test_element])
    = Done (bs', [adding (go []); adding (go []); testing (mkReader [] (Some true))]) /\
    Has (with_bitstore test_filter bs') test_element = Done (false, None).
Proof. exists [8388610]. split; by vm_compute. Qed.

(** ** Witnesses *)

Lemma answers_between_witness :
  exists bs' ts',
    interleave (thread_step atomic_or) [0; 2; 2; 0; 2; 0; 2; 0; 2]%nat (bitstore test_filter)
      (threads test_filter [test_element; other_element] [test_element])
    = Done (bs', ts') /\
    wf (with_bitstore test_filter bs') /\
    Forall2 (answer_ok (bitstore test_filter) bs')
      (tags test_filter [test_element; other_element] [test_element]) ts' /\
    forall i x t, [test_element] !! i = Some x -> ts' !! (2 + i)%nat = Some t ->
      (answer t = Some false -> Has test_filter x = Done (false, None)) /\
      (answer t = Some true ->
       Has (with_bitstore test_filter bs') x = Done (true, None)).
Proof.
  exact (answers_between test_filter [test_element; other_element] [test_element]
           [0; 2; 2; 0; 2; 0; 2; 0; 2]%nat wf_test_filter).
Defined.
