(* ===== verification/Client.v ===== *)
(** * The filter in front of a costly lookup

    The use the package is made for: a filter holds the keys of a
    table whose lookups are costly, and a lookup is made only when the
    filter answers that the key is possibly there.  What the client
    needs of the filter is an interface ([Membership]) with four laws
    ([MembershipLaws]): adding keeps the filter valid, a query of a
    valid filter returns, a key added is found, and a key found stays
    found.  The client ([fill], [guarded]) and its theorems are written
    against the interface; [Filter] with [MustAdd] and [MustHave]
    implements it under the invariant [wf], and so does the list of the
    keys themselves, the exact set the filter stands in for. *)

From Stdlib Require Import Strings.Byte String.
From stdpp Require Import base tactics list numbers.
From S2P Require Import Prelude Errors BitAddr Sha256 Hex Hash Filter.
Set Warnings "-clear-no-such-hyp".

(** ** The interface *)

Class Membership (F : Type) : Type := {
  mem_ok : F -> Prop;
  mem_add : F -> list byte -> result F;
  mem_has : F -> list byte -> result bool
}.

Class MembershipLaws (F : Type) `{Membership F} : Prop := {
  mem_add_ok f e : mem_ok f -> exists f', mem_add f e = Done f' /\ mem_ok f';
  mem_has_total f e : mem_ok f -> exists b, mem_has f e = Done b;
  mem_has_add f e f' : mem_ok f -> mem_add f e = Done f' -> mem_has f' e = Done true;
  mem_has_stays f e f' x :
    mem_ok f -> mem_add f e = Done f' -> mem_has f x = Done true -> mem_has f' x = Done true
}.

(** ** The client *)

Section client.
Context {F : Type} `{MembershipLaws F} {V : Type}.

(** The keys of the table are added one after the other. *)
Fixpoint fill (f : F) (keys : list (list byte)) : result F :=
  match keys with
  | [] => Done f
  | key :: keys => f ← mem_add f key; fill f keys
  end.

(** A lookup behind the filter: the table is consulted only when the
    filter answers [true]. *)
Definition guarded (table : list byte -> option V) (f : F) (key : list byte) :
    result (option V) :=
  b ← mem_has f key; Done (if b : bool then table key else None).

(** The number of lookups in the table that a list of queries costs. *)
Fixpoint consulted (f : F) (queries : list (list byte)) : result nat :=
  match queries with
  | [] => Done 0%nat
  | key :: queries =>
      b ← mem_has f key; k ← consulted f queries;
      Done (if b : bool then S k else k)
  end.

End client.

(** ** The implementations *)

(** The filter of the package. *)
#[global] Instance filter_membership `{Digest} : Membership Filter := {|
  mem_ok := wf;
  mem_add := MustAdd;
  mem_has := MustHave
|}.

(** The set of the keys itself. *)
#[global] Instance exact_membership : Membership (list (list byte)) := {|
  mem_ok _ := True;
  mem_add keys key := Done (key :: keys);
  mem_has keys key := Done (bool_decide (key ∈ keys))
|}.

(** ** The client, for every implementation *)

Section client_lemmas.
Context {F : Type} `{MembershipLaws F} {V : Type}.
Implicit Types (f : F) (keys : list (list byte)) (table : list byte -> option V).

(** A key found stays found while the table is filled. *)
Lemma fill_stays f keys x :
  mem_ok f -> mem_has f x = Done true ->
  exists f', fill f keys = Done f' /\ mem_ok f' /\ mem_has f' x = Done true.
Proof.
  revert f. induction keys as [|key keys IH]; intros f Hok Hx; [by exists f|].
  destruct (mem_add_ok f key Hok) as (f1 & Hadd & Hok1).
  cbn [fill]. rewrite Hadd, bind_Done. apply IH; [done|].
  by apply (mem_has_stays f key).
Qed.

(** After the table is filled every key of it is found. *)
Lemma fill_found f keys :
  mem_ok f ->
  exists f', fill f keys = Done f' /\ mem_ok f' /\
             forall key, key ∈ keys -> mem_has f' key = Done true.
Proof.
  revert f. induction keys as [|key keys IH]; intros f Hok.
  { exists f. split_and!; [done..|]. by intros key ?%not_elem_of_nil. }
  destruct (mem_add_ok f key Hok) as (f1 & Hadd & Hok1).
  destruct (IH f1 Hok1) as (f' & Hfill & Hok' & Hfound).
  exists f'. cbn [fill]. rewrite Hadd, bind_Done. split_and!; [done..|].
  intros x [->|Hx]%elem_of_cons; [|by apply Hfound].
  destruct (fill_stays f1 keys key Hok1 (mem_has_add f key f1 Hok Hadd)) as (f2 & Hfill2 & _ & Hx).
  congruence.
Qed.

(** The lookup behind the filter answers what the table answers, for
    keys in the table and for keys that are not. *)
Theorem guarded_correct table f keys key :
  mem_ok f -> (forall k, table k <> None -> k ∈ keys) ->
  exists f', fill f keys = Done f' /\ guarded table f' key = Done (table key).
Proof.
  intros Hok Hkeys. destruct (fill_found f keys Hok) as (f' & Hfill & Hok' & Hfound).
  exists f'. split; [done|]. unfold guarded.
  destruct (table key) as [v|] eqn:Hkey.
  - rewrite (Hfound key), bind_Done; [done|]. apply Hkeys. by rewrite Hkey.
  - destruct (mem_has_total f' key Hok') as [b ->]. rewrite bind_Done. by destruct b.
Qed.

(** A key the filter does not find costs no lookup: the answer does
    not depend on the table. *)
Theorem guarded_skips table f key :
  mem_has f key = Done false -> guarded table f key = Done None.
Proof. intros Hkey. unfold guarded. by rewrite Hkey. Qed.

(** No list of queries costs more lookups than it has queries. *)
Theorem consulted_le f queries :
  mem_ok f -> exists k, consulted f queries = Done k /\ (k <= length queries)%nat.
Proof.
  intros Hok. induction queries as [|key queries (k & Hk & Hle)]; [by exists 0%nat|].
  destruct (mem_has_total f key Hok) as [b Hb]. cbn [consulted].
  rewrite Hb, Hk, !bind_Done. eexists. split; [done|]. destruct b; cbn; lia.
Qed.

End client_lemmas.

(** ** The laws of the implementations *)

Section laws.
Context {D : Digest} {L : DigestLaws D}.

Lemma MustAdd_eq bf element :
  wf bf ->
  MustAdd bf element
  = Done (with_bitstore bf (set_bits (bitstore bf) (filter_positions bf element))).
Proof. intros Hwf. unfold MustAdd. by rewrite Add_eq. Qed.

Lemma MustHave_eq bf element :
  wf bf -> MustHave bf element = Done (forallb (bit (bitstore bf)) (filter_positions bf element)).
Proof. intros Hwf. unfold MustHave. by rewrite Has_eq. Qed.

#[global] Instance filter_laws : MembershipLaws Filter.
Proof.
  split; cbn [mem_ok mem_add mem_has filter_membership].
  - intros bf e Hwf. rewrite MustAdd_eq by done. eexists. split; [done|]. by apply wf_set_bits.
  - intros bf e Hwf. rewrite MustHave_eq by done. by eexists.
  - intros bf e bf' Hwf. rewrite MustAdd_eq by done. intros [= <-].
    unfold MustHave. by rewrite Has_added.
  - intros bf e bf' x Hwf. rewrite MustAdd_eq, MustHave_eq by done. intros [= <-] [= Hx].
    rewrite MustHave_eq by (by apply wf_set_bits). f_equal.
    rewrite filter_positions_with_bitstore. by apply has_all_added.
Qed.

End laws.

#[global] Instance exact_laws : MembershipLaws (list (list byte)).
Proof.
  split; cbn [mem_ok mem_add mem_has exact_membership].
  - intros keys e _. by eexists.
  - intros keys e _. by eexists.
  - intros keys e ? _ [= <-]. f_equal. apply bool_decide_eq_true. by left.
  - intros keys e ? x _ [= <-] [= Hx%bool_decide_eq_true]. f_equal.
    apply bool_decide_eq_true. by right.
Qed.

(** ** The filter against the exact set *)

Section compare.
Context {D : Digest} {L : DigestLaws D} {V : Type}.
Implicit Types (bf : Filter) (keys : list (list byte)) (table : list byte -> option V).

(** The filter in front of the table answers what the exact set in
    front of it answers: a false positive costs a lookup, never a wrong
    answer. *)
Theorem filter_as_exact table bf keys key :
  wf bf -> (forall k, table k <> None -> k ∈ keys) ->
  exists bf' keys',
    fill bf keys = Done bf' /\ fill [] keys = Done keys' /\
    guarded table bf' key = guarded table keys' key.
Proof.
  intros Hwf Hkeys.
  destruct (@guarded_correct Filter _ filter_laws V table bf keys key Hwf Hkeys)
    as (bf' & Hfill & Hbf).
  destruct (@guarded_correct _ _ exact_laws V table [] keys key I Hkeys)
    as (keys' & Hfill' & Hkeys').
  exists bf', keys'. split_and!; [done..|]. by rewrite Hbf, Hkeys'.
Qed.

End compare.

(** ** The theorems at concrete inputs *)

Definition test_table (key : list byte) : option Z :=
  if decide (key = test_element) then Some 1 else None.

Lemma filter_as_exact_witness :
  exists bf' keys',
    fill test_filter [test_element] = Done bf' /\ fill [] [test_element] = Done keys' /\
    guarded test_table bf' other_element = guarded test_table keys' other_element.
Proof.
  apply (@filter_as_exact sha256_digest sha256_laws Z test_table test_filter [test_element]
           other_element wf_test_filter).
  intros k Hk. unfold test_table in Hk. case_decide; [subst; by left|done].
Defined.
