(* ===== verification/Tests.v ===== *)
(** * The repository's tests, examples, benchmarks and fuzz target

    Each test function of [bloom_test.go] is a table and a loop over
    it.  The table is a list here and the test a boolean: [true] when
    no case reaches [t.Errorf] or [t.Fatal].  That the tests pass is
    then a theorem about the model; the ones that go through the
    sizing hold for every instance of [Conversions], since the tables
    stay within the range where Go defines the conversion.  The tests on
    hashes run on SHA-256 itself.

    The examples of [examples_test.go] return the text they print, the
    fuzz target of [fuzz.go] its verdict, and a benchmark of
    [bench_test.go] the filter its loop leaves; their theorems hold for
    every lawful digest. *)

From Stdlib Require Import Strings.Byte String Ascii Floats.
From stdpp Require Import base tactics list numbers.
From S2P Require Import Prelude Errors BitAddr Sha256 Hex Hash Filter Planner.
Set Warnings "-clear-no-such-hyp,-inexact-float".

(** [len(s)] *)
Definition len {A} (s : list A) : Z := Z.of_nat (length s).

Lemma len_make {A} (zero : A) k : 0 <= k -> len (make zero k) = k.
Proof. intros. unfold len. rewrite length_make. lia. Qed.

(** ** [bloom_test.go] *)

Section sizing_tests.
Context {C : Conversions}.

Definition TestOptimalBitLen_tt : list (Z * float * Z) :=
  [ (1000000, 0.01%float, 9585059);
    (0, 0.01%float, 0);
    (2147483647, 0.01%float, 20583756121);
    (4294967295, 0.01%float, 41167512252) ].

Definition TestOptimalBitLen : bool :=
  forallb (fun '(n, prob, want) => optimalBitLen n prob =? want) TestOptimalBitLen_tt.

Definition TestOptimalHashQty_tt : list (float * Z) :=
  [ (0.1%float, 4); (0.01%float, 7); (0.0123%float, 7); (0.001%float, 10);
    (0.0001001231231%float, 14) ].

Definition TestOptimalHashQty : bool :=
  forallb (fun '(prob, want) => optimalHashQty prob =? want) TestOptimalHashQty_tt.

Definition TestNew_error_tt : list (Z * float * Error) :=
  [ (0, 0.1%float, ErrZeroElements);
    (1, 0%float, ErrProbability);
    (1, (-0.1)%float, ErrProbability) ].

Definition TestNew_error : bool :=
  forallb (fun '(n, prob, want) =>
             bool_decide ((New n prob).2 = Some (error_Error want)))
          TestNew_error_tt.

Definition TestNew_tt : list (Z * float * Filter) :=
  [ (1, 0.01%float, mkFilter 0.01 10 7 1 (make 0 1));
    (6, 0.01%float, mkFilter 0.01 58 7 6 (make 0 1));
    (7, 0.01%float, mkFilter 0.01 68 7 7 (make 0 2));
    (4294967295, 0.01%float, mkFilter 0.01 41167512252 7 4294967295 (make 0 643242379));
    (4294967295, 0.001%float, mkFilter 0.001 61751268378 10 4294967295 (make 0 964863569)) ].

(** One case of [TestNew]: the five comparisons of its body. *)
Definition TestNew_case (tc : Z * float * Filter) : bool :=
  let '(n, prob, want) := tc in
  match New n prob with
  | (Some got, None) =>
      (Filter.n got =? Filter.n want)
      && (Filter.prob got =? Filter.prob want)%float
      && (bitlen got =? bitlen want)
      && (hashqty got =? hashqty want)
      && (len (bitstore got) =? len (bitstore want))
  | _ => false
  end.

Definition TestNew : bool := forallb TestNew_case TestNew_tt.

End sizing_tests.

Definition TestHash_tt : list (string * Z * Z) :=
  [ ("test", 1000000, 842533);
    ("test", 18446744073709551615, 11495104353665842533);
    ("test0", 48, 8);
    ("test1", 48, 24);
    ("test2", 48, 17);
    ("test3", 48, 23) ]%string.

Definition TestHash : bool :=
  forallb (fun '(b, bitlen, want) =>
             match hash (list_byte_of_string b) bitlen with
             | Done (got, None) => got =? want
             | _ => false
             end)
          TestHash_tt.

(** The helper [equal] of the tests: two slices of the same length with
    the same elements. *)
Fixpoint equal_loop (s1 s2 : list Z) : bool :=
  match s1, s2 with
  | x :: s1, y :: s2 => if negb (x =? y) then false else equal_loop s1 s2
  | _, _ => true
  end.

Definition equal (s1 s2 : list Z) : bool :=
  if negb (len s1 =? len s2) then false else equal_loop s1 s2.

Definition TestBitpositions_tt : list (string * Z * Z * list Z) :=
  [ ("test", 4, 48, [7; 36; 32; 37]) ]%string.

Definition TestBitpositions : bool :=
  forallb (fun '(element, hashqty, bitlen, want) =>
             match bitpositions (list_byte_of_string element) hashqty bitlen with
             | Done (got, None) => equal got want
             | _ => false
             end)
          TestBitpositions_tt.

(** The cases of [TestBitlocation]: position, bucket width, and the
    index and offset wanted. *)
Definition TestBitlocation_tt : list (Z * Z * Z * Z) :=
  [ (0, 2, 0, 0); (1, 2, 0, 1); (2, 2, 1, 0); (3, 2, 1, 1);
    (41167512252, 2, 20583756126, 0);
    (0, 0, 0, 0); (7, 0, 0, 7); (8, 0, 1, 0);
    (63, 64, 0, 63); (64, 64, 1, 0) ].

Definition TestBitlocation : bool :=
  forallb (fun '(pos, bitsize, wantIndex, wantOffset) =>
             let '(index, offset) := bitlocation pos bitsize in
             negb (negb (index =? wantIndex) || negb (offset =? wantOffset)))
          TestBitlocation_tt.

(** [fmt.Sprintf("%064b", w)]: the 64 bits of [w], the highest first. *)
Definition Sprintf_064b (w : Z) : string :=
  string_of_list_ascii
    (map (fun i => if Z.testbit w i then "1"%char else "0"%char) (reverse (seqZ 0 64))).

Definition TestFilter_Add : bool :=
  let element := list_byte_of_string "test" in
  let bf := mkFilter 0 48 4 0 (make 0 1) in
  match Add bf element with
  | Done (bf, None) =>
      match index (bitstore bf) 0 with
      | Some w =>
          bool_decide
            (Sprintf_064b w
             = "0000000000000000000000000011000100000000000000000000000010000000"%string)
      | None => false
      end
  | _ => false
  end.

Definition TestFilter_Has_tt : list (list byte * bool) :=
  [ (list_byte_of_string "test", true);
    (list_byte_of_string "test1", false);
    ([], false) ].

Definition TestFilter_Has : bool :=
  let bf := mkFilter 0 48 4 0 [210453397632] in
  forallb (fun '(element, want) =>
             match Has bf element with
             | Done (got, None) => bool_decide (got = want)
             | _ => false
             end)
          TestFilter_Has_tt.

(** ** [examples_test.go] *)

(** What an example does: it prints, or [log.Fatalf] ends it. *)
Inductive output : Type :=
  | Printed (text : string)
  | Fatal (msg : string) (err : error).

Section examples.
Context {C : Conversions} {D : Digest}.

Definition Example : result output :=
  let maxEmails := 100 in
  let prob := 0.01%float in
  match New maxEmails prob with
  | (_, Some err) => Done (Fatal "Bloom filter is not created: " err)
  | (None, None) => Panicked panic_nil
  | (Some bf, None) =>
      let bob := list_byte_of_string "bob@example.com" in
      '(bf, err) ← Add bf bob;
      match err with
      | Some err => Done (Fatal "Bloom filter couldn't add element: " err)
      | None =>
          '(isIn, err) ← Has bf bob;
          match err with
          | Some err => Done (Fatal "Bloom filter couldn't test element: " err)
          | None =>
              if isIn : bool then Done (Printed "Bob's email is likely in the set.")
              else Done (Printed "Bob's email is not found.")
          end
      end
  end.

Definition Example_optimistic : result output :=
  let maxEmails := 100 in
  let prob := 0.01%float in
  match New maxEmails prob with
  | (_, Some err) => Done (Fatal "Bloom filter is not created: " err)
  | (None, None) => Panicked panic_nil
  | (Some bf, None) =>
      let email := list_byte_of_string "alice@example.com" in
      bf ← MustAdd bf email;
      isIn ← MustHave bf email;
      if isIn : bool then Done (Printed "Alice's email possibly is in the set.")
      else Done (Printed "Alice's email definitely is not in the set.")
  end.

(** The lines [ExampleNew_error] prints. *)
Definition ExampleNew_error : list string :=
  let err := (New 0 0.01).2 in
  let out1 :=
    if decide (err = Some (error_Error ErrZeroElements))
    then [Error_Error ErrZeroElements] else [] in
  let err := (New 1000000 0).2 in
  let out2 :=
    if decide (err = Some (error_Error ErrProbability))
    then [Error_Error ErrProbability] else [] in
  out1 ++ out2.

(** ** [fuzz.go] *)

Definition Fuzz (data : list byte) : result Z :=
  match New 4294967295 0.0001 with
  | (Some bf, _) =>
      '(_, err) ← Add bf data;
      match err with
      | Some _ => Done 0
      | None => Done 1
      end
  | (None, _) => Panicked panic_nil
  end.

(** ** [bench_test.go] *)

(** The loop of a benchmark: [N] calls, their errors ignored. *)
Fixpoint Add_times (N : nat) (bf : Filter) (element : list byte) : result Filter :=
  match N with
  | O => Done bf
  | S N => '(bf, _) ← Add bf element; Add_times N bf element
  end.

Fixpoint Has_times (N : nat) (bf : Filter) (element : list byte) : result Filter :=
  match N with
  | O => Done bf
  | S N => Has bf element ≫= (fun _ => Has_times N bf element)
  end.

(** One case of a benchmark: [None] is [b.Fatal]. *)
Definition Benchmark (loop : nat -> Filter -> list byte -> result Filter)
    (n : Z) (prob : float) (N : nat) (element : list byte) : result (option Filter) :=
  match New n prob with
  | (_, Some err) => Done None
  | (None, None) => Panicked panic_nil
  | (Some bf, None) => Some <$> loop N bf element
  end.

Definition Benchmark_tt : list (string * Z * float) :=
  [ ("1.198MB"%string, 1000000, 0.01%float); ("2.573GB"%string, 2147483647, 0.01%float) ].

(** The element of the benchmarks, a greeting of eighteen bytes in
    UTF-8. *)
Definition greeting : list byte :=
  Z_byte <$> [72; 101; 108; 108; 111; 44; 32; 228; 184; 150; 231; 149; 140; 32;
              240; 159; 164; 170].

Definition BenchmarkFilter_Add (N : nat) : list (result (option Filter)) :=
  map (fun '(_, n, prob) => Benchmark Add_times n prob N greeting) Benchmark_tt.

Definition BenchmarkFilter_Has (N : nat) : list (result (option Filter)) :=
  map (fun '(_, n, prob) => Benchmark Has_times n prob N greeting) Benchmark_tt.

End examples.

(** ** The tests pass *)

(** [conj_cases] splits a conjunction of boolean checks into its
    cases. *)
Ltac conj_cases :=
  repeat lazymatch goal with
         | |- (_ && _) = true => apply andb_true_intro; split
         | |- true = true => reflexivity
         end.

Section sizing_pass.
Context {C : Conversions}.

(** [TestOptimalBitLen] passes, whatever the implementation does
    with conversions out of range. *)
Theorem TestOptimalBitLen_passes : TestOptimalBitLen = true.
Proof.
  unfold TestOptimalBitLen, TestOptimalBitLen_tt. cbn [forallb].
  conj_cases; apply Z.eqb_eq; sizing.
Qed.

(** [TestOptimalHashQty] passes, whatever the implementation does
    with conversions out of range. *)
Theorem TestOptimalHashQty_passes : TestOptimalHashQty = true.
Proof.
  unfold TestOptimalHashQty, TestOptimalHashQty_tt. cbn [forallb].
  conj_cases; apply Z.eqb_eq; sizing.
Qed.

(** [TestNew_error] passes: zero elements, a zero probability and a
    negative one are refused with the errors the test wants. *)
Theorem TestNew_error_passes : TestNew_error = true.
Proof. reflexivity. Qed.

(** A case of [TestNew] passes when the sizes are the wanted ones and
    the wanted store has the buckets of the wanted bit length. *)
Lemma TestNew_case_ok n prob bitlen hashqty buckets :
  n <> 0 -> (prob <=? 0)%float = false -> (prob =? prob)%float = true ->
  optimalBitLen n prob = bitlen -> optimalHashQty prob = hashqty ->
  is_uint 64 bitlen -> 0 <= buckets -> buckets_for bitlen = buckets ->
  TestNew_case (n, prob, mkFilter prob bitlen hashqty n (make 0 buckets)) = true.
Proof.
  intros Hn Hp Heq Hb Hq Hu Hpos Hbuckets. unfold TestNew_case.
  rewrite (New_value n prob bitlen hashqty) by done.
  cbn [Filter.n Filter.prob Filter.bitlen Filter.hashqty Filter.bitstore].
  rewrite !len_make, Hbuckets, !Z.eqb_refl, Heq by lia. done.
Qed.

(** [TestNew] passes: for each of its five cases, up to the largest
    number of elements, [New] returns the wanted parameters and a store
    of the wanted number of buckets. *)
Theorem TestNew_passes : TestNew = true.
Proof.
  unfold TestNew, TestNew_tt. cbn [forallb]. conj_cases;
    (apply TestNew_case_ok;
     [lia | reflexivity | reflexivity | sizing | sizing
     | unfold is_uint; lia | lia | reflexivity]).
Qed.

End sizing_pass.

(** [TestHash] passes: the positions of its six inputs under
    SHA-256 are the ones the test wants. *)
Theorem TestHash_passes : TestHash = true.
Proof. by vm_compute. Qed.

(** [equal] decides the equality of two slices. *)
Lemma equal_loop_eq s1 s2 : length s1 = length s2 -> equal_loop s1 s2 = true <-> s1 = s2.
Proof.
  revert s2. induction s1 as [|x s1 IH]; intros [|y s2] Hlen; try done.
  cbn. destruct (Z.eqb_spec x y) as [->|Hne]; cbn.
  - rewrite IH by (cbn in Hlen; lia). naive_solver.
  - naive_solver.
Qed.

(** The helper [equal] of the tests is equality of slices, so that
    [TestBitpositions] compares what it means to. *)
Theorem equal_spec s1 s2 : equal s1 s2 = true <-> s1 = s2.
Proof.
  unfold equal, len. destruct (Z.eqb_spec (Z.of_nat (length s1)) (Z.of_nat (length s2)))
    as [Hlen|Hlen]; cbn.
  - apply equal_loop_eq. lia.
  - split; [done|]. intros ->. done.
Qed.

(** [TestBitpositions] passes: ["test"] with four hash functions and
    48 bits has the positions 7, 36, 32 and 37. *)
Theorem TestBitpositions_passes : TestBitpositions = true.
Proof. by vm_compute. Qed.

(** [TestBitlocation] passes on its ten cases, the defaulted width
    among them. *)
Theorem TestBitlocation_passes : TestBitlocation = true.
Proof. by vm_compute. Qed.

(** [TestFilter_Add] passes: after [Add] of ["test"] the bucket
    prints as the 64 binary digits the test wants. *)
Theorem TestFilter_Add_passes : TestFilter_Add = true.
Proof. by vm_compute. Qed.

(** [TestFilter_Has] passes: ["test"] is found, ["test1"] and the
    empty element are not. *)
Theorem TestFilter_Has_passes : TestFilter_Has = true.
Proof. by vm_compute. Qed.

(** ** The examples, the fuzz target and the benchmarks *)

Section programs.
Context {C : Conversions} {D : Digest} {L : DigestLaws D}.

(** The filter [New] returns for sizes that are known, and its
    invariant. *)
Lemma New_sized n prob bitlen hashqty :
  n <> 0 -> (prob <=? 0)%float = false ->
  optimalBitLen n prob = bitlen -> optimalHashQty prob = hashqty ->
  is_uint 32 n -> 0 < bitlen ->
  New n prob = (Some (mkFilter prob bitlen hashqty n (make 0 (buckets_for bitlen))), None) /\
  wf (mkFilter prob bitlen hashqty n (make 0 (buckets_for bitlen))).
Proof.
  intros Hn Hp Hb Hq Hn32 Hpos. split; [by apply New_value|].
  apply wf_fresh; [subst; auto with bloom..|lia].
Qed.

Tactic Notation "new_sized" constr(n) constr(prob) constr(bitlen) constr(hashqty)
    "as" ident(H) :=
  destruct (New_sized n prob bitlen hashqty) as [-> H];
  [lia | reflexivity | sizing | sizing | unfold is_uint; lia | lia |].

(** [Example] prints that Bob's email is likely in the set: no call
    fails, and [Has] finds what [Add] has added. *)
Theorem Example_output : Example = Done (Printed "Bob's email is likely in the set.").
Proof.
  unfold Example. cbv zeta. new_sized 100 0.01%float 959 7 as Hwf.
  by rewrite Add_eq, bind_Done, Has_added.
Qed.

(** [Example_optimistic] prints that Alice's email possibly is in
    the set, without panic. *)
Theorem Example_optimistic_output :
  Example_optimistic = Done (Printed "Alice's email possibly is in the set.").
Proof.
  unfold Example_optimistic. cbv zeta. new_sized 100 0.01%float 959 7 as Hwf.
  unfold MustAdd. rewrite Add_eq, !bind_Done by done.
  unfold MustHave. by rewrite Has_added.
Qed.

(** The fuzz target answers 1 on every input: [New] builds the
    filter for the largest number of elements at [0.0001], and [Add]
    neither panics nor returns an error, whatever the bytes. *)
Theorem Fuzz_returns_1 data : Fuzz data = Done 1.
Proof.
  unfold Fuzz. new_sized 4294967295 0.0001%float 82335024503 14 as Hwf.
  by rewrite (Add_eq _ data Hwf).
Qed.

(** The loops of the benchmarks on a well-formed filter. *)
Lemma Add_times_added N bf element :
  wf bf ->
  Add_times (S N) bf element
  = Done (with_bitstore bf (set_bits (bitstore bf) (filter_positions bf element))).
Proof.
  intros Hwf. cbn [Add_times]. rewrite Add_eq, bind_Done by done.
  induction N as [|N IH]; [done|].
  cbn [Add_times]. by rewrite Add_added, bind_Done.
Qed.

Lemma Has_times_same N bf element : wf bf -> Has_times N bf element = Done bf.
Proof.
  intros Hwf. induction N as [|N IH]; [done|].
  cbn [Has_times]. by rewrite Has_eq, bind_Done.
Qed.

(** A case of a benchmark, for sizes that are known. *)
Lemma Benchmark_Add_sized n prob bitlen hashqty N element :
  n <> 0 -> (prob <=? 0)%float = false ->
  optimalBitLen n prob = bitlen -> optimalHashQty prob = hashqty ->
  is_uint 32 n -> 0 < bitlen ->
  let bf := mkFilter prob bitlen hashqty n (make 0 (buckets_for bitlen)) in
  Benchmark Add_times n prob (S N) element
  = Done (Some (with_bitstore bf (set_bits (bitstore bf) (filter_positions bf element)))).
Proof.
  intros Hn Hp Hb Hq Hn32 Hpos bf. unfold Benchmark.
  destruct (New_sized n prob bitlen hashqty) as [-> Hwf]; [done..|].
  by rewrite Add_times_added.
Qed.

Lemma Benchmark_Has_sized n prob bitlen hashqty N element :
  n <> 0 -> (prob <=? 0)%float = false ->
  optimalBitLen n prob = bitlen -> optimalHashQty prob = hashqty ->
  is_uint 32 n -> 0 < bitlen ->
  Benchmark Has_times n prob N element
  = Done (Some (mkFilter prob bitlen hashqty n (make 0 (buckets_for bitlen)))).
Proof.
  intros Hn Hp Hb Hq Hn32 Hpos. unfold Benchmark.
  destruct (New_sized n prob bitlen hashqty) as [-> Hwf]; [done..|].
  by rewrite Has_times_same.
Qed.

Ltac sized :=
  lazymatch goal with
  | |- optimalBitLen _ _ = _ => sizing
  | |- optimalHashQty _ = _ => sizing
  | |- is_uint _ _ => unfold is_uint; lia
  | |- _ = false => reflexivity
  | |- _ => lia
  end.

(** The benchmark of [Add] runs for every number of iterations:
    neither case fails, and as many calls as one likes leave the
    filters one call leaves. *)
Theorem BenchmarkFilter_Add_runs N :
  BenchmarkFilter_Add (S N) = BenchmarkFilter_Add 1 /\
  Forall (fun r => exists bf, r = Done (Some bf)) (BenchmarkFilter_Add 1).
Proof.
  unfold BenchmarkFilter_Add, Benchmark_tt. cbn [map].
  rewrite !(Benchmark_Add_sized 1000000 0.01%float 9585059 7) by sized.
  rewrite !(Benchmark_Add_sized 2147483647 0.01%float 20583756121 7) by sized.
  split; [reflexivity|]. repeat constructor; eexists; reflexivity.
Qed.

(** The benchmark of [Has] runs for every number of iterations and
    leaves the filters as [New] made them. *)
Theorem BenchmarkFilter_Has_runs N :
  BenchmarkFilter_Has N
  = [ Done (Some (mkFilter 0.01 9585059 7 1000000 (make 0 (buckets_for 9585059))));
      Done (Some (mkFilter 0.01 20583756121 7 2147483647 (make 0 (buckets_for 20583756121)))) ].
Proof.
  unfold BenchmarkFilter_Has, Benchmark_tt. cbn [map].
  rewrite (Benchmark_Has_sized 1000000 0.01%float 9585059 7) by sized.
  rewrite (Benchmark_Has_sized 2147483647 0.01%float 20583756121 7) by sized.
  reflexivity.
Qed.

End programs.

(** [ExampleNew_error] prints the two messages of the package, in
    order. *)
Theorem ExampleNew_error_output `{C : Conversions} :
  ExampleNew_error
  = ["number of elements must be positive"; "probability must be positive"]%string.
Proof. reflexivity. Qed.

(** The README writes the positions of ["test"] as the hashes of the
    texts ["test0"] to ["test3"].  The code appends the byte [i], not
    the digit: position 0 of ["test"] is 7, and the hash of the text
    ["test0"] is 8. *)
Theorem readme_positions :
  bitpositions (list_byte_of_string "test") 4 48 = Done ([7; 36; 32; 37], None) /\
  hash (list_byte_of_string "test0") 48 = Done (8, None).
Proof. by vm_compute. Qed.

Lemma Fuzz_returns_1_witness : @Fuzz wrapping sha256_digest test_element = Done 1.
Proof. apply (@Fuzz_returns_1 wrapping sha256_digest sha256_laws test_element). Defined.
