(* ===== verification/Readme.v ===== *)
(** * The README

    [README.md] shows a program, a picture of the bit array after
    ["test"] is added, a table of the four hashes of ["test"], the
    sizing formulas with a worked example, and the report of a run of
    the benchmarks.  Each is a definition here, taken from the text,
    and each is compared with what the code of the package computes.

    The program is [Example_optimistic] of the examples and prints its
    first line.  The formulas are those of [optimalBitLen] and
    [optimalHashQty] before they are rounded up, and the storage the
    example states is what [optimalBitLen] returns.  The picture and the
    table differ from the code: the picture marks every bit one place
    below the position the code sets, and the table writes the byte
    appended to the element as a digit and leaves out the reduction
    modulo the bit length.  Of the report, the names of the cases and
    the number of iterations are modelled; the times and the
    allocations it measured are not. *)

From Stdlib Require Import Strings.Byte String Ascii Floats.
From stdpp Require Import base tactics list numbers.
From S2P Require Import Prelude Errors BitAddr Sha256 Hex Hash Filter Planner Alloc Abstract.
From S2P Require Import Session Tests.
Set Warnings "-clear-no-such-hyp,-inexact-float".

(** ** Usage example *)

Section usage.
Context {C : Conversions} {D : Digest}.

(** [func main()] of the README. *)
Definition main : result output :=
  let maxEmails := 100 in
  let prob := 0.01%float in
  match New maxEmails prob with
  | (_, Some err) => Done (Fatal "Bloom filter is not created: " err)
  | (None, None) => Panicked panic_nil
  | (Some bf, None) =>
      let email := list_byte_of_string "alice@example.com" in
      bf ← MustAdd bf email;
      isIn ← MustHave bf email;
      if isIn : bool then Done (Printed "Alice's email possibly is in the set.")
      else Done (Printed "Alice's email definitely is not in the set.")
  end.

End usage.

(** The largest number of elements the README gives for a filter. *)
Definition max_set_size : Z := 4294967295.

(** ** Algorithm *)

(** The offsets the README gives for ["test"]. *)
Definition test_offsets : list Z := [7; 36; 32; 37].

(** The two rows of the picture of the bit array: the bits, and the
    numbers written under them. *)
Definition diagram_bits : list Z :=
  [1; 1; 0; 0; 0; 1; 0; 0; 0; 0; 0; 0; 0; 0; 0; 0; 0; 0; 0; 0; 0; 0; 0; 0; 0; 0; 0;
   0; 0; 0; 1; 0; 0; 0; 0; 0; 0].

Definition diagram_labels : list Z :=
  [36; 35; 34; 33; 32; 31; 30; 29; 28; 27; 26; 25; 24; 23; 22; 21; 20; 19; 18; 17;
   16; 15; 14; 13; 12; 11; 10; 9; 8; 7; 6; 5; 4; 3; 2; 1; 0].

(** The positions the picture marks: the numbers under a 1. *)
Definition diagram_marks : list Z :=
  snd <$> filter (fun col => col.1 = 1) (zip diagram_bits diagram_labels).

(** The table of the four hash functions: the text hashed and the
    number the README gives for it. *)
Definition hex2dec_table : list (string * Z) :=
  [ ("test0", 7); ("test1", 36); ("test2", 32); ("test3", 37) ]%string.

(** ** Sizing *)

Section sizing.
Local Open Scope float_scope.

Definition max_elements : Z := 1000000.
Definition desired_prob : float := 0.01.

(** [hash_qty = -ln(desired_prob) / ln(2)] *)
Definition hash_qty (desired_prob : float) : float :=
  - Math.Log desired_prob / Math.Log 2.

(** [bit_array_len = -max_elements * ln(desired_prob) / (ln(2) * ln(2))] *)
Definition bit_array_len (max_elements : Z) (desired_prob : float) : float :=
  - float_of_Z max_elements * Math.Log desired_prob / (Math.Log 2 * Math.Log 2).

End sizing.

(** The storage the README states for the example, in bits and in
    thousandths of a megabyte. *)
Definition storage_bits : Z := 9585059.
Definition storage_kilobytes : Z := 1198.

(** ** Benchmarks *)

(** The report of the benchmarks: the function, the case and the number
    of iterations of each line. *)
Definition report : list (string * string * Z) :=
  [ ("BenchmarkFilter_Add", "1.198MB", 300000);
    ("BenchmarkFilter_Add", "2.573GB", 300000);
    ("BenchmarkFilter_Has", "1.198MB", 300000);
    ("BenchmarkFilter_Has", "2.573GB", 300000) ]%string.

(** The size a case of the benchmarks is named after: the bytes of
    [bits], rounded to the nearest multiple of [unit]. *)
Definition rounded_size (bits unit : Z) : Z := (bits / 8 + unit / 2) / unit.

(** ** The program *)

Section program.
Context {C : Conversions} {D : Digest} {L : DigestLaws D}.

(** The program of the README is the example [Example_optimistic]. *)
Lemma main_Example_optimistic : main = Example_optimistic.
Proof. unfold main, Example_optimistic. reflexivity. Qed.

(** The program of the README runs without panic and prints that
    Alice's email possibly is in the set, for every lawful digest and
    every implementation of the conversions. *)
Theorem main_output : main = Done (Printed "Alice's email possibly is in the set.").
Proof. rewrite main_Example_optimistic. apply Example_optimistic_output. Qed.

(** The program is a session of two calls: with the allocation of the
    runtime [New] returns its filter, the add gets its reply and the
    query is answered [true]. *)
Theorem main_session :
  session maxAlloc 100 0.01
    [CallAdd (list_byte_of_string "alice@example.com");
     CallHas (list_byte_of_string "alice@example.com")]
  = Done (Replies [RetAdd; RetHas true]).
Proof. apply session_add_has. by vm_compute. Qed.

End program.

(** The README's limit is the largest [uint32], the type of the
    parameter [n] of [New]. *)
Lemma max_set_size_uint32 n : is_uint 32 n <-> 0 <= n <= max_set_size.
Proof. unfold is_uint, max_set_size. lia. Qed.

(** ** The picture and the table *)

(** The offsets of the text are those [bitpositions] computes for four
    hash functions on 48 bits, the sizes of the repository's test. *)
Lemma test_offsets_bitpositions :
  bitpositions test_element 4 48 = Done (test_offsets, None).
Proof. by vm_compute. Qed.

Lemma diagram_marks_eq : diagram_marks = [36; 35; 31; 6].
Proof. by vm_compute. Qed.

(** The picture of the README is shifted by one place.  Its two rows
    have 37 columns numbered from 36 down to 0, and the bits it marks
    are 36, 35, 31 and 6, each one below a position of ["test"]; the
    code sets the bits 37, 36, 32 and 7, and leaves 35, 31 and 6
    clear. *)
Theorem diagram_shifted :
  length diagram_bits = length diagram_labels /\
  diagram_labels = reverse (seqZ 0 37) /\
  Z.succ <$> diagram_marks = [37; 36; 32; 7] /\
  (forall p, p ∈ Z.succ <$> diagram_marks <-> p ∈ test_offsets) /\
  Add test_filter test_element = Done (added_filter, None) /\
  bit (bitstore added_filter) <$> test_offsets = [true; true; true; true] /\
  bit (bitstore added_filter) <$> diagram_marks = [true; false; false; false].
Proof.
  rewrite diagram_marks_eq. split_and!; try by vm_compute.
  intros p. unfold test_offsets. cbn [fmap list_fmap].
  rewrite !elem_of_cons, !elem_of_nil. tauto.
Qed.

(** The table of the README is not what [hash] computes.  Its numbers
    are the positions of ["test"], which the code derives from the
    element followed by the byte [i] and reduces modulo the bit length;
    the hashes of the texts of the table, with the digit [i], are other
    numbers, and without the reduction none is below [2^60]. *)
Theorem hex2dec_table_bytes :
  hex2dec_table.*2 = test_offsets /\
  (fun i => hash (buffer test_element i) 48) <$> [0; 1; 2; 3]
  = (fun row => Done (row.2, None)) <$> hex2dec_table /\
  (fun row => hash (list_byte_of_string row.1) 48) <$> hex2dec_table
  = (fun p => Done (p, None)) <$> [8; 24; 17; 23] /\
  Forall (fun i => 2 ^ 60 <= be_value (take 8 (digest_sum (buffer test_element i))))
    [0; 1; 2; 3].
Proof. split_and!; [by vm_compute..|]. apply (bool_decide_unpack _). by vm_compute. Qed.

(** ** The sizing *)

Section sizing_example.
Context {C : Conversions}.

(** The formulas of the README are those of the code before they
    are rounded up and converted. *)
Lemma optimalBitLen_formula n prob :
  optimalBitLen n prob = uint64_of_float (Math.Ceil (bit_array_len n prob)).
Proof. reflexivity. Qed.

Lemma optimalHashQty_formula prob :
  optimalHashQty prob = byte_of_float (Math.Ceil (hash_qty prob)).
Proof. reflexivity. Qed.

(** The worked example of the README: a million elements at an error
    rate of 0.01 get the 9,585,059 bits it states, which is 1.198 MB to
    the nearest kilobyte, and seven hash functions; the formulas give
    9585058.38 and 6.64 before they are rounded up. *)
Theorem sizing_example :
  optimalBitLen max_elements desired_prob = storage_bits /\
  optimalHashQty desired_prob = 7 /\
  rounded_size storage_bits 1000 = storage_kilobytes /\
  trunc (bit_array_len max_elements desired_prob) = Some (storage_bits - 1) /\
  trunc (hash_qty desired_prob) = Some 6.
Proof.
  unfold max_elements, desired_prob, storage_bits, storage_kilobytes.
  split_and!; [sizing|sizing|by vm_compute..].
Qed.

(** ** The report of the benchmarks *)

(** The cases of the report are those of the two benchmarks, in their
    order, and each is named after the size of its bit array: 1.198
    megabytes and 2.573 gigabytes. *)
Lemma report_cases :
  report.*1.*2 = Benchmark_tt.*1.*1 ++ Benchmark_tt.*1.*1 /\
  rounded_size (optimalBitLen 1000000 0.01) 1000 = 1198 /\
  rounded_size (optimalBitLen 2147483647 0.01) 1000000 = 2573.
Proof.
  split; [reflexivity|].
  replace (optimalBitLen 1000000 0.01) with 9585059 by (symmetry; sizing).
  replace (optimalBitLen 2147483647 0.01) with 20583756121 by (symmetry; sizing).
  by vm_compute.
Qed.

End sizing_example.

Section report_runs.
Context {C : Conversions} {D : Digest} {L : DigestLaws D}.

(** The run the README reports is possible: with the 300000
    iterations of each of its lines both benchmarks run every case to
    the end, without panic and without [b.Fatal]. *)
Theorem report_runs :
  Forall (fun line => line.2 = 300000) report /\
  Forall (fun r => exists bf, r = Done (Some bf))
    (BenchmarkFilter_Add (Z.to_nat 300000) ++ BenchmarkFilter_Has (Z.to_nat 300000)).
Proof.
  split; [by repeat constructor|].
  replace (Z.to_nat 300000) with (S (Z.to_nat 299999)) by lia.
  destruct (BenchmarkFilter_Add_runs (Z.to_nat 299999)) as [-> Hadd].
  rewrite BenchmarkFilter_Has_runs. apply Forall_app. split; [done|].
  repeat constructor; eexists; reflexivity.
Qed.

End report_runs.
