(* ===== verification/Heap.v ===== *)
(** * Memory

    Go's slices as the runtime has them: a slice is a header (an array,
    an offset into it, a length and a capacity), the arrays live in a
    memory, and two headers over one array see each other's writes.
    [make] allocates a new array, an index expression checks the index
    against the length of the header, an assignment to an element
    changes the array in place, [copy] moves the elements of one slice
    into the array of another.

    The memory of a program of this package holds arrays of bytes (the
    elements the caller passes, the buffer of [bitpositions]) and arrays
    of [uint64] (the bit stores, the positions).  An operation on it is
    a function from the memory to a panic or a value and the memory
    afterwards ([mem_m], with the bind of stdpp's notation).

    The lemmas say what each operation does to the elements a slice
    shows ([elems]) and that it leaves the other arrays as they were. *)

From Stdlib Require Import Strings.Byte.
From stdpp Require Import base tactics list numbers.
From S2P Require Import Prelude Errors.
Set Warnings "-clear-no-such-hyp".

(** The header of a slice: the array it points into (by the order of
    allocation), the offset of its first element, [len] and [cap]. *)
Record slice : Type := mkSlice {
  arr : nat;
  off : Z;
  len : Z;
  cap : Z
}.

#[global] Instance slice_eq_dec : EqDecision slice.
Proof. solve_decision. Defined.

(** ** Arrays of one type *)

Section arrays.
Context {A : Type}.
Implicit Types (m : list (list A)) (s t : slice) (a : list A).

(** A header that points into an array of the memory. *)
Definition valid m s : Prop :=
  match m !! arr s with
  | Some a => 0 <= off s /\ 0 <= len s <= cap s /\ off s + cap s <= Z.of_nat (length a)
  | None => False
  end.

#[global] Instance valid_dec m s : Decision (valid m s).
Proof. unfold valid. destruct (m !! arr s); apply _. Defined.

(** The elements a slice shows. *)
Definition elems m s : list A :=
  match m !! arr s with
  | Some a => take (Z.to_nat (len s)) (drop (Z.to_nat (off s)) a)
  | None => []
  end.

(** The cell of the memory behind [s[i]]. *)
Definition cell m s (i : Z) : option A :=
  m !! arr s ≫= fun a => a !! Z.to_nat (off s + i).

(** A new array, and the slice over the whole of it. *)
Definition new_array a m : slice * list (list A) :=
  (mkSlice (length m) 0 (Z.of_nat (length a)) (Z.of_nat (length a)), m ++ [a]).

(** The index expression [s[i]]: the check against [len(s)], then the
    read.  A header that points nowhere does not arise in Go; it is
    the nil-pointer panic here. *)
Definition get s (i : Z) m : result A :=
  if decide (0 <= i < len s) then
    match cell m s i with
    | Some x => Done x
    | None => Panicked panic_nil
    end
  else Panicked (panic_index i (len s)).

(** The assignment [s[i] = x], in place. *)
Definition set s (i : Z) (x : A) m : result (list (list A)) :=
  if decide (0 <= i < len s) then
    match cell m s i with
    | Some _ => Done (alter (fun a => <[Z.to_nat (off s + i) := x]> a) (arr s) m)
    | None => Panicked panic_nil
    end
  else Panicked (panic_index i (len s)).

(** [copy(dst, src)]: the first [min(len(dst), len(src))] elements of
    [src], read before any is written, placed from the start of [dst];
    the number of elements copied is returned. *)
Definition copy_into dst src m : Z * list (list A) :=
  let xs := take (Z.to_nat (len dst)) (elems m src) in
  (Z.of_nat (length xs),
   alter (fun a => take (Z.to_nat (off dst)) a ++ xs ++
                   drop (Z.to_nat (off dst) + length xs) a) (arr dst) m).

(** [m'] has the arrays of [m], those in [changed] apart, and perhaps
    new ones after them. *)
Definition extends (changed : list nat) m m' : Prop :=
  (length m <= length m')%nat /\
  forall i a, i ∉ changed -> m !! i = Some a -> m' !! i = Some a.

(** The slice over the whole of the array [a], the [i]-th of the
    memory: what [make] returns. *)
Definition whole (i : nat) a : slice :=
  mkSlice i 0 (Z.of_nat (length a)) (Z.of_nat (length a)).

(** [m'] is [m] after assignments to elements of its array [j]. *)
Definition writes (j : nat) m m' : Prop :=
  length m' = length m /\
  (forall i, i <> j -> m' !! i = m !! i) /\
  (forall a, m !! j = Some a -> exists a', m' !! j = Some a' /\ length a' = length a).

(** *** Validity and elements *)

Lemma valid_lookup m s :
  valid m s ->
  exists a, m !! arr s = Some a /\ 0 <= off s /\ 0 <= len s <= cap s /\
            off s + cap s <= Z.of_nat (length a).
Proof. unfold valid. destruct (m !! arr s) as [a|]; [by exists a|done]. Qed.

Lemma length_elems m s : valid m s -> Z.of_nat (length (elems m s)) = len s.
Proof.
  intros (a & Ha & ? & ? & ?)%valid_lookup. unfold elems. rewrite Ha.
  rewrite length_take, length_drop. lia.
Qed.

Lemma elems_lookup m s a (i : nat) :
  m !! arr s = Some a -> 0 <= off s ->
  elems m s !! i = if decide (Z.of_nat i < len s) then a !! Z.to_nat (off s + Z.of_nat i) else None.
Proof.
  intros Ha Ho. unfold elems. rewrite Ha. case_decide.
  - rewrite lookup_take_lt by lia. rewrite lookup_drop. f_equal. lia.
  - apply lookup_take_ge. lia.
Qed.

Lemma cell_elems m s (i : Z) :
  valid m s -> 0 <= i < len s -> cell m s i = elems m s !! Z.to_nat i.
Proof.
  intros (a & Ha & ? & ? & ?)%valid_lookup Hi.
  rewrite (elems_lookup m s a) by done. rewrite decide_True by lia.
  unfold cell. rewrite Ha. cbn. f_equal. lia.
Qed.

Lemma cell_is_Some m s (i : Z) :
  valid m s -> 0 <= i < len s -> is_Some (cell m s i).
Proof.
  intros Hv Hi. rewrite cell_elems by done. apply lookup_lt_is_Some.
  pose proof (length_elems m s Hv). lia.
Qed.

(** *** Extension *)

Lemma extends_refl m : extends [] m m.
Proof. by split. Qed.

Lemma extends_trans c1 c2 m1 m2 m3 :
  extends c1 m1 m2 -> extends c2 m2 m3 -> extends (c1 ++ c2) m1 m3.
Proof.
  intros [Hl1 H1] [Hl2 H2]. split; [lia|]. intros i a Hi Ha.
  apply H2, H1; try done; intros ?; apply Hi, elem_of_app; auto.
Qed.

Lemma extends_trans_same c m1 m2 m3 :
  extends c m1 m2 -> extends c m2 m3 -> extends c m1 m3.
Proof.
  intros [Hl1 H1] [Hl2 H2]. split; [lia|]. intros i a Hi Ha. by apply H2, H1.
Qed.

Lemma extends_weaken c c' m m' : c ⊆ c' -> extends c m m' -> extends c' m m'.
Proof. intros Hc [Hl H]. split; [done|]. intros i a Hi. apply H. intros ?. by apply Hi, Hc. Qed.

Lemma extends_app m l : extends [] m (m ++ l).
Proof.
  split; [rewrite length_app; lia|]. intros i b _ Hb. by apply lookup_app_l_Some.
Qed.

Lemma extends_alter f m j : extends [j] m (alter f j m).
Proof.
  split; [by rewrite length_alter|]. intros i a Hi Ha.
  rewrite list_lookup_alter_ne; [done|]. intros ->. apply Hi. by left.
Qed.

Lemma extends_valid c m m' s :
  extends c m m' -> arr s ∉ c -> valid m s -> valid m' s.
Proof.
  intros [_ H] Hs. unfold valid. destruct (m !! arr s) as [a|] eqn:Ha; [|done].
  by rewrite (H _ _ Hs Ha).
Qed.

Lemma extends_elems c m m' s :
  extends c m m' -> arr s ∉ c -> valid m s -> elems m' s = elems m s.
Proof.
  intros [_ H] Hs (a & Ha & _)%valid_lookup. unfold elems. by rewrite (H _ _ Hs Ha), Ha.
Qed.

Lemma valid_app m l s : valid m s -> valid (m ++ l) s.
Proof. apply (extends_valid []); [apply extends_app|apply not_elem_of_nil]. Qed.

Lemma elems_app m l s : valid m s -> elems (m ++ l) s = elems m s.
Proof. apply (extends_elems []); [apply extends_app|apply not_elem_of_nil]. Qed.

(** *** Allocation *)

Lemma new_array_valid a m : valid (new_array a m).2 (new_array a m).1.
Proof.
  unfold valid, new_array. cbn. rewrite lookup_app_r, Nat.sub_diag by done. cbn. lia.
Qed.

Lemma new_array_elems a m : elems (new_array a m).2 (new_array a m).1 = a.
Proof.
  unfold elems, new_array. cbn. rewrite lookup_app_r, Nat.sub_diag by done. cbn.
  rewrite Nat2Z.id. apply take_ge. done.
Qed.

Lemma valid_lt m s : valid m s -> (arr s < length m)%nat.
Proof. intros (a & Ha & _)%valid_lookup. by eapply lookup_lt_Some. Qed.

Lemma new_array_fresh a m s : valid m s -> arr s <> arr (new_array a m).1.
Proof. intros ?%valid_lt. cbn. lia. Qed.

(** *** Reading and writing *)

Lemma get_elems m s i : valid m s -> get s i m = read (elems m s) i.
Proof.
  intros Hv. unfold get, read, index. rewrite (length_elems m s Hv).
  case_decide as Hi.
  - rewrite decide_True by lia. rewrite cell_elems by done.
    destruct (cell_is_Some m s i Hv Hi) as [x Hx]. rewrite cell_elems in Hx by done.
    by rewrite Hx.
  - case_decide; [|done]. rewrite lookup_ge_None_2; [done|].
    pose proof (length_elems m s Hv). lia.
Qed.

Lemma set_outside m s i x :
  ~ 0 <= i < len s -> set s i x m = Panicked (panic_index i (len s)).
Proof. intros. unfold set. by rewrite decide_False. Qed.

Lemma set_inside m s i x :
  valid m s -> 0 <= i < len s ->
  set s i x m = Done (alter (fun a => <[Z.to_nat (off s + i) := x]> a) (arr s) m).
Proof.
  intros Hv Hi. unfold set. rewrite decide_True by done.
  by destruct (cell_is_Some m s i Hv Hi) as [y ->].
Qed.

Lemma alter_valid f m s t :
  (forall a, length (f a) = length a) -> valid m t -> valid (alter f (arr s) m) t.
Proof.
  intros Hf. unfold valid. destruct (decide (arr t = arr s)) as [E|E].
  - rewrite E, list_lookup_alter_eq. destruct (m !! arr s) as [a|]; simpl; [by rewrite Hf|done].
  - by rewrite list_lookup_alter_ne.
Qed.

Lemma alter_insert_elems m s i x :
  valid m s -> 0 <= i < len s ->
  elems (alter (fun a => <[Z.to_nat (off s + i) := x]> a) (arr s) m) s
  = store (elems m s) i x.
Proof.
  intros (a & Ha & ? & ? & ?)%valid_lookup Hi. unfold elems, store.
  rewrite list_lookup_alter_eq, Ha. cbn.
  rewrite drop_insert_ge by lia. rewrite take_insert_lt by lia. f_equal. lia.
Qed.

(** *** Copying *)

Lemma copy_into_elems m dst src :
  valid m dst -> elems (copy_into dst src m).2 dst = copy (elems m dst) (elems m src).
Proof.
  intros Hv. pose proof (length_elems m dst Hv) as Hl.
  destruct (valid_lookup m dst Hv) as (a & Ha & ? & ? & ?).
  assert (length (elems m dst) = Z.to_nat (len dst)) as Hl' by lia.
  unfold copy_into, copy. cbn. rewrite Hl'.
  set (S := elems m src). set (xs := take (Z.to_nat (len dst)) S).
  assert (length xs = Nat.min (Z.to_nat (len dst)) (length S)) as Hxs by apply length_take.
  unfold elems. rewrite list_lookup_alter_eq, Ha. cbn.
  rewrite drop_app_length' by (rewrite length_take; lia).
  rewrite take_app_ge by lia. f_equal.
  destruct (decide (length S <= Z.to_nat (len dst))%nat).
  - rewrite <- drop_drop, take_drop_commute.
    replace (length xs) with (length S) by lia. do 2 f_equal. lia.
  - rewrite (drop_ge (take _ _)) by (rewrite length_take; lia).
    by replace (Z.to_nat (len dst) - length xs)%nat with 0%nat by lia.
Qed.

Lemma copy_into_valid m dst src t :
  valid m dst -> valid m t -> valid (copy_into dst src m).2 t.
Proof.
  intros (a & Ha & ? & ? & ?)%valid_lookup Ht. unfold copy_into, valid. cbn.
  destruct (decide (arr t = arr dst)) as [E|E]; [|by rewrite list_lookup_alter_ne].
  unfold valid in Ht. rewrite E in *. rewrite list_lookup_alter_eq. rewrite Ha in *. cbn.
  rewrite !length_app, length_take, length_drop, length_take. lia.
Qed.

Lemma copy_into_extends m dst src : extends [arr dst] m (copy_into dst src m).2.
Proof. apply extends_alter. Qed.

(** *** Slices over whole arrays *)

Lemma new_array_whole a m : new_array a m = (whole (length m) a, m ++ [a]).
Proof. done. Qed.

Lemma valid_whole m i a : m !! i = Some a -> valid m (whole i a).
Proof. intros Ha. unfold valid. cbn. rewrite Ha. lia. Qed.

Lemma elems_whole m i a : m !! i = Some a -> elems m (whole i a) = a.
Proof. intros Ha. unfold elems. cbn. rewrite Ha, Nat2Z.id. cbn. by apply take_ge. Qed.

Lemma whole_length i a a' : length a' = length a -> whole i a' = whole i a.
Proof. unfold whole. by intros ->. Qed.

Lemma alter_lookup f m i a : m !! i = Some a -> alter f i m = <[i := f a]> m.
Proof.
  intros Ha. apply list_eq. intros j. destruct (decide (i = j)) as [<-|Hj].
  - rewrite list_lookup_alter_eq, Ha, list_lookup_insert_eq; [done|].
    by eapply lookup_lt_Some.
  - by rewrite list_lookup_alter_ne, list_lookup_insert_ne.
Qed.

Lemma get_whole m i a j : m !! i = Some a -> get (whole i a) j m = read a j.
Proof.
  intros Ha. rewrite get_elems by by apply valid_whole. by rewrite elems_whole.
Qed.

Lemma set_whole m i a j x :
  m !! i = Some a -> 0 <= j < Z.of_nat (length a) ->
  set (whole i a) j x m = Done (<[i := store a j x]> m).
Proof.
  intros Ha Hj. rewrite set_inside by (done || by apply valid_whole).
  cbn. by rewrite (alter_lookup _ _ _ a).
Qed.

Lemma copy_into_whole m i a src :
  m !! i = Some a ->
  (copy_into (whole i a) src m).2 = <[i := copy a (elems m src)]> m.
Proof.
  intros Ha. unfold copy_into. cbn. rewrite (alter_lookup _ _ _ a) by done.
  f_equal. unfold copy. rewrite Nat2Z.id, take_0. cbn. f_equal.
  rewrite length_take.
  destruct (decide (length a <= length (elems m src))%nat).
  - rewrite Nat.min_l by done. by rewrite !drop_ge.
  - f_equal. lia.
Qed.

(** *** Assignments in place *)

Lemma writes_refl j m : writes j m m.
Proof. split_and!; [done..|]. intros a ?. by exists a. Qed.

Lemma writes_trans j m1 m2 m3 : writes j m1 m2 -> writes j m2 m3 -> writes j m1 m3.
Proof.
  intros (Hl1 & H1 & Hj1) (Hl2 & H2 & Hj2). split_and!; [congruence| |].
  - intros i Hi. by rewrite H2, H1.
  - intros a (a' & Ha' & ?)%Hj1. destruct (Hj2 _ Ha') as (a'' & ? & ?).
    exists a''. split; [done|congruence].
Qed.

Lemma writes_alter f j m :
  (forall a, length (f a) = length a) -> writes j m (alter f j m).
Proof.
  intros Hf. split_and!; [apply length_alter| |].
  - intros i Hi. by apply list_lookup_alter_ne.
  - intros a Ha. exists (f a). by rewrite list_lookup_alter_eq, Ha.
Qed.

Lemma writes_extends j m m' : writes j m m' -> extends [j] m m'.
Proof.
  intros (Hl & H & _). split; [lia|]. intros i a Hi Ha. rewrite H; [done|].
  intros ->. apply Hi. by left.
Qed.

Lemma writes_valid j m m' s : writes j m m' -> valid m s -> valid m' s.
Proof.
  intros (_ & H & Hj). unfold valid. destruct (decide (arr s = j)) as [<-|E].
  - destruct (m !! arr s) as [a|]; [|done]. by destruct (Hj a) as (a' & -> & ->).
  - by rewrite H.
Qed.

Lemma writes_elems j m m' s : writes j m m' -> arr s <> j -> elems m' s = elems m s.
Proof. intros (_ & H & _) E. unfold elems. by rewrite H. Qed.

Lemma set_writes m m' s i x : set s i x m = Done m' -> writes (arr s) m m'.
Proof.
  unfold set. case_decide; [|done]. destruct (cell m s i); [|done].
  intros [= <-]. apply writes_alter. intros ?. apply length_insert.
Qed.

(** Arrays allocated after [m] are none of [m]'s. *)
Lemma extends_fresh c m m' :
  extends c m m' -> Forall (fun j => length m <= j)%nat c -> extends [] m m'.
Proof.
  intros [Hl H] Hc. split; [done|]. intros i a _ Ha. apply H; [|done].
  intros Hi. pose proof (proj1 (list.Forall_forall _ _) Hc i Hi) as Hj.
  apply lookup_lt_Some in Ha. cbn beta in Hj. lia.
Qed.

(** *** The size of a memory *)

(** The elements of all the arrays: nothing is freed, so this is what
    was made. *)
Definition size_of m : Z := Z.of_nat (sum_list (length <$> m)).

Lemma size_of_app m l : size_of (m ++ l) = size_of m + size_of l.
Proof. unfold size_of. rewrite fmap_app, sum_list_with_app. lia. Qed.

Lemma size_of_singleton a : size_of [a] = Z.of_nat (length a).
Proof. unfold size_of. cbn. lia. Qed.

(** Assignments in place allocate nothing. *)
Lemma writes_size_of j m m' : writes j m m' -> size_of m' = size_of m.
Proof.
  intros (Hl & H & Hj). unfold size_of. do 2 f_equal. apply list_eq. intros i.
  rewrite !list_lookup_fmap. destruct (decide (i = j)) as [->|Hne]; [|by rewrite H].
  destruct (m !! j) as [a|] eqn:Ha.
  - destruct (Hj a eq_refl) as (a' & -> & Ha'). cbn. by rewrite Ha'.
  - rewrite (proj2 (lookup_ge_None m' j)); [done|].
    apply lookup_ge_None in Ha. lia.
Qed.

End arrays.

(** ** The memory of a program *)

Record heap : Type := mkHeap {
  bytes : list (list byte);   (* the arrays behind the values of []byte *)
  words : list (list Z)       (* the arrays behind the values of []uint64 *)
}.

(** A computation on the memory: a panic, or a value and the memory
    after it. *)
Definition mem_m (X : Type) : Type := heap -> result (X * heap).

#[global] Instance mem_ret : MRet mem_m := fun X x h => Done (x, h).
#[global] Instance mem_bind : MBind mem_m := fun X Y f m h =>
  match m h with Done (x, h') => f x h' | Panicked p => Panicked p end.

(** A computation that does not touch the memory. *)
Definition lift {X} (r : result X) : mem_m X := fun h =>
  match r with Done x => Done (x, h) | Panicked p => Panicked p end.

(** [make([]byte, n)] and [make([]uint64, n)]. *)
Definition make_bytes (n : Z) : mem_m slice := fun h =>
  let '(s, bs) := new_array (make Byte.x00 n) (bytes h) in Done (s, mkHeap bs (words h)).

Definition make_words (n : Z) : mem_m slice := fun h =>
  let '(s, ws) := new_array (make 0 n) (words h) in Done (s, mkHeap (bytes h) ws).

(** [s[i] = x] on a slice of bytes; [s[i]] and [s[i] = x] on a slice of
    words. *)
Definition set_byte (s : slice) (i : Z) (x : byte) : mem_m unit := fun h =>
  match set s i x (bytes h) with
  | Done bs => Done (tt, mkHeap bs (words h))
  | Panicked p => Panicked p
  end.

Definition get_word (s : slice) (i : Z) : mem_m Z := fun h =>
  match get s i (words h) with Done x => Done (x, h) | Panicked p => Panicked p end.

Definition set_word (s : slice) (i : Z) (x : Z) : mem_m unit := fun h =>
  match set s i x (words h) with
  | Done ws => Done (tt, mkHeap (bytes h) ws)
  | Panicked p => Panicked p
  end.

(** [copy(dst, src)] on slices of bytes. *)
Definition copy_bytes (dst src : slice) : mem_m Z := fun h =>
  let '(k, bs) := copy_into dst src (bytes h) in Done (k, mkHeap bs (words h)).

(** [h'] is a memory after [h]: the arrays of bytes in [cb] and the
    arrays of words in [cw] may differ, new arrays may follow,
    everything else is as in [h]. *)
Definition heap_extends (cb cw : list nat) (h h' : heap) : Prop :=
  extends cb (bytes h) (bytes h') /\ extends cw (words h) (words h').

(** The bytes of the arrays of a memory: one for each byte, eight for
    each [uint64].  The memory holds the arrays the modelled code
    makes, not those of the libraries it calls. *)
Definition footprint (h : heap) : Z := size_of (bytes h) + 8 * size_of (words h).

(** ** Laws of the monad *)

Lemma mem_bind_unfold {X Y} (m : mem_m X) (f : X -> mem_m Y) h :
  (m ≫= f) h = match m h with Done (x, h') => f x h' | Panicked p => Panicked p end.
Proof. done. Qed.

Lemma mem_bind_Done {X Y} (m : mem_m X) (f : X -> mem_m Y) h x h' :
  m h = Done (x, h') -> (m ≫= f) h = f x h'.
Proof. intros E. by rewrite mem_bind_unfold, E. Qed.

Lemma mem_bind_Panicked {X Y} (m : mem_m X) (f : X -> mem_m Y) h p :
  m h = Panicked p -> (m ≫= f) h = Panicked p.
Proof. intros E. by rewrite mem_bind_unfold, E. Qed.

Lemma mem_ret_unfold {X} (x : X) h : mret (M := mem_m) x h = Done (x, h).
Proof. done. Qed.

Lemma heap_extends_refl h : heap_extends [] [] h h.
Proof. split; apply extends_refl. Qed.

Lemma heap_extends_trans cb cw h1 h2 h3 :
  heap_extends cb cw h1 h2 -> heap_extends cb cw h2 h3 -> heap_extends cb cw h1 h3.
Proof. intros [? ?] [? ?]. split; by eapply extends_trans_same. Qed.

(** What a call leaves alone: the slices over the arrays it does not
    assign to. *)
Lemma heap_extends_bytes cb cw h h' s :
  heap_extends cb cw h h' -> arr s ∉ cb -> valid (bytes h) s ->
  valid (bytes h') s /\ elems (bytes h') s = elems (bytes h) s.
Proof. intros [H _] ? ?. eauto using extends_valid, extends_elems. Qed.

Lemma heap_extends_words cb cw h h' s :
  heap_extends cb cw h h' -> arr s ∉ cw -> valid (words h) s ->
  valid (words h') s /\ elems (words h') s = elems (words h) s.
Proof. intros [_ H] ? ?. eauto using extends_valid, extends_elems. Qed.

(** A call that allocates one array of each kind and assigns to the
    array [j] of words. *)
Lemma heap_extends_call h h' buf ps j :
  bytes h' = bytes h ++ [buf] -> writes j (words h ++ [ps]) (words h') ->
  heap_extends [] [j] h h'.
Proof.
  intros Hb Hw. split; [rewrite Hb; apply extends_app|].
  apply (extends_trans [] [j] _ (words h ++ [ps])); [apply extends_app|].
  by apply writes_extends.
Qed.

(** ** The operations on the memory *)

Lemma get_word_elems h s i :
  valid (words h) s ->
  get_word s i h = match read (elems (words h) s) i with
                   | Done x => Done (x, h) | Panicked p => Panicked p end.
Proof. intros Hv. unfold get_word. by rewrite get_elems. Qed.

Lemma set_word_inside h s i x :
  valid (words h) s -> 0 <= i < len s ->
  set_word s i x h
  = Done (tt, mkHeap (bytes h)
                (alter (fun a => <[Z.to_nat (off s + i) := x]> a) (arr s) (words h))).
Proof. intros Hv Hi. unfold set_word. by rewrite set_inside. Qed.

Lemma set_byte_inside h s i x :
  valid (bytes h) s -> 0 <= i < len s ->
  set_byte s i x h
  = Done (tt, mkHeap (alter (fun a => <[Z.to_nat (off s + i) := x]> a) (arr s) (bytes h))
                (words h)).
Proof. intros Hv Hi. unfold set_byte. by rewrite set_inside. Qed.

Lemma set_word_outside h s i x :
  ~ 0 <= i < len s -> set_word s i x h = Panicked (panic_index i (len s)).
Proof. intros Hi. unfold set_word. by rewrite set_outside. Qed.

Lemma make_bytes_eq h n :
  make_bytes n h
  = Done (whole (length (bytes h)) (make Byte.x00 n),
          mkHeap (bytes h ++ [make Byte.x00 n]) (words h)).
Proof. done. Qed.

Lemma make_words_eq h n :
  make_words n h
  = Done (whole (length (words h)) (make 0 n), mkHeap (bytes h) (words h ++ [make 0 n])).
Proof. done. Qed.

Lemma set_byte_whole h i a j x :
  bytes h !! i = Some a -> 0 <= j < Z.of_nat (length a) ->
  set_byte (whole i a) j x h = Done (tt, mkHeap (<[i := store a j x]> (bytes h)) (words h)).
Proof. intros Ha Hj. unfold set_byte. by rewrite (set_whole _ _ a). Qed.

Lemma set_word_whole h i a j x :
  words h !! i = Some a -> 0 <= j < Z.of_nat (length a) ->
  set_word (whole i a) j x h = Done (tt, mkHeap (bytes h) (<[i := store a j x]> (words h))).
Proof. intros Ha Hj. unfold set_word. by rewrite (set_whole _ _ a). Qed.

Lemma copy_bytes_whole h i a src :
  bytes h !! i = Some a ->
  exists k, copy_bytes (whole i a) src h
            = Done (k, mkHeap (<[i := copy a (elems (bytes h) src)]> (bytes h)) (words h)).
Proof.
  intros Ha. unfold copy_bytes.
  pose proof (copy_into_whole (bytes h) i a src Ha) as E.
  destruct (copy_into (whole i a) src (bytes h)) as [k bs]. cbn in E. subst bs. by exists k.
Qed.

Lemma set_word_writes h h' s i x :
  set_word s i x h = Done (tt, h') ->
  bytes h' = bytes h /\ writes (arr s) (words h) (words h').
Proof.
  unfold set_word. destruct (set s i x (words h)) as [ws|] eqn:E; [|done].
  intros [= <-]. split; [done|]. by eapply set_writes.
Qed.

#[export] Hint Resolve extends_refl extends_app extends_alter heap_extends_refl writes_refl : bloom.
