(* ===== verification/InPlace.v ===== *)
(** * The filter in memory

    [New], [bitpositions], [Add] and [Has] of [bloom.go] on the memory
    of [Heap.v]: the element is a slice the caller owns, [bitpositions]
    allocates its buffer and its slice of positions, [Add] assigns to
    the elements of [bf.bitstore] in place, so that every copy of the
    [Filter] struct and every pointer to it sees the bits.

    The fields of the struct are assigned in [New] only: a [*Filter] is
    modelled by the value of the struct, whose field [bitstore] is a
    slice header.

    Each operation is shown to compute what the definitions on lists of
    [Hash.v], [Filter.v] and [Alloc.v] compute, panics included, for
    every digest, and to touch nothing but what it allocates and the bit
    store of its receiver: the element of the caller is as it was, and
    so is the store of every filter that does not share the
    array. *)

From Stdlib Require Import Strings.Byte String Floats.
From stdpp Require Import base tactics list numbers.
From S2P Require Import Prelude Errors BitAddr Sha256 Hex Hash Filter Planner Alloc.
From S2P Require Import Abstract Heap.
Set Warnings "-clear-no-such-hyp".

(** [type Filter struct], its field [bitstore] as a slice header. *)
Record Filter_mem : Type := mkFilter_mem {
  m_prob : float;
  m_bitlen : Z;
  m_hashqty : Z;
  m_n : Z;
  m_bitstore : slice
}.

(** The filter a struct shows in a memory. *)
Definition filter_of (h : heap) (bf : Filter_mem) : Filter :=
  mkFilter (m_prob bf) (m_bitlen bf) (m_hashqty bf) (m_n bf)
           (elems (words h) (m_bitstore bf)).

(** The struct [New] returns a pointer to: the fields of [F], the store
    the whole of the array [i]. *)
Definition struct_at (i : nat) (F : Filter) : Filter_mem :=
  mkFilter_mem (prob F) (bitlen F) (hashqty F) (n F) (whole i (bitstore F)).

(** The calls of the lifecycle, their elements in memory. *)
Inductive call_mem : Type :=
  | AddOf (element : slice)
  | HasOf (element : slice).

Definition call_slice (c : call_mem) : slice :=
  match c with AddOf element | HasOf element => element end.

(** The call a memory shows. *)
Definition call_of (h : heap) (c : call_mem) : call :=
  match c with
  | AddOf element => CallAdd (elems (bytes h) element)
  | HasOf element => CallHas (elems (bytes h) element)
  end.

Section methods.
Context {D : Digest}.

(** [hash(b, bitlen)]: the digest reads the elements of [b] and keeps
    nothing of it. *)
Definition hash_mem (b : slice) (bitlen : Z) : mem_m (Z * option error) := fun h =>
  lift (hash (elems (bytes h) b) bitlen) h.

(** The loop of [bitpositions], with the assignments [b[len(element)] = i]
    and [pos[i] = ...] checked and in place; it returns [err]. *)
Fixpoint bitpositions_mem_loop (fuel : nat) (element b pos : slice)
    (hashqty bitlen i : Z) : mem_m (option error) :=
  match fuel with
  | O => lift (Panicked panic_fuel)
  | S fuel =>
      if i <? hashqty then
        set_byte b (len element) (Z_byte i);;
        '(p, err) ← hash_mem b bitlen;
        set_word pos i p;;
        match err with
        | Some _ => mret err
        | None => bitpositions_mem_loop fuel element b pos hashqty bitlen (u8 (i + 1))
        end
      else mret None
  end.

(** [func bitpositions(element []byte, hashqty byte, bitlen uint64) ([]uint64, error)] *)
Definition bitpositions_mem (element : slice) (hashqty bitlen : Z)
    : mem_m (slice * option error) :=
  b ← make_bytes (len element + 1);
  copy_bytes b element;;
  pos ← make_words hashqty;
  err ← bitpositions_mem_loop 256 element b pos hashqty bitlen 0;
  mret (pos, err).

(** The loop of [Add] over [range pos]: [k] iterations are left, the
    next reads [pos[i]]. *)
Fixpoint Add_mem_loop (bitstore pos : slice) (k : nat) (i : Z) : mem_m unit :=
  match k with
  | O => mret tt
  | S k =>
      p ← get_word pos i;
      let '(index, offset) := bitlocation p 64 in
      let mask := shl64 1 offset in
      w ← get_word bitstore index;
      set_word bitstore index (Z.lor w mask);;
      Add_mem_loop bitstore pos k (i + 1)
  end.

(** [func (bf *Filter) Add(element []byte) error] *)
Definition Add_mem (bf : Filter_mem) (element : slice) : mem_m (option error) :=
  '(pos, err) ← bitpositions_mem element (m_hashqty bf) (m_bitlen bf);
  match err with
  | Some _ => mret err
  | None =>
      Add_mem_loop (m_bitstore bf) pos (Z.to_nat (len pos)) 0;;
      mret None
  end.

(** The loop of [Has]. *)
Fixpoint Has_mem_loop (bitstore pos : slice) (k : nat) (i : Z) : mem_m bool :=
  match k with
  | O => mret true
  | S k =>
      p ← get_word pos i;
      let '(index, offset) := bitlocation p 64 in
      let mask := shl64 1 offset in
      w ← get_word bitstore index;
      if Z.land w mask =? 0 then mret false
      else Has_mem_loop bitstore pos k (i + 1)
  end.

(** [func (bf *Filter) Has(element []byte) (bool, error)] *)
Definition Has_mem (bf : Filter_mem) (element : slice) : mem_m (bool * option error) :=
  '(pos, err) ← bitpositions_mem element (m_hashqty bf) (m_bitlen bf);
  match err with
  | Some _ => mret (false, err)
  | None =>
      isIn ← Has_mem_loop (m_bitstore bf) pos (Z.to_nat (len pos)) 0;
      mret (isIn, None)
  end.

(** [func (bf *Filter) MustAdd(element []byte)] *)
Definition MustAdd_mem (bf : Filter_mem) (element : slice) : mem_m unit :=
  err ← Add_mem bf element;
  match err with
  | Some err => lift (Panicked (panic_error err))
  | None => mret tt
  end.

(** [func (bf *Filter) MustHave(element []byte) bool] *)
Definition MustHave_mem (bf : Filter_mem) (element : slice) : mem_m bool :=
  '(isIn, err) ← Has_mem bf element;
  match err with
  | Some err => lift (Panicked (panic_error err))
  | None => mret isIn
  end.

(** One call of the lifecycle on an element in memory, with the
    operations that panic on an error. *)
Definition exec_mem (bf : Filter_mem) (c : call_mem) : mem_m reply :=
  match c with
  | AddOf element => MustAdd_mem bf element;; mret RetAdd
  | HasOf element => isIn ← MustHave_mem bf element; mret (RetHas isIn)
  end.

(** A list of calls in order, on one memory: a slice may be passed to
    any number of them. *)
Fixpoint run_mem (bf : Filter_mem) (calls : list call_mem) : mem_m (list reply) :=
  match calls with
  | [] => mret []
  | c :: calls =>
      r ← exec_mem bf c;
      rs ← run_mem bf calls;
      mret (r :: rs)
  end.

End methods.

(** [make([]uint64, n)] with [limit] bytes addressable: the array the
    runtime makes, if it makes one, is a new array of the memory. *)
Definition make_words_on (limit n : Z) : mem_m slice := fun h =>
  match makeslice limit 8 0%Z n with
  | Done a => let '(s, ws) := new_array a (words h) in Done (s, mkHeap (bytes h) ws)
  | Panicked p => Panicked p
  end.

Section new.
Context {C : Conversions}.
Variable limit : Z.

(** [func New(n uint32, prob float64)]: the store is a new array, which
    the runtime refuses past its limit. *)
Definition New_mem (n : Z) (prob : float) : mem_m (option Filter_mem * option error) :=
  if (n =? 0)%Z then mret (None, Some (error_Error ErrZeroElements))
  else if (prob <=? 0)%float then mret (None, Some (error_Error ErrProbability))
  else
    let hashqty := optimalHashQty prob in
    let bitlen := optimalBitLen n prob in
    let buckets := buckets_for bitlen in
    bitstore ← make_words_on limit buckets;
    mret (Some (mkFilter_mem prob bitlen hashqty n bitstore), None).

End new.

(** ** [bitpositions] *)

Section bitpositions.
Context {D : Digest}.
Variables (element : slice) (hashqty bitlen : Z).

Lemma hash_mem_eq b h :
  hash_mem b bitlen h = match hash (elems (bytes h) b) bitlen with
                        | Done r => Done (r, h) | Panicked p => Panicked p end.
Proof. done. Qed.

(** The loop on a buffer and a slice of positions that are whole arrays
    of the memory: the loop on lists, and the two arrays assigned in
    place. *)
Lemma bitpositions_mem_loop_refines ib ip fuel : forall i h barr parr,
  bytes h !! ib = Some barr -> words h !! ip = Some parr ->
  0 <= len element < Z.of_nat (length barr) -> 0 <= i ->
  hashqty <= Z.of_nat (length parr) ->
  match bitpositions_loop fuel (len element) hashqty bitlen i barr parr with
  | Done (ps, err) =>
      exists buf, length buf = length barr /\ length ps = length parr /\
        bitpositions_mem_loop fuel element (whole ib barr) (whole ip parr) hashqty bitlen i h
        = Done (err, mkHeap (<[ib := buf]> (bytes h)) (<[ip := ps]> (words h)))
  | Panicked p =>
      bitpositions_mem_loop fuel element (whole ib barr) (whole ip parr) hashqty bitlen i h
      = Panicked p
  end.
Proof.
  induction fuel as [|fuel IH]; intros i h barr parr Hb Hp Hn Hi Hq; [done|].
  cbn [bitpositions_loop bitpositions_mem_loop].
  destruct (i <? hashqty) eqn:Elt.
  2: { exists barr. rewrite !list_insert_id by done. by destruct h. }
  apply Z.ltb_lt in Elt.
  rewrite (mem_bind_Done _ _ _ _ _ (set_byte_whole h ib barr _ _ Hb Hn)).
  rewrite mem_bind_unfold, hash_mem_eq. cbn [bytes words].
  set (barr' := store barr (len element) (Z_byte i)).
  assert (length barr' = length barr) as Hl by apply length_store.
  assert (<[ib := barr']> (bytes h) !! ib = Some barr') as Hb'
    by (apply list_lookup_insert_eq; by eapply lookup_lt_Some).
  rewrite <- (whole_length ib barr barr') by done. rewrite (elems_whole _ _ _ Hb').
  destruct (hash barr' bitlen) as [[p err]|q]; [|done]. cbn.
  set (h1 := mkHeap _ _).
  rewrite (mem_bind_Done _ _ _ _ _ (set_word_whole h1 ip parr i p Hp ltac:(lia))).
  set (parr' := store parr i p).
  assert (length parr' = length parr) as Hl' by apply length_store.
  destruct err as [e|].
  { exists barr'. by rewrite mem_ret_unfold. }
  rewrite <- (whole_length ip parr parr') by done.
  specialize (IH (u8 (i + 1)) (mkHeap (<[ib := barr']> (bytes h)) (<[ip := parr']> (words h)))
                 barr' parr').
  cbn [bytes words] in IH. rewrite Hl, Hl' in IH.
  specialize (IH Hb' ltac:(apply list_lookup_insert_eq; by eapply lookup_lt_Some)
                 Hn ltac:(apply u8_range) Hq).
  destruct (bitpositions_loop _ _ _ _ _ _ _) as [[ps err]|q]; [|done].
  destruct IH as (buf & ? & ? & E). exists buf. subst h1. cbn [bytes words].
  by rewrite E, !list_insert_insert_eq.
Qed.

(** [bitpositions] in memory is [bitpositions] on the elements of the
    slice; its buffer and its positions are two new arrays, and no
    array of the memory before the call is assigned to. *)
Lemma bitpositions_mem_eq h :
  valid (bytes h) element ->
  match bitpositions (elems (bytes h) element) hashqty bitlen with
  | Done (ps, err) =>
      exists buf, Z.of_nat (length buf) = len element + 1 /\
        length ps = Z.to_nat hashqty /\
        bitpositions_mem element hashqty bitlen h
        = Done ((whole (length (words h)) ps, err),
                mkHeap (bytes h ++ [buf]) (words h ++ [ps]))
  | Panicked p => bitpositions_mem element hashqty bitlen h = Panicked p
  end.
Proof.
  intros Hv. pose proof (length_elems _ _ Hv) as Hlen.
  unfold bitpositions, bitpositions_mem. rewrite Hlen.
  set (zeros := make Byte.x00 (len element + 1)).
  set (barr := copy zeros (elems (bytes h) element)).
  assert (Z.of_nat (length barr) = len element + 1) as Hbarr
    by (unfold barr, zeros; rewrite length_copy, length_make; lia).
  rewrite (mem_bind_Done _ _ _ _ _ (make_bytes_eq h _)). fold zeros.
  set (h1 := mkHeap (bytes h ++ [zeros]) (words h)).
  destruct (copy_bytes_whole h1 (length (bytes h)) zeros element) as [k Hk].
  { cbn. by rewrite lookup_app_r, Nat.sub_diag. }
  rewrite (mem_bind_Done _ _ _ _ _ Hk). clear Hk. cbn [bytes words h1].
  rewrite (extends_elems [] (bytes h)) by (done || apply extends_app || apply not_elem_of_nil).
  fold barr. rewrite insert_app_r_alt, Nat.sub_diag by done. cbn [insert list_insert].
  rewrite mem_bind_unfold, make_words_eq. cbn [bytes words].
  rewrite mem_bind_unfold.
  rewrite <- (whole_length _ zeros barr)
    by (unfold barr, zeros; by rewrite length_copy).
  set (h3 := mkHeap _ _).
  pose proof (bitpositions_mem_loop_refines (length (bytes h)) (length (words h)) 256 0
                h3 barr (make 0 hashqty)) as Hloop.
  cbn [bytes words h3] in Hloop. rewrite !lookup_app_r, !Nat.sub_diag in Hloop by done.
  specialize (Hloop eq_refl eq_refl ltac:(lia) ltac:(lia)
                    ltac:(rewrite length_make; lia)).
  destruct (bitpositions_loop _ _ _ _ _ _ _) as [[ps err]|q]; [|by rewrite Hloop].
  destruct Hloop as (buf & Hbuf & Hps & ->). exists buf. rewrite mem_ret_unfold.
  rewrite !insert_app_r_alt, !Nat.sub_diag by done. cbn [insert list_insert].
  rewrite (whole_length _ _ _ Hps), Hps, length_make. split_and!; [lia|done..].
Qed.

End bitpositions.

(** ** The loops over the positions *)

Section loops.
Variables (bs pos : slice).

(** An iteration of [range pos] reads the next position. *)
Lemma range_step h i k :
  valid (words h) pos -> 0 <= i -> i + Z.of_nat (S k) = len pos ->
  exists p, get_word pos i h = Done (p, h) /\
            drop (Z.to_nat i) (elems (words h) pos)
            = p :: drop (Z.to_nat (i + 1)) (elems (words h) pos).
Proof.
  intros Hv Hi Hk. pose proof (length_elems _ _ Hv) as Hl.
  destruct (lookup_lt_is_Some_2 (elems (words h) pos) (Z.to_nat i) ltac:(lia)) as [p Hp].
  exists p. split.
  - rewrite get_word_elems by done.
    by rewrite (proj2 (read_Done _ _ _) (proj2 (index_Some _ _ _) (conj Hi Hp))).
  - rewrite (drop_S _ _ _ Hp). do 2 f_equal. lia.
Qed.

Lemma range_end h i :
  valid (words h) pos -> 0 <= i -> i = len pos ->
  drop (Z.to_nat i) (elems (words h) pos) = [].
Proof.
  intros Hv Hi Hk. pose proof (length_elems _ _ Hv). apply drop_ge. lia.
Qed.

(** The loop of [Has] reads the memory and leaves it as it is. *)
Lemma Has_mem_loop_eq h k : forall i,
  valid (words h) bs -> valid (words h) pos -> 0 <= i -> i + Z.of_nat k = len pos ->
  Has_mem_loop bs pos k i h
  = match Has_loop (drop (Z.to_nat i) (elems (words h) pos)) (elems (words h) bs) with
    | Done b => Done (b, h)
    | Panicked p => Panicked p
    end.
Proof.
  induction k as [|k IH]; intros i Hb Hp Hi Hk.
  { rewrite range_end by (done || lia). done. }
  destruct (range_step h i k Hp Hi Hk) as (p & Hget & ->).
  cbn [Has_mem_loop Has_loop]. rewrite (mem_bind_Done _ _ _ _ _ Hget).
  destruct (bitlocation p 64) as [index offset].
  rewrite mem_bind_unfold, get_word_elems by done.
  destruct (read _ index) as [w|q]; [|done]. cbn.
  destruct (Z.land w _ =? 0); [done|]. apply IH; (done || lia).
Qed.

(** The loop of [Add] assigns to the array of the store, and to no
    other: the slice of positions is another array. *)
Lemma Add_mem_loop_refines k : forall i h,
  valid (words h) bs -> valid (words h) pos -> arr pos <> arr bs ->
  0 <= i -> i + Z.of_nat k = len pos ->
  match Add_loop (drop (Z.to_nat i) (elems (words h) pos)) (elems (words h) bs) with
  | Done bs' =>
      exists h', Add_mem_loop bs pos k i h = Done (tt, h') /\
                 elems (words h') bs = bs' /\ bytes h' = bytes h /\
                 writes (arr bs) (words h) (words h')
  | Panicked p => Add_mem_loop bs pos k i h = Panicked p
  end.
Proof.
  induction k as [|k IH]; intros i h Hb Hp Hne Hi Hk.
  { rewrite range_end by (done || lia). exists h. split_and!; auto with bloom. }
  destruct (range_step h i k Hp Hi Hk) as (p & Hget & ->).
  cbn [Add_mem_loop Add_loop]. rewrite (mem_bind_Done _ _ _ _ _ Hget).
  destruct (bitlocation p 64) as [index offset].
  rewrite mem_bind_unfold, get_word_elems by done.
  destruct (read _ index) as [w|q] eqn:Hr; [|done]. cbn.
  apply read_Done, index_Some in Hr as [? Hr%lookup_lt_Some].
  pose proof (length_elems _ _ Hb).
  rewrite (mem_bind_Done _ _ _ _ _ (set_word_inside h bs index _ Hb ltac:(lia))).
  set (h1 := mkHeap _ _).
  assert (writes (arr bs) (words h) (words h1)) as Hw
    by (apply writes_alter; intros ?; apply length_insert).
  specialize (IH (i + 1) h1 (writes_valid _ _ _ _ Hw Hb) (writes_valid _ _ _ _ Hw Hp)
                 Hne ltac:(lia) ltac:(lia)).
  rewrite (writes_elems _ _ _ pos Hw Hne) in IH.
  unfold h1 in IH at 1. cbn [words] in IH. rewrite alter_insert_elems in IH by (done || lia).
  destruct (Add_loop _ _) as [bs'|q]; [|done].
  destruct IH as (h' & -> & ? & ? & Hw'). exists h'. split_and!; [done..|].
  by eapply writes_trans.
Qed.

End loops.

(** ** The methods *)

Section refinement.
Context {D : Digest}.
Implicit Types (bf : Filter_mem) (element : slice) (h : heap).

(** [Add] in memory: the outcome of [Add] on the filter the struct
    shows, the two arrays of [bitpositions] allocated, and assignments
    to the array of [bf.bitstore] only. *)
Lemma Add_mem_eq bf element h :
  valid (bytes h) element -> valid (words h) (m_bitstore bf) ->
  match Add (filter_of h bf) (elems (bytes h) element) with
  | Done (F, err) =>
      exists h' buf ps,
        Add_mem bf element h = Done (err, h') /\ filter_of h' bf = F /\
        Z.of_nat (length buf) = len element + 1 /\
        length ps = Z.to_nat (m_hashqty bf) /\
        bytes h' = bytes h ++ [buf] /\
        writes (arr (m_bitstore bf)) (words h ++ [ps]) (words h')
  | Panicked p => Add_mem bf element h = Panicked p
  end.
Proof.
  intros He Hb. unfold Add, Add_mem. cbn [hashqty bitlen bitstore filter_of].
  pose proof (bitpositions_mem_eq element (m_hashqty bf) (m_bitlen bf) h He) as Hpos.
  destruct (bitpositions _ _ _) as [[ps err]|q]; [|by rewrite (mem_bind_Panicked _ _ _ _ Hpos)].
  destruct Hpos as (buf & Hbuf & Hps & Hpos). rewrite (mem_bind_Done _ _ _ _ _ Hpos).
  cbn. set (h1 := mkHeap _ _).
  assert (elems (words h1) (m_bitstore bf) = elems (words h) (m_bitstore bf)) as Hsame
    by by apply elems_app.
  destruct err as [e|].
  { exists h1, buf, ps. rewrite mem_ret_unfold. unfold filter_of. rewrite Hsame.
    split_and!; auto with bloom. }
  pose proof (Add_mem_loop_refines (m_bitstore bf) (whole (length (words h)) ps)
                (Z.to_nat (Z.of_nat (length ps))) 0 h1) as Hloop.
  assert (words h1 !! length (words h) = Some ps) as Hlast
    by (cbn; by rewrite lookup_app_r, Nat.sub_diag).
  rewrite (elems_whole _ _ _ Hlast), Hsame in Hloop.
  specialize (Hloop ltac:(by apply valid_app) ltac:(by apply valid_whole)
                    ltac:(apply valid_lt in Hb; cbn; lia) ltac:(lia) ltac:(cbn; lia)).
  change (drop (Z.to_nat 0) ps) with ps in Hloop.
  destruct (Add_loop ps _) as [bs'|q]; [|by rewrite (mem_bind_Panicked _ _ _ _ Hloop)].
  destruct Hloop as (h' & Hloop & Hbs & Hbytes & Hw).
  rewrite (mem_bind_Done _ _ _ _ _ Hloop). exists h', buf, ps.
  rewrite mem_ret_unfold. unfold filter_of, with_bitstore. cbn. rewrite Hbs.
  split_and!; done.
Qed.

(** [Has] in memory: the outcome of [Has], and the memory as it was
    with the two arrays of [bitpositions] after it. *)
Lemma Has_mem_eq bf element h :
  valid (bytes h) element -> valid (words h) (m_bitstore bf) ->
  match Has (filter_of h bf) (elems (bytes h) element) with
  | Done r =>
      exists buf ps,
        Has_mem bf element h = Done (r, mkHeap (bytes h ++ [buf]) (words h ++ [ps])) /\
        Z.of_nat (length buf) = len element + 1 /\
        length ps = Z.to_nat (m_hashqty bf)
  | Panicked p => Has_mem bf element h = Panicked p
  end.
Proof.
  intros He Hb. unfold Has, Has_mem. cbn [hashqty bitlen bitstore filter_of].
  pose proof (bitpositions_mem_eq element (m_hashqty bf) (m_bitlen bf) h He) as Hpos.
  destruct (bitpositions _ _ _) as [[ps err]|q]; [|by rewrite (mem_bind_Panicked _ _ _ _ Hpos)].
  destruct Hpos as (buf & Hbuf & Hps & Hpos). rewrite (mem_bind_Done _ _ _ _ _ Hpos).
  cbn. set (h1 := mkHeap _ _).
  destruct err as [e|]; [by exists buf, ps|].
  assert (words h1 !! length (words h) = Some ps) as Hlast
    by (cbn; by rewrite lookup_app_r, Nat.sub_diag).
  rewrite mem_bind_unfold, Has_mem_loop_eq;
    [|by apply valid_app|by apply valid_whole|lia|cbn; lia].
  rewrite (elems_whole _ _ _ Hlast). change (drop (Z.to_nat 0) ps) with ps.
  replace (elems (words h1) (m_bitstore bf)) with (elems (words h) (m_bitstore bf))
    by (symmetry; by apply elems_app).
  destruct (Has_loop ps _) as [b|q]; [|done]. by exists buf, ps.
Qed.

(** The memory after a call: that before it, the store of the receiver
    apart, and new arrays. *)
Definition after (bf : Filter_mem) (h h' : heap) : Prop :=
  heap_extends [] [arr (m_bitstore bf)] h h' /\ valid (words h') (m_bitstore bf).

Lemma after_refl bf h : valid (words h) (m_bitstore bf) -> after bf h h.
Proof.
  intros Hv. split; [|done]. split; [apply extends_refl|].
  apply (extends_weaken []); [by intros ? ?%elem_of_nil|apply extends_refl].
Qed.

Lemma after_trans bf h1 h2 h3 : after bf h1 h2 -> after bf h2 h3 -> after bf h1 h3.
Proof. intros [? ?] [? ?]. split; [by eapply heap_extends_trans|done]. Qed.

Lemma after_call bf h h' buf ps :
  valid (words h) (m_bitstore bf) ->
  bytes h' = bytes h ++ [buf] ->
  writes (arr (m_bitstore bf)) (words h ++ [ps]) (words h') -> after bf h h'.
Proof.
  intros Hv Hb Hw. split; [by eapply heap_extends_call|].
  eapply writes_valid; [done|]. by apply valid_app.
Qed.

(** The slices of bytes are as they were after a call. *)
Lemma after_bytes bf h h' s :
  after bf h h' -> valid (bytes h) s ->
  valid (bytes h') s /\ elems (bytes h') s = elems (bytes h) s.
Proof. intros [H _]. apply (heap_extends_bytes _ _ _ _ _ H), not_elem_of_nil. Qed.

(** So are the slices of words over other arrays than the store. *)
Lemma after_words bf h h' s :
  after bf h h' -> valid (words h) s -> arr s <> arr (m_bitstore bf) ->
  valid (words h') s /\ elems (words h') s = elems (words h) s.
Proof.
  intros [H _] Hs Hne. apply (heap_extends_words _ _ _ _ _ H); [|done].
  by intros ?%list_elem_of_singleton.
Qed.

Lemma after_call_of bf h h' c :
  after bf h h' -> valid (bytes h) (call_slice c) -> call_of h' c = call_of h c.
Proof.
  intros Ha Hv. destruct (after_bytes _ _ _ _ Ha Hv) as [_ E].
  destruct c; cbn in *; by rewrite E.
Qed.

(** Calls on a filter whose store was allocated after [h] leave the
    arrays of [h] as they were. *)
Lemma after_fresh bf h bs ws h' :
  arr (m_bitstore bf) = length (words h) ->
  after bf (mkHeap (bytes h ++ bs) (words h ++ ws)) h' -> heap_extends [] [] h h'.
Proof.
  intros Harr [[Hb Hw] _]. cbn [bytes words] in *. split.
  - apply (extends_trans [] [] _ (bytes h ++ bs)); [apply extends_app|done].
  - apply (extends_fresh [arr (m_bitstore bf)]).
    + apply (extends_trans [] [_] _ (words h ++ ws)); [apply extends_app|done].
    + rewrite Harr. by repeat constructor.
Qed.

(** [Add] and [Has] in memory, and the memory after them. *)
Lemma Add_mem_after bf element h :
  valid (bytes h) element -> valid (words h) (m_bitstore bf) ->
  match Add (filter_of h bf) (elems (bytes h) element) with
  | Done (F, err) =>
      exists h', Add_mem bf element h = Done (err, h') /\ filter_of h' bf = F /\
                 after bf h h'
  | Panicked p => Add_mem bf element h = Panicked p
  end.
Proof.
  intros He Hb. pose proof (Add_mem_eq bf element h He Hb) as H.
  destruct (Add _ _) as [[F err]|q]; [|done].
  destruct H as (h' & buf & ps & ? & ? & _ & _ & ? & ?). exists h'.
  eauto using after_call.
Qed.

Lemma Has_mem_after bf element h :
  valid (bytes h) element -> valid (words h) (m_bitstore bf) ->
  match Has (filter_of h bf) (elems (bytes h) element) with
  | Done r =>
      exists h', Has_mem bf element h = Done (r, h') /\
                 filter_of h' bf = filter_of h bf /\ after bf h h'
  | Panicked p => Has_mem bf element h = Panicked p
  end.
Proof.
  intros He Hb. pose proof (Has_mem_eq bf element h He Hb) as H.
  destruct (Has _ _) as [r|q]; [|done]. destruct H as (buf & ps & H & _).
  eexists. split; [done|]. split.
  - unfold filter_of. cbn [words]. by rewrite elems_app.
  - eapply after_call; [done..|apply writes_refl].
Qed.

(** The arrays [Add] makes: one of [len(element) + 1] bytes and one of
    [hashqty] words. *)
Lemma Add_mem_footprint bf element h :
  valid (bytes h) element -> valid (words h) (m_bitstore bf) ->
  match Add (filter_of h bf) (elems (bytes h) element) with
  | Done (F, err) =>
      exists h', Add_mem bf element h = Done (err, h') /\ filter_of h' bf = F /\
                 after bf h h' /\
                 length (bytes h') = S (length (bytes h)) /\
                 length (words h') = S (length (words h)) /\
                 footprint h'
                 = footprint h + (len element + 1) + 8 * Z.max 0 (m_hashqty bf)
  | Panicked p => Add_mem bf element h = Panicked p
  end.
Proof.
  intros He Hb. pose proof (Add_mem_eq bf element h He Hb) as H.
  destruct (Add _ _) as [[F err]|q]; [|done].
  destruct H as (h' & buf & ps & ? & ? & Hbuf & Hps & Hbytes & Hw). exists h'.
  split_and!; [done..|by eapply after_call| | |].
  - rewrite Hbytes, length_app. cbn. lia.
  - destruct Hw as [-> _]. rewrite length_app. cbn. lia.
  - unfold footprint. rewrite (writes_size_of _ _ _ Hw), Hbytes, !size_of_app,
      !size_of_singleton. lia.
Qed.

(** [MustAdd] and [MustHave] in memory. *)
Lemma MustAdd_mem_eq bf element h :
  valid (bytes h) element -> valid (words h) (m_bitstore bf) ->
  match MustAdd (filter_of h bf) (elems (bytes h) element) with
  | Done F =>
      exists h', MustAdd_mem bf element h = Done (tt, h') /\ filter_of h' bf = F /\
                 after bf h h'
  | Panicked p => MustAdd_mem bf element h = Panicked p
  end.
Proof.
  intros He Hb. unfold MustAdd, MustAdd_mem.
  pose proof (Add_mem_after bf element h He Hb) as H.
  destruct (Add _ _) as [[F err]|q]; [|by rewrite (mem_bind_Panicked _ _ _ _ H)].
  destruct H as (h' & H & ? & ?). rewrite (mem_bind_Done _ _ _ _ _ H).
  destruct err as [e|]; [done|]. by exists h'.
Qed.

Lemma MustHave_mem_eq bf element h :
  valid (bytes h) element -> valid (words h) (m_bitstore bf) ->
  match MustHave (filter_of h bf) (elems (bytes h) element) with
  | Done isIn =>
      exists h', MustHave_mem bf element h = Done (isIn, h') /\
                 filter_of h' bf = filter_of h bf /\ after bf h h'
  | Panicked p => MustHave_mem bf element h = Panicked p
  end.
Proof.
  intros He Hb. unfold MustHave, MustHave_mem.
  pose proof (Has_mem_after bf element h He Hb) as H.
  destruct (Has _ _) as [[isIn err]|q]; [|by rewrite (mem_bind_Panicked _ _ _ _ H)].
  destruct H as (h' & H & ? & ?). rewrite (mem_bind_Done _ _ _ _ _ H).
  destruct err as [e|]; [done|]. by exists h'.
Qed.

(** One call in memory is the call on the filter the memory shows. *)
Lemma exec_mem_eq bf c h :
  valid (bytes h) (call_slice c) -> valid (words h) (m_bitstore bf) ->
  match exec (filter_of h bf) (call_of h c) with
  | Done (F, r) =>
      exists h', exec_mem bf c h = Done (r, h') /\ filter_of h' bf = F /\ after bf h h'
  | Panicked p => exec_mem bf c h = Panicked p
  end.
Proof.
  intros He Hb. destruct c as [element|element]; cbn [exec exec_mem call_of call_slice] in *.
  - pose proof (MustAdd_mem_eq bf element h He Hb) as H.
    destruct (MustAdd _ _) as [F|q]; [|by rewrite (mem_bind_Panicked _ _ _ _ H)].
    destruct H as (h' & H & ? & ?). rewrite (mem_bind_Done _ _ _ _ _ H). by exists h'.
  - pose proof (MustHave_mem_eq bf element h He Hb) as H.
    destruct (MustHave _ _) as [isIn|q]; [|by rewrite (mem_bind_Panicked _ _ _ _ H)].
    destruct H as (h' & H & ? & ?). rewrite (mem_bind_Done _ _ _ _ _ H). by exists h'.
Qed.

(** A run in memory is the run on lists of bytes: no call disturbs the
    element of a later one. *)
Lemma run_mem_eq bf calls : forall h,
  Forall (fun c => valid (bytes h) (call_slice c)) calls ->
  valid (words h) (m_bitstore bf) ->
  match run (filter_of h bf) (call_of h <$> calls) with
  | Done (F, rs) =>
      exists h', run_mem bf calls h = Done (rs, h') /\ filter_of h' bf = F /\ after bf h h'
  | Panicked p => run_mem bf calls h = Panicked p
  end.
Proof.
  induction calls as [|c calls IH]; intros h Hcs Hb.
  { exists h. eauto using after_refl. }
  apply Forall_cons_1 in Hcs as [Hc Hcs]. cbn [run run_mem fmap list_fmap].
  pose proof (exec_mem_eq bf c h Hc Hb) as H.
  destruct (exec _ _) as [[F r]|q]; [|by rewrite (mem_bind_Panicked _ _ _ _ H)].
  destruct H as (h1 & H & <- & Ha). rewrite (mem_bind_Done _ _ _ _ _ H). cbn.
  specialize (IH h1). rewrite (Forall_fmap_ext_1 (call_of h1) (call_of h)) in IH.
  2: { eapply list.Forall_impl; [exact Hcs|]. intros c' Hc'. by eapply after_call_of. }
  specialize (IH ltac:(eapply list.Forall_impl; [exact Hcs|]; intros c' Hc';
                          by eapply after_bytes) (proj2 Ha)).
  destruct (run _ _) as [[F rs]|q]; [|by rewrite (mem_bind_Panicked _ _ _ _ IH)].
  destruct IH as (h' & IH & ? & ?). rewrite (mem_bind_Done _ _ _ _ _ IH).
  exists h'. eauto using after_trans.
Qed.

End refinement.

(** ** [New] *)

Section new_refinement.
Context {C : Conversions}.
Variable limit : Z.

(** [New] in memory: the outcome of [New] with the allocation of the
    runtime, the store a new array. *)
Lemma New_mem_eq n prob h :
  New_mem limit n prob h
  = match New_on limit n prob with
    | Done (Some F, err) =>
        Done ((Some (struct_at (length (words h)) F), err),
              mkHeap (bytes h) (words h ++ [bitstore F]))
    | Done (None, err) => Done ((None, err), h)
    | Panicked p => Panicked p
    end.
Proof.
  unfold New_mem, New_on. destruct (n =? 0); [done|].
  destruct (prob <=? 0)%float; [done|]. cbv zeta.
  rewrite mem_bind_unfold. unfold make_words_on. by destruct (makeslice _ _ _ _).
Qed.

Lemma filter_of_struct_at bs ws F :
  filter_of (mkHeap bs (ws ++ [bitstore F])) (struct_at (length ws) F) = F.
Proof.
  unfold filter_of, struct_at. cbn [bytes words m_prob m_bitlen m_hashqty m_n m_bitstore].
  rewrite elems_whole by by rewrite lookup_app_r, Nat.sub_diag. by destruct F.
Qed.

Lemma valid_struct_at bs ws F :
  valid (words (mkHeap bs (ws ++ [bitstore F]))) (m_bitstore (struct_at (length ws) F)).
Proof. apply valid_whole. cbn [words]. by rewrite lookup_app_r, Nat.sub_diag. Qed.

End new_refinement.

(** ** What the operations promise in memory *)

Section promises.
Context {D : Digest}.
Implicit Types (bf g : Filter_mem) (element : slice) (h : heap).

(** C12. [bitpositions] works on a buffer of its own: whatever the
    capacity of the element's slice and whatever else shares its array,
    the call computes the positions of the bytes the slice shows
    (and panics only where [bitpositions] on those bytes does),
    returns them in a new array, and leaves every slice of the memory as
    it was, the element included. *)
Theorem bitpositions_mem_frame element hashqty bitlen h :
  valid (bytes h) element ->
  match bitpositions (elems (bytes h) element) hashqty bitlen with
  | Done (ps, err) =>
      exists pos h',
        bitpositions_mem element hashqty bitlen h = Done ((pos, err), h') /\
        valid (words h') pos /\ elems (words h') pos = ps /\
        (forall s, valid (bytes h) s -> elems (bytes h') s = elems (bytes h) s) /\
        (forall s, valid (words h) s ->
                   arr s <> arr pos /\ elems (words h') s = elems (words h) s)
  | Panicked p => bitpositions_mem element hashqty bitlen h = Panicked p
  end.
Proof.
  intros Hv. pose proof (bitpositions_mem_eq element hashqty bitlen h Hv) as H.
  destruct (bitpositions _ _ _) as [[ps err]|q]; [|done].
  destruct H as (buf & _ & _ & ->). eexists _, _. split; [done|]. cbn [bytes words].
  assert ((words h ++ [ps]) !! length (words h) = Some ps) as Hlast
    by by rewrite lookup_app_r, Nat.sub_diag.
  split_and!; [by apply valid_whole|by apply elems_whole|intros s Hs; by apply elems_app|].
  intros s Hs. split; [|by apply elems_app]. apply valid_lt in Hs. cbn. lia.
Qed.

(** C10. [Add] in memory implements [Add] on lists: for every digest,
    every memory and every struct whose store is a slice of it, long
    enough for the bit length or not, the call panics when [Add] on the
    filter the struct shows panics, with the same panic, and else
    returns the same error and leaves a memory in which the same struct
    shows the filter [Add] returns; the memory differs from the one
    before in the array of the store and in new arrays only. *)
Theorem Add_mem_refines bf element h :
  valid (bytes h) element -> valid (words h) (m_bitstore bf) ->
  match Add (filter_of h bf) (elems (bytes h) element) with
  | Done (F, err) =>
      exists h', Add_mem bf element h = Done (err, h') /\ filter_of h' bf = F /\
                 after bf h h' /\
                 elems (bytes h') element = elems (bytes h) element
  | Panicked p => Add_mem bf element h = Panicked p
  end.
Proof.
  intros He Hb. pose proof (Add_mem_after bf element h He Hb) as H.
  destruct (Add _ _) as [[F err]|q]; [|done].
  destruct H as (h' & ? & ? & Ha). exists h'. split_and!; [done..|].
  by destruct (after_bytes _ _ _ _ Ha He).
Qed.

(** C11. [Has] in memory implements [Has] on lists and reads only: it
    answers as [Has] on the filter the struct shows, and every filter
    of the memory, its receiver included, shows afterwards what it
    showed before. *)
Theorem Has_mem_reads bf element h :
  valid (bytes h) element -> valid (words h) (m_bitstore bf) ->
  match Has (filter_of h bf) (elems (bytes h) element) with
  | Done r =>
      exists h', Has_mem bf element h = Done (r, h') /\
                 elems (bytes h') element = elems (bytes h) element /\
                 forall g, valid (words h) (m_bitstore g) ->
                           valid (words h') (m_bitstore g) /\
                           filter_of h' g = filter_of h g
  | Panicked p => Has_mem bf element h = Panicked p
  end.
Proof.
  intros He Hb. pose proof (Has_mem_eq bf element h He Hb) as H.
  destruct (Has _ _) as [r|q]; [|done]. destruct H as (buf & ps & -> & _).
  eexists. split; [done|]. cbn [bytes words]. split; [by apply elems_app|].
  intros g Hg. split; [by apply valid_app|]. unfold filter_of. cbn [words].
  by rewrite elems_app.
Qed.

(** C26. Filters that share no array do not interfere: an [Add] to one
    filter leaves the element of the caller as it was, and every filter
    whose store is in another array shows afterwards the filter it
    showed before. *)
Theorem Add_mem_separate bf g element h :
  valid (bytes h) element -> valid (words h) (m_bitstore bf) ->
  valid (words h) (m_bitstore g) -> arr (m_bitstore g) <> arr (m_bitstore bf) ->
  returns (Add (filter_of h bf) (elems (bytes h) element)) ->
  exists err h',
    Add_mem bf element h = Done (err, h') /\
    elems (bytes h') element = elems (bytes h) element /\
    valid (words h') (m_bitstore g) /\ filter_of h' g = filter_of h g.
Proof.
  intros He Hb Hg Hne [[F err] HF]. pose proof (Add_mem_eq bf element h He Hb) as H.
  rewrite HF in H. destruct H as (h' & buf & ps & ? & _ & _ & _ & Hbytes & Hw).
  pose proof (after_call bf h h' buf ps Hb Hbytes Hw) as Ha.
  destruct (after_bytes _ _ _ _ Ha He) as [_ ?].
  destruct (after_words _ _ _ _ Ha Hg Hne) as [? E].
  exists err, h'. unfold filter_of. by rewrite E.
Qed.

(** The arrays a call makes: the two [make]s of [bitpositions], one of
    [len(element) + 1] bytes and one of [hashqty] words, whatever the
    size of the filter, and nothing for the store.  What the libraries
    allocate inside [hash] is not counted. *)
Theorem Add_mem_allocates bf element h :
  valid (bytes h) element -> valid (words h) (m_bitstore bf) ->
  returns (Add (filter_of h bf) (elems (bytes h) element)) ->
  exists err h' buf ps,
    Add_mem bf element h = Done (err, h') /\
    bytes h' = bytes h ++ [buf] /\ Z.of_nat (length buf) = len element + 1 /\
    length (words h') = S (length (words h)) /\
    words h' !! length (words h) = Some ps /\ length ps = Z.to_nat (m_hashqty bf) /\
    footprint h' = footprint h + (len element + 1) + 8 * Z.max 0 (m_hashqty bf).
Proof.
  intros He Hb [[F err] HF]. pose proof (Add_mem_eq bf element h He Hb) as H.
  rewrite HF in H. destruct H as (h' & buf & ps & ? & _ & ? & ? & Hbytes & Hw).
  pose proof (writes_size_of _ _ _ Hw) as Hsize. destruct Hw as (Hl & Hw & _).
  apply valid_lt in Hb. exists err, h', buf, ps. split_and!; try done.
  - rewrite Hl, length_app. cbn. lia.
  - rewrite Hw by lia. by rewrite lookup_app_r, Nat.sub_diag.
  - unfold footprint. rewrite Hsize, Hbytes, !size_of_app, !size_of_singleton. lia.
Qed.

(** C13. A program in memory implements the lifecycle on lists: for
    calls whose elements are slices of one memory, shared between calls
    or not, the run panics when the run on the bytes they show at the
    start panics, and else gives the same replies and leaves a memory in
    which the struct shows the filter that run leaves.  No call changes
    what a later call reads. *)
Theorem run_mem_refines bf calls h :
  Forall (fun c => valid (bytes h) (call_slice c)) calls ->
  valid (words h) (m_bitstore bf) ->
  match run (filter_of h bf) (call_of h <$> calls) with
  | Done (F, rs) =>
      exists h', run_mem bf calls h = Done (rs, h') /\ filter_of h' bf = F /\
                 Forall (fun c => elems (bytes h') (call_slice c)
                                  = elems (bytes h) (call_slice c)) calls
  | Panicked p => run_mem bf calls h = Panicked p
  end.
Proof.
  intros Hcs Hb. pose proof (run_mem_eq bf calls h Hcs Hb) as H.
  destruct (run _ _) as [[F rs]|q]; [|done]. destruct H as (h' & ? & ? & Ha).
  exists h'. split_and!; [done..|]. eapply list.Forall_impl; [exact Hcs|].
  intros c Hc. by destruct (after_bytes _ _ _ _ Ha Hc).
Qed.

(** C9. No false negatives in memory: on a struct that shows a
    well-formed filter, [Add] of a slice succeeds, and [Has] of the same
    slice in the memory [Add] leaves answers true.  The bits are found
    through the unchanged header of the store, and the bytes [Has]
    hashes are those [Add] hashed. *)
Theorem Has_mem_after_Add_mem `{!DigestLaws D} bf element h :
  valid (bytes h) element -> valid (words h) (m_bitstore bf) -> wf (filter_of h bf) ->
  exists h1 h2,
    Add_mem bf element h = Done (None, h1) /\
    Has_mem bf element h1 = Done ((true, None), h2) /\
    wf (filter_of h2 bf) /\
    elems (bytes h2) element = elems (bytes h) element.
Proof.
  intros He Hb Hwf. pose proof (Add_mem_after bf element h He Hb) as HAdd.
  rewrite Add_eq in HAdd by done. destruct HAdd as (h1 & HAdd & HF & Ha1).
  destruct (after_bytes _ _ _ _ Ha1 He) as [He1 Hsame1].
  pose proof (Has_mem_after bf element h1 He1 (proj2 Ha1)) as HHas.
  rewrite HF, Hsame1, Has_added in HHas by done.
  destruct HHas as (h2 & HHas & HF2 & Ha2).
  destruct (after_bytes _ _ _ _ Ha2 He1) as [_ Hsame2].
  exists h1, h2. split_and!; [done..| |congruence].
  rewrite HF2. by apply wf_set_bits.
Qed.

End promises.

Section new_promises.
Context {C : Conversions}.

(** C18. [New] in memory returns what [New] returns, the store of the
    filter in an array of its own: the guards answer before anything is
    allocated, the allocation the runtime refuses panics, and else the
    struct shows the filter of [New], its store is valid, and no slice
    of the memory before the call points into it. *)
Theorem New_mem_fresh limit n prob h :
  match New_on limit n prob with
  | Done (Some F, err) =>
      exists bf h',
        New_mem limit n prob h = Done ((Some bf, err), h') /\
        filter_of h' bf = F /\ valid (words h') (m_bitstore bf) /\
        bytes h' = bytes h /\
        forall s, valid (words h) s ->
                  arr s <> arr (m_bitstore bf) /\ valid (words h') s /\
                  elems (words h') s = elems (words h) s
  | Done (None, err) => New_mem limit n prob h = Done ((None, err), h)
  | Panicked p => New_mem limit n prob h = Panicked p
  end.
Proof.
  rewrite New_mem_eq. destruct (New_on limit n prob) as [[[F|] err]|q]; [|done..].
  eexists _, _. split; [done|]. cbn [bytes words].
  split_and!; [apply filter_of_struct_at| |done|].
  - apply valid_whole. by rewrite lookup_app_r, Nat.sub_diag.
  - intros s Hs. split_and!; [|by apply valid_app|by apply elems_app].
    apply valid_lt in Hs. cbn. lia.
Qed.

End new_promises.

(** ** Witnesses

    A memory with the element of [TestFilter_Add] and the stores of two
    filters like the one of that test. *)

Definition test_heap : heap := mkHeap [test_element] [make 0 1; make 0 1].
Definition test_slice : slice := whole 0 test_element.
Definition first_struct : Filter_mem := struct_at 0 test_filter.
Definition second_struct : Filter_mem := struct_at 1 test_filter.

(** [solve_valid] proves that a closed slice is valid in a closed
    memory by evaluation. *)
Ltac solve_valid := apply (bool_decide_unpack _); vm_compute; exact I.

Lemma valid_test_slice : valid (bytes test_heap) test_slice.
Proof. solve_valid. Qed.

Lemma valid_first_struct : valid (words test_heap) (m_bitstore first_struct).
Proof. solve_valid. Qed.

Lemma valid_second_struct : valid (words test_heap) (m_bitstore second_struct).
Proof. solve_valid. Qed.

Lemma Add_first_struct :
  Add (filter_of test_heap first_struct) (elems (bytes test_heap) test_slice)
  = Done (added_filter, None).
Proof. exact Add_test_filter. Qed.

Lemma bitpositions_first_struct :
  bitpositions (elems (bytes test_heap) test_slice) 4 48 = Done ([7; 36; 32; 37], None).
Proof. by vm_compute. Qed.

Lemma Has_first_struct :
  Has (filter_of test_heap first_struct) (elems (bytes test_heap) test_slice)
  = Done (false, None).
Proof. by vm_compute. Qed.

Lemma bitpositions_mem_frame_witness :
  exists pos h',
    bitpositions_mem test_slice 4 48 test_heap = Done ((pos, None), h') /\
    valid (words h') pos /\ elems (words h') pos = [7; 36; 32; 37] /\
    (forall s, valid (bytes test_heap) s ->
               elems (bytes h') s = elems (bytes test_heap) s) /\
    (forall s, valid (words test_heap) s ->
               arr s <> arr pos /\ elems (words h') s = elems (words test_heap) s).
Proof.
  pose proof (bitpositions_mem_frame test_slice 4 48 test_heap valid_test_slice) as H.
  by rewrite bitpositions_first_struct in H.
Defined.

Lemma Add_mem_refines_witness :
  exists h', Add_mem first_struct test_slice test_heap = Done (None, h') /\
             filter_of h' first_struct = added_filter /\
             after first_struct test_heap h' /\
             elems (bytes h') test_slice = elems (bytes test_heap) test_slice.
Proof.
  pose proof (Add_mem_refines first_struct test_slice test_heap
                valid_test_slice valid_first_struct) as H.
  by rewrite Add_first_struct in H.
Defined.

Lemma Has_mem_reads_witness :
  exists h', Has_mem first_struct test_slice test_heap = Done ((false, None), h') /\
             elems (bytes h') test_slice = elems (bytes test_heap) test_slice /\
             forall g, valid (words test_heap) (m_bitstore g) ->
                       valid (words h') (m_bitstore g) /\
                       filter_of h' g = filter_of test_heap g.
Proof.
  pose proof (Has_mem_reads first_struct test_slice test_heap
                valid_test_slice valid_first_struct) as H.
  by rewrite Has_first_struct in H.
Defined.

Lemma Add_mem_separate_witness :
  exists err h',
    Add_mem first_struct test_slice test_heap = Done (err, h') /\
    elems (bytes h') test_slice = elems (bytes test_heap) test_slice /\
    valid (words h') (m_bitstore second_struct) /\
    filter_of h' second_struct = filter_of test_heap second_struct.
Proof.
  apply (Add_mem_separate first_struct second_struct test_slice test_heap
           valid_test_slice valid_first_struct valid_second_struct); [done|].
  exists (added_filter, None). exact Add_first_struct.
Defined.

Lemma Add_mem_allocates_witness :
  exists err h' buf ps,
    Add_mem first_struct test_slice test_heap = Done (err, h') /\
    bytes h' = bytes test_heap ++ [buf] /\ Z.of_nat (length buf) = 5 /\
    length (words h') = 3%nat /\
    words h' !! 2%nat = Some ps /\ length ps = 4%nat /\
    footprint h' = footprint test_heap + 5 + 8 * 4.
Proof.
  apply (Add_mem_allocates first_struct test_slice test_heap
           valid_test_slice valid_first_struct).
  exists (added_filter, None). exact Add_first_struct.
Defined.

Lemma wf_first_struct : wf (filter_of test_heap first_struct).
Proof. exact wf_test_filter. Qed.

Lemma Has_mem_after_Add_mem_witness :
  exists h1 h2,
    Add_mem first_struct test_slice test_heap = Done (None, h1) /\
    Has_mem first_struct test_slice h1 = Done ((true, None), h2) /\
    wf (filter_of h2 first_struct) /\
    elems (bytes h2) test_slice = elems (bytes test_heap) test_slice.
Proof.
  apply (Has_mem_after_Add_mem first_struct test_slice test_heap
           valid_test_slice valid_first_struct wf_first_struct).
Defined.

(** The calls of [Example_optimistic] on one slice: a query, the add,
    the query again. *)
Definition mem_calls : list call_mem :=
  [HasOf test_slice; AddOf test_slice; HasOf test_slice].

Lemma valid_mem_calls :
  Forall (fun c => valid (bytes test_heap) (call_slice c)) mem_calls.
Proof.
  unfold mem_calls. repeat (apply Forall_cons_2; [exact valid_test_slice|]).
  apply Forall_nil_2.
Qed.

Lemma run_mem_calls :
  run (filter_of test_heap first_struct) (call_of test_heap <$> mem_calls)
  = Done (added_filter, [RetHas false; RetAdd; RetHas true]).
Proof. by vm_compute. Qed.

Lemma run_mem_refines_witness :
  exists h', run_mem first_struct mem_calls test_heap
             = Done ([RetHas false; RetAdd; RetHas true], h') /\
             filter_of h' first_struct = added_filter /\
             Forall (fun c => elems (bytes h') (call_slice c)
                              = elems (bytes test_heap) (call_slice c)) mem_calls.
Proof.
  pose proof (run_mem_refines first_struct mem_calls test_heap
                valid_mem_calls valid_first_struct) as H.
  by rewrite run_mem_calls in H.
Defined.
