(* ===== verification/Programs.v ===== *)
(** * The programs of the repository in memory

    The examples of [examples_test.go], the fuzz target of [fuzz.go] and
    the loop of the benchmarks of [bench_test.go], on the memory of
    [Heap.v]: the conversion [[]byte("...")] puts the bytes of a string
    in a new array, [New] allocates the store, and the slice of the
    element is passed to [Add] and then to [Has].

    Each program is shown to do what its definition on lists does
    ([Tests.v]), so that the output of an example and the verdict of the
    fuzz target hold in every memory the program is started in; the
    loop of a benchmark makes the same arrays in each iteration,
    whatever the size of the filter.  Only the arrays the code of the
    package and of the benchmark makes are counted: what
    [crypto/sha256], [fmt] and [strconv] allocate inside [hash], most of
    the 30 allocations and 1888 bytes the README reports for an
    operation, is not modelled. *)

From Stdlib Require Import Strings.Byte String Ascii Floats.
From stdpp Require Import base tactics list numbers.
From S2P Require Import Prelude Errors BitAddr Sha256 Hex Hash Filter Planner Alloc.
From S2P Require Import Abstract Tests Heap InPlace.
Set Warnings "-clear-no-such-hyp,-inexact-float".

(** [[]byte("...")]: the bytes [s] of the string in a new array. *)
Definition bytes_of_string (s : list byte) : mem_m slice := fun h =>
  let '(e, bs) := new_array s (bytes h) in Done (e, mkHeap bs (words h)).

Section programs.
Context {C : Conversions} {D : Digest}.
Variable limit : Z.

(** [func Example()] *)
Definition Example_mem : mem_m output :=
  let maxEmails := 100 in
  let prob := 0.01%float in
  '(bf, err) ← New_mem limit maxEmails prob;
  match bf, err with
  | _, Some err => mret (Fatal "Bloom filter is not created: " err)
  | None, None => lift (Panicked panic_nil)
  | Some bf, None =>
      bob ← bytes_of_string (list_byte_of_string "bob@example.com");
      err ← Add_mem bf bob;
      match err with
      | Some err => mret (Fatal "Bloom filter couldn't add element: " err)
      | None =>
          '(isIn, err) ← Has_mem bf bob;
          match err with
          | Some err => mret (Fatal "Bloom filter couldn't test element: " err)
          | None =>
              if isIn : bool then mret (Printed "Bob's email is likely in the set.")
              else mret (Printed "Bob's email is not found.")
          end
      end
  end.

(** [func Example_optimistic()] *)
Definition Example_optimistic_mem : mem_m output :=
  let maxEmails := 100 in
  let prob := 0.01%float in
  '(bf, err) ← New_mem limit maxEmails prob;
  match bf, err with
  | _, Some err => mret (Fatal "Bloom filter is not created: " err)
  | None, None => lift (Panicked panic_nil)
  | Some bf, None =>
      email ← bytes_of_string (list_byte_of_string "alice@example.com");
      MustAdd_mem bf email;;
      isIn ← MustHave_mem bf email;
      if isIn : bool then mret (Printed "Alice's email possibly is in the set.")
      else mret (Printed "Alice's email definitely is not in the set.")
  end.

(** [func Fuzz(data []byte) int] *)
Definition Fuzz_mem (data : slice) : mem_m Z :=
  '(bf, _) ← New_mem limit 4294967295 0.0001%float;
  match bf with
  | Some bf =>
      err ← Add_mem bf data;
      match err with
      | Some _ => mret 0
      | None => mret 1
      end
  | None => lift (Panicked panic_nil)
  end.

(** The loop of [BenchmarkFilter_Add]: [N] times
    [bf.Add([]byte("Hello, ..."))], the error ignored. *)
Fixpoint Add_times_mem (N : nat) (bf : Filter_mem) (text : list byte) : mem_m unit :=
  match N with
  | O => mret tt
  | S N =>
      element ← bytes_of_string text;
      Add_mem bf element;;
      Add_times_mem N bf text
  end.

(** The loop of [BenchmarkFilter_Has]: [N] times
    [bf.Has([]byte("Hello, ..."))], the answer and the error ignored. *)
Fixpoint Has_times_mem (N : nat) (bf : Filter_mem) (text : list byte) : mem_m unit :=
  match N with
  | O => mret tt
  | S N =>
      element ← bytes_of_string text;
      Has_mem bf element;;
      Has_times_mem N bf text
  end.

End programs.

(** ** The start of a program *)

Section start.
Context {C : Conversions}.
Variable limit : Z.

Lemma bytes_of_string_eq s h :
  bytes_of_string s h
  = Done (whole (length (bytes h)) s, mkHeap (bytes h ++ [s]) (words h)).
Proof. done. Qed.

(** The memory after [New] has returned a filter and a string has been
    converted: the struct shows the filter, the slice the bytes of the
    string. *)
Lemma started F s h :
  let bf := struct_at (length (words h)) F in
  let e := whole (length (bytes h)) s in
  let h1 := mkHeap (bytes h ++ [s]) (words h ++ [bitstore F]) in
  valid (bytes h1) e /\ valid (words h1) (m_bitstore bf) /\
  filter_of h1 bf = F /\ elems (bytes h1) e = s.
Proof.
  cbn zeta. cbn [bytes words]. split_and!.
  - apply valid_whole. by rewrite lookup_app_r, Nat.sub_diag.
  - apply valid_whole. by rewrite lookup_app_r, Nat.sub_diag.
  - apply filter_of_struct_at.
  - apply elems_whole. by rewrite lookup_app_r, Nat.sub_diag.
Qed.

(** [New] in memory when the store fits. *)
Lemma New_mem_fits n prob h :
  n <> 0 -> (prob <=? 0)%float = false -> fits limit n prob = true ->
  New_mem limit n prob h
  = match New n prob with
    | (Some F, err) =>
        Done ((Some (struct_at (length (words h)) F), err),
              mkHeap (bytes h) (words h ++ [bitstore F]))
    | (None, err) => Done ((None, err), h)
    end.
Proof. intros Hn Hp Hfits. by rewrite New_mem_eq, New_on_unfold, Hfits. Qed.

(** A program that has only allocated leaves the memory as it was. *)
Lemma allocated_extends h bs ws :
  heap_extends [] [] h (mkHeap (bytes h ++ bs) (words h ++ ws)).
Proof. split; apply extends_app. Qed.

Lemma allocated_words_extends h ws : heap_extends [] [] h (mkHeap (bytes h) (words h ++ ws)).
Proof. split; [apply extends_refl|apply extends_app]. Qed.

End start.

(** ** The examples and the fuzz target *)

Section refinement.
Context {C : Conversions} {D : Digest}.
Variable limit : Z.

(** [Example] in memory does what [Example] on lists does, on every
    branch and for every digest, and leaves the memory it was started
    in as it was. *)
Lemma Example_mem_eq h :
  fits limit 100 0.01 = true ->
  match Example with
  | Done o => exists h', Example_mem limit h = Done (o, h') /\ heap_extends [] [] h h'
  | Panicked p => Example_mem limit h = Panicked p
  end.
Proof.
  intros Hfits. unfold Example, Example_mem. cbv zeta.
  rewrite mem_bind_unfold, (New_mem_fits limit 100 0.01 h ltac:(lia) eq_refl Hfits).
  clear Hfits. destruct (New 100 0.01) as [[F|] [err|]]; cbv beta iota;
    [eauto using allocated_words_extends| |eauto with bloom|done].
  rewrite mem_bind_unfold, bytes_of_string_eq. cbv beta iota.
  destruct (started F (list_byte_of_string "bob@example.com") h) as (He & Hb & HF & Hbob).
  set (bf := struct_at _ F) in *. set (bob := whole _ _) in *. set (h1 := mkHeap _ _) in *.
  pose proof (Add_mem_after bf bob h1 He Hb) as HAdd. rewrite HF, Hbob in HAdd.
  destruct (Add F _) as [[F' e1]|q]; [|by rewrite (mem_bind_Panicked _ _ _ _ HAdd)].
  destruct HAdd as (h2 & HAdd & HF' & Ha).
  rewrite (mem_bind_Done _ _ _ _ _ HAdd), bind_Done. cbv beta iota.
  destruct e1 as [e1|]; [exists h2; split; [done|]; by eapply (after_fresh bf h [_] [_])|].
  destruct (after_bytes _ _ _ _ Ha He) as [He2 Hbob2].
  pose proof (Has_mem_after bf bob h2 He2 (proj2 Ha)) as HHas.
  rewrite HF', Hbob2, Hbob in HHas.
  destruct (Has F' _) as [[isIn e2]|q]; [|by rewrite (mem_bind_Panicked _ _ _ _ HHas)].
  destruct HHas as (h3 & HHas & _ & Ha').
  rewrite (mem_bind_Done _ _ _ _ _ HHas), bind_Done. cbv beta iota.
  assert (heap_extends [] [] h h3)
    by (eapply (after_fresh bf h [_] [_]); [done|by eapply after_trans]).
  destruct e2 as [e2|]; [|destruct isIn]; by exists h3.
Qed.

(** The same for [Example_optimistic]. *)
Lemma Example_optimistic_mem_eq h :
  fits limit 100 0.01 = true ->
  match Example_optimistic with
  | Done o =>
      exists h', Example_optimistic_mem limit h = Done (o, h') /\ heap_extends [] [] h h'
  | Panicked p => Example_optimistic_mem limit h = Panicked p
  end.
Proof.
  intros Hfits. unfold Example_optimistic, Example_optimistic_mem. cbv zeta.
  rewrite mem_bind_unfold, (New_mem_fits limit 100 0.01 h ltac:(lia) eq_refl Hfits).
  clear Hfits. destruct (New 100 0.01) as [[F|] [err|]]; cbv beta iota;
    [eauto using allocated_words_extends| |eauto with bloom|done].
  rewrite mem_bind_unfold, bytes_of_string_eq. cbv beta iota.
  destruct (started F (list_byte_of_string "alice@example.com") h) as (He & Hb & HF & Hemail).
  set (bf := struct_at _ F) in *. set (email := whole _ _) in *.
  set (h1 := mkHeap _ _) in *.
  pose proof (MustAdd_mem_eq bf email h1 He Hb) as HAdd. rewrite HF, Hemail in HAdd.
  destruct (MustAdd F _) as [F'|q]; [|by rewrite (mem_bind_Panicked _ _ _ _ HAdd)].
  destruct HAdd as (h2 & HAdd & HF' & Ha).
  rewrite (mem_bind_Done _ _ _ _ _ HAdd), bind_Done.
  destruct (after_bytes _ _ _ _ Ha He) as [He2 Hemail2].
  pose proof (MustHave_mem_eq bf email h2 He2 (proj2 Ha)) as HHas.
  rewrite HF', Hemail2, Hemail in HHas.
  destruct (MustHave F' _) as [isIn|q]; [|by rewrite (mem_bind_Panicked _ _ _ _ HHas)].
  destruct HHas as (h3 & HHas & _ & Ha').
  rewrite (mem_bind_Done _ _ _ _ _ HHas), bind_Done.
  assert (heap_extends [] [] h h3)
    by (eapply (after_fresh bf h [_] [_]); [done|by eapply after_trans]).
  destruct isIn; by exists h3.
Qed.

(** The fuzz target in memory does what [Fuzz] does on the bytes of its
    argument, and leaves them as they were. *)
Lemma Fuzz_mem_eq data h :
  fits limit 4294967295 0.0001 = true -> valid (bytes h) data ->
  match Fuzz (elems (bytes h) data) with
  | Done z =>
      exists h', Fuzz_mem limit data h = Done (z, h') /\ heap_extends [] [] h h'
  | Panicked p => Fuzz_mem limit data h = Panicked p
  end.
Proof.
  intros Hfits Hdata. unfold Fuzz, Fuzz_mem.
  rewrite mem_bind_unfold,
    (New_mem_fits limit 4294967295 0.0001 h ltac:(lia) eq_refl Hfits).
  clear Hfits. destruct (New 4294967295 0.0001) as [[F|] err]; cbv beta iota; [|done].
  set (bf := struct_at _ F). set (h1 := mkHeap _ _).
  pose proof (Add_mem_after bf data h1 Hdata (valid_struct_at _ _ F)) as HAdd.
  change (bytes h1) with (bytes h) in HAdd.
  rewrite (filter_of_struct_at (bytes h) (words h) F : filter_of h1 bf = F) in HAdd.
  destruct (Add F _) as [[F' e]|q]; [|by rewrite (mem_bind_Panicked _ _ _ _ HAdd)].
  destruct HAdd as (h2 & HAdd & _ & Ha).
  rewrite (mem_bind_Done _ _ _ _ _ HAdd), bind_Done. cbv beta iota.
  assert (heap_extends [] [] h h2)
    by (apply (after_fresh bf h [] [bitstore F]); [done|by rewrite app_nil_r]).
  destruct e; by exists h2.
Qed.

(** The loop of a benchmark in memory is the loop on lists; each
    iteration makes three arrays of its own: the bytes of the text, the
    buffer of [bitpositions] and its positions. *)
Lemma Add_times_mem_eq bf text N : forall h,
  valid (words h) (m_bitstore bf) ->
  match Add_times N (filter_of h bf) text with
  | Done F =>
      exists h', Add_times_mem N bf text h = Done (tt, h') /\ filter_of h' bf = F /\
                 valid (words h') (m_bitstore bf) /\
                 length (bytes h') = (length (bytes h) + 2 * N)%nat /\
                 length (words h') = (length (words h) + N)%nat /\
                 footprint h'
                 = footprint h
                   + Z.of_nat N * (2 * Z.of_nat (length text) + 1
                                   + 8 * Z.max 0 (m_hashqty bf))
  | Panicked p => Add_times_mem N bf text h = Panicked p
  end.
Proof.
  induction N as [|N IH]; intros h Hb.
  { exists h. split_and!; [done..|lia|lia|lia]. }
  cbn [Add_times Add_times_mem]. rewrite mem_bind_unfold, bytes_of_string_eq.
  cbv beta iota. set (h1 := mkHeap _ _). set (e := whole _ _).
  assert (bytes h1 !! length (bytes h) = Some text) as Hlast
    by (cbn; by rewrite lookup_app_r, Nat.sub_diag).
  pose proof (Add_mem_footprint bf e h1 (valid_whole _ _ _ Hlast) Hb) as HAdd.
  rewrite (elems_whole _ _ _ Hlast : elems (bytes h1) e = text) in HAdd.
  change (filter_of h1 bf) with (filter_of h bf) in HAdd.
  destruct (Add _ text) as [[F1 err]|q]; [|by rewrite (mem_bind_Panicked _ _ _ _ HAdd)].
  destruct HAdd as (h2 & HAdd & <- & Ha & Hlb & Hlw & Hfp).
  rewrite (mem_bind_Done _ _ _ _ _ HAdd), bind_Done. cbv beta iota.
  specialize (IH h2 (proj2 Ha)).
  destruct (Add_times N _ text) as [F|q]; [|done].
  destruct IH as (h' & -> & ? & ? & Hlb' & Hlw' & Hfp'). exists h'.
  split_and!; [done..| | |].
  - rewrite Hlb', Hlb. cbn. rewrite length_app. cbn. lia.
  - rewrite Hlw', Hlw. cbn. lia.
  - rewrite Hfp', Hfp. unfold footprint, h1, e. cbn [bytes words len whole].
    rewrite size_of_app, size_of_singleton. lia.
Qed.

(** The loop of the other benchmark makes the same arrays and writes
    to none that was there before. *)
Lemma Has_times_mem_eq bf text N : forall h,
  valid (words h) (m_bitstore bf) ->
  match Has_times N (filter_of h bf) text with
  | Done F =>
      exists h', Has_times_mem N bf text h = Done (tt, h') /\ filter_of h' bf = F /\
                 heap_extends [] [] h h' /\
                 footprint h'
                 = footprint h
                   + Z.of_nat N * (2 * Z.of_nat (length text) + 1
                                   + 8 * Z.max 0 (m_hashqty bf))
  | Panicked p => Has_times_mem N bf text h = Panicked p
  end.
Proof.
  induction N as [|N IH]; intros h Hb.
  { exists h. split_and!; [done|done|apply heap_extends_refl|lia]. }
  cbn [Has_times Has_times_mem]. rewrite mem_bind_unfold, bytes_of_string_eq.
  cbv beta iota. set (h1 := mkHeap _ _). set (e := whole _ _).
  assert (bytes h1 !! length (bytes h) = Some text) as Hlast
    by (cbn; by rewrite lookup_app_r, Nat.sub_diag).
  pose proof (Has_mem_eq bf e h1 (valid_whole _ _ _ Hlast) Hb) as HHas.
  rewrite (elems_whole _ _ _ Hlast : elems (bytes h1) e = text) in HHas.
  change (filter_of h1 bf) with (filter_of h bf) in HHas.
  destruct (Has _ text) as [r|q]; [|by rewrite (mem_bind_Panicked _ _ _ _ HHas)].
  destruct HHas as (buf & ps & HHas & Hbuf & Hps).
  rewrite (mem_bind_Done _ _ _ _ _ HHas), bind_Done. cbv beta iota.
  set (h2 := mkHeap _ _). specialize (IH h2 ltac:(by apply valid_app)).
  replace (filter_of h2 bf) with (filter_of h bf) in IH
    by (unfold filter_of, h2; cbn [words]; by rewrite elems_app).
  destruct (Has_times N _ text) as [F|q]; [|done].
  destruct IH as (h' & -> & ? & Hext & Hfp). exists h'. split_and!; [done..| |].
  - eapply heap_extends_trans; [|done]. subst h2 h1. cbn [bytes words].
    rewrite <- !(assoc_L (++)). apply allocated_extends.
  - rewrite Hfp. subst h2 h1 e. unfold footprint. cbn [bytes words len whole] in *.
    rewrite !size_of_app, !size_of_singleton. lia.
Qed.

End refinement.

(** ** What the programs print *)

Section outputs.
Context {C : Conversions} {D : Digest} {L : DigestLaws D}.
Implicit Types (limit : Z) (h : heap).

(** The stores of the examples and of the fuzz target fit in what the
    runtime addresses. *)
Lemma fits_example limit : 120 <= limit -> fits limit 100 0.01 = true.
Proof.
  intros Hl. unfold fits. assert (optimalBitLen 100 0.01 = 959) as -> by sizing.
  apply bool_decide_eq_true_2. change (buckets_for 959) with 15. lia.
Qed.

Lemma fits_fuzz limit : 10291878064 <= limit -> fits limit 4294967295 0.0001 = true.
Proof.
  intros Hl. unfold fits.
  assert (optimalBitLen 4294967295 0.0001 = 82335024503) as -> by sizing.
  apply bool_decide_eq_true_2. change (buckets_for 82335024503) with 1286484758. lia.
Qed.

(** The examples print in memory what their [// Output:] comments
    say, in every memory they are started in, and leave that memory as
    it was: the slice of the e-mail address is passed to [Add] and then
    to [Has], and [Has] reads the bytes [Add] read. *)
Theorem examples_in_memory limit h :
  120 <= limit ->
  (exists h', Example_mem limit h = Done (Printed "Bob's email is likely in the set.", h') /\
              heap_extends [] [] h h') /\
  (exists h', Example_optimistic_mem limit h
              = Done (Printed "Alice's email possibly is in the set.", h') /\
              heap_extends [] [] h h').
Proof.
  intros Hfits%fits_example. split.
  - pose proof (Example_mem_eq limit h Hfits) as H. by rewrite Example_output in H.
  - pose proof (Example_optimistic_mem_eq limit h Hfits) as H.
    by rewrite Example_optimistic_output in H.
Qed.

(** C39. The fuzz target answers 1 on every slice of every memory, and
    leaves the bytes of the slice and every other array as they were:
    [New] allocates the store of the filter for the largest number of
    elements, and [Add] neither panics nor returns an error. *)
Theorem Fuzz_mem_returns_1 limit data h :
  10291878064 <= limit -> valid (bytes h) data ->
  exists h', Fuzz_mem limit data h = Done (1, h') /\ heap_extends [] [] h h' /\
             elems (bytes h') data = elems (bytes h) data.
Proof.
  intros Hfits%fits_fuzz Hdata. pose proof (Fuzz_mem_eq limit data h Hfits Hdata) as H.
  rewrite Fuzz_returns_1 in H. destruct H as (h' & ? & Hext). exists h'.
  split_and!; [done..|]. by destruct (heap_extends_bytes _ _ _ _ data Hext
                                        (not_elem_of_nil _) Hdata).
Qed.

End outputs.

Section benchmark.
Context {D : Digest}.

(** The arrays the loop of a benchmark makes do not depend on the size
    of the filter: [N] iterations of [bf.Add([]byte(text))] do what the
    loop on lists does and make three arrays each, of twice the length
    of the text, one byte and eight bytes for each hash function
    together.  The store of the filter is written in place.  The
    allocations of the libraries [hash] calls come on top of these. *)
Theorem Add_times_mem_footprint bf text N h :
  valid (words h) (m_bitstore bf) ->
  returns (Add_times N (filter_of h bf) text) ->
  exists h',
    Add_times_mem N bf text h = Done (tt, h') /\
    Add_times N (filter_of h bf) text = Done (filter_of h' bf) /\
    length (bytes h') = (length (bytes h) + 2 * N)%nat /\
    length (words h') = (length (words h) + N)%nat /\
    footprint h'
    = footprint h
      + Z.of_nat N * (2 * Z.of_nat (length text) + 1 + 8 * Z.max 0 (m_hashqty bf)).
Proof.
  intros Hb [F HF]. pose proof (Add_times_mem_eq bf text N h Hb) as H.
  rewrite HF in H. destruct H as (h' & ? & <- & _ & ? & ? & ?). by exists h'.
Qed.

(** The loop of [BenchmarkFilter_Has] makes the same arrays as that of
    [BenchmarkFilter_Add], and leaves every array that was there before
    as it was, the store of the filter included. *)
Theorem Has_times_mem_footprint bf text N h :
  valid (words h) (m_bitstore bf) ->
  returns (Has_times N (filter_of h bf) text) ->
  exists h',
    Has_times_mem N bf text h = Done (tt, h') /\ heap_extends [] [] h h' /\
    footprint h'
    = footprint h
      + Z.of_nat N * (2 * Z.of_nat (length text) + 1 + 8 * Z.max 0 (m_hashqty bf)).
Proof.
  intros Hb [F HF]. pose proof (Has_times_mem_eq bf text N h Hb) as H.
  rewrite HF in H. destruct H as (h' & ? & _ & ? & ?). by exists h'.
Qed.

End benchmark.

(** ** The theorems at concrete inputs *)

Lemma examples_in_memory_witness :
  (exists h', @Example_mem wrapping sha256_digest maxAlloc test_heap
              = Done (Printed "Bob's email is likely in the set.", h') /\
              heap_extends [] [] test_heap h') /\
  (exists h', @Example_optimistic_mem wrapping sha256_digest maxAlloc test_heap
              = Done (Printed "Alice's email possibly is in the set.", h') /\
              heap_extends [] [] test_heap h').
Proof.
  apply (@examples_in_memory wrapping sha256_digest sha256_laws maxAlloc test_heap).
  by vm_compute.
Defined.

Lemma Fuzz_mem_returns_1_witness :
  exists h', @Fuzz_mem wrapping sha256_digest maxAlloc test_slice test_heap = Done (1, h') /\
             heap_extends [] [] test_heap h' /\
             elems (bytes h') test_slice = elems (bytes test_heap) test_slice.
Proof.
  apply (@Fuzz_mem_returns_1 wrapping sha256_digest sha256_laws maxAlloc test_slice
           test_heap); [by vm_compute|exact valid_test_slice].
Defined.

Lemma Add_times_test :
  Add_times 2 (filter_of test_heap first_struct) test_element = Done added_filter.
Proof. by vm_compute. Qed.

Lemma Add_times_mem_footprint_witness :
  exists h',
    Add_times_mem 2 first_struct test_element test_heap = Done (tt, h') /\
    Add_times 2 (filter_of test_heap first_struct) test_element
    = Done (filter_of h' first_struct) /\
    length (bytes h') = 5%nat /\ length (words h') = 4%nat /\
    footprint h' = footprint test_heap + 2 * (2 * 4 + 1 + 8 * 4).
Proof.
  apply (Add_times_mem_footprint first_struct test_element 2 test_heap
           valid_first_struct).
  exists added_filter. exact Add_times_test.
Defined.
